(** * The in-memory job queue of [src/server/queue.ts]

    A shallow embedding of [QueueManager]: the wait list, the active set,
    the dispatch pass [processNext], the retrying [executeJob] and the
    timeout race [withTimeout], followed by the properties the
    specification states about them.

    Modelling conventions.
    - [QueueManager] runs on a single-threaded event loop.  Every piece of
      code between two [await]s runs to completion before anything else
      happens, so the manager is a state machine whose transitions are
      those pieces: a call of [enqueue], the settlement of a processor
      call, the firing of a timeout timer, the end of a back-off sleep.
    - Job objects are shared between the wait list, the active set and
      the suspended [executeJob] call that works on them.  They live in a
      store ([heap]) and are referred to by their index in it.
    - JavaScript numbers that hold counts, delays and indices are integers
      of [Z]; the clock ([Date.now()], [new Date()]) is read once per
      transition and is a natural number of milliseconds.
    - The environment is free: inputs arrive in any order and number, and
      an input that no suspended call waits for is dropped, as
      [Promise.race] drops the loser of a race.
    - Everything the manager does to the outside world is appended to
      [effects]: events handed to [emit], calls of the processor, timers,
      and calls of a job's [resolve] and [reject].  Listeners only observe;
      [console.log] is left out. *)

From Stdlib Require Import Ascii.
From stdpp Require Import gmap strings list fin_maps pretty.

Local Open Scope Z_scope.

(** ** Strings *)

(** [String.prototype.includes]: does [needle] occur in [s]? *)
Fixpoint includes (s needle : string) : bool :=
  String.prefix needle s ||
  match s with
  | EmptyString => false
  | String _ rest => includes rest needle
  end.

(** [needle] occurs in [s] as a substring. *)
Definition occurs (needle s : string) : Prop :=
  ∃ pre suf, s = pre +:+ needle +:+ suf.

Fixpoint has_dash (s : string) : bool :=
  match s with
  | EmptyString => false
  | String c rest => bool_decide (c = "-"%char) || has_dash rest
  end.

(** Letter case of ASCII letters, to speak of messages that differ only in
    it. *)
Definition asciiLower (c : ascii) : ascii :=
  let n := nat_of_ascii c in
  if (65 <=? n)%nat && (n <=? 90)%nat then ascii_of_nat (n + 32) else c.

Definition asciiUpper (c : ascii) : ascii :=
  let n := nat_of_ascii c in
  if (97 <=? n)%nat && (n <=? 122)%nat then ascii_of_nat (n - 32) else c.

Fixpoint mapString (f : ascii → ascii) (s : string) : string :=
  match s with
  | EmptyString => EmptyString
  | String c rest => String (f c) (mapString f rest)
  end.

Definition toLowerCase (s : string) : string := mapString asciiLower s.
Definition toUpperCase (s : string) : string := mapString asciiUpper s.

(** ** Data model *)

Inductive QueueJobStatus := queued | processing_ | completed | failed.

(** A reference to a job object. *)
Abbreviation JobRef := nat.

Record QueueConfig := {
  maxConcurrent : Z;
  maxQueueSize : Z;
  jobTimeout : Z;
  retryAttempts : Z;
  retryDelay : Z
}.

Definition DEFAULT_CONFIG : QueueConfig := {|
  maxConcurrent := 2;
  maxQueueSize := 100;
  jobTimeout := 300000;
  retryAttempts := 3;
  retryDelay := 2000
|}.

(** The configuration of the process-wide image queue. *)
Definition imageProcessingConfig : QueueConfig := {|
  maxConcurrent := 2;
  maxQueueSize := 50;
  jobTimeout := 300000;
  retryAttempts := 3;
  retryDelay := 3000
|}.

Definition capacityMessage : string :=
  "キューが満杯です。しばらく待ってから再度お試しください。".
Definition timeoutMessage : string := "処理がタイムアウトしました".
Definition unknownErrorMessage : string := "不明なエラー".
Definition fallbackRejectMessage : string := "処理に失敗しました".

(** [`job-${Date.now()}-${++this.jobCounter}`] *)
Definition makeJobId (now counter : N) : string :=
  "job-" +:+ pretty now +:+ "-" +:+ pretty counter.

Section QueueManager.

Context {T R : Type}.

(** [QueueJob]; its [resolve] and [reject] are the two halves of the
    promise [enqueue] returned, and calling them is recorded in
    [effects]. *)
Record QueueJob := {
  id : string;
  data : T;
  status : QueueJobStatus;
  position : Z;
  createdAt : N;
  startedAt : option N;
  completedAt : option N;
  result : option R;
  error : option string
}.

Definition set_status (v : QueueJobStatus) (j : QueueJob) : QueueJob :=
  {| id := id j; data := data j; status := v; position := position j;
     createdAt := createdAt j; startedAt := startedAt j;
     completedAt := completedAt j; result := result j; error := error j |}.
Definition set_position (v : Z) (j : QueueJob) : QueueJob :=
  {| id := id j; data := data j; status := status j; position := v;
     createdAt := createdAt j; startedAt := startedAt j;
     completedAt := completedAt j; result := result j; error := error j |}.
Definition set_startedAt (v : N) (j : QueueJob) : QueueJob :=
  {| id := id j; data := data j; status := status j; position := position j;
     createdAt := createdAt j; startedAt := Some v;
     completedAt := completedAt j; result := result j; error := error j |}.
Definition set_completedAt (v : N) (j : QueueJob) : QueueJob :=
  {| id := id j; data := data j; status := status j; position := position j;
     createdAt := createdAt j; startedAt := startedAt j;
     completedAt := Some v; result := result j; error := error j |}.
Definition set_result (v : R) (j : QueueJob) : QueueJob :=
  {| id := id j; data := data j; status := status j; position := position j;
     createdAt := createdAt j; startedAt := startedAt j;
     completedAt := completedAt j; result := Some v; error := error j |}.
Definition set_error (v : string) (j : QueueJob) : QueueJob :=
  {| id := id j; data := data j; status := status j; position := position j;
     createdAt := createdAt j; startedAt := startedAt j;
     completedAt := completedAt j; result := result j; error := Some v |}.

(** The payloads handed to [emit]. *)
Inductive QueueEvent :=
| jobAdded (jobId : string) (position : Z) (queueLength : Z)
| jobStarted (jobId : string) (processingCount : Z)
| jobCompleted (jobId : string) (result : R)
| jobFailed (jobId : string) (error : string).

(** What the manager does to its environment.  Each entry names the job
    object on whose behalf it happens. *)
Inductive Effect :=
| Emit (job : JobRef) (event : QueueEvent)
| CallProcessor (job : JobRef) (payload : T) (attempt : Z)
| StartTimeout (job : JobRef) (attempt : Z) (ms : Z)
| StartSleep (job : JobRef) (attempt : Z) (ms : Z)
| Resolve (job : JobRef) (value : R)
| Reject (job : JobRef) (message : string).

(** Where a suspended call of [executeJob] waits. *)
Inductive Waiting :=
| forAttempt   (* [await this.withTimeout(...)] *)
| forSleep.    (* [await this.sleep(delay)] *)

(** The local variables of a suspended call of [executeJob]. *)
Record Activation := {
  attempt : Z;
  lastError : option string;
  waiting : Waiting
}.

Record State := {
  queue : list JobRef;
  processing : gmap string JobRef;
  jobCounter : N;
  isProcessing : bool;
  heap : list QueueJob;
  suspended : gmap JobRef Activation;
  effects : list Effect
}.

Definition initial : State := {|
  queue := [];
  processing := ∅;
  jobCounter := 0%N;
  isProcessing := false;
  heap := [];
  suspended := ∅;
  effects := []
|}.

Definition with_queue (v : list JobRef) (s : State) : State :=
  {| queue := v; processing := processing s; jobCounter := jobCounter s;
     isProcessing := isProcessing s; heap := heap s;
     suspended := suspended s; effects := effects s |}.
Definition with_processing (v : gmap string JobRef) (s : State) : State :=
  {| queue := queue s; processing := v; jobCounter := jobCounter s;
     isProcessing := isProcessing s; heap := heap s;
     suspended := suspended s; effects := effects s |}.
Definition with_jobCounter (v : N) (s : State) : State :=
  {| queue := queue s; processing := processing s; jobCounter := v;
     isProcessing := isProcessing s; heap := heap s;
     suspended := suspended s; effects := effects s |}.
Definition with_isProcessing (v : bool) (s : State) : State :=
  {| queue := queue s; processing := processing s; jobCounter := jobCounter s;
     isProcessing := v; heap := heap s;
     suspended := suspended s; effects := effects s |}.
Definition with_heap (v : list QueueJob) (s : State) : State :=
  {| queue := queue s; processing := processing s; jobCounter := jobCounter s;
     isProcessing := isProcessing s; heap := v;
     suspended := suspended s; effects := effects s |}.
Definition with_suspended (v : gmap JobRef Activation) (s : State) : State :=
  {| queue := queue s; processing := processing s; jobCounter := jobCounter s;
     isProcessing := isProcessing s; heap := heap s;
     suspended := v; effects := effects s |}.
Definition with_effects (v : list Effect) (s : State) : State :=
  {| queue := queue s; processing := processing s; jobCounter := jobCounter s;
     isProcessing := isProcessing s; heap := heap s;
     suspended := suspended s; effects := v |}.

(** Assignment to fields of the job object [job]. *)
Definition mutate (job : JobRef) (f : QueueJob → QueueJob) (s : State) : State :=
  with_heap (alter f job (heap s)) s.

Definition perform (e : Effect) (s : State) : State :=
  with_effects (effects s ++ [e]) s.

Definition suspend (job : JobRef) (a : Activation) (s : State) : State :=
  with_suspended (<[job := a]> (suspended s)) s.

Definition finish (job : JobRef) (s : State) : State :=
  with_suspended (delete job (suspended s)) s.

(** [job.id] *)
Definition idOf (job : JobRef) (s : State) : string :=
  match heap s !! job with
  | Some j => id j
  | None => ""
  end.

End QueueManager.

Arguments QueueJob : clear implicits.
Arguments QueueEvent : clear implicits.
Arguments Effect : clear implicits.
Arguments State : clear implicits.

(** ** Operations *)

(** [isRateLimited], lines 162-164. *)
Definition isRateLimited (message : string) : bool :=
  includes message "429" || includes message "rate" || includes message "limit".

Section Operations.

Context {T R : Type}.
Variable config : QueueConfig.

#[local] Abbreviation State := (State T R).
#[local] Abbreviation QueueJob := (QueueJob T R).

(** [updatePositions]: [this.queue.forEach((job, index) => ...)]. *)
Fixpoint updatePositions_from (index : nat) (q : list JobRef)
    (h : list QueueJob) : list QueueJob :=
  match q with
  | [] => h
  | job :: q' =>
      updatePositions_from (S index) q'
        (alter (set_position (Z.of_nat index + 1)) job h)
  end.

Definition updatePositions (s : State) : State :=
  with_heap (updatePositions_from 0 (queue s) (heap s)) s.

(** *** [executeJob]

    The body of [executeJob] is cut at its two [await]s.  The pieces take
    the dispatch pass they end with as the argument [processNext]. *)

(** [lastError?.message || "不明なエラー"] *)
Definition errorText (lastError : option string) : string :=
  match lastError with
  | Some m => if decide (m = "") then unknownErrorMessage else m
  | None => unknownErrorMessage
  end.

(** [lastError || new Error("処理に失敗しました")], as the message of the
    error the promise is rejected with. *)
Definition rejection (lastError : option string) : string :=
  default fallbackRejectMessage lastError.

(** After the loop, lines 177-189: every attempt failed. *)
Definition executeJob_exhausted (processNext : State → State) (now : N)
    (job : JobRef) (lastError : option string) (s : State) : State :=
  let s := mutate job (set_status failed) s in
  let s := mutate job (set_completedAt now) s in
  let s := mutate job (set_error (errorText lastError)) s in
  let s := with_processing (delete (idOf job s) (processing s)) s in
  let s := perform (Emit job (jobFailed (idOf job s) (errorText lastError))) s in
  let s := perform (Reject job (rejection lastError)) s in
  processNext s.

(** From the loop test to the [await] of the attempt, lines 133-139.
    [withTimeout] starts its timer next to the processor call. *)
Definition executeJob_iterate (processNext : State → State) (now : N)
    (job : JobRef) (attempt : Z) (lastError : option string)
    (s : State) : State :=
  if decide (attempt ≤ retryAttempts config) then
    match heap s !! job with
    | Some j =>
        let s := perform (CallProcessor job (data j) attempt) s in
        let s := perform (StartTimeout job attempt (jobTimeout config)) s in
        suspend job {| attempt := attempt; lastError := lastError;
                       waiting := forAttempt |} s
    | None => s
    end
  else executeJob_exhausted processNext now job lastError s.

Definition executeJob (processNext : State → State) (now : N)
    (job : JobRef) (s : State) : State :=
  executeJob_iterate processNext now job 1 None s.

(** The attempt succeeded, lines 141-154. *)
Definition executeJob_succeeded (processNext : State → State) (now : N)
    (job : JobRef) (value : R) (s : State) : State :=
  let s := mutate job (set_status completed) s in
  let s := mutate job (set_completedAt now) s in
  let s := mutate job (set_result value) s in
  let s := with_processing (delete (idOf job s) (processing s)) s in
  let s := perform (Emit job (jobCompleted (idOf job s) value)) s in
  let s := perform (Resolve job value) s in
  processNext s.

(** The delay before the retry, lines 167-169. *)
Definition backoffDelay (attempt : Z) (message : string) : Z :=
  if isRateLimited message
  then retryDelay config * attempt * 2
  else retryDelay config * attempt.

(** The attempt failed with an error of this message, lines 156-174. *)
Definition executeJob_caught (processNext : State → State) (now : N)
    (job : JobRef) (attempt : Z) (message : string) (s : State) : State :=
  let lastError := Some message in
  if decide (attempt < retryAttempts config) then
    let delay := backoffDelay attempt message in
    let s := perform (StartSleep job attempt delay) s in
    suspend job {| attempt := attempt; lastError := lastError;
                   waiting := forSleep |} s
  else executeJob_iterate processNext now job (attempt + 1) lastError s.

(** *** [processNext] *)

(** The guard around the loop, lines 102-104 and 124. *)
Definition processNext_guarded (loop : State → State) (s : State) : State :=
  if isProcessing s then s
  else with_isProcessing false (loop (with_isProcessing true s)).

(** One turn of the loop body, lines 107-121, on the head [job] of the
    wait list and the remaining [rest]. *)
Definition dispatch (run : JobRef → State → State) (now : N)
    (job : JobRef) (rest : list JobRef) (s : State) : State :=
  let s := with_queue rest s in
  let s := updatePositions s in
  let s := mutate job (set_status processing_) s in
  let s := mutate job (set_startedAt now) s in
  let s := with_processing (<[idOf job s := job]> (processing s)) s in
  let s := perform (Emit job (jobStarted (idOf job s)
                                (Z.of_nat (size (processing s))))) s in
  run job s.

(** The [while] loop, lines 106-122.  A turn removes one job from the
    wait list, so [fuel] turns are enough when [fuel] is the length of the
    wait list: the loop then ends by its test
    ([processNext_loop_saturates]).  When [executeJob] ends within a turn
    (no attempt is configured), its call of [processNext] finds
    [isProcessing] set and returns at once
    ([processNext_guarded_running]). *)
Fixpoint processNext_loop (fuel : nat) (now : N) (s : State) : State :=
  match fuel with
  | O => s
  | S fuel' =>
      if decide (0 < Z.of_nat (length (queue s))
                 ∧ Z.of_nat (size (processing s)) < maxConcurrent config)
      then
        match queue s with
        | [] => s
        | job :: rest =>
            processNext_loop fuel' now
              (dispatch
                 (executeJob (processNext_guarded (processNext_loop fuel' now)) now)
                 now job rest s)
        end
      else s
  end.

Definition processNext (now : N) (s : State) : State :=
  processNext_guarded (processNext_loop (length (queue s)) now) s.

(** *** [enqueue]

    The result is the message of the error [enqueue] throws, or the job
    whose [resolve] and [reject] settle the promise it returns. *)
Definition enqueue (payload : T) (now : N) (s : State)
    : (string + JobRef) * State :=
  if decide (maxQueueSize config ≤ Z.of_nat (length (queue s))) then
    (inl capacityMessage, s)
  else
    let s := with_jobCounter (jobCounter s + 1)%N s in
    let jobId := makeJobId now (jobCounter s) in
    let job := length (heap s) in
    let record := {|
      id := jobId; data := payload; status := queued;
      position := Z.of_nat (length (queue s)) + 1;
      createdAt := now; startedAt := None; completedAt := None;
      result := None; error := None |} in
    let s := with_heap (heap s ++ [record]) s in
    let s := with_queue (queue s ++ [job]) s in
    let s := perform (Emit job (jobAdded jobId (position record)
                                  (Z.of_nat (length (queue s))))) s in
    (inr job, processNext now s).

(** *** [withTimeout]

    [Promise.race] of the processor call and the timer: whichever of the
    two settles first resumes [executeJob]; by then the job no longer
    waits for this attempt and the other one finds nothing to resume. *)
Definition withTimeout_settled (now : N) (job : JobRef) (n : Z)
    (outcome : R + string) (s : State) : State :=
  match suspended s !! job with
  | Some a =>
      match waiting a with
      | forAttempt =>
          if decide (attempt a = n) then
            let s := finish job s in
            match outcome with
            | inl value => executeJob_succeeded (processNext now) now job value s
            | inr message =>
                executeJob_caught (processNext now) now job (attempt a) message s
            end
          else s
      | forSleep => s
      end
  | None => s
  end.

(** The timer of [sleep] fires: the loop goes on with [attempt++]. *)
Definition sleep_finished (now : N) (job : JobRef) (n : Z) (s : State) : State :=
  match suspended s !! job with
  | Some a =>
      match waiting a with
      | forSleep =>
          if decide (attempt a = n) then
            executeJob_iterate (processNext now) now job (attempt a + 1)
              (lastError a) (finish job s)
          else s
      | forAttempt => s
      end
  | None => s
  end.

(** *** The event loop *)

Inductive Input :=
| Submit (payload : T)
| ProcessorSettled (job : JobRef) (attempt : Z) (outcome : R + string)
| TimeoutFired (job : JobRef) (attempt : Z)
| SleepFinished (job : JobRef) (attempt : Z).

Definition step (now : N) (i : Input) (s : State) : State :=
  match i with
  | Submit payload => (enqueue payload now s).2
  | ProcessorSettled job n outcome => withTimeout_settled now job n outcome s
  | TimeoutFired job n => withTimeout_settled now job n (inr timeoutMessage) s
  | SleepFinished job n => sleep_finished now job n s
  end.

Definition run (inputs : list (N * Input)) (s : State) : State :=
  foldl (λ s '(now, i), step now i s) s inputs.

Inductive reachable : State → Prop :=
| reachable_initial : reachable initial
| reachable_step s now i : reachable s → reachable (step now i s).

(** [getStatus] and [getJobStatus]. *)
Definition getStatus (s : State) : Z * Z * Z :=
  (Z.of_nat (length (queue s)), Z.of_nat (size (processing s)),
   maxConcurrent config).

Definition getJobStatus (jobId : string) (s : State)
    : option (QueueJobStatus * option Z) :=
  match processing s !! jobId with
  | Some _ => Some (processing_, None)
  | None =>
      match
        List.find (λ job, bool_decide (idOf job s = jobId)) (queue s)
      with
      | Some job => Some (queued, position <$> heap s !! job)
      | None => None
      end
  end.

End Operations.

(** ** The inputs of one job *)

(** Is the input addressed to [job]? *)
Definition about {T R : Type} (job : JobRef) (i : @Input T R) : bool :=
  match i with
  | Submit _ => false
  | ProcessorSettled j _ _ | TimeoutFired j _ | SleepFinished j _ =>
      bool_decide (j = job)
  end.

(** The two ways in which an attempt fails: the processor call rejects, or
    the timer of [withTimeout] fires first. *)
Inductive Failure :=
| rejected (message : string)
| timedOut.

Definition failure_message (f : Failure) : string :=
  match f with
  | rejected message => message
  | timedOut => timeoutMessage
  end.

Definition failure_input {T R : Type} (job : JobRef) (n : Z) (f : Failure)
    : @Input T R :=
  match f with
  | rejected message => ProcessorSettled job n (inr message)
  | timedOut => TimeoutFired job n
  end.

(** The inputs of [job] while it fails with [fs] on the attempts [n],
    [n + 1], ... and sleeps after each of them. *)
Fixpoint retries {T R : Type} (job : JobRef) (n : Z) (fs : list Failure)
    : list (@Input T R) :=
  match fs with
  | [] => []
  | f :: fs' =>
      failure_input job n f :: SleepFinished job n :: retries job (n + 1) fs'
  end.

(** The inputs addressed to [job] among [inputs], in their order. *)
Definition addressed {T R : Type} (job : JobRef)
    (inputs : list (N * @Input T R)) : list (@Input T R) :=
  (List.filter (λ x, about job x.2) inputs).*2.

(** ** Predicates used in the statements *)

Section Predicates.

Context {T R : Type}.
Variable config : QueueConfig.

#[local] Abbreviation State := (State T R).

Definition within_ceiling (s : State) : Prop :=
  Z.of_nat (size (processing s)) ≤ maxConcurrent config.

Definition preserves (P : State → Prop) (f : State → State) : Prop :=
  ∀ s, P s → P (f s).

(** The job an effect is performed for, and the effects of one job. *)
Definition effect_job (e : Effect T R) : JobRef :=
  match e with
  | Emit job _ | CallProcessor job _ _ | StartTimeout job _ _
  | StartSleep job _ _ | Resolve job _ | Reject job _ => job
  end.

Definition is_settlement (e : Effect T R) : bool :=
  match e with
  | Resolve _ _ | Reject _ _ => true
  | _ => false
  end.

(** The effects that end a job: the "completed" and "failed" events and
    the calls of [resolve] and [reject]. *)
Definition is_terminal (e : Effect T R) : bool :=
  match e with
  | Resolve _ _ | Reject _ _
  | Emit _ (jobCompleted _ _) | Emit _ (jobFailed _ _) => true
  | _ => false
  end.

Definition effectsOf (job : JobRef) (s : State) : list (Effect T R) :=
  List.filter (λ e, bool_decide (effect_job e = job)) (effects s).

(** The calls of [job.resolve] and [job.reject] so far. *)
Definition settlementsOf (job : JobRef) (s : State) : list (Effect T R) :=
  List.filter is_settlement (effectsOf job s).

Definition terminalsOf (job : JobRef) (s : State) : list (Effect T R) :=
  List.filter is_terminal (effectsOf job s).

(** A job is active while a call of [executeJob] works on it: the call is
    suspended at an [await], or it is the call [cur] that runs now. *)
Definition active (cur : option JobRef) (s : State) (job : JobRef) : Prop :=
  is_Some (suspended s !! job) ∨ cur = Some job.

Definition live (cur : option JobRef) (s : State) (job : JobRef) : Prop :=
  job ∈ queue s ∨ active cur s job.

(** What holds of the manager's data between any two of its
    transitions ([cur = None]) and while [executeJob] runs for the job
    [cur]. *)
Record invariant (cur : option JobRef) (s : State) : Prop := {
  inv_nodup : NoDup (queue s);
  inv_counter : jobCounter s = N.of_nat (length (heap s));
  inv_ids : ∀ job j, heap s !! job = Some j →
    ∃ now, id j = makeJobId now (N.of_nat (S job));
  inv_queued : ∀ job, job ∈ queue s →
    ¬ active cur s job ∧ ∃ j, heap s !! job = Some j ∧ status j = queued;
  inv_cur : ∀ job, cur = Some job → suspended s !! job = None;
  inv_active : ∀ job, active cur s job →
    ∃ j, heap s !! job = Some j ∧ status j = processing_
         ∧ processing s !! id j = Some job;
  inv_processing : ∀ k job, processing s !! k = Some job →
    active cur s job ∧ idOf job s = k;
  inv_effects : ∀ e, e ∈ effects s → (effect_job e < length (heap s))%nat;
  inv_unsettled : ∀ job, live cur s job → terminalsOf job s = [];
  inv_settled : ∀ job j, heap s !! job = Some j → ¬ live cur s job →
    is_Some (completedAt j) ∧
    ((status j = completed
      ∧ ∃ v, result j = Some v
          ∧ terminalsOf job s =
            [Emit job (jobCompleted (id j) v); Resolve job v])
     ∨ (status j = failed
        ∧ ∃ lastError, error j = Some (errorText lastError)
            ∧ terminalsOf job s =
              [Emit job (jobFailed (id j) (errorText lastError));
               Reject job (rejection lastError)]));
  inv_positions : ∀ (i : nat) job j,
    queue s !! i = Some job → heap s !! job = Some j →
    position j = Z.of_nat i + 1;
  inv_activation : ∀ job a, suspended s !! job = Some a →
    1 ≤ attempt a ≤ retryAttempts config
    ∧ (waiting a = forSleep →
       attempt a < retryAttempts config ∧ is_Some (lastError a))
}.

Definition terminal (job : JobRef) (j : QueueJob T R)
    (ev e : Effect T R) : Prop :=
  is_Some (completedAt j) ∧
  ((status j = completed
    ∧ ∃ v, result j = Some v ∧ ev = Emit job (jobCompleted (id j) v)
        ∧ e = Resolve job v)
   ∨ (status j = failed
      ∧ ∃ lastError, error j = Some (errorText lastError)
          ∧ ev = Emit job (jobFailed (id j) (errorText lastError))
          ∧ e = Reject job (rejection lastError))).

Definition settled (job : JobRef) (f : QueueJob T R → QueueJob T R)
    (ev e : Effect T R) (s : State) : State :=
  perform e (perform ev
    (with_processing (delete (idOf job s) (processing s)) (mutate job f s))).

(** The state in which [dispatch] hands the job to [executeJob]. *)
Definition dispatched (now : N) (job : JobRef) (rest : list JobRef)
    (s : State) : State :=
  dispatch (λ _ s, s) now job rest s.

(** The state in which [enqueue] calls [processNext]. *)
Definition admitted (payload : T) (now : N) (s : State) : State :=
  let counter := (jobCounter s + 1)%N in
  let job := length (heap s) in
  let record := {|
    id := makeJobId now counter; data := payload; status := queued;
    position := Z.of_nat (length (queue s)) + 1;
    createdAt := now; startedAt := None; completedAt := None;
    result := None; error := None |} in
  {| queue := queue s ++ [job];
     processing := processing s;
     jobCounter := counter;
     isProcessing := isProcessing s;
     heap := heap s ++ [record];
     suspended := suspended s;
     effects := effects s ++
       [Emit job (jobAdded (makeJobId now counter)
                    (Z.of_nat (length (queue s)) + 1)
                    (Z.of_nat (length (queue s ++ [job]))))] |}.

(** Nothing is left to dispatch: the wait list is empty or the active set
    is full.  Between transitions no pass is running either. *)
Definition saturated (s : State) : Prop :=
  queue s = [] ∨ maxConcurrent config ≤ Z.of_nat (size (processing s)).

Definition quiescent (s : State) : Prop :=
  isProcessing s = false ∧ saturated s.

(** What [executeJob] does for [job] during [retries job n fs]: after each
    failure it sleeps, then calls the processor again under a new timer. *)
Fixpoint retry_effects (job : JobRef) (payload : T) (n : Z)
    (fs : list Failure) : list (Effect T R) :=
  match fs with
  | [] => []
  | f :: fs' =>
      StartSleep job n (backoffDelay config n (failure_message f))
      :: CallProcessor job payload (n + 1)
      :: StartTimeout job (n + 1) (jobTimeout config)
      :: retry_effects job payload (n + 1) fs'
  end.

Definition is_sleep (e : Effect T R) : bool :=
  match e with
  | StartSleep _ _ _ => true
  | _ => false
  end.

(** The attempt numbers the processor is called with. *)
Definition attemptsCalled (l : list (Effect T R)) : list Z :=
  omap (λ e, match e with
             | CallProcessor _ _ n => Some n
             | _ => None
             end) l.

(** Every call of the processor is followed at once by the start of a
    timer for the same attempt, set to [jobTimeout]. *)
Fixpoint raced (l : list (Effect T R)) : bool :=
  match l with
  | [] => true
  | CallProcessor job _ n :: rest =>
      match rest with
      | StartTimeout job' n' ms :: _ =>
          bool_decide (job' = job ∧ n' = n ∧ ms = jobTimeout config)
      | _ => false
      end && raced rest
  | _ :: rest => raced rest
  end.

(** [job] is past its attempt [n]: it is outside the wait list and the
    call that works on it, if it is still suspended, waits for the sleep
    after attempt [n] or for something later. *)
Definition past (job : JobRef) (n : Z) (s : State) : Prop :=
  (job ∉ queue s) ∧ is_Some (heap s !! job)
  ∧ match suspended s !! job with
    | Some a => n < attempt a ∨ (n = attempt a ∧ waiting a = forSleep)
    | None => True
    end.

(** What is known of one job: outside the wait list, the suspended call
    that works on it (if any), its job object, and its effects so far. *)
Definition seen (job : JobRef) (s : State) (o : option Activation)
    (j : QueueJob T R) (E : list (Effect T R)) : Prop :=
  (job ∉ queue s) ∧ suspended s !! job = o ∧ heap s !! job = Some j
  ∧ effectsOf job s = E.

(** From [s] to [s'] nothing happened to a job that is outside the wait
    list. *)
Definition untouched (job : JobRef) (s s' : State) : Prop :=
  job ∉ queue s → is_Some (heap s !! job) →
  (job ∉ queue s') ∧ suspended s' !! job = suspended s !! job
  ∧ heap s' !! job = heap s !! job ∧ effectsOf job s' = effectsOf job s.

Definition pass_untouched (job : JobRef) (pn : State → State) : Prop :=
  ∀ s, untouched job s (pn s).

(** The jobs for which a "started" event was emitted, in the order of
    these events. *)
Definition startedJobs (l : list (Effect T R)) : list JobRef :=
  omap (λ e, match e with
             | Emit job (jobStarted _ _) => Some job
             | _ => None
             end) l.

(** Job objects are created in the order of arrival, so this says: the
    jobs started so far, followed by the wait list from its head, are all
    the jobs in the order in which they arrived. *)
Definition fifo (s : State) : Prop :=
  startedJobs (effects s) ++ queue s = seq 0 (length (heap s)).

Definition keeps_fifo (f : State → State) : Prop :=
  ∀ s, fifo s → fifo (f s).

(** *** How much is left to do

    The number of inputs a suspended call can still wait for: one for the
    attempt it waits for, two for each later attempt. *)
Definition weight (a : Activation) : nat :=
  Z.to_nat (2 * (retryAttempts config - attempt a)
            + match waiting a with forAttempt => 1 | forSleep => 0 end).

(** The same for a job that has not started. *)
Definition queuedWeight : nat := Z.to_nat (2 * retryAttempts config - 1).

Definition pending (m : gmap JobRef Activation) : nat :=
  map_fold (λ _ a acc, weight a + acc)%nat 0%nat m.

Definition remaining (s : State) : nat :=
  (length (queue s) * queuedWeight + pending (suspended s))%nat.

(** The timer a suspended call waits for. *)
Definition awaitedTimer (job : JobRef) (a : Activation) : @Input T R :=
  match waiting a with
  | forAttempt => TimeoutFired job (attempt a)
  | forSleep => SleepFinished job (attempt a)
  end.

Definition is_timer (i : @Input T R) : bool :=
  match i with
  | TimeoutFired _ _ | SleepFinished _ _ => true
  | _ => false
  end.

Definition keeps_remaining (pn : State → State) : Prop :=
  ∀ s, invariant None s → remaining (pn s) = remaining s.

Definition keeps_length (f : State → State) : Prop :=
  ∀ s, length (heap (f s)) = length (heap s).

(** Positions in the wait list count from 1 at its head. *)
Definition contiguous (s : State) : Prop :=
  ∀ (i : nat) job, queue s !! i = Some job →
    position <$> heap s !! job = Some (Z.of_nat i + 1).

(** The active-set sizes the "started" events report are within the
    ceiling. *)
Definition counts_within_ceiling (l : list (Effect T R)) : Prop :=
  ∀ job jobId count,
    Emit job (jobStarted jobId count) ∈ l → 1 ≤ count ≤ maxConcurrent config.

Definition keeps_counts (f : State → State) : Prop :=
  ∀ s, counts_within_ceiling (effects s) →
       counts_within_ceiling (effects (f s)).

(** *** What has happened to a job before its first attempt settles *)

(** The effects of a job from its admission to the [await] of its first
    attempt. *)
Definition opening (job : JobRef) (j : QueueJob T R) (p len count : Z)
    : list (Effect T R) :=
  [Emit job (jobAdded (id j) p len);
   Emit job (jobStarted (id j) count);
   CallProcessor job (data j) 1;
   StartTimeout job 1 (jobTimeout config)].

(** A queued job has been added and nothing else; a job that waits for
    its first attempt has also been started and handed to the processor
    once. *)
Definition chronicle (s : State) : Prop :=
  (∀ job, job ∈ queue s →
     ∃ j p len, heap s !! job = Some j
       ∧ effectsOf job s = [Emit job (jobAdded (id j) p len)])
  ∧ (∀ job a, suspended s !! job = Some a →
       attempt a = 1 → waiting a = forAttempt →
       ∃ j p len count, heap s !! job = Some j
         ∧ effectsOf job s = opening job j p len count).

(** What a dispatch pass does to a job of the wait list: it leaves it
    there, or starts it, or (when no attempt is configured) starts and
    fails it at once. *)
Definition dispatched_or_not (job : JobRef) (j : QueueJob T R) (s s' : State)
    : Prop :=
  (job ∈ queue s' ∧ effectsOf job s' = effectsOf job s
   ∧ ∃ j', heap s' !! job = Some j' ∧ id j' = id j ∧ data j' = data j)
  ∨ ((job ∉ queue s')
     ∧ suspended s' !! job =
         Some {| attempt := 1; lastError := None; waiting := forAttempt |}
     ∧ (∃ j', heap s' !! job = Some j' ∧ id j' = id j ∧ data j' = data j)
     ∧ ∃ count, effectsOf job s' =
         effectsOf job s
         ++ [Emit job (jobStarted (id j) count);
             CallProcessor job (data j) 1;
             StartTimeout job 1 (jobTimeout config)])
  ∨ (retryAttempts config < 1 ∧ (job ∉ queue s')
     ∧ suspended s' !! job = None
     ∧ (∃ j', heap s' !! job = Some j' ∧ id j' = id j ∧ data j' = data j
          ∧ status j' = failed ∧ error j' = Some unknownErrorMessage)
     ∧ ∃ count, effectsOf job s' =
         effectsOf job s
         ++ [Emit job (jobStarted (id j) count);
             Emit job (jobFailed (id j) unknownErrorMessage);
             Reject job fallbackRejectMessage]).

Definition keeps_raced (f : State → State) : Prop :=
  ∀ s, raced (effects s) = true → raced (effects (f s)) = true.

Definition pass_ok (pn : State → State) : Prop :=
  ∀ s, invariant None s → invariant None (pn s).

End Predicates.

(** ** The inputs that resume a job *)

Section Resumption.

Context {T R : Type}.
Variable config : QueueConfig.

#[local] Abbreviation State := (State T R).
#[local] Abbreviation Effect := (Effect T R).
#[local] Abbreviation Input := (@Input T R).

(** Does the input resume the call of [executeJob] that is suspended for
    [job]?  It does when it settles the race of the attempt the call
    awaits (the processor call settles or the timer of that attempt
    fires), or when it ends the sleep the call awaits.  Every other input
    addressed to the job is stale and finds nothing to resume: the loser
    of a race, which [withTimeout] neither cancels nor clears, or
    anything that arrives after the job has ended. *)
Definition resumes (job : JobRef) (i : Input) (s : State) : bool :=
  match suspended s !! job with
  | Some a =>
      match waiting a, i with
      | forAttempt, ProcessorSettled job' n _
      | forAttempt, TimeoutFired job' n
      | forSleep, SleepFinished job' n =>
          bool_decide (job' = job ∧ n = attempt a)
      | _, _ => false
      end
  | None => false
  end.

(** The inputs that resume [job] in the run of [inputs] from [s], in
    their order. *)
Fixpoint heard (job : JobRef) (inputs : list (N * Input)) (s : State)
    : list Input :=
  match inputs with
  | [] => []
  | (now, i) :: rest =>
      (if resumes job i s then [i] else [])
      ++ heard job rest (step config now i s)
  end.

(** *** Timers *)

(** The timer an effect starts, as the input its firing is. *)
Definition timerOf (e : Effect) : option Input :=
  match e with
  | StartTimeout job n _ => Some (TimeoutFired job n)
  | StartSleep job n _ => Some (SleepFinished job n)
  | _ => None
  end.

(** Is the input [i] the firing of [timer]? *)
Definition fires (timer i : Input) : bool :=
  match timer, i with
  | TimeoutFired job n, TimeoutFired job' n'
  | SleepFinished job n, SleepFinished job' n' =>
      bool_decide (job = job' ∧ n = n')
  | _, _ => false
  end.

(** The timers started by the transition from [s] to [s']. *)
Definition timersStarted (s s' : State) : list Input :=
  omap timerOf (drop (length (effects s)) (effects s')).

(** Every timer that a transition of the run starts fires later in the
    run. *)
Fixpoint timers_fire (inputs : list (N * Input)) (s : State) : bool :=
  match inputs with
  | [] => true
  | (now, i) :: rest =>
      forallb (λ timer, existsb (λ x, fires timer x.2) rest)
        (timersStarted s (step config now i s))
      && timers_fire rest (step config now i s)
  end.

(** *** The life of a job

    What has become of [job] in the state [s], told by the inputs [h]
    that have resumed it: it waits in the wait list; or it has failed
    with [fs] on its first attempts and waits for the next one; or it
    sleeps after one more failure [f]; or an attempt has succeeded with
    [value]; or the last attempt has failed with [last]; or no attempt
    is configured and it has failed at once. *)
Inductive life (job : JobRef) (s : State) (h : list Input) : Prop :=
| life_queued :
    job ∈ queue s → h = [] → life job s h
| life_attempt j fs lastError p len count :
    1 + Z.of_nat (length fs) ≤ retryAttempts config →
    h = retries job 1 fs →
    seen job s
      (Some {| attempt := 1 + Z.of_nat (length fs); lastError := lastError;
               waiting := forAttempt |})
      j
      (opening config job j p len count
       ++ retry_effects config job (data j) 1 fs) →
    life job s h
| life_sleep j fs f p len count :
    1 + Z.of_nat (length fs) < retryAttempts config →
    h = retries job 1 fs ++ [failure_input job (1 + Z.of_nat (length fs)) f] →
    seen job s
      (Some {| attempt := 1 + Z.of_nat (length fs);
               lastError := Some (failure_message f); waiting := forSleep |})
      j
      (opening config job j p len count
       ++ retry_effects config job (data j) 1 fs
       ++ [StartSleep job (1 + Z.of_nat (length fs))
             (backoffDelay config (1 + Z.of_nat (length fs))
                (failure_message f))]) →
    life job s h
| life_completed j fs value now p len count :
    1 + Z.of_nat (length fs) ≤ retryAttempts config →
    h = retries job 1 fs
        ++ [ProcessorSettled job (1 + Z.of_nat (length fs)) (inl value)] →
    seen job s None
      (set_result value (set_completedAt now (set_status completed j)))
      (opening config job j p len count
       ++ retry_effects config job (data j) 1 fs
       ++ [Emit job (jobCompleted (id j) value); Resolve job value]) →
    life job s h
| life_failed j fs last now p len count :
    retryAttempts config = 1 + Z.of_nat (length fs) →
    h = retries job 1 fs
        ++ [failure_input job (retryAttempts config) last] →
    seen job s None
      (set_error (errorText (Some (failure_message last)))
         (set_completedAt now (set_status failed j)))
      (opening config job j p len count
       ++ retry_effects config job (data j) 1 fs
       ++ [Emit job (jobFailed (id j)
                       (errorText (Some (failure_message last))));
           Reject job (failure_message last)]) →
    life job s h
| life_unattempted j p len count :
    retryAttempts config < 1 →
    h = [] →
    status j = failed → error j = Some unknownErrorMessage →
    seen job s None j
      [Emit job (jobAdded (id j) p len);
       Emit job (jobStarted (id j) count);
       Emit job (jobFailed (id j) unknownErrorMessage);
       Reject job fallbackRejectMessage] →
    life job s h.

(** From [s] to [s'] effects were only appended, and every call
    suspended in [s'] was suspended in [s] in the same way or has started
    the timer it awaits since. *)
Definition grown (s s' : State) : Prop :=
  ∃ l, effects s' = effects s ++ l
    ∧ ∀ job a, suspended s' !! job = Some a →
        suspended s !! job = Some a
        ∨ awaitedTimer job a ∈ omap timerOf l.

End Resumption.

(** ** Small runs, for the examples *)

(** One job is submitted to a new manager and starts at once. *)
Definition oneSubmitted : State nat nat :=
  run DEFAULT_CONFIG [(1000%N, Submit 7%nat)] initial.

(** The object of that job. *)
Definition firstJob : QueueJob nat nat := {|
  id := "job-1000-1"; data := 7%nat; status := processing_; position := 1;
  createdAt := 1000%N; startedAt := Some 1000%N; completedAt := None;
  result := None; error := None
|}.

(** The job of a new manager as [enqueue] hands it to [processNext]. *)
Definition oneAdmitted : State nat nat := admitted 7%nat 1000%N initial.

(** One slot and a wait list of one: a job runs and a second one waits. *)
Definition narrowConfig : QueueConfig := {|
  maxConcurrent := 1;
  maxQueueSize := 1;
  jobTimeout := 300000;
  retryAttempts := 3;
  retryDelay := 2000
|}.

Definition narrowFull : State nat nat :=
  run narrowConfig [(1%N, Submit 1%nat); (2%N, Submit 2%nat)] initial.

(** The first job fails three times, with a rate limit, a timeout and an
    error, while a second job is submitted and completes.  The timers of
    the attempts that were settled by the processor fire later, and the
    processor call that timed out rejects later: nothing waits for
    them. *)
Definition failingInputs : list (N * @Input nat nat) :=
  [(1001%N, Submit 8%nat);
   (1002%N, ProcessorSettled 0 1 (inr "429 Too Many Requests"));
   (1003%N, ProcessorSettled 1 1 (inl 80%nat));
   (5002%N, SleepFinished 0 1);
   (301000%N, TimeoutFired 0 1);
   (301001%N, TimeoutFired 1 1);
   (305002%N, TimeoutFired 0 2);
   (306000%N, ProcessorSettled 0 2 (inr "late"));
   (309002%N, SleepFinished 0 2);
   (309003%N, ProcessorSettled 0 3 (inr "boom"));
   (609002%N, TimeoutFired 0 3)].

(** The first job times out once and then succeeds, while a second job
    is submitted and completes; the processor call that timed out rejects
    later, and the timers of the attempts that succeeded fire later. *)
Definition recoveringInputs : list (N * @Input nat nat) :=
  [(301000%N, TimeoutFired 0 1);
   (301001%N, Submit 8%nat);
   (301002%N, ProcessorSettled 1 1 (inl 80%nat));
   (301500%N, ProcessorSettled 0 1 (inr "late"));
   (303000%N, SleepFinished 0 1);
   (303001%N, ProcessorSettled 0 2 (inl 70%nat));
   (601001%N, TimeoutFired 1 1);
   (603000%N, TimeoutFired 0 2)].

(** The whole run of the failing job, from a new manager. *)
Definition failingRun : list (N * @Input nat nat) :=
  (1000%N, Submit 7%nat) :: failingInputs.

(** * The rest of [queue.ts]

    What follows extends the model beyond the statements of the
    specification: more invariants of [QueueManager], the module-level
    image queue, and the functions that limit logins, processing and
    sessions. *)

(** ** More predicates on the states of the manager *)

Section Further.

Context {T R : Type}.
Variable config : QueueConfig.

#[local] Abbreviation State := (State T R).

(** [pn] keeps the property [Q] of the states between transitions. *)
Definition pass_parts (Q : option JobRef → State → Prop)
    (pn : State → State) : Prop :=
  ∀ s, invariant config None s → Q None s → Q None (pn s).

(** The calls of [resolve] and [reject] so far, for all jobs. *)
Definition settlements (s : State) : list (Effect T R) :=
  List.filter is_settlement (effects s).

(** Every job the counter has counted is in the wait list, in the active
    set, or settled; every job of the active set has one call of
    [executeJob], suspended or running. *)
Definition census (cur : option JobRef) (s : State) : Prop :=
  size (processing s)
  = (size (suspended s) + match cur with Some _ => 1 | None => 0 end)%nat
  ∧ N.to_nat (jobCounter s)
    = (length (queue s) + size (processing s) + length (settlements s))%nat.

(** The optional fields a job object has in each status, and the order
    of its time stamps when no time stamp is later than [t].  The order
    [le] is that of the clock; with the full relation only the fields
    are described. *)
Definition timely (le : relation N) (t : N) (j : QueueJob T R) : Prop :=
  match status j with
  | queued =>
      le (createdAt j) t
      ∧ startedAt j = None ∧ completedAt j = None
      ∧ result j = None ∧ error j = None
  | processing_ =>
      (∃ st, startedAt j = Some st ∧ le (createdAt j) st ∧ le st t)
      ∧ completedAt j = None ∧ result j = None ∧ error j = None
  | completed =>
      (∃ st ct, startedAt j = Some st ∧ completedAt j = Some ct
         ∧ le (createdAt j) st ∧ le st ct ∧ le ct t)
      ∧ is_Some (result j) ∧ error j = None
  | failed =>
      (∃ st ct, startedAt j = Some st ∧ completedAt j = Some ct
         ∧ le (createdAt j) st ∧ le st ct ∧ le ct t)
      ∧ result j = None ∧ is_Some (error j)
  end.

Definition all_timely (le : relation N) (t : N) (s : State) : Prop :=
  ∀ job j, heap s !! job = Some j → timely le t j.

(** The clock does not go back: the times of the inputs do not
    decrease, from [t] on. *)
Fixpoint chronological (t : N) (inputs : list (N * @Input T R)) : Prop :=
  match inputs with
  | [] => True
  | (now, _) :: rest => (t ≤ now)%N ∧ chronological now rest
  end.

End Further.

(** ** The image queue of the module *)

Section ImageQueue.

Context {P T R : Type}.

(** [Partial<QueueConfig>], the second argument of the constructor: each
    field is given, as a number, or left out. *)
Record PartialConfig := {
  given_maxConcurrent : option Z;
  given_maxQueueSize : option Z;
  given_jobTimeout : option Z;
  given_retryAttempts : option Z;
  given_retryDelay : option Z
}.

(** [{ ...DEFAULT_CONFIG, ...config }], line 62 *)
Definition spread (base : QueueConfig) (given : PartialConfig)
    : QueueConfig := {|
  maxConcurrent := default (maxConcurrent base) (given_maxConcurrent given);
  maxQueueSize := default (maxQueueSize base) (given_maxQueueSize given);
  jobTimeout := default (jobTimeout base) (given_jobTimeout given);
  retryAttempts := default (retryAttempts base) (given_retryAttempts given);
  retryDelay := default (retryDelay base) (given_retryDelay given)
|}.

(** An instance of [QueueManager]: [this.processor], [this.config] and
    the data of the manager. *)
Record QueueManager := {
  manager_processor : P;
  manager_config : QueueConfig;
  manager_state : State T R
}.

(** The constructor, lines 59-63. *)
Definition newQueueManager (processor : P) (given : PartialConfig)
    : QueueManager := {|
  manager_processor := processor;
  manager_config := spread DEFAULT_CONFIG given;
  manager_state := initial
|}.

(** [getImageProcessingQueue], lines 264-295.  The module variable
    [imageProcessingQueue] is null or the manager; the call returns the
    manager and leaves it in the variable. *)
Definition getImageProcessingQueue (processor : P)
    (imageProcessingQueue : option QueueManager)
    : QueueManager * option QueueManager :=
  match imageProcessingQueue with
  | None =>
      let created := newQueueManager processor {|
        given_maxConcurrent := Some 2;
        given_maxQueueSize := Some 50;
        given_jobTimeout := Some 300000;
        given_retryAttempts := Some 3;
        given_retryDelay := Some 3000 |} in
      (created, Some created)
  | Some existing => (existing, Some existing)
  end.

(** [getQueueStatus], lines 300-309. *)
Definition getQueueStatus (imageProcessingQueue : option QueueManager)
    : Z * Z * Z :=
  match imageProcessingQueue with
  | None => (0, 0, 2)
  | Some existing =>
      getStatus (manager_config existing) (manager_state existing)
  end.

(** What happens to the module variable: a caller asks for the queue, or
    the queue that exists makes a transition. *)
Inductive ModuleCall :=
| AskQueue (processor : P)
| QueueInput (now : N) (i : @Input T R).

Definition module_step (imageProcessingQueue : option QueueManager)
    (c : ModuleCall) : option QueueManager :=
  match c with
  | AskQueue processor =>
      (getImageProcessingQueue processor imageProcessingQueue).2
  | QueueInput now i =>
      match imageProcessingQueue with
      | None => None
      | Some existing => Some {|
          manager_processor := manager_processor existing;
          manager_config := manager_config existing;
          manager_state :=
            step (manager_config existing) now i (manager_state existing) |}
      end
  end.

Definition module_run (calls : list ModuleCall)
    (imageProcessingQueue : option QueueManager) : option QueueManager :=
  foldl module_step imageProcessingQueue calls.

(** The manager of the module, once created: it has the processor
    [processor], the configuration of the image queue, and a state its
    transitions can reach. *)
Definition image_queue_of (processor : P) (g : option QueueManager) : Prop :=
  ∃ q, g = Some q ∧ manager_processor q = processor
       ∧ manager_config q = imageProcessingConfig
       ∧ reachable imageProcessingConfig (manager_state q).

End ImageQueue.

(** ** Limits on logins, processing and sessions

    The functions of lines 332-695 of the file.  Each of the three
    module-level maps is passed to the functions that use it and
    returned when they change it; [Date.now()] is the argument [now].
    An optional field of a returned object is an [option]. *)

(** [SECURITY_CONFIG], lines 343-361. *)
Module SECURITY_CONFIG.
Definition login_maxAttempts : Z := 5.
Definition login_lockoutDurationMs : Z := 15 * 60 * 1000.
Definition login_attemptWindowMs : Z := 15 * 60 * 1000.
Definition processing_maxPerDay : Z := 100.
Definition processing_maxPerHour : Z := 30.
Definition session_timeoutMs : Z := 24 * 60 * 60 * 1000.
End SECURITY_CONFIG.

(** *** Login attempts *)

Module Login.
Import SECURITY_CONFIG.

Record LoginAttempt := {
  count : Z;
  firstAttemptAt : Z;
  lockedUntil : option Z
}.

(** The object [canAttemptLogin] returns. *)
Module Verdict.
Record t := {
  allowed : bool;
  remainingAttempts : option Z;
  lockedUntil : option Z
}.
End Verdict.

(** The object [recordLoginFailure] returns. *)
Module Outcome.
Record t := {
  locked : bool;
  lockedUntil : option Z
}.
End Outcome.

(** [attempt.lockedUntil && ...]: null and 0 are falsy. *)
Definition truthy (v : option Z) : bool :=
  match v with
  | Some x => bool_decide (x ≠ 0)
  | None => false
  end.

(** [attempt.lockedUntil && now < attempt.lockedUntil] *)
Definition lockedAt (now : Z) (attempt : LoginAttempt) : bool :=
  match lockedUntil attempt with
  | Some l => truthy (Some l) && bool_decide (now < l)
  | None => false
  end.

(** [attempt.lockedUntil && now >= attempt.lockedUntil] *)
Definition lockOverAt (now : Z) (attempt : LoginAttempt) : bool :=
  match lockedUntil attempt with
  | Some l => truthy (Some l) && bool_decide (l ≤ now)
  | None => false
  end.

(** [canAttemptLogin], lines 380-411. *)
Definition canAttemptLogin (ip : string) (now : N)
    (loginAttempts : gmap string LoginAttempt)
    : Verdict.t * gmap string LoginAttempt :=
  let fresh := {| Verdict.allowed := true;
                  Verdict.remainingAttempts := Some login_maxAttempts;
                  Verdict.lockedUntil := None |} in
  match loginAttempts !! ip with
  | None => (fresh, loginAttempts)
  | Some attempt =>
      if lockedAt (Z.of_N now) attempt then
        ({| Verdict.allowed := false;
            Verdict.remainingAttempts := None;
            Verdict.lockedUntil := lockedUntil attempt |}, loginAttempts)
      else if lockOverAt (Z.of_N now) attempt then
        (fresh, delete ip loginAttempts)
      else if decide (Z.of_N now - firstAttemptAt attempt
                      > login_attemptWindowMs) then
        (fresh, delete ip loginAttempts)
      else
        let remaining := login_maxAttempts - count attempt in
        ({| Verdict.allowed := bool_decide (remaining > 0);
            Verdict.remainingAttempts := Some (Z.max 0 remaining);
            Verdict.lockedUntil := None |}, loginAttempts)
  end.

(** A record that starts a new window, lines 422-426. *)
Definition firstFailure (now : N) : LoginAttempt :=
  {| count := 1; firstAttemptAt := Z.of_N now; lockedUntil := None |}.

(** [recordLoginFailure], lines 416-443. *)
Definition recordLoginFailure (ip : string) (now : N)
    (loginAttempts : gmap string LoginAttempt)
    : Outcome.t * gmap string LoginAttempt :=
  let started := ({| Outcome.locked := false; Outcome.lockedUntil := None |},
                  <[ip := firstFailure now]> loginAttempts) in
  match loginAttempts !! ip with
  | None => started
  | Some attempt =>
      if decide (Z.of_N now - firstAttemptAt attempt
                 > login_attemptWindowMs) then started
      else
        let counted := count attempt + 1 in
        if decide (login_maxAttempts ≤ counted) then
          let until := Z.of_N now + login_lockoutDurationMs in
          ({| Outcome.locked := true; Outcome.lockedUntil := Some until |},
           <[ip := {| count := counted;
                      firstAttemptAt := firstAttemptAt attempt;
                      lockedUntil := Some until |}]> loginAttempts)
        else
          ({| Outcome.locked := false; Outcome.lockedUntil := None |},
           <[ip := {| count := counted;
                      firstAttemptAt := firstAttemptAt attempt;
                      lockedUntil := lockedUntil attempt |}]> loginAttempts)
  end.

(** [recordLoginSuccess], lines 448-450. *)
Definition recordLoginSuccess (ip : string)
    (loginAttempts : gmap string LoginAttempt)
    : gmap string LoginAttempt :=
  delete ip loginAttempts.

(** The first loop of [cleanupExpiredData], lines 670-676: the condition
    under which an entry is deleted, and the loop. *)
Definition stale (now : Z) (attempt : LoginAttempt) : bool :=
  match lockedUntil attempt with
  | Some l =>
      if truthy (Some l) && bool_decide (now > l) then true
      else bool_decide (now - firstAttemptAt attempt
                        > login_attemptWindowMs * 2)
  | None =>
      bool_decide (now - firstAttemptAt attempt > login_attemptWindowMs * 2)
  end.

Definition cleanupLoginAttempts (now : N)
    (loginAttempts : gmap string LoginAttempt)
    : gmap string LoginAttempt :=
  filter (λ entry, stale (Z.of_N now) entry.2 = false) loginAttempts.

(** The calls that change [loginAttempts]. *)
Inductive Call :=
| CanAttemptLogin (ip : string)
| RecordLoginFailure (ip : string)
| RecordLoginSuccess (ip : string)
| Cleanup.

Definition call (now : N) (c : Call)
    (loginAttempts : gmap string LoginAttempt)
    : gmap string LoginAttempt :=
  match c with
  | CanAttemptLogin ip => (canAttemptLogin ip now loginAttempts).2
  | RecordLoginFailure ip => (recordLoginFailure ip now loginAttempts).2
  | RecordLoginSuccess ip => recordLoginSuccess ip loginAttempts
  | Cleanup => cleanupLoginAttempts now loginAttempts
  end.

Inductive reachable : gmap string LoginAttempt → Prop :=
| reachable_empty : reachable ∅
| reachable_call now c loginAttempts :
    reachable loginAttempts → reachable (call now c loginAttempts).

(** What holds of every entry of [loginAttempts]: fewer than
    [maxAttempts] failures and no lock, or a lock that ends within the
    window plus the lock-out time from the first failure. *)
Definition sound (attempt : LoginAttempt) : Prop :=
  (lockedUntil attempt = None ∧ 1 ≤ count attempt < login_maxAttempts)
  ∨ (∃ l, lockedUntil attempt = Some l ∧ login_maxAttempts ≤ count attempt
       ∧ 0 < l
       ∧ l ≤ firstAttemptAt attempt + login_attemptWindowMs
             + login_lockoutDurationMs).

End Login.

(** Failures of one address in a row, at the times [times]. *)
Definition loginFailures (ip : string) (times : list N)
    (loginAttempts : gmap string Login.LoginAttempt)
    : gmap string Login.LoginAttempt :=
  foldl (λ m t, (Login.recordLoginFailure ip t m).2) loginAttempts times.

(** The address a call is about. *)
Definition loginCallAddress (c : Login.Call) : option string :=
  match c with
  | Login.CanAttemptLogin ip | Login.RecordLoginFailure ip
  | Login.RecordLoginSuccess ip => Some ip
  | Login.Cleanup => None
  end.

(** *** Sessions *)

Module Session.
Import SECURITY_CONFIG.

Record SessionActivity := {
  createdAt : Z;
  lastActivityAt : Z
}.

(** [isSessionValid], lines 615-639. *)
Definition isSessionValid (sessionToken : string) (now : N)
    (sessionActivities : gmap string SessionActivity)
    : bool * gmap string SessionActivity :=
  match sessionActivities !! sessionToken with
  | None =>
      (true, <[sessionToken := {| createdAt := Z.of_N now;
                                  lastActivityAt := Z.of_N now |}]>
               sessionActivities)
  | Some activity =>
      if decide (Z.of_N now - lastActivityAt activity > session_timeoutMs)
      then (false, delete sessionToken sessionActivities)
      else
        (true, <[sessionToken := {| createdAt := createdAt activity;
                                    lastActivityAt := Z.of_N now |}]>
                 sessionActivities)
  end.

(** [invalidateSession], lines 644-646. *)
Definition invalidateSession (sessionToken : string)
    (sessionActivities : gmap string SessionActivity)
    : gmap string SessionActivity :=
  delete sessionToken sessionActivities.

(** [getSessionRemainingTime], lines 651-657. *)
Definition getSessionRemainingTime (sessionToken : string) (now : N)
    (sessionActivities : gmap string SessionActivity) : Z :=
  match sessionActivities !! sessionToken with
  | None => 0
  | Some activity =>
      let elapsed := Z.of_N now - lastActivityAt activity in
      Z.max 0 (session_timeoutMs - elapsed)
  end.

(** The second loop of [cleanupExpiredData], lines 679-683. *)
Definition cleanupSessionActivities (now : N)
    (sessionActivities : gmap string SessionActivity)
    : gmap string SessionActivity :=
  filter (λ entry, ¬ Z.of_N now - lastActivityAt entry.2 > session_timeoutMs)
    sessionActivities.

End Session.

(** *** Processing counts *)

Module Quota.
Import SECURITY_CONFIG.

Record Window := {
  count : Z;
  startedAt : Z
}.

Record ProcessingRecord := {
  hourly : Window;
  daily : Window
}.

(** The object [canProcess] returns. *)
Module Verdict.
Record t := {
  allowed : bool;
  reason : option string;
  hourlyRemaining : option Z;
  dailyRemaining : option Z
}.
End Verdict.

(** The object [getRemainingProcessingCount] returns. *)
Module Remaining.
Record t := {
  hourlyRemaining : Z;
  dailyRemaining : Z;
  maxPerHour : Z;
  maxPerDay : Z
}.
End Remaining.

Definition oneHour : Z := 60 * 60 * 1000.
Definition oneDay : Z := 24 * 60 * 60 * 1000.

(** The two refusals, lines 503 and 513, with the limits written out. *)
Definition hourlyReason : string :=
  "1時間あたりの処理上限（30枚）に達しました".
Definition dailyReason : string :=
  "1日あたりの処理上限（100枚）に達しました".

(** A record with two new windows, lines 481-484 and 537-540. *)
Definition newRecord (now : Z) : ProcessingRecord :=
  {| hourly := {| count := 0; startedAt := now |};
     daily := {| count := 0; startedAt := now |} |}.

(** The windows that are over start again, lines 489-494 and 544-549. *)
Definition resetWindows (now : Z) (record : ProcessingRecord)
    : ProcessingRecord :=
  let record :=
    if decide (now - startedAt (hourly record) > oneHour)
    then {| hourly := {| count := 0; startedAt := now |};
            daily := daily record |}
    else record in
  if decide (now - startedAt (daily record) > oneDay)
  then {| hourly := hourly record;
          daily := {| count := 0; startedAt := now |} |}
  else record.

(** [canProcess], lines 467-524.  The record is the object of the map:
    what the call assigns to it stays in the map.  [imageCount] is the
    number the caller passes, 1 when it passes none. *)
Definition canProcess (sessionId : string) (imageCount : Z) (now : N)
    (processingRecords : gmap string ProcessingRecord)
    : Verdict.t * gmap string ProcessingRecord :=
  let record :=
    default (newRecord (Z.of_N now)) (processingRecords !! sessionId) in
  let record := resetWindows (Z.of_N now) record in
  let processingRecords := <[sessionId := record]> processingRecords in
  let hourlyRemaining := processing_maxPerHour - count (hourly record) in
  let dailyRemaining := processing_maxPerDay - count (daily record) in
  if decide (count (hourly record) + imageCount > processing_maxPerHour) then
    ({| Verdict.allowed := false;
        Verdict.reason := Some hourlyReason;
        Verdict.hourlyRemaining := Some (Z.max 0 hourlyRemaining);
        Verdict.dailyRemaining := Some (Z.max 0 dailyRemaining) |},
     processingRecords)
  else if decide (count (daily record) + imageCount > processing_maxPerDay)
  then
    ({| Verdict.allowed := false;
        Verdict.reason := Some dailyReason;
        Verdict.hourlyRemaining := Some (Z.max 0 hourlyRemaining);
        Verdict.dailyRemaining := Some (Z.max 0 dailyRemaining) |},
     processingRecords)
  else
    ({| Verdict.allowed := true;
        Verdict.reason := None;
        Verdict.hourlyRemaining :=
          Some (Z.max 0 (hourlyRemaining - imageCount));
        Verdict.dailyRemaining :=
          Some (Z.max 0 (dailyRemaining - imageCount)) |},
     processingRecords).

(** [recordProcessing], lines 529-556. *)
Definition recordProcessing (sessionId : string) (imageCount : Z) (now : N)
    (processingRecords : gmap string ProcessingRecord)
    : gmap string ProcessingRecord :=
  let record :=
    default (newRecord (Z.of_N now)) (processingRecords !! sessionId) in
  let record := resetWindows (Z.of_N now) record in
  let record :=
    {| hourly := {| count := count (hourly record) + imageCount;
                    startedAt := startedAt (hourly record) |};
       daily := {| count := count (daily record) + imageCount;
                   startedAt := startedAt (daily record) |} |} in
  <[sessionId := record]> processingRecords.

(** [getRemainingProcessingCount], lines 561-599. *)
Definition getRemainingProcessingCount (sessionId : string) (now : N)
    (processingRecords : gmap string ProcessingRecord) : Remaining.t :=
  match processingRecords !! sessionId with
  | None =>
      {| Remaining.hourlyRemaining := processing_maxPerHour;
         Remaining.dailyRemaining := processing_maxPerDay;
         Remaining.maxPerHour := processing_maxPerHour;
         Remaining.maxPerDay := processing_maxPerDay |}
  | Some record =>
      let hourlyCount :=
        if decide (Z.of_N now - startedAt (hourly record) > oneHour)
        then 0 else count (hourly record) in
      let dailyCount :=
        if decide (Z.of_N now - startedAt (daily record) > oneDay)
        then 0 else count (daily record) in
      {| Remaining.hourlyRemaining :=
           Z.max 0 (processing_maxPerHour - hourlyCount);
         Remaining.dailyRemaining :=
           Z.max 0 (processing_maxPerDay - dailyCount);
         Remaining.maxPerHour := processing_maxPerHour;
         Remaining.maxPerDay := processing_maxPerDay |}
  end.

(** The third loop of [cleanupExpiredData], lines 686-691. *)
Definition cleanupProcessingRecords (now : N)
    (processingRecords : gmap string ProcessingRecord)
    : gmap string ProcessingRecord :=
  filter (λ entry, ¬ Z.of_N now - startedAt (daily entry.2) > oneDay * 2)
    processingRecords.

(** The calls that change [processingRecords]. *)
Inductive Call :=
| CanProcess (sessionId : string) (imageCount : Z)
| RecordProcessing (sessionId : string) (imageCount : Z)
| Cleanup.

Definition call (now : N) (c : Call)
    (processingRecords : gmap string ProcessingRecord)
    : gmap string ProcessingRecord :=
  match c with
  | CanProcess sessionId imageCount =>
      (canProcess sessionId imageCount now processingRecords).2
  | RecordProcessing sessionId imageCount =>
      recordProcessing sessionId imageCount now processingRecords
  | Cleanup => cleanupProcessingRecords now processingRecords
  end.

Definition run (calls : list (N * Call))
    (processingRecords : gmap string ProcessingRecord)
    : gmap string ProcessingRecord :=
  foldl (λ m '(now, c), call now c m) processingRecords calls.

(** The clock does not go back during the calls, from [t] on; the
    result is the time of the last call. *)
Fixpoint ascending (t : N) (calls : list (N * Call)) : Prop :=
  match calls with
  | [] => True
  | (now, _) :: rest => (t ≤ now)%N ∧ ascending now rest
  end.

Definition lastTime (t : N) (calls : list (N * Call)) : N :=
  List.last calls.*1 t.

(** What holds of every record when the clock shows [t]: no window
    started later than [t], and the hourly window started at most a day
    after the daily one. *)
Definition sound (t : Z) (record : ProcessingRecord) : Prop :=
  startedAt (hourly record) ≤ t ∧ startedAt (daily record) ≤ t
  ∧ startedAt (hourly record) ≤ startedAt (daily record) + oneDay.

End Quota.

(** *** [cleanupExpiredData], lines 666-692: the three loops. *)
Definition cleanupExpiredData (now : N)
    (maps : gmap string Login.LoginAttempt
            * gmap string Session.SessionActivity
            * gmap string Quota.ProcessingRecord)
    : gmap string Login.LoginAttempt
      * gmap string Session.SessionActivity
      * gmap string Quota.ProcessingRecord :=
  (Login.cleanupLoginAttempts now maps.1.1,
   Session.cleanupSessionActivities now maps.1.2,
   Quota.cleanupProcessingRecords now maps.2).

(** * The processor of the image queue

    [processImages] of [src/server/nanoBanana.ts], which the processor
    handed to [getImageProcessingQueue] calls, and [isValidAspectRatio],
    which guards the submissions.  [fal.subscribe] is the argument
    [subscribe]: what the service answers to a request, its data or the
    error it throws.  What is thrown is an [Error] whose [message] is a
    string; [status] is its status code when it has one. *)

Module NanoBanana.

Definition ASPECT_RATIOS : list string :=
  ["auto"; "21:9"; "16:9"; "3:2"; "4:3"; "5:4"; "1:1"; "4:5"; "3:4"; "2:3";
   "9:16"].

Record ProcessImageInput := {
  prompt : string;
  imageUrls : list string;
  aspectRatio : option string;
  resolution : option string;
  outputFormat : option string;
  numImages : option Z
}.

(** The [input] of the call of [fal.subscribe], lines 100-107. *)
Record Request := {
  request_prompt : string;
  image_urls : list string;
  aspect_ratio : string;
  request_resolution : string;
  output_format : string;
  num_images : Z
}.

(** An image of the answer, and the answer [result.data]. *)
Record ApiImage := {
  url : string;
  content_type : option string;
  file_name : option string;
  width : option Z;
  height : option Z
}.

Record ApiData := {
  images : option (list ApiImage);
  description : option string
}.

Record ProcessedImage := {
  processed_url : string;
  contentType : option string;
  fileName : option string;
  processed_width : option Z;
  processed_height : option Z
}.

Record ProcessImageResult := {
  result_images : list ProcessedImage;
  result_description : string
}.

Record Thrown := {
  message : string;
  status : option Z
}.

(** [new Error(message)] *)
Definition newError (text : string) : Thrown :=
  {| message := text; status := None |}.

Definition noImageMessage : string := "At least one image URL is required".
Definition tooManyMessage : string :=
  "Maximum 14 images can be processed at once".
Definition noResultMessage : string := "No images returned from API".
Definition accessDeniedMessage : string :=
  "API access denied. The fal.ai API key may be invalid or expired. Please check your FAL_KEY.".
Definition authenticationMessage : string :=
  "API authentication failed. Please verify your FAL_KEY is correct.".
Definition rateLimitMessage : string :=
  "API rate limit exceeded. Please try again later.".

Definition isForbidden (error : Thrown) : bool :=
  includes (message error) "Forbidden" || bool_decide (status error = Some 403).
Definition isUnauthorized (error : Thrown) : bool :=
  includes (message error) "Unauthorized"
  || bool_decide (status error = Some 401).
Definition isRateLimit (error : Thrown) : bool :=
  includes (message error) "rate limit"
  || bool_decide (status error = Some 429).

(** The [catch] block, lines 149-169: what it throws for what it
    caught. *)
Definition rethrown (error : Thrown) : Thrown :=
  if isForbidden error then newError accessDeniedMessage
  else if isUnauthorized error then newError authenticationMessage
  else if isRateLimit error then newError rateLimitMessage
  else error.

(** The image of the result for an image of the answer, lines 140-146. *)
Definition processed (img : ApiImage) : ProcessedImage := {|
  processed_url := url img;
  contentType := content_type img;
  fileName := file_name img;
  processed_width := width img;
  processed_height := height img
|}.

(** [processImages], lines 66-170: the requests made, and the result or
    the error thrown. *)
Definition processImages (input : ProcessImageInput)
    (subscribe : Request → ApiData + Thrown)
    : list Request * (ProcessImageResult + Thrown) :=
  let aspectRatio := default "auto" (aspectRatio input) in
  let resolution := default "1K" (resolution input) in
  let outputFormat := default "png" (outputFormat input) in
  let numImages := default 1 (numImages input) in
  if decide (length (imageUrls input) = 0%nat) then
    ([], inr (newError noImageMessage))
  else if decide (14 < length (imageUrls input))%nat then
    ([], inr (newError tooManyMessage))
  else
    let isPresetRatio := bool_decide (aspectRatio ∈ ASPECT_RATIOS) in
    let effectiveAspectRatio := if isPresetRatio then aspectRatio else "auto" in
    let request := {|
      request_prompt := prompt input;
      image_urls := imageUrls input;
      aspect_ratio := effectiveAspectRatio;
      request_resolution := resolution;
      output_format := outputFormat;
      num_images := numImages |} in
    let attempted :=
      match subscribe request with
      | inl data =>
          match images data with
          | None | Some [] => inr (newError noResultMessage)
          | Some imgs =>
              inl {| result_images := processed <$> imgs;
                     result_description := default "" (description data) |}
          end
      | inr error => inr error
      end in
    ([request],
     match attempted with
     | inl result => inl result
     | inr error => inr (rethrown error)
     end).

(** [\d] *)
Definition isDigit (c : ascii) : bool :=
  (48 <=? nat_of_ascii c)%nat && (nat_of_ascii c <=? 57)%nat.

(** What is left of a string after its leading digits. *)
Fixpoint afterDigits (s : string) : string :=
  match s with
  | String c rest => if isDigit c then afterDigits rest else s
  | EmptyString => s
  end.

(** [/^\d+:\d+$/.test(ratio)] *)
Definition customRatioPattern (ratio : string) : bool :=
  match ratio with
  | String c _ =>
      isDigit c &&
      match afterDigits ratio with
      | String ":" (String d rest) =>
          isDigit d &&
          match afterDigits rest with
          | EmptyString => true
          | String _ _ => false
          end
      | _ => false
      end
  | EmptyString => false
  end.

(** [isValidAspectRatio], lines 197-205. *)
Definition isValidAspectRatio (ratio : string) : bool :=
  if bool_decide (ratio ∈ ASPECT_RATIOS) then true
  else customRatioPattern ratio.

(** A string of digits, and not the empty one. *)
Fixpoint allDigits (s : string) : bool :=
  match s with
  | String c rest => isDigit c && allDigits rest
  | EmptyString => true
  end.

Definition isNumeral (s : string) : Prop :=
  allDigits s = true ∧ s ≠ "".

End NanoBanana.

(** The service answered the request of [processImages] with [error]. *)
Definition serviceFailed (input : NanoBanana.ProcessImageInput)
    (subscribe : NanoBanana.Request
                 → NanoBanana.ApiData + NanoBanana.Thrown)
    (error : NanoBanana.Thrown) : Prop :=
  ∃ request,
    (NanoBanana.processImages input subscribe).1 = [request]
    ∧ subscribe request = inr error.

(** The failures of the service the queue backs off twice as long for. *)
Definition backedOffTwice (error : NanoBanana.Thrown) : Prop :=
  NanoBanana.isForbidden error = false
  ∧ NanoBanana.isUnauthorized error = false
  ∧ (NanoBanana.status error = Some 429
     ∨ isRateLimited (NanoBanana.message error) = true).

(** ** What the effects of the manager say *)

Section Events.

Context {T R : Type}.
Variable config : QueueConfig.

(** The [jobId] of an event. *)
Definition eventId (event : QueueEvent R) : string :=
  match event with
  | jobAdded jobId _ _ | jobStarted jobId _
  | jobCompleted jobId _ | jobFailed jobId _ => jobId
  end.

(** An event carries the id of its job, and an "added" event a position
    that is the length of the wait list, within [maxQueueSize]; the
    processor is called with the data of its job and an attempt number
    within [retryAttempts]. *)
Definition effect_sound (s : State T R) (e : Effect T R) : Prop :=
  match e with
  | Emit job event =>
      (∃ j, heap s !! job = Some j ∧ eventId event = id j)
      ∧ match event with
        | jobAdded _ p len => p = len ∧ 1 ≤ p ≤ maxQueueSize config
        | _ => True
        end
  | CallProcessor job payload n =>
      (∃ j, heap s !! job = Some j ∧ data j = payload)
      ∧ 1 ≤ n ≤ retryAttempts config
  | _ => True
  end.

Definition effects_sound (s : State T R) : Prop :=
  ∀ e, e ∈ effects s → effect_sound s e.

(** From [s] to [s'] every job object keeps its id and its data. *)
Definition same_jobs (s s' : State T R) : Prop :=
  ∀ job j, heap s !! job = Some j →
    ∃ j', heap s' !! job = Some j' ∧ id j' = id j ∧ data j' = data j.

End Events.
(** * Properties *)

(** ** Strings *)

Lemma append_cons c p s : String c p +:+ s = String c (p +:+ s).
Proof. reflexivity. Qed.

Lemma prefix_spec p s : String.prefix p s = true ↔ ∃ suf, s = p +:+ suf.
Proof.
  revert s. induction p as [|c p IH]; intros s.
  - split; [intros _; exists s; reflexivity | by destruct s].
  - destruct s as [|d s]; simpl.
    + split; [done | intros [suf ?]; discriminate].
    + setoid_rewrite append_cons.
      destruct (Ascii.ascii_dec c d) as [->|Hne].
      * rewrite IH. split; intros [suf ?]; exists suf; congruence.
      * split; [done | intros [suf ?]; congruence].
Qed.

Lemma includes_spec s needle : includes s needle = true ↔ occurs needle s.
Proof.
  unfold occurs. induction s as [|c s IH]; cbn [includes].
  - rewrite orb_false_r, prefix_spec. split.
    + intros [suf ->]. by exists "", suf.
    + intros ([|? pre] & suf & H); [by exists suf | discriminate].
  - rewrite orb_true_iff, prefix_spec, IH. split.
    + intros [[suf ->] | (pre & suf & ->)].
      * by exists "", suf.
      * by exists (String c pre), suf.
    + intros ([|d pre] & suf & H).
      * left. by exists suf.
      * right. exists pre, suf. rewrite append_cons in H. congruence.
Qed.

Lemma isRateLimited_spec m :
  isRateLimited m = true ↔ occurs "429" m ∨ occurs "rate" m ∨ occurs "limit" m.
Proof.
  unfold isRateLimited. rewrite !orb_true_iff, !includes_spec. tauto.
Qed.

(** ** Job identifiers are distinct *)

Lemma pretty_N_char_no_dash x : pretty_N_char x ≠ "-"%char.
Proof. unfold pretty_N_char. by repeat case_match. Qed.

Lemma pretty_N_go_no_dash x s :
  has_dash s = false → has_dash (pretty_N_go x s) = false.
Proof.
  revert s. induction (N.lt_wf_0 x) as [x _ IH]; intros s Hs.
  assert (x = 0 ∨ 0 < x)%N as [->|?] by lia.
  - by rewrite pretty_N_go_0.
  - rewrite pretty_N_go_step by done. apply IH.
    { by apply N.div_lt. }
    simpl. rewrite Hs, orb_false_r.
    apply bool_decide_eq_false, pretty_N_char_no_dash.
Qed.

Lemma pretty_N_no_dash (x : N) : has_dash (pretty x) = false.
Proof.
  unfold pretty, pretty_N. case_decide; [done|].
  by apply pretty_N_go_no_dash.
Qed.

Lemma split_at_dash a a' b b' :
  has_dash a = false → has_dash a' = false →
  a +:+ "-" +:+ b = a' +:+ "-" +:+ b' → a = a' ∧ b = b'.
Proof.
  revert a'. induction a as [|c a IH]; intros [|c' a'] Ha Ha' Heq;
    rewrite ?append_cons in Heq; simpl in Ha, Ha'.
  - split; [done|]. by injection Heq.
  - injection Heq as <- _. by rewrite bool_decide_eq_true_2 in Ha'.
  - injection Heq as -> _. by rewrite bool_decide_eq_true_2 in Ha.
  - injection Heq as -> Heq.
    apply orb_false_iff in Ha as [_ Ha], Ha' as [_ Ha'].
    destruct (IH a' Ha Ha' Heq) as [-> ->]. done.
Qed.

Lemma makeJobId_inj now now' c c' :
  makeJobId now c = makeJobId now' c' → now = now' ∧ c = c'.
Proof.
  unfold makeJobId. intros Heq.
  apply (inj (String.append "job-")) in Heq.
  apply split_at_dash in Heq as [H1 H2]; try apply pretty_N_no_dash.
  split; by apply (inj pretty).
Qed.

(** ** The concurrency ceiling *)

Section Ceiling.

Context {T R : Type}.
Variable config : QueueConfig.

#[local] Abbreviation State := (State T R).

Lemma size_delete_le (k : string) (m : gmap string JobRef) :
  (size (delete k m) ≤ size m)%nat.
Proof. rewrite map_size_delete. destruct (m !! k); simpl; lia. Qed.

Lemma size_insert_le (k : string) (v : JobRef) (m : gmap string JobRef) :
  (size (<[k:=v]> m) ≤ S (size m))%nat.
Proof. rewrite map_size_insert. destruct (m !! k); simpl; lia. Qed.

Lemma ceiling_exhausted (pn : State → State) now job le :
  preserves (within_ceiling config) pn →
  preserves (within_ceiling config) (executeJob_exhausted pn now job le).
Proof.
  intros Hpn s Hs. apply Hpn. unfold within_ceiling in *. simpl.
  match goal with |- context [delete ?k _] =>
    pose proof (size_delete_le k (processing s)) end. lia.
Qed.

Lemma ceiling_iterate (pn : State → State) now job n le :
  preserves (within_ceiling config) pn →
  preserves (within_ceiling config) (executeJob_iterate config pn now job n le).
Proof.
  intros Hpn s Hs. unfold executeJob_iterate.
  case_decide; [|by apply ceiling_exhausted].
  destruct (heap s !! job); done.
Qed.

Lemma ceiling_succeeded (pn : State → State) now job v :
  preserves (within_ceiling config) pn →
  preserves (within_ceiling config) (executeJob_succeeded pn now job v).
Proof.
  intros Hpn s Hs. apply Hpn. unfold within_ceiling in *. simpl.
  match goal with |- context [delete ?k _] =>
    pose proof (size_delete_le k (processing s)) end. lia.
Qed.

Lemma ceiling_caught (pn : State → State) now job n m :
  preserves (within_ceiling config) pn →
  preserves (within_ceiling config) (executeJob_caught config pn now job n m).
Proof.
  intros Hpn s Hs. unfold executeJob_caught.
  case_decide; [done|]. by apply ceiling_iterate.
Qed.

Lemma ceiling_guarded (loop : State → State) :
  preserves (within_ceiling config) loop →
  preserves (within_ceiling config) (processNext_guarded loop).
Proof.
  intros Hloop s Hs. unfold processNext_guarded.
  destruct (isProcessing s); [done|].
  by apply (Hloop (with_isProcessing true s)).
Qed.

Lemma ceiling_loop fuel now :
  preserves (T:=T) (R:=R) (within_ceiling config) (processNext_loop config fuel now).
Proof.
  induction fuel as [|fuel IH]; intros s Hs; simpl; [done|].
  case_decide as Hc; [|done].
  destruct (queue s) as [|job rest] eqn:Hq; [done|].
  apply IH. unfold dispatch, executeJob.
  apply ceiling_iterate; [by apply ceiling_guarded|].
  unfold within_ceiling in *. simpl.
  match goal with |- context [<[?k:=?v]> _] =>
    pose proof (size_insert_le k v (processing s)) end. lia.
Qed.

Lemma ceiling_processNext now :
  preserves (T:=T) (R:=R) (within_ceiling config) (processNext config now).
Proof. intros s Hs. apply ceiling_guarded; [apply ceiling_loop | done]. Qed.

Lemma ceiling_step now i :
  preserves (T:=T) (R:=R) (within_ceiling config) (step config now i).
Proof.
  intros s Hs. destruct i as [payload|job n outcome|job n|job n]; simpl.
  - unfold enqueue. case_decide; [done|]. simpl. by apply ceiling_processNext.
  - unfold withTimeout_settled.
    destruct (suspended s !! job) as [a|]; [|done].
    destruct (waiting a); [|done]. case_decide; [|done].
    destruct outcome.
    + by apply ceiling_succeeded; [apply ceiling_processNext|].
    + by apply ceiling_caught; [apply ceiling_processNext|].
  - unfold withTimeout_settled.
    destruct (suspended s !! job) as [a|]; [|done].
    destruct (waiting a); [|done]. case_decide; [|done].
    by apply ceiling_caught; [apply ceiling_processNext|].
  - unfold sleep_finished.
    destruct (suspended s !! job) as [a|]; [|done].
    destruct (waiting a); [done|]. case_decide; [|done].
    by apply ceiling_iterate; [apply ceiling_processNext|].
Qed.

End Ceiling.

(** ** The life cycle of jobs *)

Ltac open_invariant H :=
  destruct H as [inv_nodup inv_counter inv_ids inv_queued inv_cur inv_active
    inv_processing inv_effects inv_unsettled inv_settled inv_positions
    inv_activation].

Section Invariant.
Context {T R : Type}.
Variable config : QueueConfig.
#[local] Abbreviation State := (State T R).
#[local] Abbreviation QueueJob := (QueueJob T R).
#[local] Abbreviation Effect := (Effect T R).

Lemma filter_none {A} (f : A → bool) (l : list A) :
  (∀ x, x ∈ l → f x = false) → List.filter f l = [].
Proof.
  induction l as [|x l IH]; intros Hf; simpl; [done|].
  rewrite (Hf x) by by left. apply IH. intros y Hy. apply Hf. by right.
Qed.

Lemma effectsOf_perform job (e : Effect) (s : State) :
  effectsOf job (perform e s) =
  effectsOf job s ++ (if decide (effect_job e = job) then [e] else []).
Proof.
  unfold effectsOf. simpl. rewrite List.filter_app. simpl.
  by destruct (decide (effect_job e = job));
    [rewrite bool_decide_eq_true_2 | rewrite bool_decide_eq_false_2].
Qed.

Lemma terminalsOf_perform job (e : Effect) (s : State) :
  terminalsOf job (perform e s) =
  terminalsOf job s ++
  (if decide (effect_job e = job) then if is_terminal e then [e] else [] else []).
Proof.
  unfold terminalsOf. rewrite effectsOf_perform, List.filter_app.
  f_equal. destruct (decide _); [|done]. simpl. by destruct (is_terminal e).
Qed.

Lemma settlementsOf_terminalsOf job (s : State) :
  settlementsOf job s = List.filter is_settlement (terminalsOf job s).
Proof.
  unfold settlementsOf, terminalsOf.
  induction (effectsOf job s) as [|e l IH]; simpl; [done|].
  destruct e as [? []| | | | |]; simpl; by rewrite ?IH.
Qed.

Lemma invariant_perform cur (e : Effect) (s : State) :
  is_terminal e = false → (effect_job e < length (heap s))%nat →
  invariant config cur s → invariant config cur (perform e s).
Proof.
  intros He Hjob Hinv. open_invariant Hinv.
  constructor; try assumption.
  - intros e' [?| ->%list_elem_of_singleton]%elem_of_app; auto.
  - intros job Hl. rewrite terminalsOf_perform, He.
    rewrite inv_unsettled by done. by destruct (decide _).
  - intros job j Hj Hl. rewrite terminalsOf_perform, He.
    replace (if decide (effect_job e = job) then [] else []) with (@nil Effect)
      by (by destruct (decide _)).
    rewrite app_nil_r. by apply inv_settled.
Qed.

Lemma invariant_with_isProcessing cur b (s : State) :
  invariant config cur s → invariant config cur (with_isProcessing b s).
Proof. intros Hinv. open_invariant Hinv. by constructor. Qed.


Lemma heap_mutate job f (s : State) job' :
  heap (mutate job f s) !! job' =
  if decide (job = job') then f <$> heap s !! job' else heap s !! job'.
Proof.
  simpl. case_decide as H; [subst; apply list_lookup_alter_eq|].
  by apply list_lookup_alter_ne.
Qed.

Lemma heap_mutate_ne job f (s : State) job' :
  job ≠ job' → heap (mutate job f s) !! job' = heap s !! job'.
Proof. intros. rewrite heap_mutate. by case_decide. Qed.

Lemma length_heap_mutate job f (s : State) :
  length (heap (mutate job f s)) = length (heap s).
Proof. simpl. apply length_alter. Qed.

Lemma idOf_mutate job f (s : State) job' :
  (∀ j, id (f j) = id j) → idOf job' (mutate job f s) = idOf job' s.
Proof.
  intros Hf. unfold idOf. rewrite heap_mutate. case_decide; [|done].
  destruct (heap s !! job'); simpl; auto.
Qed.

Lemma active_suspend job a (s : State) job' :
  active None (suspend job a s) job' ↔ active (Some job) s job'.
Proof.
  unfold active. simpl. rewrite lookup_insert_is_Some. split.
  - intros [[->|[_ ?]]|?]; [by right|by left|done].
  - intros [?|[= ->]]; [|by left; left].
    left. destruct (decide (job = job')); [by left|by right].
Qed.

Lemma live_suspend job a (s : State) job' :
  live None (suspend job a s) job' ↔ live (Some job) s job'.
Proof. unfold live. by rewrite active_suspend. Qed.

Lemma invariant_suspend job a (s : State) :
  1 ≤ attempt a ≤ retryAttempts config →
  (waiting a = forSleep →
   attempt a < retryAttempts config ∧ is_Some (lastError a)) →
  invariant config (Some job) s → invariant config None (suspend job a s).
Proof.
  intros Ha1 Ha2 Hinv. open_invariant Hinv.
  constructor; try assumption.
  - intros job' Hq. rewrite active_suspend. by apply inv_queued.
  - done.
  - intros job'. rewrite active_suspend. apply inv_active.
  - intros k job' Hk. rewrite active_suspend. by apply inv_processing.
  - intros job'. rewrite live_suspend. apply inv_unsettled.
  - intros job' j Hj. rewrite live_suspend. by apply inv_settled.
  - intros job' a'. simpl. rewrite lookup_insert_Some.
    intros [[<- <-]|[_ ?]]; eauto.
Qed.

Lemma active_finish job (s : State) job' :
  is_Some (suspended s !! job) →
  active (Some job) (finish job s) job' ↔ active None s job'.
Proof.
  intros Hs. unfold active. simpl. rewrite lookup_delete_is_Some. split.
  - intros [[_ ?]|[= ->]]; by left.
  - intros [?|?]; [|done].
    destruct (decide (job = job')) as [->|]; [by right|by left].
Qed.

Lemma live_finish job (s : State) job' :
  is_Some (suspended s !! job) →
  live (Some job) (finish job s) job' ↔ live None s job'.
Proof. intros. unfold live. by rewrite active_finish. Qed.

Lemma invariant_finish job (s : State) :
  is_Some (suspended s !! job) →
  invariant config None s → invariant config (Some job) (finish job s).
Proof.
  intros Hs Hinv. open_invariant Hinv.
  constructor; try assumption.
  - intros job' Hq. rewrite active_finish by done. by apply inv_queued.
  - intros ? [= <-]. simpl. apply lookup_delete_eq.
  - intros job'. rewrite active_finish by done. apply inv_active.
  - intros k job' Hk. rewrite active_finish by done. by apply inv_processing.
  - intros job'. rewrite live_finish by done. apply inv_unsettled.
  - intros job' j Hj. rewrite live_finish by done. by apply inv_settled.
  - intros job' a'. simpl. rewrite lookup_delete_Some. intros [_ ?]; eauto.
Qed.

Lemma ids_distinct cur (s : State) job job' j j' :
  invariant config cur s →
  heap s !! job = Some j → heap s !! job' = Some j' → id j = id j' →
  job = job'.
Proof.
  intros Hinv Hj Hj' Hid. open_invariant Hinv.
  destruct (inv_ids _ _ Hj) as [now Hnow].
  destruct (inv_ids _ _ Hj') as [now' Hnow'].
  rewrite Hnow, Hnow' in Hid. apply makeJobId_inj in Hid as [_ Hid]. lia.
Qed.


Lemma heap_settled job f ev e (s : State) :
  heap (settled job f ev e s) = heap (mutate job f s).
Proof. reflexivity. Qed.

Lemma processing_settled job f ev e (s : State) :
  processing (settled job f ev e s) = delete (idOf job s) (processing s).
Proof. reflexivity. Qed.

Lemma invariant_settled job f ev e (s : State) :
  (∀ j, id (f j) = id j) →
  (∀ j, heap s !! job = Some j → terminal job (f j) ev e) →
  invariant config (Some job) s →
  invariant config None (settled job f ev e s).
Proof.
  intros Hid Hterm Hinv.
  pose proof Hinv as Hinv'. open_invariant Hinv'.
  destruct (inv_active job) as (j0 & Hj0 & Hst0 & Hp0); [by right|].
  assert (Hsusp : suspended s !! job = None) by by apply inv_cur.
  assert (Hact : ∀ job', active None (settled job f ev e s) job' ↔
                         active (Some job) s job' ∧ job' ≠ job).
  { intros job'. unfold active. simpl. split.
    - intros [H|?]; [|done]. split; [by left|]. intros ->.
      rewrite Hsusp in H. by destruct H.
    - intros [[?|[= ->]] ?]; [by left|done]. }
  assert (Hlive : ∀ job', live None (settled job f ev e s) job' ↔
                          live (Some job) s job' ∧ job' ≠ job).
  { intros job'. unfold live. rewrite Hact. split; [|tauto].
    intros [Hq|?]; [|tauto]. split; [by left|]. intros ->.
    destruct (inv_queued _ Hq) as [Hn _]. apply Hn. by right. }
  assert (Hevs : effect_job ev = job ∧ effect_job e = job
                 ∧ is_terminal ev = true ∧ is_terminal e = true).
  { destruct (Hterm j0 Hj0) as [_ [(_ & v & _ & -> & ->)|(_ & le & _ & -> & ->)]];
      done. }
  destruct Hevs as (Hevj & Hej & Hevt & Het).
  assert (Hset : ∀ job', terminalsOf job' (settled job f ev e s) =
            terminalsOf job' s ++
            if decide (job = job') then [ev; e] else []).
  { intros job'. unfold settled. rewrite !terminalsOf_perform.
    rewrite Hevt, Het, Hevj, Hej, <-app_assoc.
    by destruct (decide (job = job')). }
  constructor; try assumption.
  - simpl. by rewrite length_alter.
  - intros job' j. rewrite heap_settled. rewrite heap_mutate.
    case_decide as Hd; [subst job'|by apply inv_ids].
    rewrite Hj0. intros [= <-]. rewrite Hid. by apply inv_ids.
  - intros job' Hq. rewrite Hact.
    destruct (inv_queued _ Hq) as (Hn & j & Hj & Hst). split; [tauto|].
    exists j. split; [|done]. rewrite heap_settled.
    rewrite heap_mutate_ne; [done|]. intros ->. apply Hn. by right.
  - done.
  - intros job'. rewrite Hact. intros [Ha Hne].
    destruct (inv_active _ Ha) as (j & Hj & Hst & Hp).
    exists j. rewrite heap_settled, processing_settled.
    rewrite heap_mutate_ne by done. split_and!; [done..|].
    rewrite lookup_delete_ne; [done|]. unfold idOf. rewrite Hj0.
    intros Heq. apply Hne. symmetry. by eapply ids_distinct.
  - intros k job'. rewrite processing_settled.
    rewrite lookup_delete_Some. intros [Hk Hp].
    destruct (inv_processing _ _ Hp) as [Ha Hidk].
    assert (job' ≠ job) by (intros ->; congruence).
    rewrite Hact. split; [done|].
    unfold idOf in *. rewrite heap_settled. by rewrite heap_mutate_ne.
  - intros e'. unfold settled. simpl. rewrite length_alter.
    apply lookup_lt_Some in Hj0.
    rewrite !elem_of_app, !list_elem_of_singleton.
    intros [[?| ->]| ->]; [by apply inv_effects|lia..].
  - intros job'. rewrite Hlive, Hset. intros [Hl Hne].
    rewrite inv_unsettled by done. by rewrite decide_False.
  - intros job' j. rewrite heap_settled. rewrite heap_mutate.
    rewrite Hlive, Hset. case_decide as Hd; [subst job'|].
    + rewrite Hj0. intros [= <-] _.
      rewrite inv_unsettled by (by right; right).
      destruct (Hterm j0 Hj0) as [Hc Ht]. split; [done|].
      destruct Ht as [(? & v & ? & -> & ->)|(? & le & ? & -> & ->)];
        simpl; eauto 10.
    + intros Hj Hnl. rewrite app_nil_r. apply inv_settled; [done|].
      intros ?. apply Hnl. split; [done|congruence].
  - intros i job' j Hi. rewrite heap_settled. simpl queue in Hi.
    rewrite heap_mutate_ne; [by apply inv_positions|].
    intros ->. apply list_elem_of_lookup_2 in Hi.
    destruct (inv_queued _ Hi) as [Hn _]. apply Hn. by right.
Qed.


Lemma length_updatePositions_from n q (h : list QueueJob) :
  length (updatePositions_from n q h) = length h.
Proof.
  revert n h. induction q as [|job q IH]; intros n h; simpl; [done|].
  by rewrite IH, length_alter.
Qed.

Lemma updatePositions_from_other n q (h : list QueueJob) job :
  job ∉ q → updatePositions_from n q h !! job = h !! job.
Proof.
  revert n h. induction q as [|job0 q IH]; intros n h Hq; simpl; [done|].
  apply not_elem_of_cons in Hq as [Hne Hq].
  rewrite IH by done. by apply list_lookup_alter_ne.
Qed.

Lemma updatePositions_from_lookup n q (h : list QueueJob) (i : nat) job :
  NoDup q → q !! i = Some job →
  updatePositions_from n q h !! job =
  set_position (Z.of_nat (n + i) + 1) <$> h !! job.
Proof.
  revert n h i. induction q as [|job0 q IH]; intros n h i Hnd Hi; [done|].
  apply NoDup_cons in Hnd as [Hnotin Hnd]. destruct i as [|i]; simpl in *.
  - injection Hi as ->. rewrite updatePositions_from_other by done.
    rewrite list_lookup_alter_eq. by rewrite Nat.add_0_r.
  - rewrite (IH _ _ i) by done.
    rewrite list_lookup_alter_ne.
    + do 3 f_equal. lia.
    + intros ->. apply Hnotin. by eapply list_elem_of_lookup_2.
Qed.

Lemma dispatch_dispatched run now job rest (s : State) :
  dispatch run now job rest s = run job (dispatched now job rest s).
Proof. reflexivity. Qed.

Lemma heap_dispatched now job rest (s : State) :
  heap (dispatched now job rest s) =
  alter (set_startedAt now) job
    (alter (set_status processing_) job
       (updatePositions_from 0 rest (heap s))).
Proof. reflexivity. Qed.

Lemma heap_dispatched_eq now job rest (s : State) :
  job ∉ rest →
  heap (dispatched now job rest s) !! job =
  (set_startedAt now ∘ set_status processing_) <$> heap s !! job.
Proof.
  intros Hn. rewrite heap_dispatched, !list_lookup_alter_eq.
  rewrite updatePositions_from_other by done. by destruct (heap s !! job).
Qed.

Lemma heap_dispatched_queued now job rest (s : State) (i : nat) job' :
  NoDup (job :: rest) → rest !! i = Some job' →
  heap (dispatched now job rest s) !! job' =
  set_position (Z.of_nat i + 1) <$> heap s !! job'.
Proof.
  intros [Hn Hnd]%NoDup_cons Hi. rewrite heap_dispatched.
  assert (job ≠ job') by (intros ->; by eapply Hn, list_elem_of_lookup_2).
  rewrite !list_lookup_alter_ne by done.
  by rewrite (updatePositions_from_lookup _ _ _ i).
Qed.

Lemma heap_dispatched_other now job rest (s : State) job' :
  job' ≠ job → job' ∉ rest →
  heap (dispatched now job rest s) !! job' = heap s !! job'.
Proof.
  intros Hne Hn. rewrite heap_dispatched.
  rewrite !list_lookup_alter_ne by done.
  by apply updatePositions_from_other.
Qed.

Lemma heap_dispatched_cases now job rest (s : State) job' j' :
  NoDup (job :: rest) →
  heap (dispatched now job rest s) !! job' = Some j' →
  ∃ j, heap s !! job' = Some j ∧ id j' = id j ∧ data j' = data j ∧
    ((job' = job ∧ j' = set_startedAt now (set_status processing_ j))
     ∨ (job' ≠ job ∧ (∃ i : nat, rest !! i = Some job' ∧
                      j' = set_position (Z.of_nat i + 1) j))
     ∨ (job' ≠ job ∧ (job' ∉ rest) ∧ j' = j)).
Proof.
  intros Hnd Hj'. pose proof Hnd as [Hn Hnd']%NoDup_cons.
  destruct (decide (job' = job)) as [->|Hne].
  - rewrite heap_dispatched_eq in Hj' by done.
    destruct (heap s !! job) as [j|]; [|done]. injection Hj' as <-.
    exists j. split_and!; auto.
  - destruct (decide (job' ∈ rest)) as [Hin|Hnotin].
    + apply list_elem_of_lookup_1 in Hin as [i Hi].
      rewrite (heap_dispatched_queued _ _ _ _ i) in Hj' by done.
      destruct (heap s !! job') as [j|]; [|done]. injection Hj' as <-.
      exists j. split_and!; eauto 10.
    + rewrite heap_dispatched_other in Hj' by done.
      exists j'. split_and!; auto.
Qed.

Lemma idOf_dispatched now job rest (s : State) job' :
  NoDup (job :: rest) →
  idOf job' (dispatched now job rest s) = idOf job' s.
Proof.
  intros Hnd. unfold idOf.
  destruct (heap (dispatched now job rest s) !! job') as [j'|] eqn:Hj'.
  - apply heap_dispatched_cases in Hj' as (j & -> & ? & _); done.
  - apply lookup_ge_None in Hj'.
    rewrite heap_dispatched, !length_alter, length_updatePositions_from in Hj'.
    assert (heap s !! job' = None) as -> by by apply lookup_ge_None_2.
    done.
Qed.

Lemma processing_dispatched now job rest (s : State) :
  NoDup (job :: rest) →
  processing (dispatched now job rest s) =
  <[idOf job s := job]> (processing s).
Proof.
  intros Hnd. rewrite <-(idOf_dispatched now job rest s job Hnd).
  unfold idOf. by rewrite heap_dispatched.
Qed.


Lemma terminalsOf_dispatched now job rest (s : State) job' :
  terminalsOf job' (dispatched now job rest s) = terminalsOf job' s.
Proof.
  unfold dispatched, dispatch. rewrite terminalsOf_perform. simpl.
  destruct (decide _); apply app_nil_r.
Qed.

Lemma invariant_dispatched now job rest (s : State) :
  queue s = job :: rest →
  invariant config None s →
  invariant config (Some job) (dispatched now job rest s).
Proof.
  intros Hq Hinv. pose proof Hinv as Hinv'. open_invariant Hinv'.
  assert (Hnd : NoDup (job :: rest)) by by rewrite <-Hq.
  pose proof Hnd as [Hnotin Hnd']%NoDup_cons.
  destruct (inv_queued job) as (Hna & j0 & Hj0 & Hst0);
    [rewrite Hq; by left|].
  assert (Hact : ∀ job', active (Some job) (dispatched now job rest s) job' ↔
                         active None s job' ∨ job' = job).
  { intros job'. unfold active. simpl. split.
    - intros [?|[= ->]]; [by left; left|by right].
    - intros [[?|?]| ->]; [by left|done|by right]. }
  assert (Hlive : ∀ job', live (Some job) (dispatched now job rest s) job' ↔
                          live None s job').
  { intros job'. unfold live. rewrite Hact, Hq, elem_of_cons.
    change (queue (dispatched now job rest s)) with rest. tauto. }
  constructor.
  - done.
  - rewrite heap_dispatched, !length_alter, length_updatePositions_from.
    done.
  - intros job' j' Hj'.
    apply heap_dispatched_cases in Hj' as (j & Hj & -> & _); [|done].
    by apply inv_ids.
  - intros job' Hin. change (job' ∈ rest) in Hin.
    assert (job' ≠ job) by (by intros ->).
    destruct (inv_queued job') as (Hna' & j & Hj & Hst);
      [rewrite Hq; by right|].
    rewrite Hact. split; [tauto|].
    apply list_elem_of_lookup_1 in Hin as [i Hi].
    rewrite (heap_dispatched_queued _ _ _ _ i) by done.
    rewrite Hj. by eexists.
  - intros ? [= <-]. simpl.
    destruct (suspended s !! job) eqn:E; [|done].
    destruct Hna. left. by eexists.
  - intros job'. rewrite Hact, processing_dispatched by done.
    intros [Ha| ->].
    + destruct (inv_active _ Ha) as (j & Hj & Hst & Hp).
      assert (job' ≠ job) by (by intros ->).
      assert (job' ∉ rest).
      { intros Hin. destruct (inv_queued job') as [Hn _]; [|done].
        rewrite Hq. by right. }
      exists j. rewrite heap_dispatched_other by done.
      split_and!; [done..|]. rewrite lookup_insert_ne; [done|].
      unfold idOf. rewrite Hj0. intros Heq.
      by apply (ids_distinct _ _ _ _ _ _ Hinv Hj0 Hj) in Heq.
    + rewrite heap_dispatched_eq, Hj0 by done.
      eexists. split_and!; [done..|]. simpl.
      unfold idOf. rewrite Hj0. apply lookup_insert_eq.
  - intros k job'. rewrite processing_dispatched, idOf_dispatched by done.
    rewrite lookup_insert_Some, Hact.
    intros [[<- <-]|[Hne Hp]]; [by split; [right|]|].
    destruct (inv_processing _ _ Hp). split; [by left|done].
  - intros e. rewrite heap_dispatched, !length_alter,
      length_updatePositions_from.
    unfold dispatched, dispatch. simpl.
    intros [?| ->%list_elem_of_singleton]%elem_of_app; [by apply inv_effects|].
    simpl. by eapply lookup_lt_Some.
  - intros job'. rewrite Hlive, terminalsOf_dispatched. apply inv_unsettled.
  - intros job' j'. rewrite Hlive, terminalsOf_dispatched. intros Hj' Hnl.
    destruct (heap_dispatched_cases _ _ _ _ _ _ Hnd Hj')
      as (j & Hj & _ & _ & [[-> _]|[(_ & i & Hi & _)|(_ & _ & ->)]]).
    + destruct Hnl. left. rewrite Hq. by left.
    + destruct Hnl. left. rewrite Hq. right. by eapply list_elem_of_lookup_2.
    + by apply inv_settled.
  - intros i job' j' Hi. change (rest !! i = Some job') in Hi.
    rewrite (heap_dispatched_queued _ _ _ _ i) by done.
    destruct (heap s !! job'); [|done]. by intros [= <-].
  - done.
Qed.


Lemma enqueue_full payload now (s : State) :
  maxQueueSize config ≤ Z.of_nat (length (queue s)) →
  enqueue config payload now s = (inl capacityMessage, s).
Proof. intros. unfold enqueue. by rewrite decide_True. Qed.

Lemma enqueue_admitted payload now (s : State) :
  Z.of_nat (length (queue s)) < maxQueueSize config →
  enqueue config payload now s =
  (inr (length (heap s)), processNext config now (admitted payload now s)).
Proof. intros. unfold enqueue. rewrite decide_False by lia. reflexivity. Qed.

Lemma invariant_admitted payload now (s : State) :
  invariant config None s → invariant config None (admitted payload now s).
Proof.
  intros Hinv. pose proof Hinv as Hinv'. open_invariant Hinv'.
  set (job := length (heap s)).
  assert (Hfresh_q : job ∉ queue s).
  { intros Hin. destruct (inv_queued _ Hin) as (_ & j & Hj & _).
    apply lookup_lt_Some in Hj. unfold job in Hj. lia. }
  assert (Hfresh_a : ¬ active None s job).
  { intros Ha. destruct (inv_active _ Ha) as (j & Hj & _).
    apply lookup_lt_Some in Hj. unfold job in Hj. lia. }
  assert (Hset : ∀ job', terminalsOf job' (admitted payload now s)
                         = terminalsOf job' s).
  { intros job'. unfold terminalsOf, effectsOf. simpl.
    rewrite List.filter_app. simpl.
    case_bool_decide; rewrite ?List.filter_app; simpl; apply app_nil_r. }
  assert (Hlive : ∀ job', live None (admitted payload now s) job' ↔
                          live None s job' ∨ job' = job).
  { intros job'. unfold live, active. simpl.
    rewrite elem_of_app, list_elem_of_singleton. tauto. }
  assert (Hold : ∀ job' j, heap s !! job' = Some j →
                 heap (admitted payload now s) !! job' = Some j).
  { intros job' j Hj. simpl. by apply lookup_app_l_Some. }
  constructor.
  - simpl. apply NoDup_app. split_and!; [done| |apply NoDup_singleton].
    intros job' Hin ->%list_elem_of_singleton. done.
  - simpl. rewrite length_app. simpl. lia.
  - intros job' j. simpl. rewrite lookup_app_Some.
    intros [Hj|[Hge Hj]]; [by apply inv_ids|].
    apply list_lookup_singleton_Some in Hj as [Hz <-]. simpl.
    exists now. f_equal. lia.
  - intros job'. simpl queue. rewrite elem_of_app, list_elem_of_singleton.
    intros [Hin| ->].
    + destruct (inv_queued _ Hin) as (? & j & ? & ?). eauto.
    + split; [done|]. eexists. split.
      * simpl. rewrite lookup_app_r by done. by rewrite Nat.sub_diag.
      * done.
  - done.
  - intros job' Ha. destruct (inv_active _ Ha) as (j & Hj & ? & ?).
    exists j. eauto.
  - intros k job' Hp. destruct (inv_processing _ _ Hp) as [Ha Hk].
    split; [done|]. destruct (inv_active _ Ha) as (j & Hj & _).
    unfold idOf in *. rewrite (Hold _ _ Hj). by rewrite Hj in Hk.
  - intros e. simpl. rewrite !length_app. simpl.
    intros [?%inv_effects| ->%list_elem_of_singleton]%elem_of_app;
      simpl; lia.
  - intros job'. rewrite Hlive, Hset. intros [?| ->]; [by apply inv_unsettled|].
    unfold terminalsOf, effectsOf.
    rewrite (filter_none (λ e, bool_decide (effect_job e = job))); [done|].
    intros e He%inv_effects. apply bool_decide_eq_false. unfold job. lia.
  - intros job' j. rewrite Hlive, Hset. simpl. rewrite lookup_app_Some.
    intros [Hj|[Hge Hj]] Hnl; [apply inv_settled; tauto|].
    apply list_lookup_singleton_Some in Hj as [Hz _].
    destruct Hnl. right. unfold job. lia.
  - intros i job' j. simpl. rewrite !lookup_app_Some.
    intros [Hi|[Hge Hi]].
    + intros [Hj|[Hge' Hj]]; [by eapply inv_positions|].
      apply list_elem_of_lookup_2 in Hi.
      destruct (inv_queued _ Hi) as (_ & j' & Hj' & _).
      apply lookup_lt_Some in Hj'. lia.
    + apply list_lookup_singleton_Some in Hi as [Hz <-].
      intros [Hj|[Hge' Hj]]; [apply lookup_lt_Some in Hj; lia|].
      apply list_lookup_singleton_Some in Hj as [_ <-]. simpl. lia.
  - done.
Qed.


Lemma mutate_mutate job f g (s : State) :
  mutate job f (mutate job g s) = mutate job (f ∘ g) s.
Proof. unfold mutate, with_heap. simpl. by rewrite list_alter_alter_eq. Qed.

Lemma executeJob_exhausted_settled pn now job lastError (s : State) :
  executeJob_exhausted pn now job lastError s =
  pn (settled job
        (set_error (errorText lastError) ∘ set_completedAt now
           ∘ set_status failed)
        (Emit job (jobFailed (idOf job s) (errorText lastError)))
        (Reject job (rejection lastError)) s).
Proof.
  unfold executeJob_exhausted, settled, perform, mutate, idOf. simpl.
  rewrite !list_alter_alter_eq, !list_lookup_alter_eq.
  by destruct (heap s !! job).
Qed.

Lemma executeJob_succeeded_settled pn now job value (s : State) :
  executeJob_succeeded pn now job value s =
  pn (settled job
        (set_result value ∘ set_completedAt now ∘ set_status completed)
        (Emit job (jobCompleted (idOf job s) value))
        (Resolve job value) s).
Proof.
  unfold executeJob_succeeded, settled, perform, mutate, idOf. simpl.
  rewrite !list_alter_alter_eq, !list_lookup_alter_eq.
  by destruct (heap s !! job).
Qed.

Lemma invariant_exhausted (pn : State → State) now job lastError (s : State) :
  pass_ok config pn → invariant config (Some job) s →
  invariant config None (executeJob_exhausted pn now job lastError s).
Proof.
  intros Hpn Hinv. rewrite executeJob_exhausted_settled.
  apply Hpn, invariant_settled; try done.
  intros j Hj. split; [by eexists|]. right. split; [done|].
  exists lastError. unfold idOf. by rewrite Hj.
Qed.

Lemma invariant_succeeded (pn : State → State) now job value (s : State) :
  pass_ok config pn → invariant config (Some job) s →
  invariant config None (executeJob_succeeded pn now job value s).
Proof.
  intros Hpn Hinv. rewrite executeJob_succeeded_settled.
  apply Hpn, invariant_settled; try done.
  intros j Hj. split; [by eexists|]. left. split; [done|].
  exists value. unfold idOf. by rewrite Hj.
Qed.

Lemma invariant_iterate (pn : State → State) now job n lastError (s : State) :
  pass_ok config pn → 1 ≤ n → invariant config (Some job) s →
  invariant config None (executeJob_iterate config pn now job n lastError s).
Proof.
  intros Hpn Hn Hinv. unfold executeJob_iterate.
  case_decide; [|by apply invariant_exhausted].
  destruct (inv_active _ _ _ Hinv job) as (j & Hj & _); [by right|].
  rewrite Hj. apply lookup_lt_Some in Hj.
  apply invariant_suspend; [done..|].
  by repeat apply invariant_perform.
Qed.

Lemma invariant_caught (pn : State → State) now job n message (s : State) :
  pass_ok config pn → 1 ≤ n → invariant config (Some job) s →
  invariant config None (executeJob_caught config pn now job n message s).
Proof.
  intros Hpn Hn Hinv. unfold executeJob_caught.
  case_decide; [|apply invariant_iterate; [done|lia|done]].
  destruct (inv_active _ _ _ Hinv job) as (j & Hj & _); [by right|].
  apply lookup_lt_Some in Hj.
  apply invariant_suspend; simpl; [lia|by eauto|].
  by apply invariant_perform.
Qed.

Lemma pass_ok_guarded (loop : State → State) :
  pass_ok config loop → pass_ok config (processNext_guarded loop).
Proof.
  intros Hloop s Hinv. unfold processNext_guarded.
  destruct (isProcessing s); [done|].
  by apply invariant_with_isProcessing, Hloop, invariant_with_isProcessing.
Qed.

Lemma pass_ok_loop fuel now :
  pass_ok (T:=T) (R:=R) config (processNext_loop config fuel now).
Proof.
  induction fuel as [|fuel IH]; intros s Hinv; simpl; [done|].
  case_decide; [|done].
  destruct (queue s) as [|job rest] eqn:Hq; [done|].
  rewrite dispatch_dispatched. apply IH.
  apply invariant_iterate; [by apply pass_ok_guarded|done|].
  by apply invariant_dispatched.
Qed.

Lemma pass_ok_processNext now :
  pass_ok (T:=T) (R:=R) config (processNext config now).
Proof. intros s Hinv. by apply pass_ok_guarded; [apply pass_ok_loop|]. Qed.

Lemma invariant_settling now job n outcome (s : State) :
  invariant config None s →
  invariant config None (withTimeout_settled config now job n outcome s).
Proof.
  intros Hinv. unfold withTimeout_settled.
  destruct (suspended s !! job) as [a|] eqn:Ha; [|done].
  destruct (waiting a); [|done]. case_decide; [|done].
  destruct (inv_activation _ _ _ Hinv _ _ Ha) as [? _].
  assert (invariant config (Some job) (finish job s))
    by by apply invariant_finish.
  destruct outcome.
  - apply invariant_succeeded; [apply pass_ok_processNext|done].
  - apply invariant_caught; [apply pass_ok_processNext|lia|done].
Qed.

Lemma invariant_step now i (s : State) :
  invariant config None s → invariant config None (step config now i s).
Proof.
  intros Hinv. destruct i as [payload|job n outcome|job n|job n]; simpl.
  - destruct (decide (maxQueueSize config ≤ Z.of_nat (length (queue s)))).
    + by rewrite enqueue_full.
    + rewrite enqueue_admitted by lia.
      by apply pass_ok_processNext, invariant_admitted.
  - by apply invariant_settling.
  - by apply invariant_settling.
  - unfold sleep_finished.
    destruct (suspended s !! job) as [a|] eqn:Ha; [|done].
    destruct (waiting a); [done|]. case_decide; [|done].
    destruct (inv_activation _ _ _ Hinv _ _ Ha) as [? _].
    apply invariant_iterate; [apply pass_ok_processNext|lia|].
    by apply invariant_finish.
Qed.

Lemma invariant_initial : invariant config None (@initial T R).
Proof.
  constructor; simpl.
  - apply NoDup_nil_2.
  - done.
  - intros job j. by rewrite lookup_nil.
  - intros job []%elem_of_nil.
  - done.
  - by intros job [[a Ha]|?].
  - by intros k job.
  - intros e []%elem_of_nil.
  - done.
  - intros job j. by rewrite lookup_nil.
  - intros i job j. by rewrite lookup_nil.
  - by intros job a.
Qed.

Lemma reachable_invariant (s : State) :
  reachable config s → invariant config None s.
Proof.
  induction 1; [apply invariant_initial|by apply invariant_step].
Qed.

End Invariant.

(** ** The dispatch pass leaves nothing to dispatch *)

Section Control.
Context {T R : Type}.
Variable config : QueueConfig.
#[local] Abbreviation State := (State T R).

(** How the pieces of [executeJob] end: suspended, with the wait list, the
    active set and the flag as they were, or in the dispatch pass after
    the job has left the active set. *)
Lemma executeJob_exhausted_post (Q : State → Prop) (pn : State → State)
    now job lastError (s : State) :
  (∀ s', queue s' = queue s → isProcessing s' = isProcessing s → Q (pn s')) →
  Q (executeJob_exhausted pn now job lastError s).
Proof. intros H. by apply H. Qed.

Lemma executeJob_succeeded_post (Q : State → Prop) (pn : State → State)
    now job value (s : State) :
  (∀ s', queue s' = queue s → isProcessing s' = isProcessing s → Q (pn s')) →
  Q (executeJob_succeeded pn now job value s).
Proof. intros H. by apply H. Qed.

Lemma executeJob_iterate_post (Q : State → Prop) (pn : State → State)
    now job n lastError (s : State) :
  (∀ s', queue s' = queue s → processing s' = processing s →
         isProcessing s' = isProcessing s → Q s') →
  (∀ s', queue s' = queue s → isProcessing s' = isProcessing s → Q (pn s')) →
  Q (executeJob_iterate config pn now job n lastError s).
Proof.
  intros H1 H2. unfold executeJob_iterate.
  case_decide; [|by apply executeJob_exhausted_post].
  destruct (heap s !! job); by apply H1.
Qed.

Lemma executeJob_caught_post (Q : State → Prop) (pn : State → State)
    now job n message (s : State) :
  (∀ s', queue s' = queue s → processing s' = processing s →
         isProcessing s' = isProcessing s → Q s') →
  (∀ s', queue s' = queue s → isProcessing s' = isProcessing s → Q (pn s')) →
  Q (executeJob_caught config pn now job n message s).
Proof.
  intros H1 H2. unfold executeJob_caught.
  case_decide; [by apply H1|by apply executeJob_iterate_post].
Qed.

Lemma processNext_guarded_running (loop : State → State) (s : State) :
  isProcessing s = true → processNext_guarded loop s = s.
Proof. intros H. unfold processNext_guarded. by rewrite H. Qed.

Lemma executeJob_iterate_running (loop : State → State) now job n lastError
    (s : State) :
  isProcessing s = true →
  executeJob_iterate config (processNext_guarded loop) now job n lastError s
  = executeJob_iterate config (λ s, s) now job n lastError s.
Proof.
  intros Hflag. unfold executeJob_iterate. case_decide; [done|].
  unfold executeJob_exhausted. by rewrite processNext_guarded_running.
Qed.

Lemma processNext_loop_saturates fuel now (s : State) :
  isProcessing s = true → (length (queue s) ≤ fuel)%nat →
  isProcessing (processNext_loop config fuel now s) = true
  ∧ saturated config (processNext_loop config fuel now s).
Proof.
  revert s. induction fuel as [|fuel IH]; intros s Hflag Hlen; simpl.
  - split; [done|]. left. destruct (queue s); [done|simpl in Hlen; lia].
  - case_decide as Hc.
    + destruct (queue s) as [|job rest] eqn:Hq; [simpl in Hc; lia|].
      rewrite dispatch_dispatched. unfold executeJob.
      apply (executeJob_iterate_post (λ s', isProcessing
               (processNext_loop config fuel now s') = true
             ∧ saturated config (processNext_loop config fuel now s'))).
      * intros s' Hq' _ Hf'. apply IH; [by rewrite Hf'|].
        rewrite Hq'. simpl in *. lia.
      * intros s' Hq' Hf'. rewrite processNext_guarded_running by by rewrite Hf'.
        apply IH; [by rewrite Hf'|]. rewrite Hq'. simpl in *. lia.
    + split; [done|]. unfold saturated.
      destruct (queue s); [by left|right]. simpl in Hc. lia.
Qed.

Lemma processNext_quiescent now (s : State) :
  isProcessing s = false → quiescent config (processNext config now s).
Proof.
  intros Hflag. unfold processNext, processNext_guarded. rewrite Hflag.
  destruct (processNext_loop_saturates (length (queue s)) now
              (with_isProcessing true s)) as [_ Hsat]; [done..|].
  split; [done|]. exact Hsat.
Qed.

Lemma quiescent_same (s s' : State) :
  queue s' = queue s → processing s' = processing s →
  isProcessing s' = isProcessing s → quiescent config s → quiescent config s'.
Proof. unfold quiescent, saturated. by intros -> -> ->. Qed.

Lemma quiescent_step now i (s : State) :
  quiescent config s → quiescent config (step config now i s).
Proof.
  intros Hq. pose proof Hq as [Hflag _].
  assert (Hsame : ∀ s' : State, queue s' = queue s → processing s' = processing s →
            isProcessing s' = isProcessing s → quiescent config s').
  { intros s' ???. by eapply quiescent_same. }
  destruct i as [payload|job n outcome|job n|job n]; simpl.
  - destruct (decide (maxQueueSize config ≤ Z.of_nat (length (queue s)))).
    + by rewrite enqueue_full.
    + rewrite enqueue_admitted by lia. by apply processNext_quiescent.
  - unfold withTimeout_settled.
    destruct (suspended s !! job) as [a|]; [|done].
    destruct (waiting a); [|done]. case_decide; [|done].
    destruct outcome.
    + apply executeJob_succeeded_post. intros s' _ Hf.
      apply processNext_quiescent. by rewrite Hf.
    + apply executeJob_caught_post; [done|].
      intros s' _ Hf. apply processNext_quiescent. by rewrite Hf.
  - unfold withTimeout_settled.
    destruct (suspended s !! job) as [a|]; [|done].
    destruct (waiting a); [|done]. case_decide; [|done].
    apply executeJob_caught_post; [done|].
    intros s' _ Hf. apply processNext_quiescent. by rewrite Hf.
  - unfold sleep_finished.
    destruct (suspended s !! job) as [a|]; [|done].
    destruct (waiting a); [done|]. case_decide; [|done].
    apply executeJob_iterate_post; [done|].
    intros s' _ Hf. apply processNext_quiescent. by rewrite Hf.
Qed.

Lemma reachable_quiescent (s : State) :
  reachable config s → quiescent config s.
Proof.
  induction 1; [|by apply quiescent_step].
  split; [done|by left].
Qed.

End Control.

(** ** Transitions of other jobs leave a job alone *)

Section Frame.
Context {T R : Type}.
Variable config : QueueConfig.
#[local] Abbreviation State := (State T R).
#[local] Abbreviation QueueJob := (QueueJob T R).
#[local] Abbreviation Effect := (Effect T R).

Lemma untouched_refl job (s : State) : untouched job s s.
Proof. by intros ??. Qed.

Lemma untouched_trans job (s1 s2 s3 : State) :
  untouched job s1 s2 → untouched job s2 s3 → untouched job s1 s3.
Proof.
  intros H12 H23 Hq Hh. destruct (H12 Hq Hh) as (Hq2 & Hs2 & Hh2 & He2).
  destruct H23 as (Hq3 & Hs3 & Hh3 & He3); [done|by rewrite Hh2|].
  split_and!; [done|congruence..].
Qed.

Lemma seen_untouched job (s s' : State) o j E :
  untouched job s s' → seen job s o j E → seen job s' o j E.
Proof.
  intros Hu (Hq & Hs & Hh & He). destruct Hu as (Hq' & Hs' & Hh' & He');
    [done|by rewrite Hh|].
  split_and!; [done|congruence..].
Qed.

(** The same wait list, and nothing else of [job] changed either. *)
Lemma untouched_same job (s s' : State) :
  queue s' = queue s → suspended s' !! job = suspended s !! job →
  heap s' !! job = heap s !! job → effectsOf job s' = effectsOf job s →
  untouched job s s'.
Proof. intros Hq ??? ? _. by rewrite Hq. Qed.

Lemma effectsOf_perform_ne job (e : Effect) (s : State) :
  effect_job e ≠ job → effectsOf job (perform e s) = effectsOf job s.
Proof.
  intros. rewrite effectsOf_perform, decide_False by done. apply app_nil_r.
Qed.

Lemma untouched_settled job job' f ev e (s : State) :
  job' ≠ job → effect_job ev = job' → effect_job e = job' →
  untouched job s (settled job' f ev e s).
Proof.
  intros Hne Hev He. apply untouched_same; [done..| |].
  - rewrite heap_settled. by apply heap_mutate_ne.
  - unfold settled. rewrite !effectsOf_perform_ne by congruence. done.
Qed.

Lemma untouched_exhausted job (pn : State → State) now job' lastError (s : State) :
  job' ≠ job → pass_untouched job pn →
  untouched job s (executeJob_exhausted pn now job' lastError s).
Proof.
  intros Hne Hpn. rewrite executeJob_exhausted_settled.
  eapply untouched_trans; [|apply Hpn]. by apply untouched_settled.
Qed.

Lemma untouched_succeeded job (pn : State → State) now job' value (s : State) :
  job' ≠ job → pass_untouched job pn →
  untouched job s (executeJob_succeeded pn now job' value s).
Proof.
  intros Hne Hpn. rewrite executeJob_succeeded_settled.
  eapply untouched_trans; [|apply Hpn]. by apply untouched_settled.
Qed.

Lemma untouched_iterate job (pn : State → State) now job' n lastError (s : State) :
  job' ≠ job → pass_untouched job pn →
  untouched job s (executeJob_iterate config pn now job' n lastError s).
Proof.
  intros Hne Hpn. unfold executeJob_iterate.
  case_decide; [|by apply untouched_exhausted].
  destruct (heap s !! job') as [j'|]; [|apply untouched_refl].
  apply untouched_same; [done| |done|].
  - simpl. by rewrite lookup_insert_ne.
  - unfold suspend. change (effectsOf job (with_suspended ?m ?s))
      with (effectsOf job s).
    by rewrite !effectsOf_perform_ne.
Qed.

Lemma untouched_caught job (pn : State → State) now job' n message (s : State) :
  job' ≠ job → pass_untouched job pn →
  untouched job s (executeJob_caught config pn now job' n message s).
Proof.
  intros Hne Hpn. unfold executeJob_caught.
  case_decide; [|by apply untouched_iterate].
  apply untouched_same; [done| |done|].
  - simpl. by rewrite lookup_insert_ne.
  - unfold suspend. change (effectsOf job (with_suspended ?m ?s))
      with (effectsOf job s).
    by rewrite !effectsOf_perform_ne.
Qed.

Lemma untouched_finish job job' (s : State) :
  job' ≠ job → untouched job s (finish job' s).
Proof.
  intros. apply untouched_same; [done| |done..].
  simpl. by rewrite lookup_delete_ne.
Qed.

Lemma untouched_with_isProcessing job b (s : State) :
  untouched job s (with_isProcessing b s).
Proof. by apply untouched_same. Qed.

Lemma pass_untouched_guarded job (loop : State → State) :
  pass_untouched job loop → pass_untouched job (processNext_guarded loop).
Proof.
  intros Hloop s. unfold processNext_guarded.
  destruct (isProcessing s); [apply untouched_refl|].
  eapply untouched_trans; [apply untouched_with_isProcessing|].
  eapply untouched_trans; [apply Hloop|apply untouched_with_isProcessing].
Qed.

Lemma untouched_dispatched job now job' rest (s : State) :
  queue s = job' :: rest → untouched job s (dispatched now job' rest s).
Proof.
  intros Hq Hn Hh. rewrite Hq in Hn.
  apply not_elem_of_cons in Hn as [Hne Hn].
  split_and!; [done|done| |].
  - by apply heap_dispatched_other.
  - unfold dispatched, dispatch. by rewrite effectsOf_perform_ne.
Qed.

Lemma pass_untouched_loop job fuel now :
  pass_untouched (T:=T) (R:=R) job (processNext_loop config fuel now).
Proof.
  induction fuel as [|fuel IH]; intros s; simpl; [apply untouched_refl|].
  case_decide; [|apply untouched_refl].
  destruct (queue s) as [|job' rest] eqn:Hq; [apply untouched_refl|].
  intros Hn Hh.
  assert (job' ≠ job) by (intros ->; apply Hn; rewrite Hq; by left).
  revert Hn Hh. change (untouched job s
    (processNext_loop config fuel now
       (dispatch (executeJob config
          (processNext_guarded (processNext_loop config fuel now)) now)
          now job' rest s))).
  rewrite dispatch_dispatched.
  eapply untouched_trans; [by apply untouched_dispatched|].
  eapply untouched_trans; [|apply IH].
  apply untouched_iterate; [done|]. by apply pass_untouched_guarded.
Qed.

Lemma pass_untouched_processNext job now :
  pass_untouched (T:=T) (R:=R) job (processNext config now).
Proof. intros s. apply pass_untouched_guarded, pass_untouched_loop. Qed.

Lemma untouched_admitted job payload now (s : State) :
  untouched job s (admitted payload now s).
Proof.
  intros Hn [j Hj]. split_and!.
  - simpl. rewrite elem_of_app, list_elem_of_singleton.
    intros [?| ->]; [done|]. apply lookup_lt_Some in Hj. lia.
  - done.
  - simpl. rewrite Hj. by apply lookup_app_l_Some.
  - unfold effectsOf. simpl. rewrite List.filter_app. simpl.
    rewrite bool_decide_eq_false_2; [apply app_nil_r|].
    apply lookup_lt_Some in Hj. lia.
Qed.

Lemma untouched_step job now i (s : State) :
  about job i = false → untouched job s (step config now i s).
Proof.
  intros Hi. destruct i as [payload|job' n outcome|job' n|job' n]; simpl in *.
  - destruct (decide (maxQueueSize config ≤ Z.of_nat (length (queue s)))).
    + rewrite enqueue_full by done. apply untouched_refl.
    + rewrite enqueue_admitted by lia.
      eapply untouched_trans; [apply untouched_admitted|].
      apply pass_untouched_processNext.
  - apply bool_decide_eq_false in Hi. unfold withTimeout_settled.
    destruct (suspended s !! job') as [a|]; [|apply untouched_refl].
    destruct (waiting a); [|apply untouched_refl].
    case_decide; [|apply untouched_refl].
    eapply untouched_trans; [by apply (untouched_finish job job')|].
    destruct outcome.
    + apply untouched_succeeded; [done|apply pass_untouched_processNext].
    + apply untouched_caught; [done|apply pass_untouched_processNext].
  - apply bool_decide_eq_false in Hi. unfold withTimeout_settled.
    destruct (suspended s !! job') as [a|]; [|apply untouched_refl].
    destruct (waiting a); [|apply untouched_refl].
    case_decide; [|apply untouched_refl].
    eapply untouched_trans; [by apply (untouched_finish job job')|].
    apply untouched_caught; [done|apply pass_untouched_processNext].
  - apply bool_decide_eq_false in Hi. unfold sleep_finished.
    destruct (suspended s !! job') as [a|]; [|apply untouched_refl].
    destruct (waiting a); [apply untouched_refl|].
    case_decide; [|apply untouched_refl].
    eapply untouched_trans; [by apply (untouched_finish job job')|].
    apply untouched_iterate; [done|apply pass_untouched_processNext].
Qed.

Lemma run_app (l1 l2 : list (N * Input)) (s : State) :
  run config (l1 ++ l2) s = run config l2 (run config l1 s).
Proof. unfold run. apply foldl_app. Qed.

Lemma run_cons now i (l : list (N * Input)) (s : State) :
  run config ((now, i) :: l) s = run config l (step config now i s).
Proof. reflexivity. Qed.

Lemma untouched_run job (inputs : list (N * Input)) (s : State) :
  Forall (λ x, about job x.2 = false) inputs →
  untouched job s (run config inputs s).
Proof.
  revert s. induction inputs as [|[now i] inputs IH]; intros s Hall.
  - apply untouched_refl.
  - apply Forall_cons in Hall as [Hi Hall]. rewrite run_cons.
    eapply untouched_trans; [by apply untouched_step|by apply IH].
Qed.

Lemma reachable_run (inputs : list (N * Input)) (s : State) :
  reachable config s → reachable config (run config inputs s).
Proof.
  revert s. induction inputs as [|[now i] inputs IH]; intros s Hs; [done|].
  rewrite run_cons. apply IH. by constructor.
Qed.

End Frame.

(** ** The transitions of one job *)

Section JobSteps.
Context {T R : Type}.
Variable config : QueueConfig.
#[local] Abbreviation State := (State T R).
#[local] Abbreviation QueueJob := (QueueJob T R).
#[local] Abbreviation Effect := (Effect T R).

Lemma step_failure_input now job n f (s : State) :
  step config now (failure_input job n f) s =
  withTimeout_settled config now job n (inr (failure_message f)) s.
Proof. by destruct f. Qed.

Lemma withTimeout_settled_awaited now job n lastError outcome (s : State) :
  suspended s !! job =
    Some {| attempt := n; lastError := lastError; waiting := forAttempt |} →
  withTimeout_settled config now job n outcome s =
  match outcome with
  | inl value =>
      executeJob_succeeded (processNext config now) now job value (finish job s)
  | inr message =>
      executeJob_caught config (processNext config now) now job n message
        (finish job s)
  end.
Proof.
  intros Ha. unfold withTimeout_settled. rewrite Ha. simpl.
  by rewrite decide_True.
Qed.

Lemma sleep_finished_awaited now job n lastError (s : State) :
  suspended s !! job =
    Some {| attempt := n; lastError := lastError; waiting := forSleep |} →
  sleep_finished config now job n s =
  executeJob_iterate config (processNext config now) now job (n + 1) lastError
    (finish job s).
Proof.
  intros Ha. unfold sleep_finished. rewrite Ha. simpl.
  by rewrite decide_True.
Qed.

Lemma seen_settled job f ev e (s : State) o j E :
  effect_job ev = job → effect_job e = job →
  seen job s o j E →
  seen job (settled job f ev e (finish job s)) None (f j) (E ++ [ev; e]).
Proof.
  intros Hev He (Hq & Hs & Hh & HE). split_and!.
  - done.
  - simpl. apply lookup_delete_eq.
  - rewrite heap_settled, heap_mutate, decide_True by done.
    change (heap (finish job s)) with (heap s). by rewrite Hh.
  - unfold settled. rewrite !effectsOf_perform, !decide_True by done.
    change (effectsOf job (with_processing ?m ?s)) with (effectsOf job s).
    change (effectsOf job (mutate ?a ?b ?s)) with (effectsOf job s).
    change (effectsOf job (finish ?a ?s)) with (effectsOf job s).
    rewrite HE. by rewrite <-app_assoc.
Qed.

Lemma idOf_seen job (s : State) o j E :
  seen job s o j E → idOf job s = id j.
Proof. intros (_ & _ & Hh & _). unfold idOf. by rewrite Hh. Qed.

(** The attempt succeeds. *)
Lemma step_succeeded now job n lastError value (s : State) j E :
  seen job s
    (Some {| attempt := n; lastError := lastError; waiting := forAttempt |})
    j E →
  seen job (step config now (ProcessorSettled job n (inl value)) s) None
    (set_result value (set_completedAt now (set_status completed j)))
    (E ++ [Emit job (jobCompleted (id j) value); Resolve job value]).
Proof.
  intros Hseen. pose proof Hseen as (_ & Ha & _). simpl.
  rewrite (withTimeout_settled_awaited _ _ _ _ _ _ Ha).
  rewrite executeJob_succeeded_settled.
  eapply seen_untouched; [apply pass_untouched_processNext|].
  change (idOf job (finish job s)) with (idOf job s).
  rewrite (idOf_seen _ _ _ _ _ Hseen).
  by eapply (seen_settled job
    (set_result value ∘ set_completedAt now ∘ set_status completed)).
Qed.

(** The attempt fails and attempts remain: back off. *)
Lemma step_retry now job n lastError f (s : State) j E :
  n < retryAttempts config →
  seen job s
    (Some {| attempt := n; lastError := lastError; waiting := forAttempt |})
    j E →
  seen job (step config now (failure_input job n f) s)
    (Some {| attempt := n; lastError := Some (failure_message f);
             waiting := forSleep |})
    j
    (E ++ [StartSleep job n (backoffDelay config n (failure_message f))]).
Proof.
  intros Hn Hseen. pose proof Hseen as (Hq & Ha & Hh & HE).
  rewrite step_failure_input, (withTimeout_settled_awaited _ _ _ _ _ _ Ha).
  unfold executeJob_caught. rewrite decide_True by done.
  split_and!; [done| |done|].
  - simpl. apply lookup_insert_eq.
  - unfold suspend. change (effectsOf job (with_suspended ?m ?s))
      with (effectsOf job s).
    rewrite effectsOf_perform, decide_True by done.
    change (effectsOf job (finish ?a ?s)) with (effectsOf job s).
    by rewrite HE.
Qed.

(** The attempt fails and it was the last one. *)
Lemma step_exhausted now job n lastError f (s : State) j E :
  retryAttempts config ≤ n →
  seen job s
    (Some {| attempt := n; lastError := lastError; waiting := forAttempt |})
    j E →
  seen job (step config now (failure_input job n f) s) None
    (set_error (errorText (Some (failure_message f)))
       (set_completedAt now (set_status failed j)))
    (E ++ [Emit job (jobFailed (id j) (errorText (Some (failure_message f))));
           Reject job (failure_message f)]).
Proof.
  intros Hn Hseen. pose proof Hseen as (Hq & Ha & Hh & HE).
  rewrite step_failure_input, (withTimeout_settled_awaited _ _ _ _ _ _ Ha).
  unfold executeJob_caught. rewrite decide_False by lia.
  unfold executeJob_iterate. rewrite decide_False by lia.
  rewrite executeJob_exhausted_settled.
  eapply seen_untouched; [apply pass_untouched_processNext|].
  change (idOf job (finish job s)) with (idOf job s).
  rewrite (idOf_seen _ _ _ _ _ Hseen).
  by eapply (seen_settled job
    (set_error (errorText (Some (failure_message f))) ∘ set_completedAt now
       ∘ set_status failed)).
Qed.

(** The back-off sleep ends: the next attempt starts. *)
Lemma step_sleep_finished now job n lastError (s : State) j E :
  n + 1 ≤ retryAttempts config →
  seen job s
    (Some {| attempt := n; lastError := lastError; waiting := forSleep |})
    j E →
  seen job (step config now (SleepFinished job n) s)
    (Some {| attempt := n + 1; lastError := lastError;
             waiting := forAttempt |})
    j
    (E ++ [CallProcessor job (data j) (n + 1);
           StartTimeout job (n + 1) (jobTimeout config)]).
Proof.
  intros Hn Hseen. pose proof Hseen as (Hq & Ha & Hh & HE). simpl.
  rewrite (sleep_finished_awaited _ _ _ _ _ Ha).
  unfold executeJob_iterate. rewrite decide_True by done.
  change (heap (finish job s)) with (heap s). rewrite Hh.
  split_and!; [done| |done|].
  - simpl. apply lookup_insert_eq.
  - unfold suspend. change (effectsOf job (with_suspended ?m ?s))
      with (effectsOf job s).
    rewrite !effectsOf_perform, !decide_True by done.
    change (effectsOf job (finish ?a ?s)) with (effectsOf job s).
    rewrite HE. by rewrite <-app_assoc.
Qed.

End JobSteps.

(** ** Runs of one job among the others *)

Section Scripts.
Context {T R : Type}.
Variable config : QueueConfig.
#[local] Abbreviation State := (State T R).
#[local] Abbreviation QueueJob := (QueueJob T R).
#[local] Abbreviation Effect := (Effect T R).
#[local] Abbreviation Input := (@Input T R).

Lemma addressed_nil job : addressed (T:=T) (R:=R) job [] = [].
Proof. done. Qed.

Lemma addressed_cons job now (i : Input) inputs :
  addressed job ((now, i) :: inputs) =
  if about job i then i :: addressed job inputs else addressed job inputs.
Proof. unfold addressed. simpl. by destruct (about job i). Qed.

Lemma addressed_none job (inputs : list (N * Input)) :
  addressed job inputs = [] →
  Forall (λ x, about job x.2 = false) inputs.
Proof.
  induction inputs as [|[now i] inputs IH]; [by constructor|].
  rewrite addressed_cons. destruct (about job i) eqn:Hi; [done|].
  intros H. constructor; [done|by apply IH].
Qed.

Lemma addressed_split job (inputs : list (N * Input)) i rest :
  addressed job inputs = i :: rest →
  ∃ l1 now l2, inputs = l1 ++ (now, i) :: l2
    ∧ Forall (λ x, about job x.2 = false) l1
    ∧ addressed job l2 = rest.
Proof.
  induction inputs as [|[now i'] inputs IH]; [done|].
  rewrite addressed_cons. destruct (about job i') eqn:Hi.
  - intros [= -> <-]. by exists [], now, inputs.
  - intros (l1 & now' & l2 & -> & Hl1 & Hl2)%IH.
    exists ((now, i') :: l1), now', l2. split_and!; [done| |done].
    by constructor.
Qed.

Lemma run_retries job j fs : ∀ n lastError (inputs : list (N * Input)) tail
    (s : State) E,
  seen job s
    (Some {| attempt := n; lastError := lastError; waiting := forAttempt |})
    j E →
  n + Z.of_nat (length fs) ≤ retryAttempts config →
  addressed job inputs = retries job n fs ++ tail →
  ∃ l1 l2 lastError',
    inputs = l1 ++ l2 ∧ addressed job l2 = tail
    ∧ seen job (run config l1 s)
        (Some {| attempt := n + Z.of_nat (length fs);
                 lastError := lastError'; waiting := forAttempt |})
        j (E ++ retry_effects config job (data j) n fs).
Proof.
  induction fs as [|f fs IH]; intros n lastError inputs tail s E Hseen Hn Hin.
  - exists [], inputs, lastError. simpl.
    rewrite Z.add_0_r, app_nil_r. done.
  - simpl in Hin, Hn.
    apply addressed_split in Hin as (la & now1 & l2a & -> & Hla & Hin).
    apply addressed_split in Hin as (lb & now2 & l2b & -> & Hlb & Hin).
    pose proof (seen_untouched _ _ _ _ _ _
                  (untouched_run config job la s Hla) Hseen) as Hs1.
    apply (step_retry config now1 _ _ _ f) in Hs1; [|lia].
    pose proof (seen_untouched _ _ _ _ _ _
                  (untouched_run config job lb _ Hlb) Hs1) as Hs2.
    apply (step_sleep_finished config now2) in Hs2; [|lia].
    destruct (IH _ _ _ _ _ _ Hs2 ltac:(lia) Hin)
      as (lc & l2 & lastError' & -> & Htail & Hs3).
    exists (la ++ (now1, failure_input job n f) :: lb
              ++ (now2, SleepFinished job n) :: lc), l2, lastError'.
    split_and!.
    + by rewrite <-!app_assoc, <-!app_comm_cons, <-!app_assoc.
    + done.
    + rewrite !run_app, run_cons, run_app, run_cons.
      replace (n + Z.of_nat (length (f :: fs)))
        with (n + 1 + Z.of_nat (length fs)) by (simpl; lia).
      simpl retry_effects.
      by rewrite <-!app_assoc in Hs3.
Qed.

Lemma terminal_retry_effects job (payload : T) n fs :
  List.filter (is_terminal (R:=R)) (retry_effects config job payload n fs) = [].
Proof. revert n. induction fs as [|f fs IH]; intros n; simpl; auto. Qed.

Lemma sleeps_retry_effects job (payload : T) n fs :
  length (List.filter (is_sleep (R:=R)) (retry_effects config job payload n fs))
  = length fs.
Proof. revert n. induction fs as [|f fs IH]; intros n; simpl; auto. Qed.

Lemma attemptsCalled_retry_effects job (payload : T) n fs :
  attemptsCalled (R:=R) (retry_effects config job payload n fs)
  = seqZ (n + 1) (Z.of_nat (length fs)).
Proof.
  revert n. induction fs as [|f fs IH]; intros n; [done|].
  simpl length. rewrite Nat2Z.inj_succ, seqZ_cons by lia.
  simpl. rewrite IH. do 2 f_equal. lia.
Qed.

Lemma seen_active (s : State) job a j :
  reachable config s → suspended s !! job = Some a → heap s !! job = Some j →
  seen job s (Some a) j (effectsOf job s).
Proof.
  intros Hr%reachable_invariant Ha Hj. split_and!; try done.
  intros Hq. destruct (inv_queued _ _ _ Hr _ Hq) as [Hn _].
  apply Hn. left. by eexists.
Qed.

Lemma reachable_not_processing (s : State) job :
  reachable config s → suspended s !! job = None →
  ∀ k, processing s !! k ≠ Some job.
Proof.
  intros Hr%reachable_invariant Hs k Hk.
  destruct (inv_processing _ _ _ Hr _ _ Hk) as [[[a Ha]|?] _]; congruence.
Qed.

Lemma terminalsOf_app job (s s' : State) l :
  effectsOf job s' = effectsOf job s ++ l →
  terminalsOf job s' = terminalsOf job s ++ List.filter is_terminal l.
Proof. unfold terminalsOf. intros ->. apply List.filter_app. Qed.

End Scripts.

(** ** The timeout race *)

Section Race.
Context {T R : Type}.
Variable config : QueueConfig.
#[local] Abbreviation State := (State T R).
#[local] Abbreviation QueueJob := (QueueJob T R).
#[local] Abbreviation Effect := (Effect T R).
#[local] Abbreviation Input := (@Input T R).

Lemma raced_app (l1 l2 : list Effect) :
  raced config l1 = true → raced config l2 = true →
  raced config (l1 ++ l2) = true.
Proof.
  intros H1 H2. induction l1 as [|e l1 IH]; [done|].
  destruct e; simpl in *; auto.
  destruct l1 as [|e' l1]; [done|].
  apply andb_true_iff in H1 as [H1 H1'].
  apply andb_true_iff. split; [|by apply IH].
  by destruct e'.
Qed.

Lemma raced_perform (e : Effect) (s : State) :
  raced config [e] = true → raced config (effects s) = true →
  raced config (effects (perform e s)) = true.
Proof. intros. by apply raced_app. Qed.

Lemma raced_exhausted (pn : State → State) now job lastError :
  keeps_raced config pn → keeps_raced config (executeJob_exhausted pn now job lastError).
Proof. intros Hpn s Hs. apply Hpn. by repeat apply raced_perform. Qed.

Lemma raced_succeeded (pn : State → State) now job value :
  keeps_raced config pn → keeps_raced config (executeJob_succeeded pn now job value).
Proof. intros Hpn s Hs. apply Hpn. by repeat apply raced_perform. Qed.

Lemma raced_iterate (pn : State → State) now job n lastError :
  keeps_raced config pn → keeps_raced config (executeJob_iterate config pn now job n lastError).
Proof.
  intros Hpn s Hs. unfold executeJob_iterate.
  case_decide; [|by apply raced_exhausted].
  destruct (heap s !! job) as [j|]; [|done]. simpl.
  rewrite <-app_assoc. apply raced_app; [done|]. simpl.
  by rewrite bool_decide_eq_true_2.
Qed.

Lemma raced_caught (pn : State → State) now job n message :
  keeps_raced config pn → keeps_raced config (executeJob_caught config pn now job n message).
Proof.
  intros Hpn s Hs. unfold executeJob_caught.
  case_decide; [by apply raced_perform|by apply raced_iterate].
Qed.

Lemma raced_guarded (loop : State → State) :
  keeps_raced config loop → keeps_raced config (processNext_guarded loop).
Proof.
  intros Hloop s Hs. unfold processNext_guarded.
  destruct (isProcessing s); [done|]. by apply (Hloop (with_isProcessing true s)).
Qed.

Lemma raced_loop fuel now :
  keeps_raced (T:=T) (R:=R) config (processNext_loop config fuel now).
Proof.
  induction fuel as [|fuel IH]; intros s Hs; simpl; [done|].
  case_decide; [|done].
  destruct (queue s) as [|job rest]; [done|].
  apply IH. rewrite dispatch_dispatched.
  apply raced_iterate; [by apply raced_guarded|].
  unfold dispatched, dispatch. by apply raced_perform.
Qed.

Lemma raced_processNext now :
  keeps_raced (T:=T) (R:=R) config (processNext config now).
Proof.
  intros s Hs. unfold processNext.
  apply raced_guarded; [apply raced_loop|done].
Qed.

Lemma raced_step now i :
  keeps_raced (T:=T) (R:=R) config (step config now i).
Proof.
  intros s Hs. destruct i as [payload|job n outcome|job n|job n]; simpl.
  - destruct (decide (maxQueueSize config ≤ Z.of_nat (length (queue s)))).
    + by rewrite enqueue_full.
    + rewrite enqueue_admitted by lia. apply raced_processNext.
      simpl. by apply raced_app.
  - unfold withTimeout_settled.
    destruct (suspended s !! job) as [a|]; [|done].
    destruct (waiting a); [|done]. case_decide; [|done].
    destruct outcome.
    + by apply raced_succeeded; [apply raced_processNext|].
    + by apply raced_caught; [apply raced_processNext|].
  - unfold withTimeout_settled.
    destruct (suspended s !! job) as [a|]; [|done].
    destruct (waiting a); [|done]. case_decide; [|done].
    by apply raced_caught; [apply raced_processNext|].
  - unfold sleep_finished.
    destruct (suspended s !! job) as [a|]; [|done].
    destruct (waiting a); [done|]. case_decide; [|done].
    by apply raced_iterate; [apply raced_processNext|].
Qed.

Lemma reachable_raced (s : State) :
  reachable config s → raced config (effects s) = true.
Proof. induction 1; [done|by apply raced_step]. Qed.

(** *** Once past an attempt, always past it *)

Lemma past_untouched job n (s s' : State) :
  untouched job s s' → past job n s → past job n s'.
Proof.
  intros Hu (Hq & Hh & Hp). destruct (Hu Hq Hh) as (Hq' & Hs' & Hh' & _).
  split_and!; [done|by rewrite Hh'|by rewrite Hs'].
Qed.

Lemma seen_past job n (s : State) o j E :
  seen job s o j E →
  match o with
  | Some a => n < attempt a ∨ (n = attempt a ∧ waiting a = forSleep)
  | None => True
  end →
  past job n s.
Proof. intros (Hq & Hs & Hh & _) Ho. split_and!; [done|by eexists|by rewrite Hs]. Qed.

Lemma past_step job n now i (s : State) :
  reachable config s → past job n s → past job n (step config now i s).
Proof.
  intros Hr Hp. destruct (about job i) eqn:Hi;
    [|by eapply past_untouched; [apply untouched_step|]].
  pose proof Hp as (Hq & [j Hj] & Hpast).
  destruct (suspended s !! job) as [[m lastError w]|] eqn:Ha.
  - assert (Hseen : seen job s (Some {| attempt := m; lastError := lastError;
                                        waiting := w |}) j (effectsOf job s))
      by done.
    destruct (inv_activation _ _ _ (reachable_invariant config _ Hr) _ _ Ha)
      as [Hm Hsleep]. simpl in *.
    destruct i as [payload|job' n' outcome|job' n'|job' n'];
      [done|apply bool_decide_eq_true in Hi as ->..].
    + destruct w; [|by simpl; unfold withTimeout_settled; rewrite Ha].
      destruct (decide (m = n')) as [<-|];
        [|by simpl; unfold withTimeout_settled; rewrite Ha; simpl;
             rewrite decide_False].
      destruct outcome as [value|message].
      * pose proof (step_succeeded config now _ _ _ value _ _ _ Hseen).
        by eapply seen_past.
      * destruct (decide (m < retryAttempts config)) as [Hlt|Hge].
        -- pose proof (step_retry config now _ _ _ (rejected message)
                         _ _ _ Hlt Hseen).
           eapply seen_past; [done|]. simpl.
           destruct Hpast as [?|[-> [=]]]. by left.
        -- assert (Hge' : retryAttempts config ≤ m) by lia.
           pose proof (step_exhausted config now _ _ _ (rejected message)
                         _ _ _ Hge' Hseen).
           by eapply seen_past.
    + destruct w; [|by simpl; unfold withTimeout_settled; rewrite Ha].
      destruct (decide (m = n')) as [<-|];
        [|by simpl; unfold withTimeout_settled; rewrite Ha; simpl;
             rewrite decide_False].
      destruct (decide (m < retryAttempts config)) as [Hlt|Hge].
      * pose proof (step_retry config now _ _ _ timedOut _ _ _ Hlt Hseen).
        eapply seen_past; [done|]. simpl.
        destruct Hpast as [?|[-> [=]]]. by left.
      * assert (Hge' : retryAttempts config ≤ m) by lia.
        pose proof (step_exhausted config now _ _ _ timedOut
                      _ _ _ Hge' Hseen).
        by eapply seen_past.
    + destruct w; [by simpl; unfold sleep_finished; rewrite Ha|].
      destruct (decide (m = n')) as [<-|];
        [|by simpl; unfold sleep_finished; rewrite Ha; simpl;
             rewrite decide_False].
      destruct Hsleep as [Hlt _]; [done|].
      assert (Hle : m + 1 ≤ retryAttempts config) by lia.
      pose proof (step_sleep_finished config now _ _ _ _ _ _ Hle Hseen).
      eapply seen_past; [done|].
      simpl. left. destruct Hpast as [?|[-> _]]; lia.
  - destruct i as [payload|job' n' outcome|job' n'|job' n']; [done|..];
      apply bool_decide_eq_true in Hi as ->; simpl;
      unfold withTimeout_settled, sleep_finished; by rewrite Ha.
Qed.

Lemma past_run job n (inputs : list (N * Input)) (s : State) :
  reachable config s → past job n s → past job n (run config inputs s).
Proof.
  revert s. induction inputs as [|[now i] inputs IH]; intros s Hr Hp; [done|].
  rewrite run_cons. apply IH; [by constructor|by apply past_step].
Qed.

(** What arrives for an attempt that is past is dropped. *)
Lemma past_discarded job n now outcome (s : State) :
  past job n s → withTimeout_settled config now job n outcome s = s.
Proof.
  intros (_ & _ & Hp). unfold withTimeout_settled.
  destruct (suspended s !! job) as [a|]; [|done].
  destruct (waiting a) eqn:Hw; [|done].
  rewrite decide_False; [done|]. destruct Hp as [?|[_ ?]]; [lia|congruence].
Qed.

End Race.

(** ** Jobs start in the order of their arrival *)

Section Fifo.
Context {T R : Type}.
Variable config : QueueConfig.
#[local] Abbreviation State := (State T R).
#[local] Abbreviation QueueJob := (QueueJob T R).
#[local] Abbreviation Effect := (Effect T R).
#[local] Abbreviation Input := (@Input T R).

Lemma startedJobs_app (l1 l2 : list Effect) :
  startedJobs (l1 ++ l2) = startedJobs l1 ++ startedJobs l2.
Proof. apply omap_app. Qed.

Lemma fifo_same (s s' : State) :
  startedJobs (effects s') = startedJobs (effects s) →
  queue s' = queue s → length (heap s') = length (heap s) →
  fifo s → fifo s'.
Proof. unfold fifo. by intros -> -> ->. Qed.

Lemma fifo_settled job f ev e (s : State) :
  startedJobs [ev; e] = [] → fifo s → fifo (settled job f ev e s).
Proof.
  intros Hev. apply fifo_same; [|done|].
  - unfold settled. simpl. rewrite <-app_assoc, startedJobs_app. simpl in *.
    rewrite Hev. apply app_nil_r.
  - rewrite heap_settled. simpl. apply length_alter.
Qed.

Lemma fifo_exhausted (pn : State → State) now job lastError :
  keeps_fifo pn → keeps_fifo (executeJob_exhausted pn now job lastError).
Proof.
  intros Hpn s Hs. rewrite executeJob_exhausted_settled.
  by apply Hpn, fifo_settled.
Qed.

Lemma fifo_succeeded (pn : State → State) now job value :
  keeps_fifo pn → keeps_fifo (executeJob_succeeded pn now job value).
Proof.
  intros Hpn s Hs. rewrite executeJob_succeeded_settled.
  by apply Hpn, fifo_settled.
Qed.

Lemma fifo_iterate (pn : State → State) now job n lastError :
  keeps_fifo pn → keeps_fifo (executeJob_iterate config pn now job n lastError).
Proof.
  intros Hpn s Hs. unfold executeJob_iterate.
  case_decide; [|by apply fifo_exhausted].
  destruct (heap s !! job) as [j|]; [|done].
  revert Hs. apply fifo_same; [|done..]. simpl.
  rewrite !startedJobs_app. simpl. by rewrite !app_nil_r.
Qed.

Lemma fifo_caught (pn : State → State) now job n message :
  keeps_fifo pn → keeps_fifo (executeJob_caught config pn now job n message).
Proof.
  intros Hpn s Hs. unfold executeJob_caught.
  case_decide; [|by apply fifo_iterate].
  revert Hs. apply fifo_same; [|done..]. simpl.
  rewrite !startedJobs_app. simpl. by rewrite !app_nil_r.
Qed.

Lemma fifo_guarded (loop : State → State) :
  keeps_fifo loop → keeps_fifo (processNext_guarded loop).
Proof.
  intros Hloop s Hs. unfold processNext_guarded.
  destruct (isProcessing s); [done|]. by apply (Hloop (with_isProcessing true s)).
Qed.

Lemma fifo_dispatched now job rest (s : State) :
  queue s = job :: rest → fifo s → fifo (dispatched now job rest s).
Proof.
  unfold fifo. intros Hq Hs.
  rewrite heap_dispatched, !length_alter, length_updatePositions_from.
  rewrite <-Hs, Hq. unfold dispatched, dispatch. simpl.
  rewrite startedJobs_app. simpl. by rewrite <-app_assoc.
Qed.

Lemma fifo_loop fuel now :
  keeps_fifo (T:=T) (R:=R) (processNext_loop config fuel now).
Proof.
  induction fuel as [|fuel IH]; intros s Hs; simpl; [done|].
  case_decide; [|done].
  destruct (queue s) as [|job rest] eqn:Hq; [done|].
  apply IH. rewrite dispatch_dispatched.
  apply fifo_iterate; [by apply fifo_guarded|].
  by apply fifo_dispatched.
Qed.

Lemma fifo_processNext now :
  keeps_fifo (T:=T) (R:=R) (processNext config now).
Proof.
  intros s Hs. unfold processNext.
  apply fifo_guarded; [apply fifo_loop|done].
Qed.

Lemma fifo_admitted payload now (s : State) :
  fifo s → fifo (admitted payload now s).
Proof.
  unfold fifo. intros Hs. simpl.
  rewrite startedJobs_app. simpl.
  rewrite app_nil_r, app_assoc, Hs, length_app. simpl.
  replace (length (heap s) + 1)%nat with (S (length (heap s))) by lia.
  by rewrite seq_S.
Qed.

Lemma fifo_step now i :
  keeps_fifo (T:=T) (R:=R) (step config now i).
Proof.
  intros s Hs. destruct i as [payload|job n outcome|job n|job n]; simpl.
  - destruct (decide (maxQueueSize config ≤ Z.of_nat (length (queue s)))).
    + by rewrite enqueue_full.
    + rewrite enqueue_admitted by lia.
      by apply fifo_processNext, fifo_admitted.
  - unfold withTimeout_settled.
    destruct (suspended s !! job) as [a|]; [|done].
    destruct (waiting a); [|done]. case_decide; [|done].
    destruct outcome.
    + by apply fifo_succeeded; [apply fifo_processNext|].
    + by apply fifo_caught; [apply fifo_processNext|].
  - unfold withTimeout_settled.
    destruct (suspended s !! job) as [a|]; [|done].
    destruct (waiting a); [|done]. case_decide; [|done].
    by apply fifo_caught; [apply fifo_processNext|].
  - unfold sleep_finished.
    destruct (suspended s !! job) as [a|]; [|done].
    destruct (waiting a); [done|]. case_decide; [|done].
    by apply fifo_iterate; [apply fifo_processNext|].
Qed.

Lemma reachable_fifo (s : State) : reachable config s → fifo s.
Proof. induction 1; [done|by apply fifo_step]. Qed.

End Fifo.

(** ** What is left to do decreases *)

Section Progress.
Context {T R : Type}.
Variable config : QueueConfig.
#[local] Abbreviation State := (State T R).
#[local] Abbreviation QueueJob := (QueueJob T R).
#[local] Abbreviation Effect := (Effect T R).
#[local] Abbreviation Input := (@Input T R).

(** *** No transition removes a job object *)

Lemma length_exhausted (pn : State → State) now job lastError :
  keeps_length pn → keeps_length (executeJob_exhausted pn now job lastError).
Proof.
  intros Hpn s. rewrite executeJob_exhausted_settled, Hpn, heap_settled.
  apply length_heap_mutate.
Qed.

Lemma length_succeeded (pn : State → State) now job value :
  keeps_length pn → keeps_length (executeJob_succeeded pn now job value).
Proof.
  intros Hpn s. rewrite executeJob_succeeded_settled, Hpn, heap_settled.
  apply length_heap_mutate.
Qed.

Lemma length_iterate (pn : State → State) now job n lastError :
  keeps_length pn →
  keeps_length (executeJob_iterate config pn now job n lastError).
Proof.
  intros Hpn s. unfold executeJob_iterate.
  case_decide; [|by apply length_exhausted].
  by destruct (heap s !! job).
Qed.

Lemma length_caught (pn : State → State) now job n message :
  keeps_length pn →
  keeps_length (executeJob_caught config pn now job n message).
Proof.
  intros Hpn s. unfold executeJob_caught.
  case_decide; [done|by apply length_iterate].
Qed.

Lemma length_guarded (loop : State → State) :
  keeps_length loop → keeps_length (processNext_guarded loop).
Proof.
  intros Hloop s. unfold processNext_guarded.
  destruct (isProcessing s); [done|]. apply (Hloop (with_isProcessing true s)).
Qed.

Lemma length_loop fuel now :
  keeps_length (T:=T) (R:=R) (processNext_loop config fuel now).
Proof.
  induction fuel as [|fuel IH]; intros s; simpl; [done|].
  case_decide; [|done].
  destruct (queue s) as [|job rest]; [done|].
  rewrite IH, dispatch_dispatched. unfold executeJob.
  rewrite length_iterate by by apply length_guarded.
  rewrite heap_dispatched, !length_alter. apply length_updatePositions_from.
Qed.

Lemma length_processNext now :
  keeps_length (T:=T) (R:=R) (processNext config now).
Proof. intros s. unfold processNext. apply length_guarded, length_loop. Qed.

Lemma length_step now i (s : State) :
  (length (heap s) ≤ length (heap (step config now i s)))%nat.
Proof.
  destruct i as [payload|job n outcome|job n|job n]; simpl.
  - destruct (decide (maxQueueSize config ≤ Z.of_nat (length (queue s)))).
    + by rewrite enqueue_full.
    + rewrite enqueue_admitted by lia. simpl.
      rewrite length_processNext. simpl. rewrite length_app. lia.
  - unfold withTimeout_settled.
    destruct (suspended s !! job) as [a|]; [|done].
    destruct (waiting a); [|done]. case_decide; [|done].
    destruct outcome.
    + by rewrite length_succeeded by apply length_processNext.
    + by rewrite length_caught by apply length_processNext.
  - unfold withTimeout_settled.
    destruct (suspended s !! job) as [a|]; [|done].
    destruct (waiting a); [|done]. case_decide; [|done].
    by rewrite length_caught by apply length_processNext.
  - unfold sleep_finished.
    destruct (suspended s !! job) as [a|]; [|done].
    destruct (waiting a); [done|]. case_decide; [|done].
    by rewrite length_iterate by apply length_processNext.
Qed.

(** *** The measure *)

Lemma pending_insert job a (m : gmap JobRef Activation) :
  m !! job = None →
  pending config (<[job := a]> m) = (weight config a + pending config m)%nat.
Proof.
  intros Hm. unfold pending.
  rewrite map_fold_insert_L; [done| |done]. intros. lia.
Qed.

Lemma pending_delete job a (m : gmap JobRef Activation) :
  m !! job = Some a →
  pending config m = (weight config a + pending config (delete job m))%nat.
Proof.
  intros Hm. unfold pending.
  rewrite (map_fold_delete_L _ _ job a m); [done| |done]. intros. lia.
Qed.

Lemma remaining_finish job a (s : State) :
  suspended s !! job = Some a →
  remaining config s = (weight config a + remaining config (finish job s))%nat.
Proof.
  intros Ha. unfold remaining. simpl.
  rewrite (pending_delete job a) by done. lia.
Qed.

Lemma remaining_suspend job a (s : State) :
  suspended s !! job = None →
  remaining config (suspend job a s) = (weight config a + remaining config s)%nat.
Proof.
  intros Ha. unfold remaining. simpl. rewrite pending_insert by done. lia.
Qed.

Lemma invariant_failed now job lastError (s : State) :
  invariant config (Some job) s →
  invariant config None
    (settled job
       (set_error (errorText lastError) ∘ set_completedAt now
          ∘ set_status failed)
       (Emit job (jobFailed (idOf job s) (errorText lastError)))
       (Reject job (rejection lastError)) s).
Proof.
  intros Hinv. apply invariant_settled; try done.
  intros j Hj. split; [by eexists|]. right. split; [done|].
  exists lastError. unfold idOf. by rewrite Hj.
Qed.

Lemma invariant_completed now job value (s : State) :
  invariant config (Some job) s →
  invariant config None
    (settled job
       (set_result value ∘ set_completedAt now ∘ set_status completed)
       (Emit job (jobCompleted (idOf job s) value))
       (Resolve job value) s).
Proof.
  intros Hinv. apply invariant_settled; try done.
  intros j Hj. split; [by eexists|]. left. split; [done|].
  exists value. unfold idOf. by rewrite Hj.
Qed.

Lemma remaining_exhausted (pn : State → State) now job lastError (s : State) :
  keeps_remaining config pn → invariant config (Some job) s →
  remaining config (executeJob_exhausted pn now job lastError s)
  = remaining config s.
Proof.
  intros Hpn Hinv. rewrite executeJob_exhausted_settled.
  by rewrite Hpn by by apply invariant_failed.
Qed.

Lemma remaining_succeeded (pn : State → State) now job value (s : State) :
  keeps_remaining config pn → invariant config (Some job) s →
  remaining config (executeJob_succeeded pn now job value s)
  = remaining config s.
Proof.
  intros Hpn Hinv. rewrite executeJob_succeeded_settled.
  by rewrite Hpn by by apply invariant_completed.
Qed.

Lemma remaining_iterate (pn : State → State) now job n lastError (s : State) :
  keeps_remaining config pn → invariant config (Some job) s →
  remaining config (executeJob_iterate config pn now job n lastError s)
  = if decide (n ≤ retryAttempts config)
    then (weight config {| attempt := n; lastError := lastError;
                           waiting := forAttempt |}
          + remaining config s)%nat
    else remaining config s.
Proof.
  intros Hpn Hinv. unfold executeJob_iterate.
  case_decide; [|by apply remaining_exhausted].
  destruct (inv_active _ _ _ Hinv job) as (j & Hj & _); [by right|].
  rewrite Hj. rewrite remaining_suspend; [done|].
  by apply (inv_cur _ _ _ Hinv).
Qed.

Lemma remaining_caught (pn : State → State) now job n message (s : State) :
  keeps_remaining config pn → invariant config (Some job) s →
  remaining config (executeJob_caught config pn now job n message s)
  = if decide (n < retryAttempts config)
    then (weight config {| attempt := n; lastError := Some message;
                           waiting := forSleep |}
          + remaining config s)%nat
    else remaining config s.
Proof.
  intros Hpn Hinv. unfold executeJob_caught.
  case_decide.
  - rewrite remaining_suspend; [done|]. by apply (inv_cur _ _ _ Hinv).
  - rewrite remaining_iterate by done. rewrite decide_False by lia. done.
Qed.

Lemma keeps_remaining_guarded (loop : State → State) :
  keeps_remaining config loop →
  keeps_remaining config (processNext_guarded loop).
Proof.
  intros Hloop s Hinv. unfold processNext_guarded.
  destruct (isProcessing s); [done|].
  change (remaining config (loop (with_isProcessing true s))
          = remaining config (with_isProcessing true s)).
  by apply Hloop, invariant_with_isProcessing.
Qed.

Lemma remaining_dispatched now job rest (s : State) :
  queue s = job :: rest →
  remaining config s
  = (queuedWeight config + remaining config (dispatched now job rest s))%nat.
Proof. intros Hq. unfold remaining. rewrite Hq. simpl. lia. Qed.

Lemma weight_first lastError :
  1 ≤ retryAttempts config →
  weight config {| attempt := 1; lastError := lastError;
                   waiting := forAttempt |} = queuedWeight config.
Proof. intros. unfold weight, queuedWeight. simpl. f_equal. lia. Qed.

Lemma queuedWeight_none :
  ¬ 1 ≤ retryAttempts config → queuedWeight config = 0%nat.
Proof. intros. unfold queuedWeight. lia. Qed.

Lemma keeps_remaining_loop fuel now :
  keeps_remaining (T:=T) (R:=R) config (processNext_loop config fuel now).
Proof.
  induction fuel as [|fuel IH]; intros s Hinv; simpl; [done|].
  case_decide; [|done].
  destruct (queue s) as [|job rest] eqn:Hq; [done|].
  rewrite dispatch_dispatched.
  pose proof (invariant_dispatched config now job rest s Hq Hinv) as Hd.
  assert (Hg : keeps_remaining config
                 (processNext_guarded (processNext_loop config fuel now)))
    by by apply keeps_remaining_guarded.
  rewrite IH.
  - unfold executeJob. rewrite remaining_iterate by done.
    rewrite (remaining_dispatched now job rest s Hq).
    case_decide; [by rewrite weight_first|by rewrite queuedWeight_none].
  - apply invariant_iterate; [|done..].
    apply pass_ok_guarded, pass_ok_loop.
Qed.

Lemma keeps_remaining_processNext now :
  keeps_remaining (T:=T) (R:=R) config (processNext config now).
Proof.
  intros s Hinv. unfold processNext.
  by apply keeps_remaining_guarded; [apply keeps_remaining_loop|].
Qed.

End Progress.

(** ** Every job is settled in the end *)

Section Liveness.
Context {T R : Type}.
Variable config : QueueConfig.
#[local] Abbreviation State := (State T R).
#[local] Abbreviation QueueJob := (QueueJob T R).
#[local] Abbreviation Effect := (Effect T R).
#[local] Abbreviation Input := (@Input T R).

Lemma remaining_settling now job a outcome (s : State) :
  invariant config None s →
  suspended s !! job = Some a → waiting a = forAttempt →
  (remaining config (withTimeout_settled config now job (attempt a) outcome s)
   < remaining config s)%nat.
Proof.
  intros Hinv Ha Hw. unfold withTimeout_settled. rewrite Ha, Hw.
  rewrite decide_True by done.
  destruct (inv_activation _ _ _ Hinv _ _ Ha) as [Hn _].
  rewrite (remaining_finish config job a s Ha).
  assert (Hf : invariant config (Some job) (finish job s))
    by by apply invariant_finish.
  assert (Hwa : weight config a
                = Z.to_nat (2 * (retryAttempts config - attempt a) + 1))
    by (unfold weight; by rewrite Hw).
  destruct outcome as [value|message].
  - rewrite remaining_succeeded
      by (done || apply keeps_remaining_processNext). lia.
  - rewrite remaining_caught by (done || apply keeps_remaining_processNext).
    case_decide; [|lia]. unfold weight at 1. simpl. lia.
Qed.

Lemma remaining_sleep_finished now job a (s : State) :
  invariant config None s →
  suspended s !! job = Some a → waiting a = forSleep →
  (remaining config (sleep_finished config now job (attempt a) s)
   < remaining config s)%nat.
Proof.
  intros Hinv Ha Hw. unfold sleep_finished. rewrite Ha, Hw.
  rewrite decide_True by done.
  destruct (inv_activation _ _ _ Hinv _ _ Ha) as [Hn [Hlt _]]; [done|].
  rewrite (remaining_finish config job a s Ha).
  rewrite remaining_iterate
    by (apply keeps_remaining_processNext || by apply invariant_finish).
  rewrite decide_True by lia. unfold weight. rewrite Hw. simpl. lia.
Qed.

(** An input other than a submission does some of what is left to do, or
    nothing at all. *)
Lemma remaining_step now (i : Input) (s : State) :
  invariant config None s →
  (∀ payload, i ≠ Submit payload) →
  (remaining config (step config now i s) < remaining config s)%nat
  ∨ step config now i s = s.
Proof.
  intros Hinv Hi. destruct i as [payload|job n outcome|job n|job n]; simpl.
  - by destruct (Hi payload).
  - destruct (suspended s !! job) as [a|] eqn:Ha;
      [|right; unfold withTimeout_settled; by rewrite Ha].
    destruct (waiting a) eqn:Hw;
      [|right; unfold withTimeout_settled; by rewrite Ha, Hw].
    destruct (decide (attempt a = n)) as [<-|];
      [left; by apply remaining_settling|].
    right. unfold withTimeout_settled. rewrite Ha, Hw. by rewrite decide_False.
  - destruct (suspended s !! job) as [a|] eqn:Ha;
      [|right; unfold withTimeout_settled; by rewrite Ha].
    destruct (waiting a) eqn:Hw;
      [|right; unfold withTimeout_settled; by rewrite Ha, Hw].
    destruct (decide (attempt a = n)) as [<-|];
      [left; by apply remaining_settling|].
    right. unfold withTimeout_settled. rewrite Ha, Hw. by rewrite decide_False.
  - destruct (suspended s !! job) as [a|] eqn:Ha;
      [|right; unfold sleep_finished; by rewrite Ha].
    destruct (waiting a) eqn:Hw;
      [right; unfold sleep_finished; by rewrite Ha, Hw|].
    destruct (decide (attempt a = n)) as [<-|];
      [left; by apply remaining_sleep_finished|].
    right. unfold sleep_finished. rewrite Ha, Hw. by rewrite decide_False.
Qed.

Lemma remaining_awaitedTimer now job a (s : State) :
  invariant config None s → suspended s !! job = Some a →
  (remaining config (step config now (awaitedTimer job a) s)
   < remaining config s)%nat.
Proof.
  intros Hinv Ha. unfold awaitedTimer. destruct (waiting a) eqn:Hw; simpl.
  - by apply remaining_settling.
  - by apply remaining_sleep_finished.
Qed.

(** *** While a job is unsettled some call waits for a timer *)

Lemma unsettled_live (s : State) job j :
  invariant config None s → heap s !! job = Some j →
  terminalsOf job s = [] → live None s job.
Proof.
  intros Hinv Hj Ht.
  destruct (decide (job ∈ queue s)) as [|Hq]; [by left|].
  destruct (suspended s !! job) as [a|] eqn:Ha; [right; left; by eexists|].
  destruct (inv_settled _ _ _ Hinv job j Hj) as [_ Hs].
  - intros [?|[[a Ha']|?]]; [done|congruence|done].
  - destruct Hs as [(_ & v & _ & Hs)|(_ & le & _ & Hs)]; congruence.
Qed.

Lemma unsettled_waits (s : State) job j :
  reachable config s → 1 ≤ maxConcurrent config →
  heap s !! job = Some j → terminalsOf job s = [] →
  ∃ job' a, suspended s !! job' = Some a.
Proof.
  intros Hr Hmax Hj Ht.
  pose proof (reachable_invariant config s Hr) as Hinv.
  destruct (unsettled_live s job j Hinv Hj Ht) as [Hq|[[a Ha]|?]];
    [|by eauto|done].
  destruct (reachable_quiescent config s Hr) as [_ [Hnil|Hfull]].
  { rewrite Hnil in Hq. by apply elem_of_nil in Hq. }
  destruct (map_size_ne_0_lookup_1 (processing s)) as (k & job' & Hk); [lia|].
  destruct (inv_processing _ _ _ Hinv _ _ Hk) as [[[a Ha]|?] _]; [|done].
  eauto.
Qed.

(** *** The timers that run are enough to settle a job *)

Lemma settled_or_live (s : State) job j :
  invariant config None s → heap s !! job = Some j →
  terminalsOf job s = [] ∨ length (settlementsOf job s) = 1%nat.
Proof.
  intros Hinv Hj.
  destruct (decide (job ∈ queue s)) as [|Hq];
    [left; apply (inv_unsettled _ _ _ Hinv); by left|].
  destruct (suspended s !! job) as [a|] eqn:Ha;
    [left; apply (inv_unsettled _ _ _ Hinv); right; left; by eexists|].
  right. destruct (inv_settled _ _ _ Hinv job j Hj) as [_ Hs].
  - intros [?|[[a Ha']|?]]; [done|congruence|done].
  - rewrite settlementsOf_terminalsOf.
    by destruct Hs as [(_ & v & _ & ->)|(_ & le & _ & ->)].
Qed.

Lemma timers_settle (n : nat) : ∀ (s : State) job,
  (remaining config s ≤ n)%nat →
  reachable config s → 1 ≤ maxConcurrent config →
  (job < length (heap s))%nat →
  ∃ timers : list (N * Input),
    Forall (λ x, is_timer x.2 = true) timers
    ∧ length (settlementsOf job (run config timers s)) = 1%nat.
Proof.
  induction n as [|n IH]; intros s job Hn Hr Hmax Hjob;
    pose proof (reachable_invariant config s Hr) as Hinv;
    destruct (lookup_lt_is_Some_2 _ _ Hjob) as [j Hj];
    (destruct (settled_or_live s job j Hinv Hj) as [Ht|Hs];
       [|by exists []]);
    destruct (unsettled_waits s job j Hr Hmax Hj Ht) as (job' & a & Ha);
    pose proof (remaining_awaitedTimer 0%N job' a s Hinv Ha) as Hlt.
  - lia.
  - destruct (IH (step config 0%N (awaitedTimer job' a) s) job)
      as (timers & Htimers & Hsettled).
    + lia.
    + by constructor.
    + done.
    + eapply Nat.lt_le_trans; [done|apply length_step].
    + exists ((0%N, awaitedTimer job' a) :: timers). split; [|done].
      constructor; [|done]. unfold awaitedTimer. by destruct (waiting a).
Qed.

End Liveness.

(** ** The sizes the "started" events report *)

Section Counts.
Context {T R : Type}.
Variable config : QueueConfig.
#[local] Abbreviation State := (State T R).
#[local] Abbreviation QueueJob := (QueueJob T R).
#[local] Abbreviation Effect := (Effect T R).
#[local] Abbreviation Input := (@Input T R).

Lemma counts_perform (e : Effect) (s : State) :
  (∀ job jobId count, e = Emit job (jobStarted jobId count) →
     1 ≤ count ≤ maxConcurrent config) →
  counts_within_ceiling config (effects s) →
  counts_within_ceiling config (effects (perform e s)).
Proof.
  intros He Hs job jobId count. simpl.
  rewrite elem_of_app, list_elem_of_singleton. intros [Hin|Heq]; eauto.
Qed.

Lemma counts_exhausted (pn : State → State) now job lastError :
  keeps_counts config pn →
  keeps_counts config (executeJob_exhausted pn now job lastError).
Proof. intros Hpn s Hs. apply Hpn. by repeat apply counts_perform. Qed.

Lemma counts_succeeded (pn : State → State) now job value :
  keeps_counts config pn →
  keeps_counts config (executeJob_succeeded pn now job value).
Proof. intros Hpn s Hs. apply Hpn. by repeat apply counts_perform. Qed.

Lemma counts_iterate (pn : State → State) now job n lastError :
  keeps_counts config pn →
  keeps_counts config (executeJob_iterate config pn now job n lastError).
Proof.
  intros Hpn s Hs. unfold executeJob_iterate.
  case_decide; [|by apply counts_exhausted].
  destruct (heap s !! job) as [j|]; [|done].
  change (counts_within_ceiling config
            (effects (perform (StartTimeout job n (jobTimeout config))
                        (perform (CallProcessor job (data j) n) s)))).
  by repeat apply counts_perform.
Qed.

Lemma counts_caught (pn : State → State) now job n message :
  keeps_counts config pn →
  keeps_counts config (executeJob_caught config pn now job n message).
Proof.
  intros Hpn s Hs. unfold executeJob_caught.
  case_decide; [|by apply counts_iterate].
  change (counts_within_ceiling config
            (effects (perform (StartSleep job n
                                 (backoffDelay config n message)) s))).
  by apply counts_perform.
Qed.

Lemma counts_guarded (loop : State → State) :
  keeps_counts config loop → keeps_counts config (processNext_guarded loop).
Proof.
  intros Hloop s Hs. unfold processNext_guarded.
  destruct (isProcessing s); [done|]. by apply (Hloop (with_isProcessing true s)).
Qed.

Lemma counts_loop fuel now :
  keeps_counts (T:=T) (R:=R) config (processNext_loop config fuel now).
Proof.
  induction fuel as [|fuel IH]; intros s Hs; simpl; [done|].
  case_decide as Hc; [|done].
  destruct (queue s) as [|job rest]; [done|].
  apply IH. rewrite dispatch_dispatched.
  apply counts_iterate; [by apply counts_guarded|].
  unfold dispatched, dispatch. apply counts_perform; [|done].
  intros ? ? ? [= _ _ <-].
  match goal with |- context [<[?k:=?v]> _] =>
    pose proof (size_insert_le k v (processing s));
    pose proof (map_size_ne_0_lookup_2 (<[k:=v]> (processing s)) k
                  ltac:(rewrite lookup_insert_eq; by eexists)) end.
  simpl in *. lia.
Qed.

Lemma counts_processNext now :
  keeps_counts (T:=T) (R:=R) config (processNext config now).
Proof.
  intros s Hs. unfold processNext.
  apply counts_guarded; [apply counts_loop|done].
Qed.

Lemma counts_step now i :
  keeps_counts (T:=T) (R:=R) config (step config now i).
Proof.
  intros s Hs. destruct i as [payload|job n outcome|job n|job n]; simpl.
  - destruct (decide (maxQueueSize config ≤ Z.of_nat (length (queue s)))).
    + by rewrite enqueue_full.
    + rewrite enqueue_admitted by lia. apply counts_processNext.
      intros job jobId count. simpl.
      rewrite elem_of_app, list_elem_of_singleton. intros [Hin|[=]]; eauto.
  - unfold withTimeout_settled.
    destruct (suspended s !! job) as [a|]; [|done].
    destruct (waiting a); [|done]. case_decide; [|done].
    destruct outcome.
    + by apply counts_succeeded; [apply counts_processNext|].
    + by apply counts_caught; [apply counts_processNext|].
  - unfold withTimeout_settled.
    destruct (suspended s !! job) as [a|]; [|done].
    destruct (waiting a); [|done]. case_decide; [|done].
    by apply counts_caught; [apply counts_processNext|].
  - unfold sleep_finished.
    destruct (suspended s !! job) as [a|]; [|done].
    destruct (waiting a); [done|]. case_decide; [|done].
    by apply counts_iterate; [apply counts_processNext|].
Qed.

Lemma reachable_counts (s : State) :
  reachable config s → counts_within_ceiling config (effects s).
Proof.
  induction 1; [|by apply counts_step].
  intros job jobId count []%elem_of_nil.
Qed.

End Counts.

(** ** The history of a job up to its first attempt *)

Section Chronicle.
Context {T R : Type}.
Variable config : QueueConfig.
#[local] Abbreviation State := (State T R).
#[local] Abbreviation QueueJob := (QueueJob T R).
#[local] Abbreviation Effect := (Effect T R).
#[local] Abbreviation Input := (@Input T R).

Lemma executeJob_first (now : N) job j (s : State) :
  heap s !! job = Some j → suspended s !! job = None →
  let s' := executeJob config (λ s, s) now job s in
  queue s' = queue s
  ∧ isProcessing s' = isProcessing s
  ∧ (∀ job', job' ≠ job →
       heap s' !! job' = heap s !! job'
       ∧ effectsOf job' s' = effectsOf job' s
       ∧ suspended s' !! job' = suspended s !! job')
  ∧ ((1 ≤ retryAttempts config
      ∧ suspended s' !! job =
          Some {| attempt := 1; lastError := None; waiting := forAttempt |}
      ∧ heap s' !! job = Some j
      ∧ effectsOf job s' =
          effectsOf job s ++ [CallProcessor job (data j) 1;
                              StartTimeout job 1 (jobTimeout config)])
     ∨ (retryAttempts config < 1 ∧ suspended s' !! job = None
        ∧ heap s' !! job =
            Some (set_error unknownErrorMessage
                    (set_completedAt now (set_status failed j)))
        ∧ effectsOf job s' =
            effectsOf job s
            ++ [Emit job (jobFailed (id j) unknownErrorMessage);
                Reject job fallbackRejectMessage])).
Proof.
  intros Hj Hs s'. unfold s', executeJob, executeJob_iterate.
  case_decide as HN.
  - rewrite Hj. split_and!; [done..| |].
    + intros job' Hne. split_and!; [done| |].
      * unfold suspend. change (effectsOf job' (with_suspended ?m ?s))
          with (effectsOf job' s).
        by rewrite !effectsOf_perform_ne.
      * simpl. by rewrite lookup_insert_ne.
    + left. split_and!; [done| |done|].
      * simpl. apply lookup_insert_eq.
      * unfold suspend. change (effectsOf job (with_suspended ?m ?s))
          with (effectsOf job s).
        rewrite !effectsOf_perform, !decide_True by done.
        by rewrite <-app_assoc.
  - rewrite executeJob_exhausted_settled. split_and!; [done..| |].
    + intros job' Hne. split_and!; [|  |done].
      * rewrite heap_settled. by apply heap_mutate_ne.
      * unfold settled. by rewrite !effectsOf_perform_ne.
    + right. split_and!; [lia|done| |].
      * rewrite heap_settled, heap_mutate, decide_True by done.
        by rewrite Hj.
      * unfold settled. rewrite !effectsOf_perform, !decide_True by done.
        change (effectsOf job (with_processing ?m ?s)) with (effectsOf job s).
        change (effectsOf job (mutate ?a ?b ?s)) with (effectsOf job s).
        unfold idOf. rewrite Hj. by rewrite <-app_assoc.
Qed.

Lemma processNext_loop_queued fuel now : ∀ (s : State) job j,
  invariant config None s → isProcessing s = true →
  job ∈ queue s → heap s !! job = Some j →
  dispatched_or_not config job j s (processNext_loop config fuel now s).
Proof.
  induction fuel as [|fuel IH]; intros s job j Hinv Hflag Hin Hj.
  { left. eauto 10. }
  cbn [processNext_loop]. case_decide as Hc; [|left; eauto 10].
  destruct (queue s) as [|job0 rest] eqn:Hq; [by inversion Hin|].
  rewrite dispatch_dispatched. unfold executeJob.
  rewrite executeJob_iterate_running by done.
  pose proof (invariant_dispatched config now job0 rest s Hq Hinv) as Hd.
  pose proof (inv_nodup _ _ _ Hinv) as Hnd. rewrite Hq in Hnd.
  pose proof Hnd as [Hnotin Hnd']%NoDup_cons.
  destruct (inv_active _ _ _ Hd job0) as (j0 & Hj0 & _); [by right|].
  destruct (executeJob_first now job0 j0 (dispatched now job0 rest s) Hj0
              (inv_cur _ _ _ Hd _ eq_refl))
    as (Hq2 & Hf2 & Hother & Hjob0).
  fold (executeJob config (λ s, s) now job0 (dispatched now job0 rest s))
    in *.
  set (s2 := executeJob config (λ s, s) now job0
               (dispatched now job0 rest s)) in *.
  assert (Hinv2 : invariant config None s2).
  { unfold s2, executeJob.
    rewrite <-(executeJob_iterate_running config
                 (processNext_loop config fuel now)) by done.
    apply invariant_iterate; [apply pass_ok_guarded, pass_ok_loop|done..]. }
  apply elem_of_cons in Hin as [->|Hin].
  - (* the head of the wait list: it is started *)
    assert (Hq2' : job0 ∉ queue s2) by by rewrite Hq2.
    assert (Hh : heap (dispatched now job0 rest s) !! job0 = Some j0)
      by done.
    rewrite heap_dispatched_eq, Hj in Hh by done. injection Hh as <-.
    assert (Heff : effectsOf job0 (dispatched now job0 rest s) =
                   effectsOf job0 s
                   ++ [Emit job0 (jobStarted (id j)
                         (Z.of_nat (size (processing
                                            (dispatched now job0 rest s)))))]).
    { unfold dispatched at 1, dispatch.
      rewrite effectsOf_perform, decide_True by done.
      do 4 f_equal.
      change (idOf job0 (dispatched now job0 rest s) = id j).
      rewrite idOf_dispatched by done. unfold idOf. by rewrite Hj. }
    destruct Hjob0 as [(HN & Hs2 & Hh2 & He2)|(HN & Hs2 & Hh2 & He2)].
    + destruct (pass_untouched_loop config job0 fuel now s2 Hq2')
        as (Hq3 & Hs3 & Hh3 & He3); [by eexists|].
      right; left. split_and!; [done|congruence| |].
      * rewrite Hh3, Hh2. eexists. split_and!; done.
      * eexists. rewrite He3, He2, Heff, <-app_assoc. done.
    + destruct (pass_untouched_loop config job0 fuel now s2 Hq2')
        as (Hq3 & Hs3 & Hh3 & He3); [by eexists|].
      right; right. split_and!; [done|done|congruence| |].
      * rewrite Hh3, Hh2. eexists. split_and!; done.
      * eexists. rewrite He3, He2, Heff, <-app_assoc. done.
  - (* a later job: the pass goes on with it *)
    assert (Hne : job ≠ job0) by (by intros ->).
    destruct (Hother job Hne) as (Hh2 & He2 & Hs2).
    destruct (list_elem_of_lookup_1 _ _ Hin) as [i Hi].
    assert (Hh1 : heap (dispatched now job0 rest s) !! job
                  = Some (set_position (Z.of_nat i + 1) j)).
    { rewrite (heap_dispatched_queued _ _ _ _ i) by done. by rewrite Hj. }
    assert (He1 : effectsOf job (dispatched now job0 rest s) = effectsOf job s).
    { unfold dispatched, dispatch. by rewrite effectsOf_perform_ne. }
    destruct (IH s2 job (set_position (Z.of_nat i + 1) j) Hinv2)
      as [(Hq3 & He3 & j' & Hj' & Hid & Hdata)
         |[(Hq3 & Hs3 & (j' & Hj' & Hid & Hdata) & count & He3)
          |(HN & Hq3 & Hs3 & (j' & Hj' & Hid & Hdata & Hst & Herr)
            & count & He3)]].
    + by rewrite Hf2.
    + by rewrite Hq2.
    + by rewrite Hh2.
    + left. split_and!; [done|congruence|]. exists j'. eauto.
    + right; left. split_and!; [done..| |].
      * exists j'. eauto.
      * exists count. rewrite He3, He2, He1. done.
    + right; right. split_and!; [done..| |].
      * exists j'. eauto.
      * exists count. rewrite He3, He2, He1. done.
Qed.


Lemma chronicle_loop fuel now (s : State) :
  invariant config None s → isProcessing s = true →
  chronicle config s → chronicle config (processNext_loop config fuel now s).
Proof.
  intros Hinv Hflag [Hc1 Hc2].
  pose proof (pass_ok_loop config fuel now s Hinv) as Hinv'.
  pose proof (length_loop config fuel now s) as Hlen.
  assert (Hold : ∀ job,
    is_Some (heap (processNext_loop config fuel now s) !! job) →
    is_Some (heap s !! job)).
  { intros job [j' Hj']. apply lookup_lt_is_Some_2. rewrite <-Hlen.
    by eapply lookup_lt_Some. }
  split.
  - intros job Hin'. destruct (decide (job ∈ queue s)) as [Hin|Hout].
    + destruct (Hc1 job Hin) as (j & p & len & Hj & HE).
      destruct (processNext_loop_queued fuel now s job j Hinv Hflag Hin Hj)
        as [(_ & He & j' & Hj' & Hid & _)|[(Hn & _)|(_ & Hn & _)]]; [|done..].
      exists j', p, len. split; [done|]. by rewrite He, HE, Hid.
    + destruct (inv_queued _ _ _ Hinv' _ Hin') as (_ & j' & Hj' & _).
      destruct (pass_untouched_loop config job fuel now s Hout) as [Hn _];
        [apply Hold; by eexists|done].
  - intros job a Ha Hone Hwait.
    destruct (decide (job ∈ queue s)) as [Hin|Hout].
    + destruct (Hc1 job Hin) as (j & p & len & Hj & HE).
      destruct (processNext_loop_queued fuel now s job j Hinv Hflag Hin Hj)
        as [(Hq & _)
           |[(_ & _ & (j' & Hj' & Hid & Hdata) & count & He)
            |(_ & _ & Hs & _)]].
      * destruct (inv_queued _ _ _ Hinv' _ Hq) as [Hna _].
        destruct Hna. left. by eexists.
      * exists j', p, len, count. split; [done|].
        rewrite He, HE. unfold opening. by rewrite Hid, Hdata.
      * congruence.
    + destruct (inv_active _ _ _ Hinv' job) as (j' & Hj' & _);
        [left; by eexists|].
      destruct (pass_untouched_loop config job fuel now s Hout)
        as (_ & Hs & Hh & He); [apply Hold; by eexists|].
      rewrite Hs in Ha.
      destruct (Hc2 job a Ha Hone Hwait) as (j & p & len & count & Hj & HE).
      exists j, p, len, count. by rewrite Hh, He.
Qed.

Lemma chronicle_processNext now (s : State) :
  invariant config None s → chronicle config s →
  chronicle config (processNext config now s).
Proof.
  intros Hinv Hc. unfold processNext, processNext_guarded.
  destruct (isProcessing s); [done|].
  change (chronicle config
            (processNext_loop config (length (queue s)) now
               (with_isProcessing true s))).
  apply chronicle_loop; [by apply invariant_with_isProcessing|done|done].
Qed.

(** A transition that works on one job, which is neither queued nor left
    waiting for its first attempt, keeps the chronicle of the others. *)
Lemma chronicle_frame job (s s' : State) :
  queue s' = queue s → job ∉ queue s →
  (∀ job', job' ≠ job →
     heap s' !! job' = heap s !! job'
     ∧ effectsOf job' s' = effectsOf job' s
     ∧ suspended s' !! job' = suspended s !! job') →
  (∀ a, suspended s' !! job = Some a →
     attempt a = 1 → waiting a = forAttempt → False) →
  chronicle config s → chronicle config s'.
Proof.
  intros Hq Hout Hother Hjob [Hc1 Hc2]. split.
  - intros job' Hin. rewrite Hq in Hin.
    assert (Hne : job' ≠ job) by (by intros ->).
    destruct (Hother job' Hne) as (-> & -> & _). by apply Hc1.
  - intros job' a Ha Hone Hwait.
    destruct (decide (job' = job)) as [->|Hne]; [by destruct (Hjob a)|].
    destruct (Hother job' Hne) as (-> & -> & Hs). rewrite Hs in Ha.
    by apply (Hc2 job' a).
Qed.

Lemma current_not_queued job (s : State) :
  invariant config (Some job) s → job ∉ queue s.
Proof.
  intros Hinv Hin. destruct (inv_queued _ _ _ Hinv _ Hin) as [Hn _].
  apply Hn. by right.
Qed.

Lemma chronicle_settled job f ev e (s : State) :
  effect_job ev = job → effect_job e = job →
  invariant config (Some job) s →
  chronicle config s → chronicle config (settled job f ev e s).
Proof.
  intros Hev He Hinv. apply (chronicle_frame job).
  - done.
  - by apply current_not_queued.
  - intros job' Hne. split_and!; [| |done].
    + rewrite heap_settled. by apply heap_mutate_ne.
    + unfold settled. by rewrite !effectsOf_perform_ne by congruence.
  - intros a Ha. change (suspended s !! job = Some a) in Ha.
    by rewrite (inv_cur _ _ _ Hinv job) in Ha.
Qed.

Lemma chronicle_exhausted now job lastError (s : State) :
  invariant config (Some job) s → chronicle config s →
  chronicle config
    (executeJob_exhausted (processNext config now) now job lastError s).
Proof.
  intros Hinv Hc. rewrite executeJob_exhausted_settled.
  apply chronicle_processNext; [by apply invariant_failed|].
  by apply chronicle_settled.
Qed.

Lemma chronicle_succeeded now job value (s : State) :
  invariant config (Some job) s → chronicle config s →
  chronicle config
    (executeJob_succeeded (processNext config now) now job value s).
Proof.
  intros Hinv Hc. rewrite executeJob_succeeded_settled.
  apply chronicle_processNext; [by apply invariant_completed|].
  by apply chronicle_settled.
Qed.

Lemma chronicle_iterate now job n lastError (s : State) :
  2 ≤ n → invariant config (Some job) s → chronicle config s →
  chronicle config
    (executeJob_iterate config (processNext config now) now job n lastError s).
Proof.
  intros Hn Hinv Hc. unfold executeJob_iterate.
  case_decide; [|by apply chronicle_exhausted].
  destruct (heap s !! job) as [j|]; [|done].
  revert Hc. apply (chronicle_frame job).
  - done.
  - by apply current_not_queued.
  - intros job' Hne. split_and!; [done| |].
    + unfold suspend. change (effectsOf job' (with_suspended ?m ?s))
        with (effectsOf job' s).
      by rewrite !effectsOf_perform_ne.
    + simpl. by rewrite lookup_insert_ne.
  - intros a Ha. simpl in Ha. rewrite lookup_insert_eq in Ha.
    injection Ha as <-. simpl. lia.
Qed.

Lemma chronicle_caught now job n message (s : State) :
  1 ≤ n → invariant config (Some job) s → chronicle config s →
  chronicle config
    (executeJob_caught config (processNext config now) now job n message s).
Proof.
  intros Hn Hinv Hc. unfold executeJob_caught.
  case_decide; [|apply chronicle_iterate; [lia|done..]].
  revert Hc. apply (chronicle_frame job).
  - done.
  - by apply current_not_queued.
  - intros job' Hne. split_and!; [done| |].
    + unfold suspend. change (effectsOf job' (with_suspended ?m ?s))
        with (effectsOf job' s).
      by rewrite !effectsOf_perform_ne.
    + simpl. by rewrite lookup_insert_ne.
  - intros a Ha. simpl in Ha. rewrite lookup_insert_eq in Ha.
    injection Ha as <-. done.
Qed.

Lemma chronicle_finish job (s : State) :
  chronicle config s → chronicle config (finish job s).
Proof.
  intros [Hc1 Hc2]. split; [done|].
  intros job' a Ha. simpl in Ha. apply lookup_delete_Some in Ha as [_ Ha].
  by apply (Hc2 job' a).
Qed.

Lemma chronicle_admitted payload now (s : State) :
  invariant config None s → chronicle config s →
  chronicle config (admitted payload now s).
Proof.
  intros Hinv [Hc1 Hc2].
  assert (Heff : ∀ job j, heap s !! job = Some j →
    effectsOf job (admitted payload now s) = effectsOf job s).
  { intros job j Hj. unfold effectsOf. simpl. rewrite List.filter_app. simpl.
    rewrite bool_decide_eq_false_2; [apply app_nil_r|].
    apply lookup_lt_Some in Hj. lia. }
  split.
  - intros job [Hin| ->%list_elem_of_singleton]%elem_of_app.
    + destruct (Hc1 job Hin) as (j & p & len & Hj & HE).
      exists j, p, len. split.
      * simpl. by apply lookup_app_l_Some.
      * by rewrite (Heff _ _ Hj).
    + eexists _, _, _. split.
      * simpl. by apply list_lookup_middle.
      * unfold effectsOf. simpl. rewrite List.filter_app. simpl.
        rewrite bool_decide_eq_true_2 by done.
        rewrite filter_none; [done|].
        intros e He. apply bool_decide_eq_false. simpl.
        pose proof (inv_effects _ _ _ Hinv e He). lia.
  - intros job a Ha Hone Hwait.
    destruct (Hc2 job a Ha Hone Hwait) as (j & p & len & count & Hj & HE).
    exists j, p, len, count. split.
    + simpl. by apply lookup_app_l_Some.
    + by rewrite (Heff _ _ Hj).
Qed.

Lemma chronicle_settling now job n outcome (s : State) :
  invariant config None s → chronicle config s →
  chronicle config (withTimeout_settled config now job n outcome s).
Proof.
  intros Hinv Hc. unfold withTimeout_settled.
  destruct (suspended s !! job) as [a|] eqn:Ha; [|done].
  destruct (waiting a); [|done]. case_decide; [|done].
  destruct (inv_activation _ _ _ Hinv _ _ Ha) as [? _].
  assert (invariant config (Some job) (finish job s))
    by by apply invariant_finish.
  pose proof (chronicle_finish job s Hc).
  destruct outcome.
  - by apply chronicle_succeeded.
  - apply chronicle_caught; [lia|done..].
Qed.

Lemma chronicle_step now i (s : State) :
  invariant config None s → chronicle config s →
  chronicle config (step config now i s).
Proof.
  intros Hinv Hc. destruct i as [payload|job n outcome|job n|job n]; simpl.
  - destruct (decide (maxQueueSize config ≤ Z.of_nat (length (queue s)))).
    + by rewrite enqueue_full.
    + rewrite enqueue_admitted by lia.
      apply chronicle_processNext; [by apply invariant_admitted|].
      by apply chronicle_admitted.
  - by apply chronicle_settling.
  - by apply chronicle_settling.
  - unfold sleep_finished.
    destruct (suspended s !! job) as [a|] eqn:Ha; [|done].
    destruct (waiting a); [done|]. case_decide; [|done].
    destruct (inv_activation _ _ _ Hinv _ _ Ha) as [? _].
    apply chronicle_iterate; [lia|by apply invariant_finish|].
    by apply chronicle_finish.
Qed.

Lemma reachable_chronicle (s : State) :
  reachable config s → chronicle config s.
Proof.
  induction 1 as [|s now i Hr IH].
  - split; [intros job []%elem_of_nil|]. intros job a Ha. done.
  - apply chronicle_step; [by apply reachable_invariant|done].
Qed.

End Chronicle.

(** ** An induction principle over the parts of a transition *)

Section Parts.
Context {T R : Type}.
Variable config : QueueConfig.
#[local] Abbreviation State := (State T R).
#[local] Abbreviation QueueJob := (QueueJob T R).
#[local] Abbreviation Effect := (Effect T R).
#[local] Abbreviation Input := (@Input T R).

(** A property of the manager's data, between transitions ([None]) and
    while [executeJob] runs for a job, that every elementary part of a
    transition keeps. *)
Variable Q : option JobRef → State → Prop.
Variable now : N.

Hypothesis Q_flag : ∀ cur b s, Q cur s → Q cur (with_isProcessing b s).
Hypothesis Q_admitted : ∀ payload s,
  invariant config None s →
  Z.of_nat (length (queue s)) < maxQueueSize config →
  Q None s → Q None (admitted payload now s).
Hypothesis Q_dispatched : ∀ job rest s,
  invariant config None s → queue s = job :: rest →
  Z.of_nat (size (processing s)) < maxConcurrent config →
  Q None s → Q (Some job) (dispatched now job rest s).
Hypothesis Q_attempt : ∀ job n lastError s j,
  invariant config (Some job) s → heap s !! job = Some j →
  1 ≤ n ≤ retryAttempts config →
  Q (Some job) s →
  Q None (suspend job {| attempt := n; lastError := lastError;
                         waiting := forAttempt |}
            (perform (StartTimeout job n (jobTimeout config))
               (perform (CallProcessor job (data j) n) s))).
Hypothesis Q_sleep : ∀ job n message s,
  invariant config (Some job) s → 1 ≤ n < retryAttempts config →
  Q (Some job) s →
  Q None (suspend job {| attempt := n; lastError := Some message;
                         waiting := forSleep |}
            (perform (StartSleep job n (backoffDelay config n message)) s)).
Hypothesis Q_failed : ∀ job lastError s,
  invariant config (Some job) s → Q (Some job) s →
  Q None (settled job
            (set_error (errorText lastError) ∘ set_completedAt now
               ∘ set_status failed)
            (Emit job (jobFailed (idOf job s) (errorText lastError)))
            (Reject job (rejection lastError)) s).
Hypothesis Q_completed : ∀ job value s,
  invariant config (Some job) s → Q (Some job) s →
  Q None (settled job
            (set_result value ∘ set_completedAt now ∘ set_status completed)
            (Emit job (jobCompleted (idOf job s) value))
            (Resolve job value) s).
Hypothesis Q_finish : ∀ job a s,
  invariant config None s → suspended s !! job = Some a →
  Q None s → Q (Some job) (finish job s).

Lemma parts_exhausted (pn : State → State) job lastError (s : State) :
  pass_parts config Q pn → invariant config (Some job) s → Q (Some job) s →
  Q None (executeJob_exhausted pn now job lastError s).
Proof.
  intros Hpn Hinv HQ. rewrite executeJob_exhausted_settled.
  apply Hpn; [by apply invariant_failed|by apply Q_failed].
Qed.

Lemma parts_succeeded (pn : State → State) job value (s : State) :
  pass_parts config Q pn → invariant config (Some job) s → Q (Some job) s →
  Q None (executeJob_succeeded pn now job value s).
Proof.
  intros Hpn Hinv HQ. rewrite executeJob_succeeded_settled.
  apply Hpn; [by apply invariant_completed|by apply Q_completed].
Qed.

Lemma parts_iterate (pn : State → State) job n lastError (s : State) :
  pass_parts config Q pn → 1 ≤ n → invariant config (Some job) s → Q (Some job) s →
  Q None (executeJob_iterate config pn now job n lastError s).
Proof.
  intros Hpn Hn Hinv HQ. unfold executeJob_iterate.
  case_decide; [|by apply parts_exhausted].
  destruct (inv_active _ _ _ Hinv job) as (j & Hj & _); [by right|].
  rewrite Hj. by apply Q_attempt.
Qed.

Lemma parts_caught (pn : State → State) job n message (s : State) :
  pass_parts config Q pn → 1 ≤ n → invariant config (Some job) s → Q (Some job) s →
  Q None (executeJob_caught config pn now job n message s).
Proof.
  intros Hpn Hn Hinv HQ. unfold executeJob_caught.
  case_decide; [by apply Q_sleep|].
  apply parts_iterate; [done|lia|done..].
Qed.

Lemma parts_guarded (loop : State → State) :
  pass_parts config Q loop → pass_parts config Q (processNext_guarded loop).
Proof.
  intros Hloop s Hinv HQ. unfold processNext_guarded.
  destruct (isProcessing s); [done|].
  apply Q_flag, Hloop; [by apply invariant_with_isProcessing|].
  by apply Q_flag.
Qed.

Lemma parts_loop fuel : pass_parts config Q (processNext_loop config fuel now).
Proof.
  induction fuel as [|fuel IH]; intros s Hinv HQ; simpl; [done|].
  case_decide as Hc; [|done].
  destruct (queue s) as [|job rest] eqn:Hq; [done|].
  rewrite dispatch_dispatched.
  pose proof (invariant_dispatched config now job rest s Hq Hinv) as Hd.
  apply IH.
  - apply invariant_iterate; [apply pass_ok_guarded, pass_ok_loop|done..].
  - apply parts_iterate; [by apply parts_guarded|done|done|].
    apply Q_dispatched; [done..|lia|done].
Qed.

Lemma parts_processNext : pass_parts config Q (processNext config now).
Proof. intros s. apply parts_guarded, parts_loop. Qed.

Lemma parts_step i (s : State) :
  invariant config None s → Q None s → Q None (step config now i s).
Proof.
  intros Hinv HQ. destruct i as [payload|job n outcome|job n|job n]; simpl.
  - destruct (decide (maxQueueSize config ≤ Z.of_nat (length (queue s)))).
    + by rewrite enqueue_full.
    + rewrite enqueue_admitted by lia.
      apply parts_processNext; [by apply invariant_admitted|].
      apply Q_admitted; [done|lia|done].
  - unfold withTimeout_settled.
    destruct (suspended s !! job) as [a|] eqn:Ha; [|done].
    destruct (waiting a); [|done]. case_decide; [|done].
    destruct (inv_activation _ _ _ Hinv _ _ Ha) as [? _].
    assert (invariant config (Some job) (finish job s))
      by by apply invariant_finish.
    pose proof (Q_finish job a s Hinv Ha HQ).
    destruct outcome.
    + apply parts_succeeded; [apply parts_processNext|done..].
    + apply parts_caught; [apply parts_processNext|lia|done..].
  - unfold withTimeout_settled.
    destruct (suspended s !! job) as [a|] eqn:Ha; [|done].
    destruct (waiting a); [|done]. case_decide; [|done].
    destruct (inv_activation _ _ _ Hinv _ _ Ha) as [? _].
    assert (invariant config (Some job) (finish job s))
      by by apply invariant_finish.
    pose proof (Q_finish job a s Hinv Ha HQ).
    apply parts_caught; [apply parts_processNext|lia|done..].
  - unfold sleep_finished.
    destruct (suspended s !! job) as [a|] eqn:Ha; [|done].
    destruct (waiting a); [done|]. case_decide; [|done].
    destruct (inv_activation _ _ _ Hinv _ _ Ha) as [? _].
    apply parts_iterate; [apply parts_processNext|lia| |].
    + by apply invariant_finish.
    + by apply (Q_finish job a).
Qed.

End Parts.

(** ** The properties the specification states *)

Section Claims.

Context {T R : Type}.
Variable config : QueueConfig.
#[local] Abbreviation State := (State T R).
#[local] Abbreviation QueueJob := (QueueJob T R).
#[local] Abbreviation Effect := (Effect T R).
#[local] Abbreviation Input := (@Input T R).

(** C1.  In every reachable state of a [QueueManager] (after any sequence
    of [enqueue] calls, settled or timed-out attempts and finished
    sleeps) the active set, the [processing] map, holds at most
    [maxConcurrent] jobs; so does it within a dispatch pass, whenever a
    "started" event reports its size.  The ceiling is taken not to be
    negative: the map of a new manager is empty. *)
Theorem active_set_within_ceiling (s : State) :
  0 ≤ maxConcurrent config → reachable config s →
  Z.of_nat (size (processing s)) ≤ maxConcurrent config
  ∧ counts_within_ceiling config (effects s).
Proof.
  intros Hmax Hs. split; [|by apply reachable_counts].
  induction Hs as [|s now i _ IH].
  - simpl. rewrite map_size_empty. lia.
  - by apply ceiling_step.
Qed.

(** C3.  When the wait list holds [maxQueueSize] jobs or more, [enqueue]
    fails at once with the capacity error and changes nothing: no job
    object is created, the job counter keeps its value, and the wait
    list, the active set, the suspended calls and the effects so far are
    what they were. *)
Theorem enqueue_full_rejects (payload : T) now (s : State) :
  maxQueueSize config ≤ Z.of_nat (length (queue s)) →
  let r := enqueue config payload now s in
  r.1 = inl capacityMessage
  ∧ r.2 = s
  ∧ heap r.2 = heap s
  ∧ jobCounter r.2 = jobCounter s
  ∧ queue r.2 = queue s
  ∧ processing r.2 = processing s
  ∧ suspended r.2 = suspended s
  ∧ effects r.2 = effects s
  ∧ step config now (Submit payload) s = s.
Proof.
  intros Hfull r. unfold r. simpl. rewrite enqueue_full by done. done.
Qed.

Lemma processNext_running now (s : State) :
  isProcessing s = true → processNext config now s = s.
Proof. intros H. unfold processNext. by apply processNext_guarded_running. Qed.

Lemma with_isProcessing_same (s : State) :
  with_isProcessing (isProcessing s) s = s.
Proof. by destruct s. Qed.

Lemma processNext_stop now (s : State) :
  queue s = [] ∨ maxConcurrent config ≤ Z.of_nat (size (processing s)) →
  processNext config now s = s.
Proof.
  intros Hstop. destruct (isProcessing s) eqn:Hflag;
    [by apply processNext_running|].
  unfold processNext, processNext_guarded. rewrite Hflag.
  assert (processNext_loop config (length (queue s)) now
            (with_isProcessing true s) = with_isProcessing true s) as ->.
  { destruct (length (queue s)) eqn:Hlen; [done|]. simpl.
    rewrite decide_False; [done|].
    destruct Hstop as [Hq|?]; [|lia]. rewrite Hq in Hlen. done. }
  rewrite <-Hflag at 1. by destruct s.
Qed.

Lemma executeJob_iterate_flag b now job n lastError (s : State) :
  executeJob_iterate config (λ s, s) now job n lastError (with_isProcessing b s)
  = with_isProcessing b (executeJob_iterate config (λ s, s) now job n lastError s).
Proof.
  unfold executeJob_iterate. case_decide; [|done].
  change (heap (with_isProcessing b s)) with (heap s).
  by destruct (heap s !! job).
Qed.

Lemma queue_executeJob_iterate now job n lastError (s : State) :
  queue (executeJob_iterate config (λ s, s) now job n lastError s) = queue s.
Proof.
  unfold executeJob_iterate. case_decide; [|done]. by destruct (heap s !! job).
Qed.

Lemma processNext_turn now job rest (s : State) :
  isProcessing s = false → queue s = job :: rest →
  Z.of_nat (size (processing s)) < maxConcurrent config →
  processNext config now s =
  processNext config now
    (executeJob config (λ s, s) now job (dispatched now job rest s)).
Proof.
  intros Hflag Hq Hsize. unfold processNext at 1, processNext_guarded.
  rewrite Hflag, Hq. simpl length.
  change (processNext_loop config (S (length rest)) now
            (with_isProcessing true s))
    with (if decide (0 < Z.of_nat (length (queue s))
                     ∧ Z.of_nat (size (processing s)) < maxConcurrent config)
          then match queue s with
               | [] => with_isProcessing true s
               | job :: rest' =>
                   processNext_loop config (length rest) now
                     (dispatch
                        (executeJob config
                           (processNext_guarded
                              (processNext_loop config (length rest) now)) now)
                        now job rest' (with_isProcessing true s))
               end
          else with_isProcessing true s).
  rewrite decide_True by (rewrite Hq; simpl; lia). rewrite Hq.
  rewrite dispatch_dispatched. unfold executeJob.
  rewrite executeJob_iterate_running by done.
  change (dispatched now job rest (with_isProcessing true s))
    with (with_isProcessing true (dispatched now job rest s)).
  rewrite executeJob_iterate_flag.
  unfold processNext, processNext_guarded.
  rewrite queue_executeJob_iterate.
  change (queue (dispatched now job rest s)) with rest.
  assert (isProcessing (executeJob_iterate config (λ s, s) now job 1 None
                          (dispatched now job rest s)) = false) as ->; [|done].
  apply (executeJob_iterate_post config (λ s', isProcessing s' = false)).
  - intros s' _ _ ->. done.
  - intros s' _ ->. done.
Qed.

(** C4.  A dispatch pass, started when none is running: it stops at once
    when the wait list is empty or the active set is full; otherwise it
    removes the head of the wait list, recomputes the positions of the
    jobs that remain, sets the job's status to processing and its
    [startedAt], inserts it into the active set, emits "started", and
    hands it to [executeJob], which returns at its first [await] so that
    the pass goes on with the next job.  Job objects are numbered in the
    order of arrival, and the jobs started so far followed by the wait
    list are these numbers in order: dispatch is first in, first out. *)
Theorem dispatch_pass_algorithm now (s : State) :
  isProcessing s = false → NoDup (queue s) →
  (queue s = [] ∨ maxConcurrent config ≤ Z.of_nat (size (processing s)) →
   processNext config now s = s)
  ∧ (∀ job rest,
       queue s = job :: rest →
       Z.of_nat (size (processing s)) < maxConcurrent config →
       let s1 := dispatched now job rest s in
       queue s1 = rest
       ∧ (∀ (i : nat) job', rest !! i = Some job' →
            heap s1 !! job' = set_position (Z.of_nat i + 1) <$> heap s !! job')
       ∧ processing s1 = <[idOf job s := job]> (processing s)
       ∧ heap s1 !! job =
           (set_startedAt now ∘ set_status processing_) <$> heap s !! job
       ∧ effects s1 =
           effects s ++
           [Emit job (jobStarted (idOf job s)
                        (Z.of_nat (size (<[idOf job s := job]> (processing s)))))]
       ∧ (1 ≤ retryAttempts config → ∀ j, heap s !! job = Some j →
            executeJob config (λ s, s) now job s1 =
            suspend job {| attempt := 1; lastError := None;
                           waiting := forAttempt |}
              (perform (StartTimeout job 1 (jobTimeout config))
                 (perform (CallProcessor job (data j) 1) s1)))
       ∧ processNext config now s =
           processNext config now (executeJob config (λ s, s) now job s1))
  ∧ (∀ s' : State, reachable config s' → fifo s').
Proof.
  intros Hflag Hnd. split_and!.
  - apply processNext_stop.
  - intros job rest Hq Hsize s1. rewrite Hq in Hnd.
    pose proof Hnd as [Hnotin _]%NoDup_cons.
    assert (Hp : processing s1 = <[idOf job s := job]> (processing s))
      by by apply processing_dispatched.
    split_and!.
    + done.
    + intros i job' Hi. by apply heap_dispatched_queued.
    + done.
    + by apply heap_dispatched_eq.
    + change (effects s1) with
        (effects s ++ [Emit job (jobStarted (idOf job s1)
                                   (Z.of_nat (size (processing s1))))]).
      unfold s1 at 1. by rewrite idOf_dispatched, Hp.
    + intros HN j Hj. unfold executeJob, executeJob_iterate.
      rewrite decide_True by done.
      unfold s1. rewrite heap_dispatched_eq, Hj by done. done.
    + by apply processNext_turn.
  - apply reachable_fifo.
Qed.

Lemma life_cycle (s : State) job j :
  invariant config None s → heap s !! job = Some j →
  (settlementsOf job s = []
   ∧ (status j = queued ∨ status j = processing_))
  ∨ (∃ value, status j = completed ∧ result j = Some value
       ∧ settlementsOf job s = [Resolve job value])
  ∨ (∃ lastError, status j = failed ∧ error j = Some (errorText lastError)
       ∧ settlementsOf job s = [Reject job (rejection lastError)]).
Proof.
  intros Hinv Hj. rewrite settlementsOf_terminalsOf.
  destruct (decide (job ∈ queue s)) as [Hq|Hq].
  { left. rewrite (inv_unsettled _ _ _ Hinv) by by left.
    destruct (inv_queued _ _ _ Hinv _ Hq) as (_ & j' & Hj' & ?).
    split; [done|]. left. congruence. }
  destruct (suspended s !! job) as [a|] eqn:Ha.
  { left. assert (Hact : active None s job) by (left; by eexists).
    rewrite (inv_unsettled _ _ _ Hinv) by by right.
    destruct (inv_active _ _ _ Hinv _ Hact) as (j' & Hj' & ? & _).
    split; [done|]. right. congruence. }
  right. destruct (inv_settled _ _ _ Hinv job j Hj) as [_ Hs].
  - intros [?|[[a Ha']|?]]; [done|congruence|done].
  - destruct Hs as [(? & v & ? & ->)|(? & le & ? & ->)]; [left|right]; eauto.
Qed.

(** C8.  When attempt [n] fails and a retry follows ([n] is below
    [retryAttempts]), [executeJob] sleeps [retryDelay * n * 2] if the
    message of the failure contains "429", "rate" or "limit" as a
    substring and [retryDelay * n] otherwise, where [n] is the 1-based
    number of the attempt that failed; after the sleep it calls the
    processor with attempt [n + 1]. *)
Theorem backoff_delay_formula now job n lastError f (s : State) j :
  suspended s !! job =
    Some {| attempt := n; lastError := lastError; waiting := forAttempt |} →
  heap s !! job = Some j →
  n < retryAttempts config →
  let message := failure_message f in
  let delay := backoffDelay config n message in
  let s1 := step config now (failure_input job n f) s in
  effects s1 = effects s ++ [StartSleep job n delay]
  ∧ suspended s1 !! job =
      Some {| attempt := n; lastError := Some message; waiting := forSleep |}
  ∧ (occurs "429" message ∨ occurs "rate" message ∨ occurs "limit" message →
     delay = retryDelay config * n * 2)
  ∧ (¬ (occurs "429" message ∨ occurs "rate" message
        ∨ occurs "limit" message) →
     delay = retryDelay config * n)
  ∧ (∀ now',
       effects (step config now' (SleepFinished job n) s1) =
       effects s1 ++ [CallProcessor job (data j) (n + 1);
                      StartTimeout job (n + 1) (jobTimeout config)]).
Proof.
  intros Ha Hj Hn message delay s1.
  assert (Hs1 : s1 = suspend job
            {| attempt := n; lastError := Some message; waiting := forSleep |}
            (perform (StartSleep job n delay) (finish job s))).
  { unfold s1. rewrite step_failure_input.
    rewrite (withTimeout_settled_awaited _ _ _ _ _ _ _ Ha).
    unfold executeJob_caught. by rewrite decide_True. }
  split_and!.
  - by rewrite Hs1.
  - rewrite Hs1. simpl. apply lookup_insert_eq.
  - intros Hocc%isRateLimited_spec. unfold delay, backoffDelay.
    by rewrite Hocc.
  - intros Hocc. unfold delay, backoffDelay.
    destruct (isRateLimited message) eqn:Hrl; [|done].
    by apply isRateLimited_spec in Hrl.
  - intros now'. simpl.
    rewrite (sleep_finished_awaited config now' job n (Some message));
      [|rewrite Hs1; simpl; apply lookup_insert_eq].
    unfold executeJob_iterate. rewrite decide_True by lia.
    rewrite Hs1. simpl. rewrite Hj. simpl. by rewrite <-!app_assoc.
Qed.

Lemma timeoutMessage_linear : isRateLimited timeoutMessage = false.
Proof. by vm_compute. Qed.

Lemma errorText_timeout : errorText (Some timeoutMessage) = timeoutMessage.
Proof. by vm_compute. Qed.

(** C9.  Every call of the processor is raced against a timer set to
    [jobTimeout].  If the timer of an attempt fires first the attempt
    fails as if the processor had rejected with the timeout error: when
    attempts remain the job backs off (linearly, the timeout message is
    not a rate limit) and retries, so the timeout used up exactly this
    attempt; on the last attempt the job fails with the timeout message.
    Whatever the processor call of that attempt reports later, at any
    time, is dropped; nothing is ever sent to the call to cancel it. *)
Theorem attempt_races_timeout (s : State) job n lastError j :
  reachable config s →
  suspended s !! job =
    Some {| attempt := n; lastError := lastError; waiting := forAttempt |} →
  heap s !! job = Some j →
  raced config (effects s) = true
  ∧ ∀ now,
      let s1 := step config now (TimeoutFired job n) s in
      s1 = step config now (ProcessorSettled job n (inr timeoutMessage)) s
      ∧ (n < retryAttempts config →
         seen job s1
           (Some {| attempt := n; lastError := Some timeoutMessage;
                    waiting := forSleep |})
           j
           (effectsOf job s ++ [StartSleep job n (retryDelay config * n)]))
      ∧ (retryAttempts config ≤ n →
         seen job s1 None
           (set_error timeoutMessage
              (set_completedAt now (set_status failed j)))
           (effectsOf job s ++
            [Emit job (jobFailed (id j) timeoutMessage);
             Reject job timeoutMessage]))
      ∧ (∀ (inputs : list (N * Input)) now' outcome,
           step config now' (ProcessorSettled job n outcome)
             (run config inputs s1)
           = run config inputs s1).
Proof.
  intros Hr Ha Hj. split; [by apply reachable_raced|].
  intros now s1.
  pose proof (seen_active config s job _ j Hr Ha Hj) as Hseen.
  assert (Hs1 : s1 = step config now (failure_input job n timedOut) s) by done.
  split_and!.
  - done.
  - intros Hn. rewrite Hs1.
    pose proof (step_retry config now job n lastError timedOut s j _ Hn Hseen)
      as H.
    change (failure_message timedOut) with timeoutMessage in H.
    unfold backoffDelay in H. by rewrite timeoutMessage_linear in H.
  - intros Hn. rewrite Hs1.
    pose proof (step_exhausted config now job n lastError timedOut s j _
                  Hn Hseen) as H.
    change (failure_message timedOut) with timeoutMessage in H.
    by rewrite errorText_timeout in H.
  - intros inputs now' outcome. simpl.
    apply past_discarded, past_run; [by constructor|].
    destruct (decide (n < retryAttempts config)) as [Hlt|Hge].
    + pose proof (step_retry config now job n lastError timedOut s j _
                    Hlt Hseen).
      eapply seen_past; [done|]. simpl. by right.
    + assert (Hge' : retryAttempts config ≤ n) by lia.
      pose proof (step_exhausted config now job n lastError timedOut s j _
                    Hge' Hseen).
      by eapply seen_past.
Qed.

Lemma attemptsCalled_app (l1 l2 : list Effect) :
  attemptsCalled (l1 ++ l2) = attemptsCalled l1 ++ attemptsCalled l2.
Proof. apply omap_app. Qed.

(** The whole history of a job that waits for its first attempt. *)
Lemma first_attempt_history (s : State) job j lastError :
  reachable config s →
  suspended s !! job =
    Some {| attempt := 1; lastError := lastError; waiting := forAttempt |} →
  heap s !! job = Some j →
  ∃ p len count, effectsOf job s = opening config job j p len count.
Proof.
  intros Hr Ha Hj. destruct (reachable_chronicle config s Hr) as [_ Hc].
  destruct (Hc job _ Ha eq_refl eq_refl) as (j0 & p & len & count & Hj0 & HE).
  rewrite Hj in Hj0. injection Hj0 as <-. by exists p, len, count.
Qed.

(** A job that is resumed by the failures of its first attempts, the
    sleeps after them and a success, and to which nothing else is
    addressed. *)
Lemma success_script (s : State) job j lastError fs value
    (inputs : list (N * Input)) :
  reachable config s →
  suspended s !! job =
    Some {| attempt := 1; lastError := lastError; waiting := forAttempt |} →
  heap s !! job = Some j →
  1 + Z.of_nat (length fs) ≤ retryAttempts config →
  addressed job inputs =
    retries job 1 fs
    ++ [ProcessorSettled job (1 + Z.of_nat (length fs)) (inl value)] →
  let s' := run config inputs s in
  let sleeps := retry_effects config job (data j) 1 fs in
  (∃ now, heap s' !! job =
     Some (set_result value (set_completedAt now (set_status completed j))))
  ∧ suspended s' !! job = None
  ∧ (∀ k, processing s' !! k ≠ Some job)
  ∧ (∃ p len count, effectsOf job s' =
       opening config job j p len count ++ sleeps
       ++ [Emit job (jobCompleted (id j) value); Resolve job value])
  ∧ length (List.filter is_sleep (effectsOf job s')) = length fs
  ∧ attemptsCalled (effectsOf job s') = seqZ 1 (1 + Z.of_nat (length fs))
  ∧ terminalsOf job s' =
      [Emit job (jobCompleted (id j) value); Resolve job value].
Proof.
  intros Hr Ha Hj Hn Hin s' sleeps.
  pose proof (seen_active config _ _ _ _ Hr Ha Hj) as Hseen.
  destruct (run_retries config job j fs _ _ _ _ _ _ Hseen Hn Hin)
    as (l1 & l2 & lastError' & -> & Hl2 & Hs1).
  apply addressed_split in Hl2 as (la & now & lb & -> & Hla & Hlb).
  pose proof (seen_untouched _ _ _ _ _ _
                (untouched_run config job la _ Hla) Hs1) as Hs2.
  apply (step_succeeded config now _ _ _ value) in Hs2.
  pose proof (seen_untouched _ _ _ _ _ _
                (untouched_run config job lb _ (addressed_none _ _ Hlb)) Hs2)
    as (Hq & Hsusp & Hheap & Heff).
  assert (Hs' : s' = run config lb (step config now
            (ProcessorSettled job (1 + Z.of_nat (length fs)) (inl value))
            (run config la (run config l1 s)))).
  { unfold s'. by rewrite !run_app, run_cons. }
  rewrite <-Hs' in *. rewrite <-app_assoc in Heff.
  destruct (first_attempt_history s job j lastError Hr Ha Hj)
    as (p & len & count & HE).
  pose proof Heff as Hall. rewrite HE in Hall.
  split_and!.
  - by exists now.
  - done.
  - apply (reachable_not_processing config); [|done].
    by apply reachable_run.
  - by exists p, len, count.
  - rewrite Hall, !List.filter_app, !length_app.
    unfold sleeps. by rewrite sleeps_retry_effects.
  - rewrite Hall, !attemptsCalled_app.
    unfold sleeps. rewrite attemptsCalled_retry_effects. simpl.
    rewrite app_nil_r, (seqZ_cons 1) by lia.
    do 2 f_equal. lia.
  - rewrite (terminalsOf_app _ _ _ _ Heff), List.filter_app.
    rewrite (inv_unsettled _ _ _ (reachable_invariant config _ Hr));
      [|right; left; by eexists].
    unfold sleeps. by rewrite terminal_retry_effects.
Qed.

(** With no attempt configured [executeJob] fails the job at once: no
    error was caught, the job records the generic message and its promise
    is rejected with the generic error. *)
Lemma executeJob_no_attempt (pn : State → State) now job (s : State) :
  retryAttempts config < 1 →
  executeJob config pn now job s =
  pn (settled job
        (set_error unknownErrorMessage ∘ set_completedAt now
           ∘ set_status failed)
        (Emit job (jobFailed (idOf job s) unknownErrorMessage))
        (Reject job fallbackRejectMessage) s).
Proof.
  intros Hn. unfold executeJob, executeJob_iterate.
  rewrite decide_False by lia. by rewrite executeJob_exhausted_settled.
Qed.

(** A job that is resumed by the failures of all its attempts and the
    sleeps between them, and to which nothing else is addressed. *)
Lemma exhausted_script (s : State) job j lastError fs last
    (inputs : list (N * Input)) :
  reachable config s →
  suspended s !! job =
    Some {| attempt := 1; lastError := lastError; waiting := forAttempt |} →
  heap s !! job = Some j →
  retryAttempts config = 1 + Z.of_nat (length fs) →
  addressed job inputs =
    retries job 1 fs ++ [failure_input job (retryAttempts config) last] →
  let s' := run config inputs s in
  let sleeps := retry_effects config job (data j) 1 fs in
  let message := errorText (Some (failure_message last)) in
  (∃ now, heap s' !! job =
     Some (set_error message (set_completedAt now (set_status failed j))))
  ∧ suspended s' !! job = None
  ∧ (∀ k, processing s' !! k ≠ Some job)
  ∧ (∃ p len count, effectsOf job s' =
       opening config job j p len count ++ sleeps
       ++ [Emit job (jobFailed (id j) message);
           Reject job (failure_message last)])
  ∧ attemptsCalled (effectsOf job s') = seqZ 1 (retryAttempts config)
  ∧ terminalsOf job s' =
      [Emit job (jobFailed (id j) message); Reject job (failure_message last)]
  ∧ (∀ now (s1 : State) lastError',
       suspended s1 !! job =
         Some {| attempt := retryAttempts config; lastError := lastError';
                 waiting := forAttempt |} →
       step config now (failure_input job (retryAttempts config) last) s1 =
       processNext config now
         (settled job
            (set_error message ∘ set_completedAt now ∘ set_status failed)
            (Emit job (jobFailed (idOf job s1) message))
            (Reject job (failure_message last)) (finish job s1))).
Proof.
  intros Hr Ha Hj Hn Hin s' sleeps message.
  pose proof (seen_active config _ _ _ _ Hr Ha Hj) as Hseen.
  destruct (run_retries config job j fs _ _ _ _ _ _ Hseen ltac:(lia) Hin)
    as (l1 & l2 & lastError' & -> & Hl2 & Hs1).
  apply addressed_split in Hl2 as (la & now & lb & -> & Hla & Hlb).
  pose proof (seen_untouched _ _ _ _ _ _
                (untouched_run config job la _ Hla) Hs1) as Hs2.
  rewrite <-Hn in Hs2.
  apply (step_exhausted config now _ _ _ last) in Hs2; [|lia].
  pose proof (seen_untouched _ _ _ _ _ _
                (untouched_run config job lb _ (addressed_none _ _ Hlb)) Hs2)
    as (Hq & Hsusp & Hheap & Heff).
  assert (Hs' : s' = run config lb (step config now
            (failure_input job (retryAttempts config) last)
            (run config la (run config l1 s)))).
  { unfold s'. by rewrite !run_app, run_cons. }
  rewrite <-Hs' in *. rewrite <-app_assoc in Heff.
  destruct (first_attempt_history s job j lastError Hr Ha Hj)
    as (p & len & count & HE).
  pose proof Heff as Hall. rewrite HE in Hall.
  split_and!.
  - by exists now.
  - done.
  - apply (reachable_not_processing config); [|done].
    by apply reachable_run.
  - by exists p, len, count.
  - rewrite Hall, !attemptsCalled_app.
    unfold sleeps. rewrite attemptsCalled_retry_effects. simpl.
    rewrite app_nil_r, Hn, (seqZ_cons 1) by lia.
    do 2 f_equal. lia.
  - rewrite (terminalsOf_app _ _ _ _ Heff), List.filter_app.
    rewrite (inv_unsettled _ _ _ (reachable_invariant config _ Hr));
      [|right; left; by eexists].
    unfold sleeps. by rewrite terminal_retry_effects.
  - intros now1 s1 lastError1 Ha1.
    rewrite step_failure_input.
    rewrite (withTimeout_settled_awaited _ _ _ _ _ _ _ Ha1).
    unfold executeJob_caught. rewrite decide_False by lia.
    unfold executeJob_iterate. rewrite decide_False by lia.
    by rewrite executeJob_exhausted_settled.
Qed.

End Claims.

(** ** Stale inputs *)

Section Stale.
Context {T R : Type}.
Variable config : QueueConfig.
#[local] Abbreviation State := (State T R).
#[local] Abbreviation QueueJob := (QueueJob T R).
#[local] Abbreviation Effect := (Effect T R).
#[local] Abbreviation Input := (@Input T R).

Lemma resumes_cases job (i : Input) (s : State) :
  resumes job i s = true →
  ∃ n lastError,
    (suspended s !! job =
       Some {| attempt := n; lastError := lastError; waiting := forAttempt |}
     ∧ (i = TimeoutFired job n ∨ ∃ outcome, i = ProcessorSettled job n outcome))
    ∨ (suspended s !! job =
         Some {| attempt := n; lastError := lastError; waiting := forSleep |}
       ∧ i = SleepFinished job n).
Proof.
  unfold resumes. destruct (suspended s !! job) as [[n lastError w]|]; [|done].
  simpl. intros H. exists n, lastError.
  destruct w, i as [payload|job' n' outcome|job' n'|job' n']; try done;
    apply bool_decide_eq_true in H as [-> ->]; eauto.
Qed.

Lemma resumes_about job (i : Input) (s : State) :
  resumes job i s = true → about job i = true.
Proof.
  intros (n & lastError & [[_ [->|[outcome ->]]]|[_ ->]])%resumes_cases;
    simpl; by apply bool_decide_eq_true.
Qed.

(** An input addressed to a job that it does not resume changes
    nothing. *)
Lemma stale_dropped job now (i : Input) (s : State) :
  about job i = true → resumes job i s = false →
  step config now i s = s.
Proof.
  unfold resumes.
  destruct i as [payload|job' n outcome|job' n|job' n]; [done|..];
    intros ->%bool_decide_eq_true; simpl;
    unfold withTimeout_settled, sleep_finished;
    (destruct (suspended s !! job) as [a|]; [|done]);
    destruct (waiting a); try done;
    intros H%bool_decide_eq_false; rewrite decide_False; naive_solver.
Qed.

Lemma heard_app job (l1 l2 : list (N * Input)) (s : State) :
  heard config job (l1 ++ l2) s =
  heard config job l1 s ++ heard config job l2 (run config l1 s).
Proof.
  revert s. induction l1 as [|[now i] l1 IH]; intros s; [done|].
  simpl. by rewrite IH, app_assoc.
Qed.

Lemma heard_snoc job (l : list (N * Input)) now i (s : State) :
  heard config job (l ++ [(now, i)]) s =
  heard config job l s
  ++ (if resumes job i (run config l s) then [i] else []).
Proof. rewrite heard_app. simpl. by rewrite app_nil_r. Qed.

(** Without the stale inputs of [job] the run is the same, and what is
    left for the job is what it hears. *)
Lemma heard_pruned job (inputs : list (N * Input)) : ∀ s : State,
  ∃ inputs', run config inputs' s = run config inputs s
    ∧ addressed job inputs' = heard config job inputs s.
Proof.
  induction inputs as [|[now i] inputs IH]; intros s; [by exists []|].
  simpl heard. rewrite run_cons.
  destruct (resumes job i s) eqn:Hres.
  - destruct (IH (step config now i s)) as (inputs' & Hrun & Haddr).
    exists ((now, i) :: inputs'). split; [done|].
    rewrite addressed_cons, (resumes_about _ _ _ Hres). simpl. by f_equal.
  - destruct (about job i) eqn:Hi.
    + rewrite (stale_dropped job now i s Hi Hres). apply IH.
    + destruct (IH (step config now i s)) as (inputs' & Hrun & Haddr).
      exists ((now, i) :: inputs'). split; [done|].
      by rewrite addressed_cons, Hi.
Qed.

Lemma length_run (inputs : list (N * Input)) : ∀ s : State,
  (length (heap s) ≤ length (heap (run config inputs s)))%nat.
Proof.
  induction inputs as [|[now i] inputs IH]; intros s; [done|].
  rewrite run_cons. etrans; [apply (length_step config now i)|apply IH].
Qed.

(** A job that does not exist at the end of a run has heard nothing. *)
Lemma heard_fresh job (inputs : list (N * Input)) : ∀ s : State,
  reachable config s →
  (length (heap (run config inputs s)) ≤ job)%nat →
  heard config job inputs s = [].
Proof.
  induction inputs as [|[now i] inputs IH]; intros s Hr Hlen; [done|].
  simpl. rewrite run_cons in Hlen.
  rewrite IH; [|by constructor|done].
  destruct (resumes job i s) eqn:Hres; [|done].
  apply resumes_cases in Hres as (n & lastError & [[Ha _]|[Ha _]]);
    (destruct (inv_active _ _ _ (reachable_invariant config s Hr) job)
       as (j & Hj%lookup_lt_Some & _); [left; by eexists|]);
    pose proof (length_step config now i s);
    pose proof (length_run inputs (step config now i s)); lia.
Qed.

End Stale.

(** ** What a transition does to a queued job *)

Section Queued.
Context {T R : Type}.
Variable config : QueueConfig.
#[local] Abbreviation State := (State T R).
#[local] Abbreviation QueueJob := (QueueJob T R).
#[local] Abbreviation Effect := (Effect T R).
#[local] Abbreviation Input := (@Input T R).

Lemma dispatched_or_not_from job j (s0 s s' : State) :
  effectsOf job s = effectsOf job s0 →
  dispatched_or_not config job j s s' → dispatched_or_not config job j s0 s'.
Proof. unfold dispatched_or_not. by intros ->. Qed.

Lemma dispatched_or_not_refl job j (s : State) :
  job ∈ queue s → heap s !! job = Some j →
  dispatched_or_not config job j s s.
Proof. intros. left. eauto 10. Qed.

Lemma processNext_queued now (s : State) job j :
  invariant config None s → job ∈ queue s → heap s !! job = Some j →
  dispatched_or_not config job j s (processNext config now s).
Proof.
  intros Hinv Hq Hj. unfold processNext, processNext_guarded.
  destruct (isProcessing s) eqn:Hflag; [by apply dispatched_or_not_refl|].
  exact (processNext_loop_queued config (length (queue s)) now
           (with_isProcessing true s) job j
           (invariant_with_isProcessing config None true s Hinv)
           eq_refl Hq Hj).
Qed.

Lemma effectsOf_admitted job payload now (s : State) :
  (job < length (heap s))%nat →
  effectsOf job (admitted payload now s) = effectsOf job s.
Proof.
  intros Hj. unfold effectsOf. simpl. rewrite List.filter_app. simpl.
  rewrite bool_decide_eq_false_2; [apply app_nil_r|]. lia.
Qed.

Lemma effectsOf_admitted_new payload now (s : State) :
  invariant config None s →
  effectsOf (length (heap s)) (admitted payload now s) =
  [Emit (length (heap s))
     (jobAdded (makeJobId now (jobCounter s + 1))
        (Z.of_nat (length (queue s)) + 1)
        (Z.of_nat (length (queue s ++ [length (heap s)]))))].
Proof.
  intros Hinv. unfold effectsOf. simpl. rewrite List.filter_app. simpl.
  rewrite bool_decide_eq_true_2 by done.
  rewrite filter_none; [done|].
  intros e He. apply bool_decide_eq_false.
  pose proof (inv_effects _ _ _ Hinv e He). lia.
Qed.

Lemma queued_settled now job0 job j f ev e (s : State) :
  job0 ≠ job → effect_job ev = job0 → effect_job e = job0 →
  invariant config None (settled job0 f ev e s) →
  job ∈ queue s → heap s !! job = Some j →
  dispatched_or_not config job j s
    (processNext config now (settled job0 f ev e s)).
Proof.
  intros Hne Hev He Hinv Hq Hj.
  apply (dispatched_or_not_from job j s (settled job0 f ev e s)).
  { unfold settled. by rewrite !effectsOf_perform_ne by congruence. }
  apply processNext_queued; [done|done|].
  rewrite heap_settled. by rewrite heap_mutate_ne.
Qed.

Lemma queued_exhausted now job0 job j lastError (s : State) :
  job0 ≠ job → invariant config (Some job0) s →
  job ∈ queue s → heap s !! job = Some j →
  dispatched_or_not config job j s
    (executeJob_exhausted (processNext config now) now job0 lastError s).
Proof.
  intros Hne Hinv Hq Hj. rewrite executeJob_exhausted_settled.
  apply queued_settled; [done..| |done|done].
  by apply invariant_failed.
Qed.

Lemma queued_succeeded now job0 job j value (s : State) :
  job0 ≠ job → invariant config (Some job0) s →
  job ∈ queue s → heap s !! job = Some j →
  dispatched_or_not config job j s
    (executeJob_succeeded (processNext config now) now job0 value s).
Proof.
  intros Hne Hinv Hq Hj. rewrite executeJob_succeeded_settled.
  apply queued_settled; [done..| |done|done].
  by apply invariant_completed.
Qed.

Lemma queued_iterate now job0 job j n lastError (s : State) :
  job0 ≠ job → invariant config (Some job0) s →
  job ∈ queue s → heap s !! job = Some j →
  dispatched_or_not config job j s
    (executeJob_iterate config (processNext config now) now job0 n lastError s).
Proof.
  intros Hne Hinv Hq Hj. unfold executeJob_iterate.
  case_decide; [|by apply queued_exhausted].
  destruct (heap s !! job0) as [j0|]; [|by apply dispatched_or_not_refl].
  left. split_and!; [done| |by exists j].
  unfold suspend. change (effectsOf job (with_suspended ?m ?s))
    with (effectsOf job s).
  by rewrite !effectsOf_perform_ne.
Qed.

Lemma queued_caught now job0 job j n message (s : State) :
  job0 ≠ job → invariant config (Some job0) s →
  job ∈ queue s → heap s !! job = Some j →
  dispatched_or_not config job j s
    (executeJob_caught config (processNext config now) now job0 n message s).
Proof.
  intros Hne Hinv Hq Hj. unfold executeJob_caught.
  case_decide; [|by apply queued_iterate].
  left. split_and!; [done| |by exists j].
  unfold suspend. change (effectsOf job (with_suspended ?m ?s))
    with (effectsOf job s).
  by rewrite effectsOf_perform_ne.
Qed.

Lemma queued_not_suspended job0 job a (s : State) :
  invariant config None s → job ∈ queue s →
  suspended s !! job0 = Some a → job0 ≠ job.
Proof.
  intros Hinv Hq Ha ->. destruct (inv_queued _ _ _ Hinv _ Hq) as [Hn _].
  apply Hn. left. by eexists.
Qed.

(** A transition leaves a queued job in the wait list, or starts it in
    the dispatch pass it ends with. *)
Lemma step_queued now (i : Input) (s : State) job j :
  invariant config None s → job ∈ queue s → heap s !! job = Some j →
  dispatched_or_not config job j s (step config now i s).
Proof.
  intros Hinv Hq Hj.
  assert (Hsame : dispatched_or_not config job j s s)
    by by apply dispatched_or_not_refl.
  assert (Hfin : ∀ job0 a, suspended s !! job0 = Some a →
            job0 ≠ job ∧ invariant config (Some job0) (finish job0 s)).
  { intros job0 a Ha. split; [by eapply queued_not_suspended|].
    by eapply invariant_finish. }
  destruct i as [payload|job0 n outcome|job0 n|job0 n]; simpl.
  - destruct (decide (maxQueueSize config ≤ Z.of_nat (length (queue s)))).
    + by rewrite enqueue_full.
    + rewrite enqueue_admitted by lia. cbn [snd].
      apply (dispatched_or_not_from job j s (admitted payload now s)).
      { apply effectsOf_admitted. by eapply lookup_lt_Some. }
      apply processNext_queued; [by apply invariant_admitted| |].
      * simpl. apply elem_of_app. by left.
      * simpl. by apply lookup_app_l_Some.
  - unfold withTimeout_settled.
    destruct (suspended s !! job0) as [a|] eqn:Ha; [|done].
    destruct (waiting a); [|done]. case_decide; [|done].
    destruct (Hfin job0 a Ha) as [Hne Hinv'].
    apply (dispatched_or_not_from job j s (finish job0 s)); [done|].
    destruct outcome.
    + by apply queued_succeeded.
    + by apply queued_caught.
  - unfold withTimeout_settled.
    destruct (suspended s !! job0) as [a|] eqn:Ha; [|done].
    destruct (waiting a); [|done]. case_decide; [|done].
    destruct (Hfin job0 a Ha) as [Hne Hinv'].
    apply (dispatched_or_not_from job j s (finish job0 s)); [done|].
    by apply queued_caught.
  - unfold sleep_finished.
    destruct (suspended s !! job0) as [a|] eqn:Ha; [|done].
    destruct (waiting a); [done|]. case_decide; [|done].
    destruct (Hfin job0 a Ha) as [Hne Hinv'].
    apply (dispatched_or_not_from job j s (finish job0 s)); [done|].
    by apply queued_iterate.
Qed.

(** The heap grows by the job object of an accepted submission, and not
    otherwise. *)
Lemma heap_step now (i : Input) (s : State) :
  length (heap (step config now i s)) = length (heap s)
  ∨ ∃ payload, i = Submit payload
      ∧ Z.of_nat (length (queue s)) < maxQueueSize config
      ∧ length (heap (step config now i s)) = S (length (heap s)).
Proof.
  destruct i as [payload|job n outcome|job n|job n]; simpl.
  - destruct (decide (maxQueueSize config ≤ Z.of_nat (length (queue s)))).
    + left. by rewrite enqueue_full.
    + right. exists payload. split_and!; [done|lia|].
      rewrite enqueue_admitted by lia. cbn [snd].
      rewrite length_processNext. simpl. rewrite length_app. simpl. lia.
  - left. unfold withTimeout_settled.
    destruct (suspended s !! job) as [a|]; [|done].
    destruct (waiting a); [|done]. case_decide; [|done].
    destruct outcome.
    + by rewrite length_succeeded by apply length_processNext.
    + by rewrite length_caught by apply length_processNext.
  - left. unfold withTimeout_settled.
    destruct (suspended s !! job) as [a|]; [|done].
    destruct (waiting a); [|done]. case_decide; [|done].
    by rewrite length_caught by apply length_processNext.
  - left. unfold sleep_finished.
    destruct (suspended s !! job) as [a|]; [|done].
    destruct (waiting a); [done|]. case_decide; [|done].
    by rewrite length_iterate by apply length_processNext.
Qed.

End Queued.

(** ** The life of every job *)

Section Lives.
Context {T R : Type}.
Variable config : QueueConfig.
#[local] Abbreviation State := (State T R).
#[local] Abbreviation QueueJob := (QueueJob T R).
#[local] Abbreviation Effect := (Effect T R).
#[local] Abbreviation Input := (@Input T R).

Lemma retries_snoc job n fs f :
  retries (T:=T) (R:=R) job n (fs ++ [f]) =
  retries job n fs
  ++ [failure_input job (n + Z.of_nat (length fs)) f;
      SleepFinished job (n + Z.of_nat (length fs))].
Proof.
  revert n. induction fs as [|f' fs IH]; intros n.
  - simpl. by rewrite Z.add_0_r.
  - cbn [app retries length]. rewrite IH, Nat2Z.inj_succ.
    replace (n + 1 + Z.of_nat (length fs))
      with (n + Z.succ (Z.of_nat (length fs))) by lia.
    done.
Qed.

Lemma retry_effects_snoc job (payload : T) n fs f :
  retry_effects (R:=R) config job payload n (fs ++ [f]) =
  retry_effects config job payload n fs
  ++ [StartSleep job (n + Z.of_nat (length fs))
        (backoffDelay config (n + Z.of_nat (length fs)) (failure_message f));
      CallProcessor job payload (n + Z.of_nat (length fs) + 1);
      StartTimeout job (n + Z.of_nat (length fs) + 1) (jobTimeout config)].
Proof.
  revert n. induction fs as [|f' fs IH]; intros n.
  - simpl. by rewrite Z.add_0_r.
  - cbn [app retry_effects length]. rewrite IH, Nat2Z.inj_succ.
    replace (n + 1 + Z.of_nat (length fs))
      with (n + Z.succ (Z.of_nat (length fs))) by lia.
    done.
Qed.

Lemma life_at_attempt job (s : State) h n lastError :
  reachable config s → life config job s h →
  suspended s !! job =
    Some {| attempt := n; lastError := lastError; waiting := forAttempt |} →
  ∃ j fs p len count,
    n = 1 + Z.of_nat (length fs) ∧ n ≤ retryAttempts config
    ∧ h = retries job 1 fs
    ∧ seen job s
        (Some {| attempt := n; lastError := lastError;
                 waiting := forAttempt |})
        j
        (opening config job j p len count
         ++ retry_effects config job (data j) 1 fs).
Proof.
  intros Hr Hlife Ha.
  destruct Hlife as [Hq _|j fs le p len count HN Hh Hseen
                    |j fs f p len count HN Hh Hseen
                    |j fs value now p len count HN Hh Hseen
                    |j fs last now p len count HN Hh Hseen
                    |j p len count HN Hh Hst Herr Hseen].
  - by destruct (queued_not_suspended config job job _ s
                   (reachable_invariant config s Hr) Hq Ha).
  - pose proof Hseen as (_ & Ha' & _). rewrite Ha in Ha'.
    injection Ha' as -> ->. by exists j, fs, p, len, count.
  - destruct Hseen as (_ & Ha' & _). by rewrite Ha in Ha'.
  - destruct Hseen as (_ & Ha' & _). by rewrite Ha in Ha'.
  - destruct Hseen as (_ & Ha' & _). by rewrite Ha in Ha'.
  - destruct Hseen as (_ & Ha' & _). by rewrite Ha in Ha'.
Qed.

Lemma life_at_sleep job (s : State) h n lastError :
  reachable config s → life config job s h →
  suspended s !! job =
    Some {| attempt := n; lastError := lastError; waiting := forSleep |} →
  ∃ j fs f p len count,
    n = 1 + Z.of_nat (length fs) ∧ n < retryAttempts config
    ∧ lastError = Some (failure_message f)
    ∧ h = retries job 1 fs ++ [failure_input job n f]
    ∧ seen job s
        (Some {| attempt := n; lastError := lastError;
                 waiting := forSleep |})
        j
        (opening config job j p len count
         ++ retry_effects config job (data j) 1 fs
         ++ [StartSleep job n (backoffDelay config n (failure_message f))]).
Proof.
  intros Hr Hlife Ha.
  destruct Hlife as [Hq _|j fs le p len count HN Hh Hseen
                    |j fs f p len count HN Hh Hseen
                    |j fs value now p len count HN Hh Hseen
                    |j fs last now p len count HN Hh Hseen
                    |j p len count HN Hh Hst Herr Hseen].
  - by destruct (queued_not_suspended config job job _ s
                   (reachable_invariant config s Hr) Hq Ha).
  - destruct Hseen as (_ & Ha' & _). by rewrite Ha in Ha'.
  - pose proof Hseen as (_ & Ha' & _). rewrite Ha in Ha'.
    injection Ha' as -> ->. by exists j, fs, f, p, len, count.
  - destruct Hseen as (_ & Ha' & _). by rewrite Ha in Ha'.
  - destruct Hseen as (_ & Ha' & _). by rewrite Ha in Ha'.
  - destruct Hseen as (_ & Ha' & _). by rewrite Ha in Ha'.
Qed.

(** The attempt a job waits for succeeds. *)
Lemma life_success now job n lastError value (s : State) h :
  reachable config s → life config job s h →
  suspended s !! job =
    Some {| attempt := n; lastError := lastError; waiting := forAttempt |} →
  life config job (step config now (ProcessorSettled job n (inl value)) s)
    (h ++ [ProcessorSettled job n (inl value)]).
Proof.
  intros Hr Hlife Ha.
  destruct (life_at_attempt job s h n lastError Hr Hlife Ha)
    as (j & fs & p & len & count & -> & HN & -> & Hseen).
  apply (step_succeeded config now _ _ _ value) in Hseen.
  rewrite <-!app_assoc in Hseen.
  by eapply (life_completed config job _ _ j fs value now p len count).
Qed.

(** The attempt a job waits for fails. *)
Lemma life_failure now job n lastError f (s : State) h :
  reachable config s → life config job s h →
  suspended s !! job =
    Some {| attempt := n; lastError := lastError; waiting := forAttempt |} →
  life config job (step config now (failure_input job n f) s)
    (h ++ [failure_input job n f]).
Proof.
  intros Hr Hlife Ha.
  destruct (life_at_attempt job s h n lastError Hr Hlife Ha)
    as (j & fs & p & len & count & -> & HN & -> & Hseen).
  destruct (decide (1 + Z.of_nat (length fs) < retryAttempts config))
    as [Hlt|Hge].
  - apply (step_retry config now _ _ _ f) in Hseen; [|done].
    rewrite <-!app_assoc in Hseen.
    by eapply (life_sleep config job _ _ j fs f p len count).
  - assert (Heq : retryAttempts config = 1 + Z.of_nat (length fs)) by lia.
    apply (step_exhausted config now _ _ _ f) in Hseen; [|lia].
    rewrite <-!app_assoc in Hseen. rewrite <-Heq.
    eapply (life_failed config job _ _ j fs f now p len count); [done|done|].
    by rewrite <-Heq in Hseen.
Qed.

(** The sleep a job waits for ends. *)
Lemma life_wake now job n lastError (s : State) h :
  reachable config s → life config job s h →
  suspended s !! job =
    Some {| attempt := n; lastError := lastError; waiting := forSleep |} →
  life config job (step config now (SleepFinished job n) s)
    (h ++ [SleepFinished job n]).
Proof.
  intros Hr Hlife Ha.
  destruct (life_at_sleep job s h n lastError Hr Hlife Ha)
    as (j & fs & f & p & len & count & -> & HN & -> & -> & Hseen).
  apply (step_sleep_finished config now) in Hseen; [|lia].
  eapply (life_attempt config job _ _ j (fs ++ [f]) _ p len count).
  - rewrite length_app. simpl. lia.
  - rewrite retries_snoc, <-app_assoc. done.
  - rewrite length_app, retry_effects_snoc. simpl length.
    replace (1 + Z.of_nat (length fs + 1))
      with (1 + Z.of_nat (length fs) + 1) by lia.
    rewrite <-!app_assoc in Hseen. exact Hseen.
Qed.

(** What leaves a job outside the wait list as it is, leaves its life as
    it is. *)
Lemma life_kept job (s s' : State) h :
  job ∉ queue s →
  (∀ o j E, seen job s o j E → seen job s' o j E) →
  life config job s h → life config job s' h.
Proof.
  intros Hq Hkeep Hlife.
  destruct Hlife as [Hq' _|j fs le p len count HN Hh Hseen
                    |j fs f p len count HN Hh Hseen
                    |j fs value now p len count HN Hh Hseen
                    |j fs last now p len count HN Hh Hseen
                    |j p len count HN Hh Hst Herr Hseen].
  - done.
  - eapply life_attempt; eauto.
  - eapply life_sleep; eauto.
  - eapply life_completed; eauto.
  - eapply life_failed; eauto.
  - eapply life_unattempted; eauto.
Qed.

Lemma life_in_queue job (s : State) h :
  life config job s h → job ∈ queue s → h = [].
Proof.
  intros Hlife Hq.
  destruct Hlife as [_ Hh|j fs le p len count HN Hh Hseen
                    |j fs f p len count HN Hh Hseen
                    |j fs value now p len count HN Hh Hseen
                    |j fs last now p len count HN Hh Hseen
                    |j p len count HN Hh Hst Herr Hseen];
    [done|by destruct Hseen as [[] _]..].
Qed.

(** A job that has been added and nothing else, after a dispatch
    pass. *)
Lemma life_dispatched job j p len (s0 s' : State) :
  reachable config s' →
  dispatched_or_not config job j s0 s' →
  effectsOf job s0 = [Emit job (jobAdded (id j) p len)] →
  life config job s' [].
Proof.
  intros Hr Hd He0.
  destruct Hd as [(Hq & _)
                 |[(Hq & Ha & (j' & Hj' & Hid & Hdata) & count & He)
                  |(HN & Hq & Ha & (j' & Hj' & Hid & Hdata & Hst & Herr)
                     & count & He)]].
  - by apply life_queued.
  - destruct (inv_activation _ _ _ (reachable_invariant config s' Hr) _ _ Ha)
      as [HN _]. simpl in HN.
    apply (life_attempt config job s' [] j' [] None p len count);
      [simpl; lia|done|].
    split_and!; [done|done|done|].
    rewrite He, He0. unfold opening. rewrite Hid, Hdata. simpl.
    by rewrite ?app_nil_r.
  - apply (life_unattempted config job s' [] j' p len count); try done.
    split_and!; [done..|]. rewrite He, He0. by rewrite Hid.
Qed.

(** Every job of a run lives one of these lives. *)
Lemma biography (inputs : list (N * Input)) job :
  (job < length (heap (run config inputs initial)))%nat →
  life config job (run config inputs initial)
    (heard config job inputs initial).
Proof.
  induction inputs as [|[now i] l IH] using rev_ind; intros Hjob.
  { simpl in Hjob. lia. }
  rewrite heard_snoc. rewrite run_app in *.
  change (run config [(now, i)] (run config l initial))
    with (step config now i (run config l initial)) in *.
  set (s := run config l initial) in *.
  assert (Hr : reachable config s) by apply reachable_run, reachable_initial.
  assert (Hr' : reachable config (step config now i s)) by by constructor.
  pose proof (reachable_invariant config s Hr) as Hinv.
  destruct (decide (job < length (heap s))%nat) as [Hold|Hnew].
  - specialize (IH Hold).
    destruct (resumes job i s) eqn:Hres.
    + apply resumes_cases in Hres
        as (n & lastError & [[Ha [->|[[value|message] ->]]]|[Ha ->]]).
      * by apply (life_failure now job n lastError timedOut).
      * by eapply life_success.
      * by apply (life_failure now job n lastError (rejected message)).
      * by eapply life_wake.
    + rewrite app_nil_r.
      destruct (decide (job ∈ queue s)) as [Hq|Hq].
      * destruct (reachable_chronicle config s Hr) as [Hc _].
        destruct (Hc job Hq) as (j & p & len & Hj & HE).
        rewrite (life_in_queue job s _ IH Hq).
        apply (life_dispatched job j p len s); [done| |done].
        by apply step_queued.
      * revert IH. apply life_kept; [done|].
        destruct (about job i) eqn:Hi.
        -- by rewrite (stale_dropped config job now i s Hi Hres).
        -- intros o j E. apply seen_untouched. by apply untouched_step.
  - assert (length (heap s) ≤ job)%nat as Hfresh by lia.
    rewrite (heard_fresh config job l initial (reachable_initial config) Hfresh).
    destruct (heap_step config now i s)
      as [Heq|(payload & -> & Hroom & Hlen)]; [lia|].
    assert (job = length (heap s)) as -> by lia.
    simpl. replace (resumes (length (heap s)) (Submit payload) s) with false
      by (unfold resumes; destruct (suspended s !! length (heap s)) as [a|];
          [by destruct (waiting a)|done]).
    simpl. rewrite enqueue_admitted by done. cbn [snd].
    eapply (life_dispatched (length (heap s)) _ _ _ (admitted payload now s)).
    + simpl in Hr'. by rewrite enqueue_admitted in Hr' by done.
    + apply processNext_queued; [by apply invariant_admitted| |].
      * simpl. apply elem_of_app. right. by left.
      * simpl. by apply list_lookup_middle.
    + by rewrite (effectsOf_admitted_new config).
Qed.

End Lives.

(** ** Timers *)

Section Timers.
Context {T R : Type}.
Variable config : QueueConfig.
#[local] Abbreviation State := (State T R).
#[local] Abbreviation QueueJob := (QueueJob T R).
#[local] Abbreviation Effect := (Effect T R).
#[local] Abbreviation Input := (@Input T R).

Lemma fires_awaited job a (i : Input) :
  fires (awaitedTimer job a) i = true → i = awaitedTimer job a.
Proof.
  unfold awaitedTimer.
  destruct (waiting a), i as [payload|job' n' outcome|job' n'|job' n'];
    simpl; try done; by intros [-> ->]%bool_decide_eq_true.
Qed.

Lemma grown_refl (s : State) : grown s s.
Proof. exists []. split; [by rewrite app_nil_r|]. by left. Qed.

Lemma grown_same (s s' s'' : State) :
  suspended s'' = suspended s' → effects s'' = effects s' →
  grown s s' → grown s s''.
Proof. unfold grown. by intros -> ->. Qed.

Lemma grown_perform (e : Effect) (s s' : State) :
  grown s s' → grown s (perform e s').
Proof.
  intros (l & Hl & Hs). exists (l ++ [e]). split.
  - simpl. by rewrite Hl, app_assoc.
  - intros job a Ha. destruct (Hs job a Ha) as [?|Hin]; [by left|right].
    rewrite omap_app. apply elem_of_app. by left.
Qed.

Lemma grown_finish job (s s' : State) :
  grown s s' → grown s (finish job s').
Proof.
  intros (l & Hl & Hs). exists l. split; [done|].
  intros job' a Ha. simpl in Ha. apply lookup_delete_Some in Ha as [_ Ha].
  by apply Hs.
Qed.

Lemma grown_suspend job a (e : Effect) (s s' : State) :
  timerOf e = Some (awaitedTimer job a) →
  grown s s' → grown s (suspend job a (perform e s')).
Proof.
  intros He (l & Hl & Hs). exists (l ++ [e]). split.
  - simpl. by rewrite Hl, app_assoc.
  - intros job' a' Ha. simpl in Ha. rewrite omap_app, elem_of_app.
    destruct (decide (job' = job)) as [->|Hne].
    + rewrite lookup_insert_eq in Ha. injection Ha as <-.
      right; right. simpl. rewrite He. by left.
    + rewrite lookup_insert_ne in Ha by done.
      destruct (Hs job' a' Ha) as [?|?]; [by left|by right; left].
Qed.

Lemma grown_processNext now (s s' : State) :
  invariant config None s' → grown s s' →
  grown s (processNext config now s').
Proof.
  revert s'.
  apply (parts_processNext config (λ _ s', grown s s') now).
  - intros cur b s' H. by apply (grown_same s s').
  - intros job rest s' _ _ _ H.
    eapply grown_same; [| |by eapply grown_perform]; done.
  - intros job n lastError s' j _ _ _ H.
    by apply grown_suspend, grown_perform.
  - intros job lastError s' _ H. unfold settled.
    apply grown_perform, grown_perform. by apply (grown_same s s').
Qed.

Lemma grown_step now (i : Input) (s : State) :
  invariant config None s → grown s (step config now i s).
Proof.
  intros Hinv.
  apply (parts_step config (λ _ s', grown s s') now).
  - intros cur b s' H. by apply (grown_same s s').
  - intros payload s' _ _ H.
    eapply grown_same; [| |by eapply grown_perform]; done.
  - intros job rest s' _ _ _ H.
    eapply grown_same; [| |by eapply grown_perform]; done.
  - intros job n lastError s' j _ _ _ H.
    by apply grown_suspend, grown_perform.
  - intros job n message s' _ _ H. by apply grown_suspend.
  - intros job lastError s' _ H. unfold settled.
    apply grown_perform, grown_perform. by apply (grown_same s s').
  - intros job value s' _ H. unfold settled.
    apply grown_perform, grown_perform. by apply (grown_same s s').
  - intros job a s' _ _ H. by apply grown_finish.
  - done.
  - apply grown_refl.
Qed.

(** A call that is suspended after a transition was suspended before it
    in the same way, and the transition is not the firing of its timer;
    or the transition has started its timer. *)
Lemma waiting_or_started now (i : Input) (s : State) job a :
  reachable config s →
  suspended (step config now i s) !! job = Some a →
  (suspended s !! job = Some a ∧ fires (awaitedTimer job a) i = false)
  ∨ awaitedTimer job a ∈ timersStarted s (step config now i s).
Proof.
  intros Hr Ha'. pose proof (reachable_invariant config s Hr) as Hinv.
  destruct (grown_step now i s Hinv) as (l & Hl & Hs).
  assert (timersStarted s (step config now i s) = omap timerOf l) as ->.
  { unfold timersStarted. by rewrite Hl, drop_app_length. }
  destruct (Hs job a Ha') as [Ha|?]; [|by right].
  destruct (fires (awaitedTimer job a) i) eqn:Hf; [|by left].
  exfalso. apply fires_awaited in Hf as ->.
  destruct (inv_active _ _ _ Hinv job) as (j & Hj & _); [left; by eexists|].
  destruct (inv_activation _ _ _ Hinv _ _ Ha) as [Hn Hsleep].
  destruct a as [n lastError w].
  pose proof (seen_active config s job _ j Hr Ha Hj) as Hseen.
  unfold awaitedTimer in Ha'. simpl in *. destruct w.
  - change (TimeoutFired job n) with (failure_input (T:=T) (R:=R) job n timedOut)
      in Ha'.
    destruct (decide (n < retryAttempts config)) as [Hlt|Hge].
    + apply (step_retry config now _ _ _ timedOut) in Hseen; [|done].
      destruct Hseen as (_ & Hs' & _). by rewrite Hs' in Ha'.
    + apply (step_exhausted config now _ _ _ timedOut) in Hseen; [|lia].
      destruct Hseen as (_ & Hs' & _). by rewrite Hs' in Ha'.
  - destruct Hsleep as [Hlt _]; [done|].
    apply (step_sleep_finished config now) in Hseen; [|lia].
    destruct Hseen as (_ & Hs' & _). rewrite Hs' in Ha'.
    injection Ha' as ?. lia.
Qed.

(** When the timers of a run have fired, a call that is still suspended
    at its end has been suspended all along, and its timer has not
    fired. *)
Lemma timers_fire_suspended (inputs : list (N * Input)) : ∀ (s : State) job a,
  reachable config s → timers_fire config inputs s = true →
  suspended (run config inputs s) !! job = Some a →
  suspended s !! job = Some a
  ∧ Forall (λ x, fires (awaitedTimer job a) x.2 = false) inputs.
Proof.
  induction inputs as [|[now i] inputs IH]; intros s job a Hr Hfire Ha.
  { by split. }
  simpl in Hfire. apply andb_true_iff in Hfire as [Hnow Hrest].
  rewrite run_cons in Ha.
  destruct (IH (step config now i s) job a) as [Ha1 Hnone];
    [by constructor|done..|].
  destruct (waiting_or_started now i s job a Hr Ha1) as [[Ha0 Hf]|Hin].
  - split; [done|]. by constructor.
  - exfalso. rewrite forallb_forall in Hnow.
    apply list_elem_of_In, Hnow, existsb_exists in Hin as (x & Hx & Hfx).
    apply list_elem_of_In in Hx.
    rewrite Forall_forall in Hnone. by rewrite (Hnone x Hx) in Hfx.
Qed.

Lemma timers_fire_idle (inputs : list (N * Input)) :
  timers_fire config inputs initial = true →
  suspended (run config inputs (@initial T R)) = ∅.
Proof.
  intros Hfire. apply map_eq. intros job. rewrite lookup_empty.
  destruct (suspended (run config inputs initial) !! job) as [a|] eqn:Ha;
    [|done].
  by destruct (timers_fire_suspended inputs initial job a
                 (reachable_initial config) Hfire Ha) as [? _].
Qed.

(** With a slot to run in and no call suspended, every job is settled. *)
Lemma idle_settled (s : State) job :
  reachable config s → 1 ≤ maxConcurrent config →
  suspended s = ∅ → (job < length (heap s))%nat →
  length (settlementsOf job s) = 1%nat.
Proof.
  intros Hr Hmax Hidle Hjob.
  destruct (lookup_lt_is_Some_2 _ _ Hjob) as [j Hj].
  destruct (settled_or_live config s job j (reachable_invariant config s Hr) Hj)
    as [Ht|?]; [|done].
  destruct (unsettled_waits config s job j Hr Hmax Hj Ht) as (job' & a & Ha).
  by rewrite Hidle in Ha.
Qed.

(** With no slot to run in no job is ever started. *)
Lemma never_started (s : State) :
  maxConcurrent config < 1 → reachable config s →
  suspended s = ∅ ∧ Forall (λ e, is_settlement e = false) (effects s).
Proof.
  intros Hmax. induction 1 as [|s now i Hr [Hidle Hnone]]; [done|].
  assert (Hdrop : ∀ job, suspended s !! job = None)
    by (intros job; by rewrite Hidle).
  destruct i as [payload|job n outcome|job n|job n]; simpl;
    unfold withTimeout_settled, sleep_finished; rewrite ?Hdrop; try done.
  destruct (decide (maxQueueSize config ≤ Z.of_nat (length (queue s)))).
  - by rewrite enqueue_full.
  - rewrite enqueue_admitted by lia. cbn [snd].
    rewrite processNext_stop by (right; simpl; lia).
    split; [done|]. simpl. apply Forall_app. split; [done|].
    by constructor.
Qed.

End Timers.

(** ** The properties of whole runs *)

Section Runs.
Context {T R : Type}.
Variable config : QueueConfig.
#[local] Abbreviation State := (State T R).
#[local] Abbreviation QueueJob := (QueueJob T R).
#[local] Abbreviation Effect := (Effect T R).
#[local] Abbreviation Input := (@Input T R).

Lemma settlement_retry_effects job (payload : T) n fs :
  List.filter (is_settlement (R:=R)) (retry_effects config job payload n fs)
  = [].
Proof. revert n. induction fs as [|f fs IH]; intros n; simpl; auto. Qed.

Lemma settlementsOf_seen job (s : State) o j p len count fs tail :
  seen job s o j
    (opening config job j p len count
     ++ retry_effects config job (data j) 1 fs ++ tail) →
  settlementsOf job s = List.filter is_settlement tail.
Proof.
  intros (_ & _ & _ & HE). unfold settlementsOf.
  by rewrite HE, !List.filter_app, settlement_retry_effects.
Qed.

Lemma attemptsCalled_seen job (s : State) o j p len count fs tail :
  seen job s o j
    (opening config job j p len count
     ++ retry_effects config job (data j) 1 fs ++ tail) →
  attemptsCalled (effectsOf job s)
  = seqZ 1 (1 + Z.of_nat (length fs)) ++ attemptsCalled tail.
Proof.
  intros (_ & _ & _ & HE).
  rewrite HE, !attemptsCalled_app, attemptsCalled_retry_effects. simpl.
  rewrite (seqZ_cons 1) by lia.
  replace (Z.pred (1 + Z.of_nat (length fs))) with (Z.of_nat (length fs))
    by lia.
  done.
Qed.

Lemma unsettled_live_job job (s : State) :
  reachable config s → live None s job → settlementsOf job s = [].
Proof.
  intros Hr Hlive. rewrite settlementsOf_terminalsOf.
  by rewrite (inv_unsettled _ _ _ (reachable_invariant config s Hr)).
Qed.

Lemma reachable_as_run (s : State) :
  reachable config s → ∃ inputs, s = run config inputs initial.
Proof.
  induction 1 as [|s now i _ [inputs ->]]; [by exists []|].
  exists (inputs ++ [(now, i)]). by rewrite run_app.
Qed.

(** The life of a job from its first attempt on. *)
Lemma life_from_first (s : State) job lastError (inputs : list (N * Input)) :
  reachable config s →
  suspended s !! job =
    Some {| attempt := 1; lastError := lastError; waiting := forAttempt |} →
  life config job (run config inputs s) (heard config job inputs s)
  ∧ (job ∉ queue (run config inputs s))
  ∧ 1 ≤ retryAttempts config.
Proof.
  intros Hr Ha. pose proof (reachable_invariant config s Hr) as Hinv.
  destruct (inv_activation _ _ _ Hinv _ _ Ha) as [HN _]. simpl in HN.
  destruct (inv_active _ _ _ Hinv job) as (j & Hj & _); [left; by eexists|].
  split_and!; [| |lia].
  - destruct (reachable_as_run s Hr) as [inputs0 ->].
    pose proof (biography config (inputs0 ++ inputs) job) as Hlife.
    rewrite run_app, heard_app in Hlife.
    assert (heard config job inputs0 initial = []) as Hnone.
    { destruct (life_at_attempt config job _ _ 1 lastError Hr
                  (biography config inputs0 job
                     ltac:(by eapply lookup_lt_Some)) Ha)
        as (j' & fs & p & len & count & Hone & _ & -> & _).
      by destruct fs; [|simpl in Hone; lia]. }
    rewrite Hnone in Hlife. apply Hlife.
    eapply Nat.lt_le_trans; [by eapply lookup_lt_Some|apply length_run].
  - assert (Hpast : past job 0 s).
    { split_and!; [|by eexists|rewrite Ha; simpl; lia].
      intros Hq. by apply (queued_not_suspended config job job _ s Hinv Hq Ha). }
    by destruct (past_run config job 0 inputs s Hr Hpast) as [? _].
Qed.

Lemma success_not_failure job n (value : R) m f :
  ProcessorSettled (T:=T) job n (inl value) ≠ failure_input job m f.
Proof. by destruct f. Qed.

Lemma success_not_retried job n (value : R) fs : ∀ m,
  ProcessorSettled (T:=T) job n (inl value) ∉ retries job m fs.
Proof.
  induction fs as [|f fs IH]; intros m; simpl; [apply not_elem_of_nil|].
  rewrite !not_elem_of_cons. split_and!; [apply success_not_failure|done|apply IH].
Qed.

(** C2.  Every job that [enqueue] has admitted in a run of a new manager
    (every reachable state is the end of such a run) is settled at most
    once, whatever the inputs, stale ones included.
    [resolve] is called only when an attempt of the job succeeds, with
    the value of that attempt: the inputs that resumed the job are the
    failures of the attempts 1, ..., k - 1, the sleeps after them and the
    success of attempt k, with k at most [retryAttempts].  [reject] is
    called only when the budget is used up, with the error of the last
    attempt: the processor was called with the attempts 1, ...,
    [retryAttempts], all of them failed, and the error is that of the
    last failure, whose message the job records (the generic message for
    an empty one).  With no attempt configured the job is rejected at
    once with the generic error.  Until then the job is queued or
    processing and neither function has been called.

    And the job is settled in the end, for a ceiling of at least 1: in
    every run in which each timer that was started has fired by the end,
    every admitted job has been settled exactly once.  On the way there,
    while the job is unsettled some call of [executeJob] waits for a
    timer; the firing of that timer, like every input other than a
    submission that is not dropped, decreases [remaining]; and letting
    the timers fire settles the job.  With a ceiling below 1 no job is
    ever started, and none is settled. *)
Theorem completion_settled_exactly_once (inputs : list (N * Input)) job :
  (job < length (heap (run config inputs initial)))%nat →
  let s := run config inputs initial in
  let h := heard config job inputs initial in
  (length (settlementsOf job s) ≤ 1)%nat
  ∧ (∃ j, heap s !! job = Some j
     ∧ ((settlementsOf job s = []
         ∧ (status j = queued ∨ status j = processing_))
        ∨ (∃ fs value,
             1 + Z.of_nat (length fs) ≤ retryAttempts config
             ∧ h = retries job 1 fs
                   ++ [ProcessorSettled job (1 + Z.of_nat (length fs))
                         (inl value)]
             ∧ attemptsCalled (effectsOf job s)
               = seqZ 1 (1 + Z.of_nat (length fs))
             ∧ status j = completed ∧ result j = Some value
             ∧ settlementsOf job s = [Resolve job value])
        ∨ (∃ fs last,
             retryAttempts config = 1 + Z.of_nat (length fs)
             ∧ h = retries job 1 fs
                   ++ [failure_input job (retryAttempts config) last]
             ∧ attemptsCalled (effectsOf job s)
               = seqZ 1 (retryAttempts config)
             ∧ status j = failed
             ∧ error j = Some (errorText (Some (failure_message last)))
             ∧ settlementsOf job s = [Reject job (failure_message last)])
        ∨ (retryAttempts config < 1
           ∧ h = [] ∧ attemptsCalled (effectsOf job s) = []
           ∧ status j = failed ∧ error j = Some unknownErrorMessage
           ∧ settlementsOf job s = [Reject job fallbackRejectMessage])))
  ∧ (1 ≤ maxConcurrent config →
     timers_fire config inputs initial = true →
     length (settlementsOf job s) = 1%nat)
  ∧ (1 ≤ maxConcurrent config → settlementsOf job s = [] →
     ∃ job' a, suspended s !! job' = Some a
       ∧ ∀ now, (remaining config (step config now (awaitedTimer job' a) s)
                 < remaining config s)%nat)
  ∧ (∀ now (i : Input), (∀ payload, i ≠ Submit payload) →
       (remaining config (step config now i s) < remaining config s)%nat
       ∨ step config now i s = s)
  ∧ (1 ≤ maxConcurrent config →
     ∃ timers : list (N * Input),
       Forall (λ x, is_timer x.2 = true) timers
       ∧ length (settlementsOf job (run config timers s)) = 1%nat)
  ∧ (maxConcurrent config < 1 → settlementsOf job s = []).
Proof.
  intros Hjob. cbv zeta.
  pose proof (biography config inputs job Hjob) as Hbio.
  pose proof (timers_fire_idle config inputs) as Hidle.
  assert (Hr : reachable config (run config inputs initial))
    by apply reachable_run, reachable_initial.
  revert Hjob Hbio Hidle Hr.
  generalize (heard config job inputs initial) as h.
  generalize (run config inputs initial) as s.
  intros s h Hjob Hbio Hidle Hr.
  pose proof (reachable_invariant config s Hr) as Hinv.
  destruct (lookup_lt_is_Some_2 _ _ Hjob) as [j Hj].
  pose proof (life_cycle config s job j Hinv Hj) as Hlife.
  split_and!.
  - destruct Hlife as [[-> _]|[(? & _ & _ & ->)|(? & _ & _ & ->)]];
      simpl; lia.
  - clear Hlife. exists j. split; [done|].
    destruct Hbio
      as [Hq Hh|j' fs le p len count HN Hh Hseen
         |j' fs f p len count HN Hh Hseen
         |j' fs value now p len count HN Hh Hseen
         |j' fs last now p len count HN Hh Hseen
         |j' p len count HN Hh Hst Herr Hseen];
      try (pose proof Hseen as (Hq & Ha & Hj' & HE);
           rewrite Hj in Hj'; injection Hj' as ->).
    + left. split; [apply unsettled_live_job; [done|by left]|].
      destruct (inv_queued _ _ _ Hinv _ Hq) as (_ & j' & Hj' & Hst).
      left. congruence.
    + left. assert (Hact : active None s job) by (left; by eexists).
      split; [apply unsettled_live_job; [done|by right]|].
      destruct (inv_active _ _ _ Hinv _ Hact) as (j0 & Hj0 & Hst & _).
      right. congruence.
    + left. assert (Hact : active None s job) by (left; by eexists).
      split; [apply unsettled_live_job; [done|by right]|].
      destruct (inv_active _ _ _ Hinv _ Hact) as (j0 & Hj0 & Hst & _).
      right. congruence.
    + right; left. exists fs, value. split_and!; [done..| |done|done|].
      * rewrite (attemptsCalled_seen _ _ _ _ _ _ _ _ _ Hseen). simpl.
        apply app_nil_r.
      * by rewrite (settlementsOf_seen _ _ _ _ _ _ _ _ _ Hseen).
    + right; right; left. exists fs, last. split_and!; [done..| |done|done|].
      * rewrite (attemptsCalled_seen _ _ _ _ _ _ _ _ _ Hseen). simpl.
        rewrite HN. apply app_nil_r.
      * by rewrite (settlementsOf_seen _ _ _ _ _ _ _ _ _ Hseen).
    + right; right; right. split_and!; [done..| |done|done|].
      * by rewrite HE.
      * unfold settlementsOf. by rewrite HE.
  - intros Hmax Hfire. apply (idle_settled config); [done..| |done].
    by apply Hidle.
  - intros Hmax Hnone.
    destruct (settled_or_live config s job j Hinv Hj) as [Ht|Hone];
      [|rewrite Hnone in Hone; done].
    destruct (unsettled_waits config s job j Hr Hmax Hj Ht)
      as (job' & a & Ha).
    exists job', a. split; [done|]. intros now.
    by apply remaining_awaitedTimer.
  - intros now i Hi. by apply remaining_step.
  - intros Hmax. by eapply timers_settle.
  - intros Hmax. destruct (never_started config s Hmax Hr) as [_ Hnone].
    unfold settlementsOf, effectsOf.
    apply filter_none. intros e [He _]%list_elem_of_In%List.filter_In.
    apply list_elem_of_In in He. rewrite Forall_forall in Hnone. auto.
Qed.

(** C5.  In every reachable state the positions of the queued jobs are
    1, 2, ..., n from the head of the wait list to its tail.  A job that
    [enqueue] admits gets the length of the wait list before plus 1 as
    its position, and keeps it when [enqueue] returns; the "added" event,
    emitted first, carries this position and the new length.  When the
    active set is full the job is at the tail of the wait list when
    [enqueue] returns and nothing else has happened; when a slot is free
    the wait list was empty, the position is 1, and the job has left the
    wait list again for the active set.  The positions are contiguous
    when "added" is emitted, when [enqueue] returns, and after every
    removal of the head by a dispatch pass. *)
Theorem positions_contiguous (s : State) :
  reachable config s →
  contiguous s
  ∧ (∀ payload now,
       Z.of_nat (length (queue s)) < maxQueueSize config →
       let job := length (heap s) in
       let p := Z.of_nat (length (queue s)) + 1 in
       let added := Emit job (jobAdded (makeJobId now (jobCounter s + 1)) p p) in
       let s1 := admitted payload now s in
       let s' := (enqueue config payload now s).2 in
       (enqueue config payload now s).1 = inr job
       ∧ s' = processNext config now s1
       ∧ queue s1 = queue s ++ [job]
       ∧ position <$> heap s1 !! job = Some p
       ∧ effects s1 = effects s ++ [added]
       ∧ contiguous s1
       ∧ position <$> heap s' !! job = Some p
       ∧ (∃ later, effects s' = effects s ++ added :: later)
       ∧ (maxConcurrent config ≤ Z.of_nat (size (processing s)) →
          queue s' = queue s ++ [job] ∧ effects s' = effects s ++ [added])
       ∧ (Z.of_nat (size (processing s)) < maxConcurrent config →
          queue s = [] ∧ p = 1 ∧ queue s' = [])
       ∧ contiguous s')
  ∧ (∀ now job rest, queue s = job :: rest →
       contiguous (dispatched now job rest s)).
Proof.
  intros Hr. pose proof (reachable_invariant config s Hr) as Hinv.
  assert (Hc : ∀ cur (s' : State), invariant config cur s' → contiguous s').
  { intros cur s' Hinv' i job Hi.
    assert (Hin : job ∈ queue s') by by eapply list_elem_of_lookup_2.
    destruct (inv_queued _ _ _ Hinv' _ Hin) as (_ & j & Hj & _).
    rewrite Hj. simpl. f_equal. by eapply inv_positions. }
  split_and!.
  - by eapply Hc.
  - intros payload now Hlt job p added s1 s'.
    assert (Hs' : s' = processNext config now s1).
    { unfold s'. by rewrite enqueue_admitted. }
    assert (Hinv1 : invariant config None s1) by by apply invariant_admitted.
    assert (Heff1 : effects s1 = effects s ++ [added]).
    { unfold s1, added, p. simpl. rewrite length_app. simpl.
      do 4 f_equal. lia. }
    assert (Hj1 : heap s1 !! job
                  = Some {| id := makeJobId now (jobCounter s + 1);
                            data := payload; status := queued;
                            position := p;
                            createdAt := now; startedAt := None;
                            completedAt := None; result := None;
                            error := None |}).
    { unfold s1. simpl. by apply list_lookup_middle. }
    assert (Hfull : maxConcurrent config ≤ Z.of_nat (size (processing s)) →
                    s' = s1).
    { intros Hfull. rewrite Hs'. apply processNext_stop. by right. }
    assert (Hfree : Z.of_nat (size (processing s)) < maxConcurrent config →
                    queue s = [] ∧ queue s' = []
                    ∧ position <$> heap s' !! job = Some p).
    { intros Hfree.
      destruct (reachable_quiescent config s Hr) as [Hflag [Hq|?]]; [|lia].
      assert (Hq1 : queue s1 = [job]) by (unfold s1; simpl; by rewrite Hq).
      rewrite Hs', (processNext_turn config now job [] s1); [|done..].
      set (d := dispatched now job [] s1).
      assert (Hjd : heap d !! job
                    = (set_startedAt now ∘ set_status processing_)
                        <$> heap s1 !! job).
      { unfold d. apply heap_dispatched_eq. apply not_elem_of_nil. }
      rewrite Hj1 in Hjd. simpl in Hjd.
      assert (Hsd : suspended d !! job = None).
      { change (suspended s !! job = None).
        destruct (suspended s !! job) as [a|] eqn:Ha; [|done].
        destruct (inv_active _ _ _ Hinv job) as (j & Hj%lookup_lt_Some & _);
          [left; by eexists|]. unfold job in Hj. lia. }
      destruct (executeJob_first config now job _ d Hjd Hsd)
        as (Hq2 & _ & _ & Hcases).
      rewrite processNext_stop by (left; by rewrite Hq2).
      split_and!; [done|by rewrite Hq2|].
      by destruct Hcases as [(_ & _ & -> & _)|(_ & _ & -> & _)]. }
    split_and!.
    + by rewrite enqueue_admitted.
    + done.
    + done.
    + by rewrite Hj1.
    + done.
    + by eapply Hc.
    + destruct (decide (maxConcurrent config
                        ≤ Z.of_nat (size (processing s)))) as [Hf|Hf].
      * rewrite (Hfull Hf). by rewrite Hj1.
      * apply Hfree. lia.
    + destruct (grown_processNext config now s1 s1 Hinv1 (grown_refl s1))
        as (later & Hlater & _).
      exists later. by rewrite Hs', Hlater, Heff1, <-app_assoc.
    + intros Hf. by rewrite (Hfull Hf).
    + intros Hf. destruct (Hfree Hf) as (Hq & Hq' & _).
      split_and!; [done| |done]. unfold p. by rewrite Hq.
    + eapply Hc. rewrite Hs'. by apply pass_ok_processNext.
  - intros now job rest Hq. eapply Hc. by apply invariant_dispatched.
Qed.

(** C7.  A job whose processor fails on the attempts 1, ..., k - 1 and
    succeeds on attempt k, with k at most [retryAttempts].  The inputs of
    the run are arbitrary: those of other jobs, and stale ones of this
    job (timers of attempts that are over, processor calls that settle
    after their timer has fired); what resumes the job are the k - 1
    failures, each followed by the end of a sleep, and the success.
    Then [executeJob] has slept once after each failed attempt and not
    after the successful one, so that in the whole history of the job
    there are k - 1 sleeps and the processor calls with the attempts
    1, ..., k; the job ends with status completed and the result stored,
    its promise is fulfilled with the result, it is out of the active
    set, and one "completed" event and the fulfilment are its only
    terminal effects: no "failed" event.  No run is left out: whenever a
    success resumes the job, it is the success of an attempt k within the
    budget, and what resumed the job before it are the failures of the
    attempts 1, ..., k - 1 and the sleeps after them. *)
Theorem retry_until_success (s : State) job j lastError fs value
    (inputs : list (N * Input)) :
  reachable config s →
  suspended s !! job =
    Some {| attempt := 1; lastError := lastError; waiting := forAttempt |} →
  heap s !! job = Some j →
  1 + Z.of_nat (length fs) ≤ retryAttempts config →
  heard config job inputs s =
    retries job 1 fs
    ++ [ProcessorSettled job (1 + Z.of_nat (length fs)) (inl value)] →
  let s' := run config inputs s in
  let sleeps := retry_effects config job (data j) 1 fs in
  (∃ now, heap s' !! job =
     Some (set_result value (set_completedAt now (set_status completed j))))
  ∧ suspended s' !! job = None
  ∧ (∀ k, processing s' !! k ≠ Some job)
  ∧ (∃ p len count, effectsOf job s' =
       opening config job j p len count ++ sleeps
       ++ [Emit job (jobCompleted (id j) value); Resolve job value])
  ∧ length (List.filter is_sleep (effectsOf job s')) = length fs
  ∧ attemptsCalled (effectsOf job s') = seqZ 1 (1 + Z.of_nat (length fs))
  ∧ terminalsOf job s' =
      [Emit job (jobCompleted (id j) value); Resolve job value]
  ∧ (∀ (inputs' : list (N * Input)) n value',
       ProcessorSettled job n (inl value') ∈ heard config job inputs' s →
       ∃ fs', n = 1 + Z.of_nat (length fs') ∧ n ≤ retryAttempts config
         ∧ heard config job inputs' s =
             retries job 1 fs' ++ [ProcessorSettled job n (inl value')]).
Proof.
  intros Hr Ha Hj Hn Hh s' sleeps.
  destruct (heard_pruned config job inputs s) as (pruned & Hrun & Haddr).
  rewrite <-Haddr in Hh.
  pose proof (success_script config s job j lastError fs value pruned Hr Ha Hj Hn Hh)
    as Hscript.
  cbv zeta in Hscript. rewrite Hrun in Hscript.
  destruct Hscript as (H1 & H2 & H3 & H4 & H5 & H6 & H7).
  split_and!; [exact H1|exact H2|exact H3|exact H4|exact H5|exact H6
              |exact H7|].
  - intros inputs' n value' Hin.
    destruct (life_from_first s job lastError inputs' Hr Ha)
      as (Hlife & Hq & HN).
    destruct Hlife as [Hq' _|j' fs' le p len count _ Hh' _
                      |j' fs' f p len count _ Hh' _
                      |j' fs' v now p len count HN' Hh' _
                      |j' fs' last now p len count _ Hh' _
                      |j' p len count _ Hh' _ _ _];
      [done|rewrite Hh' in Hin..].
    + by apply success_not_retried in Hin.
    + apply elem_of_app in Hin as [Hin|Hin%list_elem_of_singleton].
      * by apply success_not_retried in Hin.
      * by apply success_not_failure in Hin.
    + apply elem_of_app in Hin as [Hin|[= -> ->]%list_elem_of_singleton].
      * by apply success_not_retried in Hin.
      * by exists fs'.
    + apply elem_of_app in Hin as [Hin|Hin%list_elem_of_singleton].
      * by apply success_not_retried in Hin.
      * by apply success_not_failure in Hin.
    + by apply elem_of_nil in Hin.
Qed.

(** C6.  A job whose processor fails on every attempt.  The inputs of the
    run are arbitrary: those of other jobs, and stale ones of this job
    (timers of attempts that are over, processor calls that settle after
    their timer has fired); what resumes the job are the failures of the
    attempts 1, ..., [retryAttempts], each but the last followed by the
    end of a sleep.  Then in the whole history of the job the processor
    is called with the attempts 1, ..., [retryAttempts] and no other.
    After the last failure the job has status failed, a [completedAt] and
    the last failure's message as [error] (the generic message when that
    message is empty), its promise is rejected with the last error, it is
    out of the active set, and "failed" and the rejection are its only
    terminal effects.  The transition ends with a dispatch pass.  No run
    is left out: whenever no success has resumed the job and no call of
    [executeJob] works on it any more, what resumed it are the failures
    of all [retryAttempts] attempts and the sleeps between them. *)
Theorem exhausted_retries_reject (s : State) job j lastError fs last
    (inputs : list (N * Input)) :
  reachable config s →
  suspended s !! job =
    Some {| attempt := 1; lastError := lastError; waiting := forAttempt |} →
  heap s !! job = Some j →
  retryAttempts config = 1 + Z.of_nat (length fs) →
  heard config job inputs s =
    retries job 1 fs ++ [failure_input job (retryAttempts config) last] →
  let s' := run config inputs s in
  let sleeps := retry_effects config job (data j) 1 fs in
  let message := errorText (Some (failure_message last)) in
  (∃ now, heap s' !! job =
     Some (set_error message (set_completedAt now (set_status failed j))))
  ∧ suspended s' !! job = None
  ∧ (∀ k, processing s' !! k ≠ Some job)
  ∧ (∃ p len count, effectsOf job s' =
       opening config job j p len count ++ sleeps
       ++ [Emit job (jobFailed (id j) message);
           Reject job (failure_message last)])
  ∧ attemptsCalled (effectsOf job s') = seqZ 1 (retryAttempts config)
  ∧ terminalsOf job s' =
      [Emit job (jobFailed (id j) message); Reject job (failure_message last)]
  ∧ (∀ now (s1 : State) lastError',
       suspended s1 !! job =
         Some {| attempt := retryAttempts config; lastError := lastError';
                 waiting := forAttempt |} →
       step config now (failure_input job (retryAttempts config) last) s1 =
       processNext config now
         (settled job
            (set_error message ∘ set_completedAt now ∘ set_status failed)
            (Emit job (jobFailed (idOf job s1) message))
            (Reject job (failure_message last)) (finish job s1)))
  ∧ (∀ inputs' : list (N * Input),
       (∀ n value,
          ProcessorSettled job n (inl value) ∉ heard config job inputs' s) →
       suspended (run config inputs' s) !! job = None →
       ∃ fs' last',
         retryAttempts config = 1 + Z.of_nat (length fs')
         ∧ heard config job inputs' s =
             retries job 1 fs'
             ++ [failure_input job (retryAttempts config) last']).
Proof.
  intros Hr Ha Hj Hn Hh s' sleeps message.
  destruct (heard_pruned config job inputs s) as (pruned & Hrun & Haddr).
  rewrite <-Haddr in Hh.
  pose proof (exhausted_script config s job j lastError fs last pruned Hr Ha Hj Hn Hh)
    as Hscript.
  cbv zeta in Hscript. rewrite Hrun in Hscript.
  destruct Hscript as (H1 & H2 & H3 & H4 & H5 & H6 & H7).
  split_and!; [exact H1|exact H2|exact H3|exact H4|exact H5|exact H6
              |exact H7|].
  - intros inputs' Hfail Hended.
    destruct (life_from_first s job lastError inputs' Hr Ha)
      as (Hlife & Hq & HN).
    destruct Hlife as [Hq' _|j' fs' le p len count _ _ Hseen
                      |j' fs' f p len count _ _ Hseen
                      |j' fs' v now p len count _ Hh' _
                      |j' fs' last' now p len count HN' Hh' _
                      |j' p len count HN' _ _ _ _].
    + done.
    + destruct Hseen as (_ & Hs' & _). by rewrite Hended in Hs'.
    + destruct Hseen as (_ & Hs' & _). by rewrite Hended in Hs'.
    + destruct (Hfail (1 + Z.of_nat (length fs')) v). rewrite Hh'.
      apply elem_of_app. right. by left.
    + by exists fs', last'.
    + lia.
Qed.

End Runs.

(** ** The classification of failure messages *)

Section Letters.

Lemma includes_cons s c needle :
  includes (String c s) needle
  = String.prefix needle (String c s) || includes s needle.
Proof. reflexivity. Qed.

(** A needle whose first character [f] never produces. *)
Lemma includes_map_absent (f : ascii → ascii) c rest s :
  (∀ x, f x ≠ c) → includes (mapString f s) (String c rest) = false.
Proof.
  intros Hf. induction s as [|x s IH]; [done|].
  simpl mapString. rewrite includes_cons, IH, orb_false_r. simpl.
  destruct (ascii_dec c (f x)) as [->|]; [by destruct (Hf x)|done].
Qed.

(** A needle whose characters [f] neither changes nor produces. *)
Lemma prefix_map_fixed (f : ascii → ascii) needle : ∀ s,
  (∀ c x, c ∈ String.list_ascii_of_string needle → f x = c ↔ x = c) →
  String.prefix needle (mapString f s) = String.prefix needle s.
Proof.
  induction needle as [|c needle IH]; intros s Hf; [by destruct s|].
  destruct s as [|x s]; [done|]. simpl.
  assert (Hc : f x = c ↔ x = c) by (apply Hf; simpl; by left).
  destruct (ascii_dec c (f x)) as [Heq|Hne], (ascii_dec c x) as [Heq'|Hne'].
  - apply IH. intros c' x' Hin. apply Hf. simpl. by right.
  - destruct Hne'. symmetry. by apply Hc.
  - destruct Hne. symmetry. by apply Hc.
  - done.
Qed.

Lemma includes_map_fixed (f : ascii → ascii) needle s :
  (∀ c x, c ∈ String.list_ascii_of_string needle → f x = c ↔ x = c) →
  includes (mapString f s) needle = includes s needle.
Proof.
  intros Hf. induction s as [|x s IH].
  - cbn [mapString includes]. by rewrite <-(prefix_map_fixed f needle "").
  - simpl mapString. rewrite !includes_cons, IH.
    by rewrite <-(prefix_map_fixed f needle (String x s)).
Qed.

Lemma asciiUpper_not_lower x c :
  (97 ≤ nat_of_ascii c ≤ 122)%nat → asciiUpper x ≠ c.
Proof.
  intros Hc Heq. subst c. revert Hc.
  destruct x as [[] [] [] [] [] [] [] []]; vm_compute; lia.
Qed.

Lemma asciiUpper_digit x c :
  (48 ≤ nat_of_ascii c ≤ 57)%nat → asciiUpper x = c ↔ x = c.
Proof.
  intros Hc. split.
  - intros <-. revert Hc.
    destruct x as [[] [] [] [] [] [] [] []]; vm_compute; (done || lia).
  - intros ->. revert Hc.
    destruct c as [[] [] [] [] [] [] [] []]; vm_compute; (done || lia).
Qed.

Lemma toUpperCase_429 m :
  includes (toUpperCase m) "429" = includes m "429".
Proof.
  apply includes_map_fixed. intros c x Hc. apply asciiUpper_digit.
  simpl in Hc. rewrite !elem_of_cons in Hc.
  destruct Hc as [->|[->|[->|Hc]]]; [vm_compute; lia..|].
  by apply elem_of_nil in Hc.
Qed.

Lemma toUpperCase_linear m :
  isRateLimited (toUpperCase m) = includes m "429".
Proof.
  unfold isRateLimited, toUpperCase.
  rewrite (includes_map_absent asciiUpper "r" "ate"),
          (includes_map_absent asciiUpper "l" "imit"), !orb_false_r.
  - apply toUpperCase_429.
  - intros x. apply asciiUpper_not_lower. vm_compute. lia.
  - intros x. apply asciiUpper_not_lower. vm_compute. lia.
Qed.

(** C10 as stated fails: "Rate limit exceeded" and "rate limit exceeded"
    differ only in letter case and neither contains "429", yet the
    variant with the capital letter is rate-limited too, because "limit"
    occurs in it. *)
Lemma case_pairs_counterexample :
  ∃ upper lower : string,
    upper = "Rate limit exceeded" ∧ lower = "rate limit exceeded"
    ∧ upper ≠ lower ∧ toLowerCase upper = lower
    ∧ includes upper "429" = false ∧ includes lower "429" = false
    ∧ isRateLimited upper = true ∧ isRateLimited lower = true
    ∧ ¬ (isRateLimited upper = false ∧ isRateLimited lower = true).
Proof.
  exists "Rate limit exceeded", "rate limit exceeded".
  split_and!; try done. by intros [? _].
Qed.

(** C10, amended.  The classification is a case-sensitive substring match:
    a message is rate-limited exactly when it contains "429", "rate" or
    "limit" as written.  "Rate Limit exceeded" is not rate-limited and
    "rate limit exceeded", which differs from it only in letter case, is.
    For every message without "429" whose lower-case form contains "rate"
    or "limit", the upper-case form is not rate-limited and the
    lower-case form is.  Every message that contains "limit", also inside
    an unrelated word, is rate-limited. *)
Theorem classification_case_sensitive :
  (∀ message,
     isRateLimited message = true ↔
     occurs "429" message ∨ occurs "rate" message ∨ occurs "limit" message)
  ∧ isRateLimited "Rate Limit exceeded" = false
  ∧ isRateLimited "rate limit exceeded" = true
  ∧ toLowerCase "Rate Limit exceeded" = "rate limit exceeded"
  ∧ (∀ message,
       includes message "429" = false →
       occurs "rate" (toLowerCase message)
       ∨ occurs "limit" (toLowerCase message) →
       isRateLimited (toUpperCase message) = false
       ∧ isRateLimited (toLowerCase message) = true)
  ∧ (∀ pre suf, isRateLimited (pre +:+ "limit" +:+ suf) = true)
  ∧ isRateLimited "unlimited plan required" = true.
Proof.
  split_and!.
  - apply isRateLimited_spec.
  - by vm_compute.
  - by vm_compute.
  - by vm_compute.
  - intros message H429 Hocc. split.
    + by rewrite toUpperCase_linear.
    + apply isRateLimited_spec. tauto.
  - intros pre suf. apply isRateLimited_spec. right. right. by exists pre, suf.
  - by vm_compute.
Qed.

End Letters.

(** ** Examples *)



Lemma oneSubmitted_reachable : reachable DEFAULT_CONFIG oneSubmitted.
Proof. apply reachable_run, reachable_initial. Qed.

Lemma oneSubmitted_suspended :
  suspended oneSubmitted !! 0%nat =
  Some {| attempt := 1; lastError := None; waiting := forAttempt |}.
Proof. vm_compute. reflexivity. Qed.

Lemma oneSubmitted_heap : heap oneSubmitted !! 0%nat = Some firstJob.
Proof. vm_compute. reflexivity. Qed.

Lemma active_set_within_ceiling_witness :
  0 ≤ maxConcurrent DEFAULT_CONFIG
  ∧ reachable DEFAULT_CONFIG oneSubmitted
  ∧ Z.of_nat (size (processing oneSubmitted)) ≤ maxConcurrent DEFAULT_CONFIG.
Proof.
  assert (H0 : 0 ≤ maxConcurrent DEFAULT_CONFIG) by (simpl; lia).
  split_and!; [exact H0|exact oneSubmitted_reachable|].
  exact (proj1 (active_set_within_ceiling DEFAULT_CONFIG oneSubmitted H0
                  oneSubmitted_reachable)).
Defined.

Lemma failingRun_admitted :
  (0 < length (heap (run DEFAULT_CONFIG failingRun initial)))%nat.
Proof. vm_compute. lia. Qed.

Lemma completion_settled_exactly_once_witness :
  (0 < length (heap (run DEFAULT_CONFIG failingRun initial)))%nat
  ∧ 1 ≤ maxConcurrent DEFAULT_CONFIG
  ∧ timers_fire DEFAULT_CONFIG failingRun initial = true
  ∧ length (settlementsOf 0 (run DEFAULT_CONFIG failingRun initial)) = 1%nat.
Proof.
  assert (H1 : 1 ≤ maxConcurrent DEFAULT_CONFIG) by (vm_compute; discriminate).
  assert (H2 : timers_fire DEFAULT_CONFIG failingRun initial = true)
    by (vm_compute; reflexivity).
  destruct (completion_settled_exactly_once DEFAULT_CONFIG failingRun 0
              failingRun_admitted) as (_ & _ & Hfired & _).
  split_and!; [exact failingRun_admitted|exact H1|exact H2|exact (Hfired H1 H2)].
Defined.

Lemma enqueue_full_rejects_witness :
  maxQueueSize narrowConfig ≤ Z.of_nat (length (queue narrowFull))
  ∧ (enqueue narrowConfig 3%nat 3%N narrowFull).1 = inl capacityMessage
  ∧ (enqueue narrowConfig 3%nat 3%N narrowFull).2 = narrowFull.
Proof.
  assert (H0 : maxQueueSize narrowConfig ≤ Z.of_nat (length (queue narrowFull)))
    by (vm_compute; discriminate).
  destruct (enqueue_full_rejects narrowConfig 3%nat 3%N narrowFull H0)
    as (H1 & H2 & _).
  split_and!; [exact H0|exact H1|exact H2].
Defined.

Lemma dispatch_pass_algorithm_witness :
  isProcessing oneAdmitted = false
  ∧ NoDup (queue oneAdmitted)
  ∧ queue (dispatched 1000%N 0%nat [] oneAdmitted) = []
  ∧ processNext DEFAULT_CONFIG 1000%N oneAdmitted =
    processNext DEFAULT_CONFIG 1000%N
      (executeJob DEFAULT_CONFIG (λ s, s) 1000%N 0%nat
         (dispatched 1000%N 0%nat [] oneAdmitted)).
Proof.
  assert (H0 : isProcessing oneAdmitted = false) by reflexivity.
  assert (H1 : NoDup (queue oneAdmitted)) by apply NoDup_singleton.
  assert (H2 : queue oneAdmitted = [0%nat]) by reflexivity.
  assert (H3 : Z.of_nat (size (processing oneAdmitted))
               < maxConcurrent DEFAULT_CONFIG) by (vm_compute; reflexivity).
  destruct (dispatch_pass_algorithm DEFAULT_CONFIG 1000%N oneAdmitted H0 H1)
    as (_ & Hturn & _).
  destruct (Hturn 0%nat [] H2 H3) as (Hq & _ & _ & _ & _ & _ & Hnext).
  split_and!; [exact H0|exact H1|exact Hq|exact Hnext].
Defined.

Lemma positions_contiguous_witness :
  reachable narrowConfig narrowFull ∧ contiguous narrowFull.
Proof.
  assert (H0 : reachable narrowConfig narrowFull)
    by apply reachable_run, reachable_initial.
  split; [exact H0|].
  exact (proj1 (positions_contiguous narrowConfig narrowFull H0)).
Defined.

Lemma exhausted_retries_reject_witness :
  reachable DEFAULT_CONFIG oneSubmitted
  ∧ suspended oneSubmitted !! 0%nat =
      Some {| attempt := 1; lastError := None; waiting := forAttempt |}
  ∧ heap oneSubmitted !! 0%nat = Some firstJob
  ∧ retryAttempts DEFAULT_CONFIG
    = 1 + Z.of_nat (length [rejected "429 Too Many Requests"; timedOut])
  ∧ heard DEFAULT_CONFIG 0 failingInputs oneSubmitted =
      retries 0 1 [rejected "429 Too Many Requests"; timedOut]
      ++ [failure_input 0 (retryAttempts DEFAULT_CONFIG) (rejected "boom")]
  ∧ terminalsOf 0 (run DEFAULT_CONFIG failingInputs oneSubmitted) =
      [Emit 0 (jobFailed "job-1000-1" "boom"); Reject 0 "boom"]
  ∧ attemptsCalled
      (effectsOf 0 (run DEFAULT_CONFIG failingInputs oneSubmitted))
    = [1; 2; 3].
Proof.
  assert (H0 : retryAttempts DEFAULT_CONFIG
    = 1 + Z.of_nat (length [rejected "429 Too Many Requests"; timedOut]))
    by reflexivity.
  assert (H1 : heard DEFAULT_CONFIG 0 failingInputs oneSubmitted =
      retries 0 1 [rejected "429 Too Many Requests"; timedOut]
      ++ [failure_input 0 (retryAttempts DEFAULT_CONFIG) (rejected "boom")])
    by (vm_compute; reflexivity).
  destruct (exhausted_retries_reject DEFAULT_CONFIG oneSubmitted 0 firstJob
              None _ (rejected "boom") failingInputs
              oneSubmitted_reachable oneSubmitted_suspended oneSubmitted_heap
              H0 H1)
    as (_ & _ & _ & _ & Hcalls & Hterm & _).
  split_and!;
    [exact oneSubmitted_reachable|exact oneSubmitted_suspended
    |exact oneSubmitted_heap|exact H0|exact H1|exact Hterm|exact Hcalls].
Defined.

Lemma retry_until_success_witness :
  reachable DEFAULT_CONFIG oneSubmitted
  ∧ suspended oneSubmitted !! 0%nat =
      Some {| attempt := 1; lastError := None; waiting := forAttempt |}
  ∧ heap oneSubmitted !! 0%nat = Some firstJob
  ∧ 1 + Z.of_nat (length [timedOut]) ≤ retryAttempts DEFAULT_CONFIG
  ∧ heard DEFAULT_CONFIG 0 recoveringInputs oneSubmitted =
      retries 0 1 [timedOut]
      ++ [ProcessorSettled 0 (1 + Z.of_nat (length [timedOut])) (inl 70%nat)]
  ∧ terminalsOf 0 (run DEFAULT_CONFIG recoveringInputs oneSubmitted) =
      [Emit 0 (jobCompleted "job-1000-1" 70%nat); Resolve 0 70%nat]
  ∧ length (List.filter is_sleep
              (effectsOf 0 (run DEFAULT_CONFIG recoveringInputs oneSubmitted)))
    = 1%nat.
Proof.
  assert (H0 : 1 + Z.of_nat (length [timedOut]) ≤ retryAttempts DEFAULT_CONFIG)
    by (vm_compute; discriminate).
  assert (H1 : heard DEFAULT_CONFIG 0 recoveringInputs oneSubmitted =
      retries 0 1 [timedOut]
      ++ [ProcessorSettled 0 (1 + Z.of_nat (length [timedOut])) (inl 70%nat)])
    by (vm_compute; reflexivity).
  destruct (retry_until_success DEFAULT_CONFIG oneSubmitted 0 firstJob
              None _ 70%nat recoveringInputs
              oneSubmitted_reachable oneSubmitted_suspended oneSubmitted_heap
              H0 H1)
    as (_ & _ & _ & _ & Hsleeps & _ & Hterm & _).
  split_and!;
    [exact oneSubmitted_reachable|exact oneSubmitted_suspended
    |exact oneSubmitted_heap|exact H0|exact H1|exact Hterm|exact Hsleeps].
Defined.

Lemma backoff_delay_formula_witness :
  suspended oneSubmitted !! 0%nat =
    Some {| attempt := 1; lastError := None; waiting := forAttempt |}
  ∧ heap oneSubmitted !! 0%nat = Some firstJob
  ∧ 1 < retryAttempts DEFAULT_CONFIG
  ∧ effects (step DEFAULT_CONFIG 2000%N
               (ProcessorSettled 0 1 (inr "429 Too Many Requests"))
               oneSubmitted)
    = effects oneSubmitted ++ [StartSleep 0 1 4000].
Proof.
  assert (H0 : 1 < retryAttempts DEFAULT_CONFIG) by reflexivity.
  split_and!; [exact oneSubmitted_suspended|exact oneSubmitted_heap|exact H0|].
  exact (proj1 (backoff_delay_formula DEFAULT_CONFIG 2000%N 0 1 None
                  (rejected "429 Too Many Requests") oneSubmitted firstJob
                  oneSubmitted_suspended oneSubmitted_heap H0)).
Defined.

Lemma attempt_races_timeout_witness :
  reachable DEFAULT_CONFIG oneSubmitted
  ∧ suspended oneSubmitted !! 0%nat =
      Some {| attempt := 1; lastError := None; waiting := forAttempt |}
  ∧ heap oneSubmitted !! 0%nat = Some firstJob
  ∧ raced DEFAULT_CONFIG (effects oneSubmitted) = true.
Proof.
  split_and!;
    [exact oneSubmitted_reachable|exact oneSubmitted_suspended
    |exact oneSubmitted_heap|].
  exact (proj1 (attempt_races_timeout DEFAULT_CONFIG oneSubmitted 0 1 None
                  firstJob oneSubmitted_reachable oneSubmitted_suspended
                  oneSubmitted_heap)).
Defined.

(** * The rest of the module *)

(** ** Every job is accounted for *)

Section Census.
Context {T R : Type}.
Variable config : QueueConfig.
#[local] Abbreviation State := (State T R).
#[local] Abbreviation QueueJob := (QueueJob T R).
#[local] Abbreviation Effect := (Effect T R).
#[local] Abbreviation Input := (@Input T R).

Lemma settlements_perform (e : Effect) (s : State) :
  settlements (perform e s) =
  settlements s ++ (if is_settlement e then [e] else []).
Proof.
  unfold settlements. simpl. rewrite List.filter_app. simpl.
  by destruct (is_settlement e).
Qed.

Lemma census_settled job f ev e (s : State) :
  is_settlement ev = false → is_settlement e = true →
  invariant config (Some job) s → census (Some job) s →
  census None (settled job f ev e s).
Proof.
  intros Hev He Hinv [Hsize Hcount].
  destruct (inv_active _ _ _ Hinv job) as (j & Hj & _ & Hp); [by right|].
  assert (Hid : idOf job s = id j) by (unfold idOf; by rewrite Hj).
  assert (Hdel : size (processing (settled job f ev e s))
                 = pred (size (processing s))).
  { rewrite processing_settled, Hid. apply map_size_delete_Some. by eexists. }
  assert (0 < size (processing s))%nat by lia.
  split.
  - rewrite Hdel. change (suspended (settled job f ev e s)) with (suspended s).
    lia.
  - assert (settlements (settled job f ev e s) = settlements s ++ [e]) as ->.
    { unfold settled. by rewrite !settlements_perform, Hev, He, app_nil_r. }
    rewrite Hdel, length_app. simpl.
    change (queue (settled job f ev e s)) with (queue s).
    change (jobCounter (settled job f ev e s)) with (jobCounter s).
    lia.
Qed.

Lemma census_suspend job a (E : list Effect) (s : State) :
  Forall (λ e, is_settlement e = false) E →
  invariant config (Some job) s → census (Some job) s →
  census None (suspend job a (foldl (λ s e, perform e s) s E)).
Proof.
  intros HE Hinv [Hsize Hcount].
  assert (Hsusp : suspended (foldl (λ s e, perform e s) s E) = suspended s
          ∧ processing (foldl (λ s e, perform e s) s E) = processing s
          ∧ queue (foldl (λ s e, perform e s) s E) = queue s
          ∧ jobCounter (foldl (λ s e, perform e s) s E) = jobCounter s
          ∧ settlements (foldl (λ s e, perform e s) s E) = settlements s).
  { clear Hsize Hcount Hinv. revert s.
    induction HE as [|e E He _ IH]; intros s; [done|]. simpl.
    destruct (IH (perform e s)) as (-> & -> & -> & -> & ->).
    rewrite settlements_perform, He, app_nil_r. done. }
  destruct Hsusp as (Hs & Hp & Hq & Hc & Hst).
  split; simpl.
  - rewrite Hp, Hs, map_size_insert_None; [simpl; lia|].
    by apply (inv_cur _ _ _ Hinv).
  - rewrite Hp, Hq, Hc. unfold settlements in *. simpl. rewrite Hst. done.
Qed.

Lemma census_step now i (s : State) :
  invariant config None s → census None s →
  census None (step config now i s).
Proof.
  apply (parts_step config census now).
  - done.
  - intros payload s' Hinv _ [Hsize Hcount]. split; [done|].
    unfold settlements. simpl. rewrite List.filter_app, !length_app. simpl.
    unfold settlements in Hcount. lia.
  - intros job rest s' Hinv Hq _ [Hsize Hcount].
    assert (Hnd : NoDup (job :: rest)).
    { rewrite <-Hq. apply (inv_nodup _ _ _ Hinv). }
    assert (Hfresh : processing s' !! idOf job s' = None).
    { destruct (processing s' !! idOf job s') as [job'|] eqn:Hp; [|done].
      destruct (inv_processing _ _ _ Hinv _ _ Hp) as [Hact Hid].
      destruct (inv_queued _ _ _ Hinv job) as (Hn & j & Hj & _);
        [rewrite Hq; by left|].
      destruct (inv_active _ _ _ Hinv job' Hact) as (j' & Hj' & _).
      assert (job' = job) as ->.
      { apply (ids_distinct config None s' _ _ j' j Hinv Hj' Hj).
        unfold idOf in Hid. by rewrite Hj', Hj in Hid. }
      done. }
    assert (Hins : size (processing (dispatched now job rest s'))
                   = S (size (processing s'))).
    { rewrite processing_dispatched by done.
      by apply map_size_insert_None. }
    split.
    + rewrite Hins. change (suspended (dispatched now job rest s'))
        with (suspended s'). lia.
    + rewrite Hins.
      change (jobCounter (dispatched now job rest s')) with (jobCounter s').
      change (queue (dispatched now job rest s')) with rest.
      assert (settlements (dispatched now job rest s') = settlements s') as ->.
      { unfold dispatched, dispatch.
        rewrite settlements_perform. simpl. apply app_nil_r. }
      rewrite Hq in Hcount. simpl in Hcount. lia.
  - intros job n lastError s' j Hinv Hj Hn Hc.
    apply (census_suspend job _
             [CallProcessor job (data j) n;
              StartTimeout job n (jobTimeout config)]); [|done..].
    by repeat constructor.
  - intros job n message s' Hinv Hn Hc.
    apply (census_suspend job _
             [StartSleep job n (backoffDelay config n message)]); [|done..].
    by repeat constructor.
  - intros job lastError s' Hinv Hc. by apply census_settled.
  - intros job value s' Hinv Hc. by apply census_settled.
  - intros job a s' Hinv Ha [Hsize Hcount]. split; [|done]. simpl.
    rewrite map_size_delete_Some by by eexists.
    assert (0 < size (suspended s'))%nat; [|lia].
    destruct (size (suspended s')) eqn:Hz; [|lia].
    apply map_size_empty_inv in Hz. by rewrite Hz in Ha.
Qed.

Lemma reachable_census (s : State) : reachable config s → census None s.
Proof.
  induction 1 as [|s now i Hr IH]; [done|].
  apply census_step; [by apply reachable_invariant|done].
Qed.

End Census.

(** ** The fields and time stamps of job objects *)

Section Shape.
Context {T R : Type}.
Variable config : QueueConfig.
#[local] Abbreviation State := (State T R).
#[local] Abbreviation QueueJob := (QueueJob T R).
#[local] Abbreviation Effect := (Effect T R).
#[local] Abbreviation Input := (@Input T R).

Section Clock.
Variable le : relation N.
Context `{!PreOrder le}.

Lemma timely_mono t t' (j : QueueJob) :
  le t t' → timely le t j → timely le t' j.
Proof.
  intros Ht. unfold timely. destruct (status j).
  - intros (? & ?). split; [by etrans|done].
  - intros ((st & ? & ? & ?) & ?). split; [|done].
    exists st. split_and!; [done..|by etrans].
  - intros ((st & ct & ? & ? & ? & ? & ?) & ?). split; [|done].
    exists st, ct. split_and!; [done..|by etrans].
  - intros ((st & ct & ? & ? & ? & ? & ?) & ?). split; [|done].
    exists st, ct. split_and!; [done..|by etrans].
Qed.

Lemma all_timely_settled now job f ev e (s : State) :
  (∀ j, status j = processing_ → timely le now j → timely le now (f j)) →
  invariant config (Some job) s →
  all_timely le now s → all_timely le now (settled job f ev e s).
Proof.
  intros Hf Hinv Hall job' j'. rewrite heap_settled, heap_mutate.
  destruct (inv_active _ _ _ Hinv job) as (j & Hj & Hst & _); [by right|].
  case_decide as Heq.
  - subst job'. rewrite Hj. intros [= <-]. apply Hf; [done|]. by apply (Hall job).
  - apply Hall.
Qed.

Lemma all_timely_step t now i (s : State) :
  le t now → invariant config None s →
  all_timely le t s → all_timely le now (step config now i s).
Proof.
  intros Ht Hinv Hall.
  assert (Hnow : all_timely le now s).
  { intros job j Hj. eapply timely_mono; [done|]. by apply (Hall job). }
  clear Hall. revert Hinv Hnow.
  apply (parts_step config (λ _, all_timely le now) now).
  - done.
  - intros payload s' Hinv _ Hall job j. simpl.
    intros [Hj|[_ Hj]]%lookup_app_Some; [by apply (Hall job)|].
    apply list_lookup_singleton_Some in Hj as [_ <-].
    unfold timely. simpl. split_and!; done.
  - intros job rest s' Hinv Hq _ Hall job' j' Hj'.
    assert (Hnd : NoDup (job :: rest)).
    { rewrite <-Hq. apply (inv_nodup _ _ _ Hinv). }
    apply heap_dispatched_cases in Hj'
      as (j & Hj & _ & _ & [[-> ->]|[(_ & i' & _ & ->)|(_ & _ & ->)]]);
      [| | |done].
    + destruct (inv_queued _ _ _ Hinv job) as (_ & j0 & Hj0 & Hst);
        [rewrite Hq; by left|].
      rewrite Hj in Hj0. injection Hj0 as <-.
      pose proof (Hall job j Hj) as Hjt. unfold timely in *.
      rewrite Hst in Hjt. destruct Hjt as (? & ? & ? & ? & ?). simpl.
      split_and!; [|done..]. exists now. split_and!; [done..|reflexivity].
    + apply (Hall job' j Hj).
    + by apply (Hall job').
  - intros job n lastError s' j _ _ _ Hall. done.
  - intros job n message s' _ _ Hall. done.
  - intros job lastError s' Hinv Hall. apply all_timely_settled; [|done..].
    intros j Hst. unfold timely. rewrite Hst. simpl.
    intros ((st & ? & ? & ?) & ? & ? & ?). split_and!; [|done|by eexists].
    exists st, now. split_and!; [done..|reflexivity].
  - intros job value s' Hinv Hall. apply all_timely_settled; [|done..].
    intros j Hst. unfold timely. rewrite Hst. simpl.
    intros ((st & ? & ? & ?) & ? & ? & ?). split_and!; [|by eexists|done].
    exists st, now. split_and!; [done..|reflexivity].
  - intros job a s' _ _ Hall. done.
Qed.

End Clock.

Lemma all_timely_reachable (s : State) :
  reachable config s → all_timely (λ _ _, True) 0%N s.
Proof.
  assert (PreOrder (λ _ _ : N, True)) by (by split).
  induction 1 as [|s now i Hr IH]; [by intros job j|].
  intros job j Hj.
  apply (timely_mono _ now 0%N); [done|].
  revert job j Hj.
  apply (all_timely_step _ 0%N); [done|by apply reachable_invariant|done].
Qed.

Lemma all_timely_run (inputs : list (N * Input)) : ∀ t (s : State),
  reachable config s → all_timely N.le t s → chronological t inputs →
  ∃ t', all_timely N.le t' (run config inputs s).
Proof.
  induction inputs as [|[now i] inputs IH]; intros t s Hr Hall Hch.
  - by exists t.
  - destruct Hch as [Ht Hch]. rewrite run_cons.
    apply (IH now (step config now i s)); [by constructor| |done].
    apply (all_timely_step N.le t);
      [done|by apply reachable_invariant|done].
Qed.

(** The wait list is never longer than [maxQueueSize]. *)
Lemma queue_bound_step now i (s : State) :
  invariant config None s →
  Z.of_nat (length (queue s)) ≤ Z.max 0 (maxQueueSize config) →
  Z.of_nat (length (queue (step config now i s)))
  ≤ Z.max 0 (maxQueueSize config).
Proof.
  apply (parts_step config
           (λ _ s, Z.of_nat (length (queue s))
                   ≤ Z.max 0 (maxQueueSize config)) now); try done.
  - intros payload s' _ Hlen _. simpl. rewrite length_app. simpl. lia.
  - intros job rest s' _ Hq _ Hb.
    change (queue (dispatched now job rest s')) with rest.
    rewrite Hq in Hb. simpl in Hb. lia.
Qed.

End Shape.

(** ** Where a job is *)

Section Places.
Context {T R : Type}.
Variable config : QueueConfig.
#[local] Abbreviation State := (State T R).
#[local] Abbreviation QueueJob := (QueueJob T R).
#[local] Abbreviation Effect := (Effect T R).
#[local] Abbreviation Input := (@Input T R).

Lemma not_in_processing (s : State) job j :
  invariant config None s → heap s !! job = Some j →
  suspended s !! job = None → processing s !! id j = None.
Proof.
  intros Hinv Hj Hs.
  destruct (processing s !! id j) as [job'|] eqn:Hp; [|done].
  destruct (inv_processing _ _ _ Hinv _ _ Hp) as [Hact Hid].
  destruct (inv_active _ _ _ Hinv job' Hact) as (j' & Hj' & _).
  assert (job' = job) as ->.
  { apply (ids_distinct config None s _ _ j' j Hinv Hj' Hj).
    unfold idOf in Hid. by rewrite Hj' in Hid. }
  destruct Hact as [[a Ha]|?]; congruence.
Qed.

(** Where a job is, by its status. *)
Lemma job_place (s : State) job j :
  invariant config None s → heap s !! job = Some j →
  (job ∈ queue s ∧ status j = queued
   ∧ suspended s !! job = None ∧ processing s !! id j = None)
  ∨ ((job ∉ queue s) ∧ status j = processing_
     ∧ is_Some (suspended s !! job) ∧ processing s !! id j = Some job)
  ∨ ((job ∉ queue s) ∧ (status j = completed ∨ status j = failed)
     ∧ suspended s !! job = None ∧ processing s !! id j = None).
Proof.
  intros Hinv Hj.
  destruct (decide (job ∈ queue s)) as [Hq|Hq].
  - left. destruct (inv_queued _ _ _ Hinv _ Hq) as (Hn & j' & Hj' & Hst).
    rewrite Hj in Hj'. injection Hj' as <-.
    assert (Hs : suspended s !! job = None).
    { destruct (suspended s !! job) eqn:Hs; [|done].
      destruct Hn. left. by eexists. }
    split_and!; [done..|]. by apply (not_in_processing s job).
  - destruct (suspended s !! job) as [a|] eqn:Hs.
    + right; left.
      destruct (inv_active _ _ _ Hinv job) as (j' & Hj' & Hst & Hp);
        [left; by eexists|].
      rewrite Hj in Hj'. injection Hj' as <-. split_and!; [done..|by eexists|done].
    + right; right.
      destruct (inv_settled _ _ _ Hinv job j Hj) as (_ & Hst).
      { intros [?|[[a Ha]|?]]; congruence. }
      split_and!; [done| |done|by apply (not_in_processing s job)].
      destruct Hst as [[? _]|[? _]]; auto.
Qed.

(** X1.  Job ids identify jobs: in every reachable state two job objects
    with the same id are the same object, whatever the times at which
    they were submitted. *)
Theorem job_ids_unique (s : State) a b ja jb :
  reachable config s →
  heap s !! a = Some ja → heap s !! b = Some jb → id ja = id jb → a = b.
Proof.
  intros Hr%reachable_invariant. by apply (ids_distinct config None s).
Qed.

(** X2.  The status of a job object tells where the job is: it is
    queued exactly while the job is in the wait list, processing exactly
    while the job is in the active set under its id (and a call of
    [executeJob] is suspended for it), and completed or failed exactly
    when it is in neither. *)
Theorem status_tracks_location (s : State) job j :
  reachable config s → heap s !! job = Some j →
  (status j = queued ↔ job ∈ queue s)
  ∧ (status j = processing_ ↔ processing s !! id j = Some job)
  ∧ (status j = processing_ ↔ is_Some (suspended s !! job))
  ∧ (status j = completed ∨ status j = failed ↔
     (job ∉ queue s) ∧ processing s !! id j = None).
Proof.
  intros Hr%reachable_invariant Hj.
  destruct (job_place s job j Hr Hj)
    as [(Hq & Hst & Hs & Hp)|[(Hq & Hst & Hs & Hp)|(Hq & Hst & Hs & Hp)]].
  - rewrite Hst, Hp, Hs. split_and!; split; try done;
      first [by intros [??]%is_Some_None|by intros [?|?]|by intros [? _]].
  - rewrite Hst, Hp. split_and!; split; try done;
      first [by intros [?|?]|by intros [_ ?]].
  - rewrite Hp, Hs. split_and!; split; try done;
      first [by intros [??]%is_Some_None
            |intros Hst'; destruct Hst; congruence].
Qed.

(** X3.  [getJobStatus] reports the job's own status and position while
    the job is queued or processing, and null once it is settled and for
    an id that no job has: a caller cannot ask for the outcome of a
    job. *)
Theorem getJobStatus_reports (s : State) :
  reachable config s →
  (∀ job j, heap s !! job = Some j →
     getJobStatus (id j) s =
     match status j with
     | queued => Some (queued, Some (position j))
     | processing_ => Some (processing_, None)
     | completed | failed => None
     end)
  ∧ (∀ jobId, (∀ job j, heap s !! job = Some j → id j ≠ jobId) →
       getJobStatus jobId s = None).
Proof.
  intros Hr%reachable_invariant. split.
  - intros job j Hj. unfold getJobStatus.
    assert (Hfind : ∀ job', job' ∈ queue s → idOf job' s = id j → job' = job).
    { intros job' Hq Hid.
      destruct (inv_queued _ _ _ Hr _ Hq) as (_ & j' & Hj' & _).
      apply (ids_distinct config None s _ _ j' j Hr Hj' Hj).
      unfold idOf in Hid. by rewrite Hj' in Hid. }
    destruct (job_place s job j Hr Hj)
      as [(Hq & Hst & Hs & Hp)|[(Hq & Hst & Hs & Hp)|(Hq & Hst & Hs & Hp)]].
    + rewrite Hp, Hst.
      destruct (List.find _ (queue s)) as [job'|] eqn:Hf.
      * apply List.find_some in Hf as [Hin Hid].
        apply bool_decide_eq_true in Hid.
        rewrite (Hfind job') by (by apply list_elem_of_In || done).
        by rewrite Hj.
      * apply list_elem_of_In in Hq.
        apply (List.find_none _ _ Hf job) in Hq as Hno.
        apply bool_decide_eq_false in Hno. destruct Hno.
        unfold idOf. by rewrite Hj.
    + by rewrite Hp, Hst.
    + rewrite Hp.
      destruct (List.find _ (queue s)) as [job'|] eqn:Hf.
      * apply List.find_some in Hf as [Hin Hid].
        apply bool_decide_eq_true in Hid. apply list_elem_of_In in Hin.
        rewrite (Hfind job' Hin Hid) in Hin. done.
      * by destruct Hst as [-> | ->].
  - intros jobId Hnone. unfold getJobStatus.
    destruct (processing s !! jobId) as [job'|] eqn:Hp.
    { destruct (inv_processing _ _ _ Hr _ _ Hp) as [Hact Hid].
      destruct (inv_active _ _ _ Hr job' Hact) as (j' & Hj' & _).
      destruct (Hnone job' j' Hj'). unfold idOf in Hid. by rewrite Hj' in Hid. }
    destruct (List.find _ (queue s)) as [job'|] eqn:Hf; [|done].
    apply List.find_some in Hf as [Hin Hid].
    apply bool_decide_eq_true in Hid. apply list_elem_of_In in Hin.
    destruct (inv_queued _ _ _ Hr _ Hin) as (_ & j' & Hj' & _).
    destruct (Hnone job' j' Hj'). unfold idOf in Hid. by rewrite Hj' in Hid.
Qed.

End Places.

(** ** More properties of the manager *)

Section Queue.
Context {T R : Type}.
Variable config : QueueConfig.
#[local] Abbreviation State := (State T R).
#[local] Abbreviation QueueJob := (QueueJob T R).
#[local] Abbreviation Effect := (Effect T R).
#[local] Abbreviation Input := (@Input T R).

Lemma reachable_queue_bound (s : State) :
  reachable config s →
  Z.of_nat (length (queue s)) ≤ Z.max 0 (maxQueueSize config).
Proof.
  induction 1 as [|s now i Hr IH]; [simpl; lia|].
  apply queue_bound_step; [by apply reachable_invariant|done].
Qed.

Lemma reachable_ceiling (s : State) :
  0 ≤ maxConcurrent config → reachable config s →
  Z.of_nat (size (processing s)) ≤ maxConcurrent config.
Proof.
  intros Hmax. induction 1 as [|s now i _ IH].
  - simpl. rewrite map_size_empty. lia.
  - by apply ceiling_step.
Qed.

(** X4.  Between transitions no dispatch pass is running and no job
    waits beside a free slot: when the wait list is not empty the active
    set is full. *)
Theorem no_job_waits_beside_free_slot (s : State) :
  reachable config s →
  isProcessing s = false
  ∧ (queue s ≠ [] → maxConcurrent config ≤ Z.of_nat (size (processing s))).
Proof.
  intros [Hflag Hsat]%reachable_quiescent. split; [done|].
  intros Hq. by destruct Hsat.
Qed.

(** X5.  The numbers [getStatus] returns: the wait list is never longer
    than [maxQueueSize], the active set never larger than the ceiling,
    and a non-empty wait list goes with a full active set. *)
Theorem getStatus_within_limits (s : State) :
  0 ≤ maxConcurrent config → reachable config s →
  ∃ queueLength processingCount,
    getStatus config s = (queueLength, processingCount, maxConcurrent config)
    ∧ 0 ≤ queueLength ≤ Z.max 0 (maxQueueSize config)
    ∧ 0 ≤ processingCount ≤ maxConcurrent config
    ∧ (0 < queueLength → processingCount = maxConcurrent config).
Proof.
  intros Hmax Hr. eexists _, _. split; [reflexivity|].
  pose proof (reachable_queue_bound s Hr).
  pose proof (reachable_ceiling s Hmax Hr).
  destruct (reachable_quiescent config s Hr) as [_ Hsat].
  split_and!; try lia.
  intros Hlen. destruct Hsat as [Hq|?]; [|lia].
  rewrite Hq in Hlen. simpl in Hlen. lia.
Qed.

(** X6.  No job is lost or counted twice: the job counter is the number
    of job objects, and it is the number of jobs in the wait list plus
    the number in the active set plus the number of calls of [resolve]
    and [reject] so far; each job of the active set has one suspended
    call of [executeJob]. *)
Theorem every_job_accounted_for (s : State) :
  reachable config s →
  N.to_nat (jobCounter s) = length (heap s)
  ∧ N.to_nat (jobCounter s)
    = (length (queue s) + size (processing s) + length (settlements s))%nat
  ∧ size (suspended s) = size (processing s).
Proof.
  intros Hr. destruct (reachable_census config s Hr) as [Hsize Hcount].
  pose proof (inv_counter _ _ _ (reachable_invariant config s Hr)).
  split_and!; [lia|done|lia].
Qed.

(** X7.  Nothing is done for a job while it waits: the only effect of a
    job of the wait list is its "added" event; the processor has not
    been called for it, no timer runs for it and its promise is
    pending. *)
Theorem queued_job_untouched (s : State) job :
  reachable config s → job ∈ queue s →
  ∃ j p len, heap s !! job = Some j
    ∧ effectsOf job s = [Emit job (jobAdded (id j) p len)]
    ∧ attemptsCalled (effectsOf job s) = []
    ∧ settlementsOf job s = [].
Proof.
  intros Hr Hq. destruct (reachable_chronicle config s Hr) as [Hc _].
  destruct (Hc job Hq) as (j & p & len & Hj & HE).
  exists j, p, len. split_and!; [done..| |].
  - by rewrite HE.
  - unfold settlementsOf. by rewrite HE.
Qed.

(** X8.  What [enqueue] does with an accepted job.  When the active set
    is full the job is appended to the wait list and nothing else
    happens.  When a slot is free the wait list is empty, and the job is
    started in the same call: it goes through the wait list into the
    active set, and the processor is called with attempt 1 under a
    timer. *)
Theorem enqueue_starts_or_waits (s : State) payload now :
  reachable config s →
  Z.of_nat (length (queue s)) < maxQueueSize config →
  let job := length (heap s) in
  let s1 := admitted payload now s in
  (enqueue config payload now s).1 = inr job
  ∧ (maxConcurrent config ≤ Z.of_nat (size (processing s)) →
     (enqueue config payload now s).2 = s1)
  ∧ (Z.of_nat (size (processing s)) < maxConcurrent config →
     1 ≤ retryAttempts config →
     queue s = []
     ∧ (enqueue config payload now s).2 =
       suspend job {| attempt := 1; lastError := None;
                      waiting := forAttempt |}
         (perform (StartTimeout job 1 (jobTimeout config))
            (perform (CallProcessor job payload 1)
               (dispatched now job [] s1)))).
Proof.
  intros Hr Hlen job s1. rewrite enqueue_admitted by done.
  change (admitted payload now s) with s1. change (length (heap s)) with job.
  destruct (reachable_quiescent config s Hr) as [Hflag Hsat].
  split_and!; [done| |].
  - intros Hfull. cbn [snd]. apply processNext_stop. by right.
  - intros Hfree Hn. destruct Hsat as [Hq|?]; [|lia]. split; [done|].
    cbn [snd].
    assert (Hq1 : queue s1 = [job]) by (unfold s1; simpl; by rewrite Hq).
    rewrite (processNext_turn config now job [] s1); [|done..].
    assert (Hj : heap (dispatched now job [] s1) !! job
                 = Some (set_startedAt now (set_status processing_
                     {| id := makeJobId now (jobCounter s + 1);
                        data := payload; status := queued;
                        position := Z.of_nat (length (queue s)) + 1;
                        createdAt := now; startedAt := None;
                        completedAt := None; result := None;
                        error := None |}))).
    { rewrite heap_dispatched_eq by apply not_elem_of_nil.
      unfold s1. simpl. by rewrite list_lookup_middle. }
    unfold executeJob, executeJob_iterate.
    rewrite decide_True by done. rewrite Hj. simpl data.
    apply processNext_stop. by left.
Qed.

(** X9.  The optional fields of a job object go with its status:
    [startedAt] is set from the start on, [completedAt] when the job is
    settled, [result] exactly when it is completed and [error] exactly
    when it is failed. *)
Theorem job_fields_by_status (s : State) job j :
  reachable config s → heap s !! job = Some j →
  match status j with
  | queued =>
      startedAt j = None ∧ completedAt j = None
      ∧ result j = None ∧ error j = None
  | processing_ =>
      is_Some (startedAt j) ∧ completedAt j = None
      ∧ result j = None ∧ error j = None
  | completed =>
      is_Some (startedAt j) ∧ is_Some (completedAt j)
      ∧ is_Some (result j) ∧ error j = None
  | failed =>
      is_Some (startedAt j) ∧ is_Some (completedAt j)
      ∧ result j = None ∧ is_Some (error j)
  end.
Proof.
  intros Hr Hj. pose proof (all_timely_reachable config s Hr job j Hj) as Ht.
  unfold timely in Ht. destruct (status j).
  - by destruct Ht as (_ & ?).
  - destruct Ht as ((st & ? & _) & ?). split; [by eexists|done].
  - destruct Ht as ((st & ct & ? & ? & _) & ?).
    split_and!; [by eexists|by eexists|tauto..].
  - destruct Ht as ((st & ct & ? & ? & _) & ?).
    split_and!; [by eexists|by eexists|tauto..].
Qed.

(** X10.  When the clock does not go back, the time stamps of every job
    are in order: created, then started, then completed. *)
Theorem timestamps_ordered (inputs : list (N * Input)) job j :
  chronological 0 inputs →
  heap (run config inputs initial) !! job = Some j →
  (∀ st, startedAt j = Some st → (createdAt j ≤ st)%N)
  ∧ (∀ ct, completedAt j = Some ct →
       ∃ st, startedAt j = Some st ∧ (st ≤ ct)%N).
Proof.
  intros Hch Hj.
  destruct (all_timely_run config inputs 0%N initial) as [t Hall];
    [constructor|by intros ??|done|].
  pose proof (Hall job j Hj) as Ht. unfold timely in Ht.
  destruct (status j).
  - destruct Ht as (_ & Hs & Hc & _). rewrite Hs, Hc. done.
  - destruct Ht as ((st & Hs & ? & _) & Hc & _). rewrite Hs, Hc.
    split; [|done]. by intros ? [= <-].
  - destruct Ht as ((st & ct & Hs & Hc & ? & ? & _) & _). rewrite Hs, Hc.
    split; [by intros ? [= <-]|]. intros ? [= <-]. by exists st.
  - destruct Ht as ((st & ct & Hs & Hc & ? & ? & _) & _). rewrite Hs, Hc.
    split; [by intros ? [= <-]|]. intros ? [= <-]. by exists st.
Qed.

End Queue.

(** ** The image queue of the module *)

Section ImageQueueFacts.
Context {P T R : Type}.
#[local] Abbreviation QueueManager := (@QueueManager P T R).
#[local] Abbreviation ModuleCall := (@ModuleCall P T R).

Lemma image_queue_created (processor : P) :
  image_queue_of (T:=T) (R:=R) processor
    (getImageProcessingQueue processor None).2.
Proof. eexists. split_and!; [done..|]. constructor. Qed.

Lemma image_queue_step (processor : P) (g : option QueueManager) c :
  image_queue_of processor g → image_queue_of processor (module_step g c).
Proof.
  intros (q & -> & Hp & Hc & Hr). destruct c as [processor'|now i]; simpl.
  - by exists q.
  - eexists. split_and!; [done..|]. simpl. rewrite Hc. by constructor.
Qed.

Lemma image_queue_run (processor : P) calls : ∀ g : option QueueManager,
  image_queue_of processor g →
  image_queue_of processor (module_run calls g).
Proof.
  induction calls as [|c calls IH]; intros g Hg; [done|].
  apply IH. by apply image_queue_step.
Qed.

(** X11.  The image queue is created once.  After the first call of
    [getImageProcessingQueue], whatever happens to the queue, every
    later call returns the manager that exists and leaves it in place:
    its processor is the one of the first call, the processor passed
    later is not used, and its configuration is that of the image queue
    (2 at a time, 50 waiting, 5 minutes, 3 attempts, 3 seconds). *)
Theorem image_queue_created_once (first later : P)
    (calls : list ModuleCall) :
  let g := module_run calls (getImageProcessingQueue first None).2 in
  ∃ q, g = Some q
    ∧ getImageProcessingQueue later g = (q, g)
    ∧ manager_processor q = first
    ∧ manager_config q = imageProcessingConfig.
Proof.
  intros g.
  destruct (image_queue_run first calls _ (image_queue_created first))
    as (q & Hg & Hp & Hc & _).
  fold g in Hg. exists q. rewrite Hg. done.
Qed.

(** X12.  [getQueueStatus] answers within the limits of the image queue
    whether or not the queue exists: the ceiling it reports is 2, the
    number of active jobs is at most 2, the wait list has at most 50
    jobs, and jobs wait only while 2 are active. *)
Theorem getQueueStatus_within_limits (calls : list ModuleCall) :
  ∃ queueLength processingCount,
    getQueueStatus (module_run calls None)
    = (queueLength, processingCount, 2)
    ∧ 0 ≤ queueLength ≤ 50
    ∧ 0 ≤ processingCount ≤ 2
    ∧ (0 < queueLength → processingCount = 2).
Proof.
  assert (Hg : ∀ g : option QueueManager,
    g = None ∨ (∃ p, image_queue_of p g) →
    module_run calls g = None ∨ (∃ p, image_queue_of p (module_run calls g))).
  { induction calls as [|c calls IH]; intros g Hg; [done|].
    apply IH. destruct Hg as [->|[p Hp]].
    - destruct c as [processor|now i]; simpl; [|by left].
      right. exists processor. apply image_queue_created.
    - right. exists p. by apply image_queue_step. }
  destruct (Hg None) as [->|(p & q & -> & _ & Hc & Hr)]; [by left| |].
  - exists 0, 0. simpl. split_and!; (done || lia).
  - simpl. rewrite Hc. eexists _, _. split; [reflexivity|].
    pose proof (reachable_queue_bound imageProcessingConfig _ Hr) as Hq.
    pose proof (reachable_ceiling imageProcessingConfig _ ltac:(simpl; lia) Hr)
      as Hp.
    destruct (reachable_quiescent imageProcessingConfig _ Hr) as [_ Hsat].
    simpl in Hq, Hp. split_and!; try lia.
    intros Hlen. destruct Hsat as [Hnil|Hfull]; [|simpl in Hfull; lia].
    rewrite Hnil in Hlen. simpl in Hlen. lia.
Qed.

End ImageQueueFacts.

(** ** Login attempts *)

Section LoginLimits.
Import SECURITY_CONFIG Login.

Lemma truthy_positive l : 0 < l → truthy (Some l) = true.
Proof. intros. simpl. apply bool_decide_eq_true. lia. Qed.

Lemma attempt_sound_firstFailure now : sound (firstFailure now).
Proof. left. split; [done|]. simpl. unfold login_maxAttempts. lia. Qed.

Lemma attempt_sound_call now c (m : gmap string LoginAttempt) :
  map_Forall (λ _ a, sound a) m → map_Forall (λ _ a, sound a) (call now c m).
Proof.
  intros Hm. destruct c as [ip|ip|ip|]; simpl.
  - unfold canAttemptLogin. destruct (m !! ip) as [a|] eqn:Ha; [|done].
    destruct (lockedAt _ a); [done|].
    destruct (lockOverAt _ a); [by apply map_Forall_delete|].
    case_decide; [by apply map_Forall_delete|done].
  - unfold recordLoginFailure. destruct (m !! ip) as [a|] eqn:Ha.
    + case_decide as Hw;
        [apply map_Forall_insert_2; [apply attempt_sound_firstFailure|done]|].
      case_decide as Hc; simpl; apply map_Forall_insert_2; try done.
      * right. eexists. split; [done|]. simpl.
        unfold login_lockoutDurationMs, login_attemptWindowMs in *. lia.
      * left. destruct (Hm ip a Ha) as [[Hl Hn]|(l & Hl & Hn & _)]; simpl.
        -- split; [done|lia].
        -- lia.
    + apply map_Forall_insert_2; [apply attempt_sound_firstFailure|done].
  - by apply map_Forall_delete.
  - intros ip a [Ha _]%map_lookup_filter_Some. by apply (Hm ip).
Qed.

Lemma attempt_reachable_sound (m : gmap string LoginAttempt) :
  reachable m → map_Forall (λ _ a, sound a) m.
Proof.
  induction 1 as [|now c m _ IH]; [apply map_Forall_empty|].
  by apply attempt_sound_call.
Qed.

(** X13.  An address is refused exactly while it is locked.  In every
    reachable state of [loginAttempts], [canAttemptLogin] refuses an
    address whose entry is locked until a time that has not come, and
    reports that time; in every other case it allows the attempt and
    reports between 1 and [maxAttempts] remaining attempts: the answer
    "not allowed, 0 remaining" is never given.  An entry whose lock is
    over is deleted by the call and the address has all its attempts
    again. *)
Theorem login_refused_only_while_locked (m : gmap string LoginAttempt)
    ip now :
  reachable m →
  (∀ a l, m !! ip = Some a → lockedUntil a = Some l → Z.of_N now < l →
     canAttemptLogin ip now m =
     ({| Verdict.allowed := false; Verdict.remainingAttempts := None;
         Verdict.lockedUntil := Some l |}, m))
  ∧ (∀ a l, m !! ip = Some a → lockedUntil a = Some l → l ≤ Z.of_N now →
       canAttemptLogin ip now m =
       ({| Verdict.allowed := true;
           Verdict.remainingAttempts := Some login_maxAttempts;
           Verdict.lockedUntil := None |}, delete ip m))
  ∧ ((∀ a l, m !! ip = Some a → lockedUntil a = Some l → l ≤ Z.of_N now) →
     ∃ r, (canAttemptLogin ip now m).1 =
          {| Verdict.allowed := true; Verdict.remainingAttempts := Some r;
             Verdict.lockedUntil := None |}
          ∧ 1 ≤ r ≤ login_maxAttempts).
Proof.
  intros Hm%attempt_reachable_sound.
  assert (Hlocked : ∀ a l, m !! ip = Some a → lockedUntil a = Some l →
    truthy (Some l) = true).
  { intros a l Ha Hl. destruct (Hm ip a Ha) as [[? _]|(l' & Hl' & _ & ? & _)];
      [congruence|]. apply truthy_positive. congruence. }
  split_and!.
  - intros a l Ha Hl Hnow. unfold canAttemptLogin. rewrite Ha.
    unfold lockedAt. rewrite Hl, (Hlocked a l Ha Hl).
    by rewrite bool_decide_eq_true_2 by done.
  - intros a l Ha Hl Hnow. unfold canAttemptLogin. rewrite Ha.
    unfold lockedAt, lockOverAt. rewrite Hl, (Hlocked a l Ha Hl).
    rewrite bool_decide_eq_false_2 by lia.
    rewrite bool_decide_eq_true_2 by done. done.
  - intros Hover. unfold canAttemptLogin.
    destruct (m !! ip) as [a|] eqn:Ha.
    2:{ eexists. split; [done|]. unfold login_maxAttempts. lia. }
    destruct (Hm ip a Ha) as [[Hl Hn]|(l & Hl & Hn & Hpos & _)].
    + unfold lockedAt, lockOverAt. rewrite Hl. case_decide.
      * eexists. split; [done|]. unfold login_maxAttempts. lia.
      * eexists. split.
        -- simpl. rewrite bool_decide_eq_true_2 by lia. done.
        -- unfold login_maxAttempts in *. lia.
    + unfold lockedAt, lockOverAt. rewrite Hl, (Hlocked a l eq_refl Hl).
      pose proof (Hover a l eq_refl Hl).
      rewrite bool_decide_eq_false_2 by lia.
      rewrite bool_decide_eq_true_2 by done. simpl.
      eexists. split; [done|]. unfold login_maxAttempts. lia.
Qed.

Lemma loginFailures_snoc ip ts t (m : gmap string LoginAttempt) :
  loginFailures ip (ts ++ [t]) m
  = (recordLoginFailure ip t (loginFailures ip ts m)).2.
Proof. unfold loginFailures. by rewrite foldl_app. Qed.

(** The entry of an address after failures within one window. *)
Lemma loginFailures_entry ip t1 (m : gmap string LoginAttempt) : ∀ rest,
  m !! ip = None →
  Forall (λ t, Z.of_N t - Z.of_N t1 ≤ login_attemptWindowMs) rest →
  (length rest < 4)%nat →
  loginFailures ip (t1 :: rest) m !! ip
  = Some {| count := Z.of_nat (S (length rest));
            firstAttemptAt := Z.of_N t1; lockedUntil := None |}.
Proof.
  intros rest Hm. induction rest as [|t rest IH] using rev_ind;
    intros Hall Hlen.
  - unfold loginFailures. simpl. unfold recordLoginFailure. rewrite Hm.
    simpl. by rewrite lookup_insert_eq.
  - apply Forall_app in Hall as [Hall Ht].
    apply List.Forall_inv in Ht. rewrite length_app in Hlen. simpl in Hlen.
    rewrite app_comm_cons, loginFailures_snoc.
    unfold recordLoginFailure at 1. rewrite IH by (done || lia).
    cbn [firstAttemptAt count lockedUntil].
    rewrite decide_False by lia.
    rewrite decide_False by (unfold login_maxAttempts; lia).
    simpl. rewrite lookup_insert_eq. do 2 f_equal.
    rewrite length_app. simpl. lia.
Qed.

(** X14.  Failed logins are counted and the fifth locks the address.
    For an address without an entry, failures within one window (15
    minutes from the first) leave [maxAttempts] minus their number
    attempts; the failure that reaches [maxAttempts] reports the lock,
    and the address is refused from then until the lock-out time after
    that failure. *)
Theorem fifth_failure_locks (m : gmap string LoginAttempt) ip t1 rest :
  m !! ip = None →
  Forall (λ t, Z.of_N t - Z.of_N t1 ≤ login_attemptWindowMs) rest →
  ((length rest < 4)%nat →
   ∀ now, Z.of_N now - Z.of_N t1 ≤ login_attemptWindowMs →
     (canAttemptLogin ip now (loginFailures ip (t1 :: rest) m)).1 =
     {| Verdict.allowed := true;
        Verdict.remainingAttempts :=
          Some (login_maxAttempts - Z.of_nat (S (length rest)));
        Verdict.lockedUntil := None |})
  ∧ (length rest = 3%nat →
     ∀ t5,
       Z.of_N t5 - Z.of_N t1 ≤ login_attemptWindowMs →
       let until := Z.of_N t5 + login_lockoutDurationMs in
       let m5 := loginFailures ip (t1 :: rest) m in
       (recordLoginFailure ip t5 m5).1 =
         {| Outcome.locked := true; Outcome.lockedUntil := Some until |}
       ∧ ∀ now, Z.of_N now < until →
           (canAttemptLogin ip now (recordLoginFailure ip t5 m5).2).1 =
           {| Verdict.allowed := false; Verdict.remainingAttempts := None;
              Verdict.lockedUntil := Some until |}).
Proof.
  intros Hm Hall. split.
  - intros Hlen now Hnow. unfold canAttemptLogin.
    rewrite (loginFailures_entry ip t1 m rest) by done.
    unfold lockedAt, lockOverAt. cbn [count firstAttemptAt lockedUntil].
    rewrite decide_False by lia. cbn [fst].
    rewrite bool_decide_eq_true_2 by (unfold login_maxAttempts; lia).
    do 2 f_equal. unfold login_maxAttempts. lia.
  - intros Hlen t5 Ht5 until m5.
    assert (H5 : recordLoginFailure ip t5 m5 =
      ({| Outcome.locked := true; Outcome.lockedUntil := Some until |},
       <[ip := {| count := 5; firstAttemptAt := Z.of_N t1;
                  lockedUntil := Some until |}]> m5)).
    { unfold recordLoginFailure, m5.
      rewrite (loginFailures_entry ip t1 m rest) by (done || lia).
      cbn [count firstAttemptAt lockedUntil].
      rewrite decide_False by lia.
      rewrite decide_True by (unfold login_maxAttempts; lia).
      rewrite Hlen. done. }
    rewrite H5. split; [done|]. intros now Hnow. simpl.
    unfold canAttemptLogin. rewrite lookup_insert_eq.
    unfold lockedAt. simpl.
    rewrite bool_decide_eq_true_2
      by (unfold until, login_lockoutDurationMs; lia).
    by rewrite bool_decide_eq_true_2.
Qed.

(** X15.  Addresses do not interfere: a check, a failure or a success
    recorded for one address changes no answer about another one. *)
Theorem login_addresses_independent (m : gmap string LoginAttempt)
    c ip ip' t now :
  loginCallAddress c = Some ip → ip ≠ ip' →
  (canAttemptLogin ip' now (call t c m)).1 = (canAttemptLogin ip' now m).1
  ∧ (recordLoginFailure ip' now (call t c m)).1
    = (recordLoginFailure ip' now m).1.
Proof.
  intros Hc Hne.
  assert (Hlook : call t c m !! ip' = m !! ip').
  { destruct c as [ip0|ip0|ip0|]; simpl in *; try done;
      injection Hc as ->.
    - unfold canAttemptLogin. destruct (m !! ip) as [a|]; [|done].
      destruct (lockedAt _ a); [done|].
      destruct (lockOverAt _ a); [by apply lookup_delete_ne|].
      case_decide; [by apply lookup_delete_ne|done].
    - unfold recordLoginFailure. destruct (m !! ip) as [a|].
      + case_decide; [by apply lookup_insert_ne|].
        case_decide; by apply lookup_insert_ne.
      + by apply lookup_insert_ne.
    - by apply lookup_delete_ne. }
  split.
  - unfold canAttemptLogin. rewrite Hlook.
    destruct (m !! ip') as [a|]; [|done].
    destruct (lockedAt _ a); [done|].
    destruct (lockOverAt _ a); [done|]. by case_decide.
  - unfold recordLoginFailure. rewrite Hlook.
    destruct (m !! ip') as [a|]; [|done].
    case_decide; [done|]. by case_decide.
Qed.

(** X16.  The periodic clean-up of [loginAttempts] cannot be observed:
    in every reachable state, [canAttemptLogin] answers after a clean-up
    what it would have answered without it. *)
Theorem login_cleanup_unobservable (m : gmap string LoginAttempt)
    (others : gmap string Session.SessionActivity
              * gmap string Quota.ProcessingRecord)
    ip swept now :
  reachable m → (swept ≤ now)%N →
  (canAttemptLogin ip now
     (cleanupExpiredData swept (m, others.1, others.2)).1.1).1
  = (canAttemptLogin ip now m).1.
Proof.
  intros Hm%attempt_reachable_sound Ht. unfold cleanupExpiredData. cbn [fst].
  unfold canAttemptLogin, cleanupLoginAttempts.
  destruct (m !! ip) as [a|] eqn:Ha.
  2:{ rewrite map_lookup_filter_None_2; [done|]. left. done. }
  destruct (stale (Z.of_N swept) a) eqn:Hstale.
  - rewrite map_lookup_filter_None_2.
    2:{ right. intros a' Ha'. simpl. congruence. }
    unfold stale in Hstale. unfold lockedAt, lockOverAt.
    destruct (Hm ip a Ha) as [[Hl Hn]|(l & Hl & Hn & Hpos & Hend)];
      rewrite Hl in *.
    + apply bool_decide_eq_true in Hstale.
      rewrite decide_True; [done|].
      unfold login_attemptWindowMs in *. lia.
    + rewrite (truthy_positive l Hpos) in *.
      assert (l < Z.of_N swept).
      { destruct (bool_decide (Z.of_N swept > l)) eqn:Hgt.
        - apply bool_decide_eq_true in Hgt. lia.
        - simpl in Hstale. apply bool_decide_eq_true in Hstale.
          unfold login_attemptWindowMs, login_lockoutDurationMs in *. lia. }
      rewrite bool_decide_eq_false_2 by lia.
      by rewrite bool_decide_eq_true_2 by lia.
  - rewrite (map_lookup_filter_Some_2 _ _ ip a); [|done|exact Hstale].
    destruct (lockedAt _ a); [done|].
    destruct (lockOverAt _ a); [done|]. by case_decide.
Qed.

End LoginLimits.

(** ** Sessions *)

Section Sessions.
Import SECURITY_CONFIG Session.

(** X17.  No token is refused durably.  A token that [isSessionValid]
    refuses is accepted at the next check, at whatever time, because the
    refusal deletes its entry and a token without an entry is registered
    as a new session; for the same reason a token is accepted after
    [invalidateSession] and after the clean-up has removed its timed-out
    entry. *)
Theorem refused_token_is_readmitted (m : gmap string SessionActivity)
    (others : gmap string Login.LoginAttempt * gmap string Quota.ProcessingRecord)
    token now now' :
  ((isSessionValid token now m).1 = false →
   (isSessionValid token now' (isSessionValid token now m).2).1 = true)
  ∧ (isSessionValid token now' (invalidateSession token m)).1 = true
  ∧ ((isSessionValid token now m).1 = false →
     (isSessionValid token now'
        (cleanupExpiredData now (others.1, m, others.2)).1.2).1 = true).
Proof.
  split_and!.
  - intros Hf. unfold isSessionValid in *.
    destruct (m !! token) as [a|]; [|done].
    case_decide; [|done]. simpl. by rewrite lookup_delete_eq.
  - unfold isSessionValid, invalidateSession. by rewrite lookup_delete_eq.
  - intros Hf. unfold isSessionValid in *.
    destruct (m !! token) as [a|] eqn:Ha; [|done].
    case_decide as Hold; [|done]. simpl.
    unfold cleanupSessionActivities.
    rewrite map_lookup_filter_None_2; [done|].
    right. intros a' Ha'. simpl. rewrite Ha in Ha'. injection Ha' as <-.
    by intros [].
Qed.

(** X18.  An accepted check renews the session: from the time of the
    check the full time-out is left, the remaining time then falls with
    the clock, and every check within the time-out is accepted again. *)
Theorem accepted_check_renews_session (m : gmap string SessionActivity)
    token now now' :
  (isSessionValid token now m).1 = true →
  let m' := (isSessionValid token now m).2 in
  getSessionRemainingTime token now m' = session_timeoutMs
  ∧ getSessionRemainingTime token now' m'
    = Z.max 0 (session_timeoutMs - (Z.of_N now' - Z.of_N now))
  ∧ (Z.of_N now' - Z.of_N now ≤ session_timeoutMs →
     (isSessionValid token now' m').1 = true).
Proof.
  intros Hok m'.
  assert (Hm' : ∃ c, m' !! token
                     = Some {| createdAt := c; lastActivityAt := Z.of_N now |}).
  { unfold m', isSessionValid in *. destruct (m !! token) as [a|].
    - case_decide; [done|]. simpl. rewrite lookup_insert_eq. by eexists.
    - simpl. rewrite lookup_insert_eq. by eexists. }
  destruct Hm' as [c Hm']. unfold getSessionRemainingTime, isSessionValid.
  rewrite Hm'. simpl. split_and!.
  - unfold session_timeoutMs. lia.
  - done.
  - intros Hin. by rewrite decide_False by lia.
Qed.

(** X19.  The remaining time and the validity of a session.  For a
    token with an entry, a positive remaining time means that the check
    accepts it, and a refused check means that no time remains; the
    remaining time is never negative and, when the clock has not gone
    back, at most the time-out.  A token without an entry has no time
    left and is accepted all the same. *)
Theorem session_remaining_time_and_validity
    (m : gmap string SessionActivity) token now :
  0 ≤ getSessionRemainingTime token now m
  ∧ (∀ a, m !! token = Some a →
       (0 < getSessionRemainingTime token now m →
        (isSessionValid token now m).1 = true)
       ∧ ((isSessionValid token now m).1 = false →
          getSessionRemainingTime token now m = 0)
       ∧ (lastActivityAt a ≤ Z.of_N now →
          getSessionRemainingTime token now m ≤ session_timeoutMs))
  ∧ (m !! token = None →
     getSessionRemainingTime token now m = 0
     ∧ (isSessionValid token now m).1 = true).
Proof.
  unfold getSessionRemainingTime, isSessionValid. split_and!.
  - destruct (m !! token); lia.
  - intros a ->. split_and!.
    + intros Hpos. case_decide; [lia|done].
    + case_decide; [lia|done].
    + unfold session_timeoutMs. lia.
  - by intros ->.
Qed.

End Sessions.

(** ** Processing counts *)

Section Quotas.
Import SECURITY_CONFIG Quota.

Lemma resetWindows_newRecord now :
  resetWindows now (newRecord now) = newRecord now.
Proof.
  unfold resetWindows, newRecord.
  repeat (case_decide; simpl in * ); try done;
    unfold oneHour, oneDay in *; lia.
Qed.

(** The counts [getRemainingProcessingCount] computes are those of the
    record after the reset of its windows. *)
Lemma remaining_resetWindows sessionId now
    (m : gmap string ProcessingRecord) :
  let record :=
    resetWindows (Z.of_N now) (default (newRecord (Z.of_N now)) (m !! sessionId)) in
  getRemainingProcessingCount sessionId now m =
  {| Remaining.hourlyRemaining :=
       Z.max 0 (processing_maxPerHour - count (hourly record));
     Remaining.dailyRemaining :=
       Z.max 0 (processing_maxPerDay - count (daily record));
     Remaining.maxPerHour := processing_maxPerHour;
     Remaining.maxPerDay := processing_maxPerDay |}.
Proof.
  unfold getRemainingProcessingCount.
  destruct (m !! sessionId) as [record|]; simpl.
  - unfold resetWindows. by repeat case_decide.
  - rewrite resetWindows_newRecord. simpl.
    unfold processing_maxPerHour, processing_maxPerDay. f_equal; lia.
Qed.

Lemma resetWindows_idem now record :
  resetWindows now (resetWindows now record) = resetWindows now record.
Proof.
  unfold resetWindows.
  repeat (case_decide; simpl in *); try done;
    unfold oneHour, oneDay in *; lia.
Qed.

(** X20.  [canProcess] allows exactly what fits into the counts that
    [getRemainingProcessingCount] reports.  A request for at least one
    image is allowed exactly when it is at most the hourly and the daily
    remainder; then the remainders it returns are those less the
    request.  A refused request gets the remainders unchanged, with the
    hourly reason when the hourly remainder is too small and the daily
    reason otherwise. *)
Theorem canProcess_allows_what_fits (m : gmap string ProcessingRecord)
    sessionId imageCount now :
  1 ≤ imageCount →
  let left := getRemainingProcessingCount sessionId now m in
  let verdict := (canProcess sessionId imageCount now m).1 in
  (Verdict.allowed verdict = true ↔
   imageCount ≤ Remaining.hourlyRemaining left
   ∧ imageCount ≤ Remaining.dailyRemaining left)
  ∧ (Verdict.allowed verdict = true →
     verdict =
     {| Verdict.allowed := true; Verdict.reason := None;
        Verdict.hourlyRemaining :=
          Some (Remaining.hourlyRemaining left - imageCount);
        Verdict.dailyRemaining :=
          Some (Remaining.dailyRemaining left - imageCount) |})
  ∧ (Verdict.allowed verdict = false →
     verdict =
     {| Verdict.allowed := false;
        Verdict.reason :=
          Some (if decide (Remaining.hourlyRemaining left < imageCount)
                then hourlyReason else dailyReason);
        Verdict.hourlyRemaining := Some (Remaining.hourlyRemaining left);
        Verdict.dailyRemaining := Some (Remaining.dailyRemaining left) |}).
Proof.
  intros Hn left verdict. unfold left, verdict.
  rewrite remaining_resetWindows. unfold canProcess.
  set (record := resetWindows _ _). simpl.
  unfold processing_maxPerHour, processing_maxPerDay.
  repeat case_decide; simpl; split_and!; try done; try lia;
    try (split; [done|lia]); try (intros _; do 2 f_equal; lia);
    try (intros _; f_equal; f_equal; lia).
Qed.

(** X21.  Asking does not use up the quota: after [canProcess], allowed
    or not, [getRemainingProcessingCount] reports for every session and
    at every later time what it would have reported without the call. *)
Theorem check_does_not_consume (m : gmap string ProcessingRecord)
    sessionId imageCount now sessionId' now' :
  (now ≤ now')%N →
  getRemainingProcessingCount sessionId' now'
    (canProcess sessionId imageCount now m).2
  = getRemainingProcessingCount sessionId' now' m.
Proof.
  intros Hnow.
  assert (Hm : (canProcess sessionId imageCount now m).2
               = <[sessionId := resetWindows (Z.of_N now)
                     (default (newRecord (Z.of_N now)) (m !! sessionId))]> m).
  { unfold canProcess. by repeat case_decide. }
  rewrite Hm. unfold getRemainingProcessingCount.
  destruct (decide (sessionId' = sessionId)) as [->|Hne];
    [|by rewrite lookup_insert_ne].
  rewrite lookup_insert_eq. unfold resetWindows.
  destruct (m !! sessionId) as [record|]; simpl.
  - repeat (case_decide; simpl in *); try done;
      unfold oneHour, oneDay in *; try lia.
  - unfold processing_maxPerHour, processing_maxPerDay.
    repeat (case_decide; simpl in *); try done;
      unfold oneHour, oneDay in *; lia.
Qed.

(** X22.  Recording uses up the quota: after [recordProcessing] of a
    number of images that is not negative, each remainder of the session
    is what it was less that number, and not below 0; the remainders of
    the other sessions are unchanged. *)
Theorem recording_consumes (m : gmap string ProcessingRecord)
    sessionId imageCount now :
  0 ≤ imageCount →
  let before := getRemainingProcessingCount sessionId now m in
  getRemainingProcessingCount sessionId now
    (recordProcessing sessionId imageCount now m)
  = {| Remaining.hourlyRemaining :=
         Z.max 0 (Remaining.hourlyRemaining before - imageCount);
       Remaining.dailyRemaining :=
         Z.max 0 (Remaining.dailyRemaining before - imageCount);
       Remaining.maxPerHour := processing_maxPerHour;
       Remaining.maxPerDay := processing_maxPerDay |}
  ∧ ∀ sessionId' now', sessionId' ≠ sessionId →
      getRemainingProcessingCount sessionId' now'
        (recordProcessing sessionId imageCount now m)
      = getRemainingProcessingCount sessionId' now' m.
Proof.
  intros Hn before. split.
  - subst before. rewrite (remaining_resetWindows sessionId now m).
    cbn [Remaining.hourlyRemaining Remaining.dailyRemaining].
    unfold getRemainingProcessingCount, recordProcessing.
    rewrite lookup_insert_eq. set (record := resetWindows _ _).
    assert (Hh : ¬ Z.of_N now - startedAt (hourly record) > oneHour).
    { unfold record, resetWindows.
      repeat (case_decide; simpl in * ); unfold oneHour, oneDay in *; lia. }
    assert (Hd : ¬ Z.of_N now - startedAt (daily record) > oneDay).
    { unfold record, resetWindows.
      repeat (case_decide; simpl in * ); unfold oneHour, oneDay in *; lia. }
    cbn [hourly daily startedAt count].
    rewrite !decide_False by done. f_equal; lia.
  - intros sessionId' now' Hne.
    unfold getRemainingProcessingCount, recordProcessing.
    by rewrite lookup_insert_ne.
Qed.

(** X23.  Recording what was just allowed keeps the counts within the
    limits: when [canProcess] allows a request and [recordProcessing]
    records the same number at the same time, the hourly count of the
    session is at most [maxPerHour] and its daily count at most
    [maxPerDay]. *)
Theorem allowed_then_recorded_within_limits
    (m : gmap string ProcessingRecord) sessionId imageCount now :
  let checked := canProcess sessionId imageCount now m in
  Verdict.allowed checked.1 = true →
  ∃ record,
    recordProcessing sessionId imageCount now checked.2 !! sessionId
    = Some record
    ∧ count (hourly record) ≤ processing_maxPerHour
    ∧ count (daily record) ≤ processing_maxPerDay.
Proof.
  intros checked Hok.
  assert (Hm : checked.2
               = <[sessionId := resetWindows (Z.of_N now)
                     (default (newRecord (Z.of_N now)) (m !! sessionId))]> m).
  { unfold checked, canProcess. by repeat case_decide. }
  unfold recordProcessing. rewrite lookup_insert_eq. eexists. split; [done|].
  rewrite Hm, lookup_insert_eq. simpl. rewrite resetWindows_idem.
  unfold checked, canProcess in Hok.
  set (record := resetWindows _ _) in *.
  repeat case_decide; simpl in *; try done; try lia.
Qed.

Lemma record_sound_mono t t' record : t ≤ t' → sound t record → sound t' record.
Proof. unfold sound. lia. Qed.

Lemma record_sound_resetWindows t now record :
  t ≤ now → sound t record → sound now (resetWindows now record).
Proof.
  unfold sound, resetWindows. intros Ht (? & ? & ?).
  repeat (case_decide; simpl in *); unfold oneHour, oneDay in *; lia.
Qed.

Lemma record_sound_newRecord now : sound now (resetWindows now (newRecord now)).
Proof.
  unfold sound, resetWindows, newRecord.
  repeat (case_decide; simpl in *); unfold oneHour, oneDay in *; lia.
Qed.

Lemma record_sound_call t now c (m : gmap string ProcessingRecord) :
  (t ≤ now)%N →
  map_Forall (λ _ record, sound (Z.of_N t) record) m →
  map_Forall (λ _ record, sound (Z.of_N now) record) (call now c m).
Proof.
  intros Ht Hm.
  assert (Hm' : map_Forall (λ _ record, sound (Z.of_N now) record) m).
  { intros k record Hk. eapply record_sound_mono; [|by apply (Hm k)]. lia. }
  assert (Hrec : ∀ sessionId,
    sound (Z.of_N now)
      (resetWindows (Z.of_N now)
         (default (newRecord (Z.of_N now)) (m !! sessionId)))).
  { intros sessionId. destruct (m !! sessionId) as [record|] eqn:Hr; simpl.
    - apply (record_sound_resetWindows (Z.of_N now)); [lia|by apply (Hm' sessionId)].
    - apply record_sound_newRecord. }
  destruct c as [sessionId n|sessionId n|]; simpl.
  - assert ((canProcess sessionId n now m).2
            = <[sessionId := resetWindows (Z.of_N now)
                  (default (newRecord (Z.of_N now)) (m !! sessionId))]> m)
      as ->.
    { unfold canProcess. by repeat case_decide. }
    by apply map_Forall_insert_2.
  - unfold recordProcessing. apply map_Forall_insert_2; [|done].
    apply (Hrec sessionId).
  - intros k record [Hk _]%map_lookup_filter_Some. by apply (Hm' k).
Qed.

Lemma last_cons_default {A} (l : list A) : ∀ a d,
  List.last (a :: l) d = List.last l a.
Proof.
  induction l as [|x l IH]; intros a d; [done|].
  change (List.last (x :: l) d = List.last (x :: l) a).
  by rewrite !IH.
Qed.

Lemma record_sound_run (calls : list (N * Call)) : ∀ t (m : gmap string ProcessingRecord),
  ascending t calls →
  map_Forall (λ _ record, sound (Z.of_N t) record) m →
  map_Forall (λ _ record, sound (Z.of_N (lastTime t calls)) record)
    (run calls m)
  ∧ (t ≤ lastTime t calls)%N.
Proof.
  induction calls as [|[now c] calls IH]; intros t m Hasc Hm.
  - split; [done|]. unfold lastTime. simpl. lia.
  - destruct Hasc as [Ht Hasc].
    destruct (IH now (call now c m) Hasc) as [Hs Hle].
    { by apply (record_sound_call t). }
    assert (lastTime t ((now, c) :: calls) = lastTime now calls) as ->.
    { unfold lastTime. rewrite fmap_cons. apply last_cons_default. }
    split; [done|lia].
Qed.

(** X24.  The periodic clean-up of [processingRecords] cannot be
    observed.  When the clock has not gone back since the module was
    loaded, [canProcess] and [getRemainingProcessingCount] answer after
    a clean-up what they would have answered without it. *)
Theorem quota_cleanup_unobservable (calls : list (N * Call))
    (others : gmap string Login.LoginAttempt
              * gmap string Session.SessionActivity)
    sessionId imageCount swept now :
  ascending 0 calls →
  (lastTime 0 calls ≤ swept)%N → (swept ≤ now)%N →
  let m := run calls ∅ in
  let m' := (cleanupExpiredData swept (others, m)).2 in
  getRemainingProcessingCount sessionId now m'
  = getRemainingProcessingCount sessionId now m
  ∧ (canProcess sessionId imageCount now m').1
    = (canProcess sessionId imageCount now m).1.
Proof.
  intros Hasc Hlast Hnow m m'.
  destruct (record_sound_run calls 0%N ∅ Hasc) as [Hs _]; [apply map_Forall_empty|].
  fold m in Hs.
  assert (Hsame : resetWindows (Z.of_N now)
                    (default (newRecord (Z.of_N now)) (m' !! sessionId))
                  = resetWindows (Z.of_N now)
                      (default (newRecord (Z.of_N now)) (m !! sessionId))).
  { unfold m', cleanupExpiredData. cbn [snd]. unfold cleanupProcessingRecords.
    destruct (m !! sessionId) as [record|] eqn:Hr.
    2:{ rewrite map_lookup_filter_None_2; [done|]. by left. }
    destruct (decide (Z.of_N swept - startedAt (daily record) > oneDay * 2))
      as [Hold|Hyoung].
    - rewrite map_lookup_filter_None_2.
      2:{ right. intros record' Hr'. simpl. rewrite Hr in Hr'.
          injection Hr' as <-. by intros []. }
      destruct (Hs sessionId record Hr) as (Hh & Hd & Hhd). simpl.
      unfold resetWindows, newRecord.
      repeat (case_decide; simpl in *); try done;
        unfold oneHour, oneDay in *; lia.
    - by rewrite (map_lookup_filter_Some_2 _ _ sessionId record). }
  split.
  - by rewrite !remaining_resetWindows, Hsame.
  - unfold canProcess. rewrite Hsame. by repeat case_decide.
Qed.

End Quotas.

(** ** The processor of the image queue *)

Section Processor.
Import NanoBanana.

Lemma append_assoc (a b c : string) : (a +:+ b) +:+ c = a +:+ (b +:+ c).
Proof.
  induction a as [|x a IH]; [done|]. rewrite !append_cons. by f_equal.
Qed.

Lemma includes_longer s needle rest :
  includes s (needle +:+ rest) = true → includes s needle = true.
Proof.
  rewrite !includes_spec. intros (pre & suf & ->).
  exists pre, (rest +:+ suf).
  by rewrite !append_assoc.
Qed.

(** X25.  What [processImages] asks of the service.  It makes no
    request when there is no image or more than 14, and then throws
    without consulting the service; otherwise it makes one request, with
    the images and the prompt as given, and with a preset aspect ratio:
    a ratio that is not a preset, also a valid custom one, is sent as
    "auto". *)
Theorem processImages_requests (input : ProcessImageInput)
    (subscribe : Request → ApiData + Thrown) :
  let made := (processImages input subscribe).1 in
  (imageUrls input = [] →
   processImages input subscribe = ([], inr (newError noImageMessage)))
  ∧ ((14 < length (imageUrls input))%nat →
     processImages input subscribe = ([], inr (newError tooManyMessage)))
  ∧ ((1 ≤ length (imageUrls input) ≤ 14)%nat →
     ∃ request, made = [request]
       ∧ image_urls request = imageUrls input
       ∧ request_prompt request = prompt input
       ∧ aspect_ratio request ∈ ASPECT_RATIOS
       ∧ (∀ ratio, aspectRatio input = Some ratio →
            aspect_ratio request
            = if bool_decide (ratio ∈ ASPECT_RATIOS) then ratio else "auto")
       ∧ num_images request = default 1 (numImages input)).
Proof.
  intros made. unfold made, processImages. split_and!.
  - intros ->. done.
  - intros Hlen. rewrite decide_False by lia. by rewrite decide_True.
  - intros Hlen. rewrite !decide_False by lia. eexists. split; [done|].
    simpl. split_and!; [done..| |by intros ratio ->|done].
    case_bool_decide as Hin; [done|]. by left.
Qed.

Lemma rethrown_newError text :
  includes text "Forbidden" = false → includes text "Unauthorized" = false →
  includes text "rate limit" = false →
  rethrown (newError text) = newError text.
Proof.
  intros H1 H2 H3. unfold rethrown, isForbidden, isUnauthorized, isRateLimit.
  simpl. by rewrite H1, H2, H3.
Qed.

Lemma isRateLimited_rethrown error :
  isRateLimited (message (rethrown error)) = true ↔ backedOffTwice error.
Proof.
  unfold rethrown, backedOffTwice.
  destruct (isForbidden error) eqn:Hf.
  { split; [by intros ?|by intros [? _]]. }
  destruct (isUnauthorized error) eqn:Hu.
  { split; [by intros ?|by intros (_ & ? & _)]. }
  destruct (isRateLimit error) eqn:Hr.
  - split; [|done]. intros _. split_and!; [done..|].
    unfold isRateLimit in Hr. apply orb_true_iff in Hr as [Hr|Hr].
    + right. unfold isRateLimited.
      by rewrite (includes_longer _ "rate" " limit" Hr), orb_true_r.
    + left. by apply bool_decide_eq_true in Hr.
  - unfold isRateLimit in Hr. apply orb_false_iff in Hr as [_ Hr].
    apply bool_decide_eq_false in Hr. split.
    + intros ?. split_and!; [done..|by right].
    + by intros (_ & _ & [?|?]).
Qed.

(** X26.  Which failures of the processor the queue backs off twice as
    long for.  When [processImages] throws and the queue retries, the
    delay is doubled exactly when the service failed with status 429 or
    with a message containing "429", "rate" or "limit", and the failure
    is not a forbidden or unauthorized one (status 403 or 401, or those
    words in the message), which [processImages] replaces by messages of
    its own; a refusal for the number of images and an answer without
    images are backed off like any other failure. *)
Theorem processor_failures_and_backoff (config : QueueConfig)
    (input : ProcessImageInput) (subscribe : Request → ApiData + Thrown)
    (thrown : Thrown) (attempt : Z) :
  (processImages input subscribe).2 = inr thrown →
  ((∃ error, serviceFailed input subscribe error ∧ backedOffTwice error) →
   backoffDelay config attempt (message thrown)
   = retryDelay config * attempt * 2)
  ∧ (¬ (∃ error, serviceFailed input subscribe error ∧ backedOffTwice error) →
     backoffDelay config attempt (message thrown)
     = retryDelay config * attempt).
Proof.
  intros Hthrown.
  assert (Hiff : isRateLimited (message thrown) = true ↔
    ∃ error, serviceFailed input subscribe error ∧ backedOffTwice error).
  { unfold serviceFailed. unfold processImages in *.
    case_decide as H0.
    { injection Hthrown as <-. split; [by intros ?|].
      by intros (error & (request & ? & _) & _). }
    case_decide as H14.
    { injection Hthrown as <-. split; [by intros ?|].
      by intros (error & (request & ? & _) & _). }
    cbn [fst snd] in *.
    set (request := Build_Request _ _ _ _ _ _) in *.
    destruct (subscribe request) as [data|error] eqn:Hs.
    - assert (thrown = newError noResultMessage) as ->.
      { destruct (images data) as [[|img imgs]|]; try done;
          injection Hthrown as <-; by apply rethrown_newError. }
      split; [by intros ?|].
      intros (error & (request' & [= <-] & Hs') & _). congruence.
    - injection Hthrown as <-. rewrite isRateLimited_rethrown. split.
      + intros Hb. exists error. split; [|done]. by exists request.
      + intros (error' & (request' & [= <-] & Hs') & Hb). congruence. }
  unfold backoffDelay. split.
  - intros H%Hiff. by rewrite H.
  - intros H. destruct (isRateLimited (message thrown)) eqn:Hm; [|done].
    destruct H. by apply Hiff.
Qed.

Lemma afterDigits_app a s :
  allDigits a = true → afterDigits (a +:+ s) = afterDigits s.
Proof.
  induction a as [|c a IH]; [done|]. simpl allDigits.
  intros [Hc Ha]%andb_true_iff. rewrite append_cons. simpl.
  rewrite Hc. by apply IH.
Qed.

Lemma afterDigits_all s : afterDigits s = "" ↔ allDigits s = true.
Proof.
  induction s as [|c s IH]; [done|]. simpl.
  destruct (isDigit c); [done|]. split; discriminate.
Qed.

(** A string is its leading digits followed by the rest. *)
Lemma afterDigits_split s :
  ∃ a, allDigits a = true ∧ s = a +:+ afterDigits s.
Proof.
  induction s as [|c s (a & Ha & Hs)]; [by exists ""|].
  simpl. destruct (isDigit c) eqn:Hc.
  - exists (String c a). split; [simpl; by rewrite Hc|].
    rewrite append_cons. by f_equal.
  - by exists "".
Qed.

Lemma customRatioPattern_spec ratio :
  customRatioPattern ratio = true ↔
  ∃ w h, isNumeral w ∧ isNumeral h ∧ ratio = w +:+ ":" +:+ h.
Proof.
  unfold customRatioPattern, isNumeral. split.
  - destruct ratio as [|c ratio]; [done|].
    intros [Hc Hrest]%andb_true_iff.
    destruct (afterDigits_split (String c ratio)) as (w & Hw & Hsplit).
    destruct (afterDigits (String c ratio)) as [|colon [|d rest]] eqn:Hafter;
      [done| |].
    { by repeat case_match. }
    assert (colon = ":"%char) as ->.
    { clear -Hrest. by repeat case_match. }
    assert (Hd : isDigit d = true ∧ afterDigits rest = "").
    { clear -Hrest. simpl in Hrest.
      apply andb_true_iff in Hrest as [? Hrest]. split; [done|].
      by destruct (afterDigits rest). }
    destruct Hd as [Hd Hr%afterDigits_all].
    exists w, (String d rest). split_and!; [done| | |done|done].
    + intros ->. simpl in Hsplit. injection Hsplit as -> _. done.
    + simpl. by rewrite Hd.
  - intros (w & h & [Hw Hw0] & [Hh Hh0] & ->).
    destruct w as [|c w]; [done|]. destruct h as [|d h]; [done|].
    assert (Hafter : afterDigits (String c w +:+ ":" +:+ String d h)
                     = String ":" (String d h)).
    { by rewrite afterDigits_app. }
    simpl in Hw, Hh. apply andb_true_iff in Hw as [Hc Hw], Hh as [Hd Hh].
    change (String c w +:+ ":" +:+ String d h)
      with (String c (w +:+ ":" +:+ String d h)) in *.
    cbv iota. rewrite Hafter, Hc, Hd. simpl andb.
    apply afterDigits_all in Hh. by rewrite Hh.
Qed.

(** X27.  [isValidAspectRatio] accepts the presets and the strings made
    of a numeral, a colon and a numeral, and nothing else: no sign, no
    space, no decimal point and no missing side, while "0:0" is
    accepted. *)
Theorem isValidAspectRatio_accepts ratio :
  (isValidAspectRatio ratio = true ↔
   ratio ∈ ASPECT_RATIOS
   ∨ ∃ w h, isNumeral w ∧ isNumeral h ∧ ratio = w +:+ ":" +:+ h)
  ∧ isValidAspectRatio "0:0" = true
  ∧ isValidAspectRatio "16:10" = true
  ∧ isValidAspectRatio "16:" = false
  ∧ isValidAspectRatio " 16:9" = false
  ∧ isValidAspectRatio "1.5:1" = false
  ∧ isValidAspectRatio "-4:3" = false.
Proof.
  split; [|by vm_compute].
  unfold isValidAspectRatio. case_bool_decide as Hin.
  - split; [by left|done].
  - rewrite customRatioPattern_spec. split; [by right|].
    by intros [?|?].
Qed.

End Processor.

(** ** What the effects of the manager say *)

Section EventFacts.
Context {T R : Type}.
Variable config : QueueConfig.
#[local] Abbreviation State := (State T R).
#[local] Abbreviation QueueJob := (QueueJob T R).
#[local] Abbreviation Effect := (Effect T R).
#[local] Abbreviation Input := (@Input T R).

Lemma effect_sound_same_jobs (s s' : State) (e : Effect) :
  same_jobs s s' → effect_sound config s e → effect_sound config s' e.
Proof.
  intros Hsame. destruct e as [job ev|job payload n| | | |]; simpl; try done.
  - intros [(j & Hj & Hid) Hev]. split; [|done].
    destruct (Hsame job j Hj) as (j' & Hj' & Hid' & _).
    exists j'. split; [done|congruence].
  - intros [(j & Hj & Hdata) Hn]. split; [|done].
    destruct (Hsame job j Hj) as (j' & Hj' & _ & Hdata').
    exists j'. split; [done|congruence].
Qed.

(** The effects so far stay sound when the jobs keep their ids and data
    and the new effects are sound. *)
Lemma effects_sound_extend (s s' : State) (new : list Effect) :
  same_jobs s s' → effects s' = effects s ++ new →
  Forall (effect_sound config s') new →
  effects_sound config s → effects_sound config s'.
Proof.
  intros Hsame Heff Hnew Hs e. rewrite Heff.
  intros [He|He]%elem_of_app.
  - by apply (effect_sound_same_jobs s), Hs.
  - by apply (proj1 (Forall_forall _ _) Hnew).
Qed.

Lemma effects_sound_settled job f event e (s : State) j :
  (∀ j, id (f j) = id j ∧ data (f j) = data j) →
  heap s !! job = Some j → eventId event = id j →
  match event with jobAdded _ _ _ => False | _ => True end →
  match e with Resolve _ _ | Reject _ _ => True | _ => False end →
  effects_sound config s →
  effects_sound config (settled job f (Emit job event) e s).
Proof.
  intros Hf Hj Hid Hev He.
  apply (effects_sound_extend _ _ [Emit job event; e]).
  - intros job' j' Hj'. rewrite heap_settled, heap_mutate. case_decide as Heq.
    + subst job'. rewrite Hj'. simpl. exists (f j'). split; [done|apply Hf].
    + by exists j'.
  - unfold settled. simpl. by rewrite <-app_assoc.
  - repeat constructor.
    + exists (f j). rewrite heap_settled, heap_mutate, decide_True by done.
      rewrite Hj. split; [done|]. rewrite Hid. symmetry. apply Hf.
    + by destruct event.
    + by destruct e.
Qed.

Lemma effects_sound_step now i (s : State) :
  invariant config None s → effects_sound config s →
  effects_sound config (step config now i s).
Proof.
  apply (parts_step config (λ _, effects_sound config) now).
  - done.
  - intros payload s' Hinv Hlen.
    apply (effects_sound_extend _ _
             [Emit (length (heap s'))
                (jobAdded (makeJobId now (jobCounter s' + 1))
                   (Z.of_nat (length (queue s')) + 1)
                   (Z.of_nat (length (queue s' ++ [length (heap s')]))))]).
    + intros job j Hj. exists j. split; [|done]. simpl.
      by apply lookup_app_l_Some.
    + done.
    + repeat constructor.
      * eexists. split; [simpl; by apply list_lookup_middle|done].
      * rewrite length_app. simpl. lia.
      * lia.
      * lia.
  - intros job rest s' Hinv Hq _.
    assert (Hnd : NoDup (job :: rest)).
    { rewrite <-Hq. apply (inv_nodup _ _ _ Hinv). }
    assert (Hsame : same_jobs s' (dispatched now job rest s')).
    { intros job' j Hj.
      destruct (lookup_lt_is_Some_2 (heap (dispatched now job rest s')) job')
        as [j' Hj'].
      { rewrite heap_dispatched, !length_alter, length_updatePositions_from.
        by eapply lookup_lt_Some. }
      exists j'. split; [done|].
      apply heap_dispatched_cases in Hj' as (j0 & Hj0 & ? & ? & _); [|done].
      rewrite Hj in Hj0. by injection Hj0 as <-. }
    apply (effects_sound_extend _ _
             [Emit job (jobStarted (idOf job (dispatched now job rest s'))
                          (Z.of_nat (size (processing
                                             (dispatched now job rest s')))))]);
      [done|done|].
    repeat constructor.
    destruct (inv_queued _ _ _ Hinv job) as (_ & j & Hj & _);
      [rewrite Hq; by left|].
    destruct (Hsame job j Hj) as (j' & Hj' & _).
    exists j'. split; [done|]. simpl. unfold idOf. by rewrite Hj'.
  - intros job n lastError s' j Hinv Hj Hn.
    apply (effects_sound_extend _ _
             [CallProcessor job (data j) n;
              StartTimeout job n (jobTimeout config)]).
    + intros job' j' Hj'. by exists j'.
    + simpl. by rewrite <-app_assoc.
    + repeat constructor; try lia. by exists j.
  - intros job n message s' Hinv Hn.
    apply (effects_sound_extend _ _
             [StartSleep job n (backoffDelay config n message)]);
      [by intros job' j' Hj'; exists j'|done|by repeat constructor].
  - intros job lastError s' Hinv.
    destruct (inv_active _ _ _ Hinv job) as (j & Hj & _); [by right|].
    apply (effects_sound_settled job _ _ _ s' j); try done.
    simpl. unfold idOf. by rewrite Hj.
  - intros job value s' Hinv.
    destruct (inv_active _ _ _ Hinv job) as (j & Hj & _); [by right|].
    apply (effects_sound_settled job _ _ _ s' j); try done.
    simpl. unfold idOf. by rewrite Hj.
  - intros job a s' _ _ Hs. done.
Qed.

Lemma reachable_effects_sound (s : State) :
  reachable config s → effects_sound config s.
Proof.
  induction 1 as [|s now i Hr IH]; [by intros e ?%elem_of_nil|].
  apply effects_sound_step; [by apply reachable_invariant|done].
Qed.

(** X28.  The processor is called for a job only with the data of that
    job and with an attempt number from 1 to [retryAttempts]: in every
    reachable state, whatever the other jobs do, no call goes beyond the
    retry budget or carries another job's data. *)
Theorem processor_calls_within_budget (s : State) job payload n :
  reachable config s → CallProcessor job payload n ∈ effects s →
  1 ≤ n ≤ retryAttempts config
  ∧ ∃ j, heap s !! job = Some j ∧ data j = payload.
Proof.
  intros Hr He.
  destruct (reachable_effects_sound s Hr _ He) as [Hj Hn]. done.
Qed.

(** X29.  Every event names its job: in every reachable state the
    [jobId] of an emitted event is the id of the job object it is about,
    and an "added" event reports a position that is the length of the
    wait list at that time, between 1 and [maxQueueSize]. *)
Theorem events_name_their_job (s : State) job event :
  reachable config s → Emit job event ∈ effects s →
  (∃ j, heap s !! job = Some j ∧ eventId event = id j)
  ∧ (∀ jobId p len, event = jobAdded jobId p len →
       p = len ∧ 1 ≤ p ≤ maxQueueSize config).
Proof.
  intros Hr He.
  destruct (reachable_effects_sound s Hr _ He) as [Hj Hev].
  split; [done|]. by intros jobId p len ->.
Qed.

End EventFacts.

(** ** Checks at the same time *)

Section Idempotence.
Import SECURITY_CONFIG.

(** X30.  Asking twice at the same time is asking once: a second
    [canAttemptLogin] or [canProcess] with the same arguments at the
    same time returns what the first returned and changes nothing more,
    and so does a second [isSessionValid] after an accepted one. *)
Theorem checks_are_idempotent
    (loginAttempts : gmap string Login.LoginAttempt)
    (processingRecords : gmap string Quota.ProcessingRecord)
    (sessionActivities : gmap string Session.SessionActivity)
    ip sessionId imageCount token now :
  Login.canAttemptLogin ip now (Login.canAttemptLogin ip now loginAttempts).2
  = Login.canAttemptLogin ip now loginAttempts
  ∧ Quota.canProcess sessionId imageCount now
      (Quota.canProcess sessionId imageCount now processingRecords).2
    = Quota.canProcess sessionId imageCount now processingRecords
  ∧ ((Session.isSessionValid token now sessionActivities).1 = true →
     Session.isSessionValid token now
       (Session.isSessionValid token now sessionActivities).2
     = Session.isSessionValid token now sessionActivities).
Proof.
  split_and!.
  - unfold Login.canAttemptLogin.
    destruct (loginAttempts !! ip) as [a|] eqn:Ha; simpl; [|by rewrite Ha].
    destruct (Login.lockedAt _ a) eqn:Hl; simpl; [by rewrite Ha, Hl|].
    destruct (Login.lockOverAt _ a) eqn:Ho; simpl.
    { by rewrite lookup_delete_eq. }
    case_decide as Hw; simpl.
    { by rewrite lookup_delete_eq. }
    rewrite Ha, Hl, Ho. by rewrite decide_False.
  - assert (Hm : (Quota.canProcess sessionId imageCount now processingRecords).2
               = <[sessionId := Quota.resetWindows (Z.of_N now)
                     (default (Quota.newRecord (Z.of_N now))
                        (processingRecords !! sessionId))]> processingRecords).
    { unfold Quota.canProcess. by repeat case_decide. }
    rewrite Hm. unfold Quota.canProcess. rewrite lookup_insert_eq. simpl.
    by rewrite resetWindows_idem, insert_insert_eq.
  - unfold Session.isSessionValid.
    destruct (sessionActivities !! token) as [a|] eqn:Ha.
    + case_decide as Hold; [done|]. intros _. simpl.
      rewrite lookup_insert_eq. simpl. rewrite decide_False.
      * by rewrite insert_insert_eq.
      * unfold session_timeoutMs. lia.
    + intros _. simpl. rewrite lookup_insert_eq. simpl.
      rewrite decide_False.
      * by rewrite insert_insert_eq.
      * unfold session_timeoutMs. lia.
Qed.

End Idempotence.

(** ** Examples for the rest of the module *)

Lemma narrowFull_reachable : reachable narrowConfig narrowFull.
Proof. apply reachable_run, reachable_initial. Qed.

Lemma job_ids_unique_witness :
  reachable DEFAULT_CONFIG oneSubmitted
  ∧ heap oneSubmitted !! 0%nat = Some firstJob
  ∧ id firstJob = id firstJob
  ∧ 0%nat = 0%nat.
Proof.
  split_and!;
    [exact oneSubmitted_reachable|exact oneSubmitted_heap|reflexivity|].
  exact (job_ids_unique DEFAULT_CONFIG oneSubmitted 0 0 firstJob firstJob
           oneSubmitted_reachable oneSubmitted_heap oneSubmitted_heap
           eq_refl).
Defined.

Lemma status_tracks_location_witness :
  reachable DEFAULT_CONFIG oneSubmitted
  ∧ heap oneSubmitted !! 0%nat = Some firstJob
  ∧ (status firstJob = queued ↔ 0%nat ∈ queue oneSubmitted).
Proof.
  split_and!; [exact oneSubmitted_reachable|exact oneSubmitted_heap|].
  exact (proj1 (status_tracks_location DEFAULT_CONFIG oneSubmitted 0 firstJob
                  oneSubmitted_reachable oneSubmitted_heap)).
Defined.

Lemma getJobStatus_reports_witness :
  reachable DEFAULT_CONFIG oneSubmitted
  ∧ getJobStatus "job-1000-1" oneSubmitted = Some (processing_, None).
Proof.
  split; [exact oneSubmitted_reachable|].
  exact (proj1 (getJobStatus_reports DEFAULT_CONFIG oneSubmitted
                  oneSubmitted_reachable) 0%nat firstJob oneSubmitted_heap).
Defined.

Lemma no_job_waits_beside_free_slot_witness :
  reachable narrowConfig narrowFull ∧ isProcessing narrowFull = false.
Proof.
  split; [exact narrowFull_reachable|].
  exact (proj1 (no_job_waits_beside_free_slot narrowConfig narrowFull
                  narrowFull_reachable)).
Defined.

Lemma getStatus_within_limits_witness :
  0 ≤ maxConcurrent narrowConfig
  ∧ reachable narrowConfig narrowFull
  ∧ ∃ queueLength processingCount,
      getStatus narrowConfig narrowFull
      = (queueLength, processingCount, maxConcurrent narrowConfig)
      ∧ 0 ≤ queueLength ≤ Z.max 0 (maxQueueSize narrowConfig)
      ∧ 0 ≤ processingCount ≤ maxConcurrent narrowConfig
      ∧ (0 < queueLength → processingCount = maxConcurrent narrowConfig).
Proof.
  assert (H0 : 0 ≤ maxConcurrent narrowConfig) by (simpl; lia).
  split_and!; [exact H0|exact narrowFull_reachable|].
  exact (getStatus_within_limits narrowConfig narrowFull H0
           narrowFull_reachable).
Defined.

Lemma every_job_accounted_for_witness :
  reachable narrowConfig narrowFull
  ∧ N.to_nat (jobCounter narrowFull) = length (heap narrowFull).
Proof.
  split; [exact narrowFull_reachable|].
  exact (proj1 (every_job_accounted_for narrowConfig narrowFull
                  narrowFull_reachable)).
Defined.

Lemma queued_job_untouched_witness :
  reachable narrowConfig narrowFull
  ∧ 1%nat ∈ queue narrowFull
  ∧ ∃ j p len, heap narrowFull !! 1%nat = Some j
      ∧ effectsOf 1 narrowFull = [Emit 1%nat (jobAdded (id j) p len)]
      ∧ attemptsCalled (effectsOf 1 narrowFull) = []
      ∧ settlementsOf 1 narrowFull = [].
Proof.
  assert (H0 : 1%nat ∈ queue narrowFull).
  { change (queue narrowFull) with [1%nat]. apply list_elem_of_singleton.
    reflexivity. }
  split_and!; [exact narrowFull_reachable|exact H0|].
  exact (queued_job_untouched narrowConfig narrowFull 1
           narrowFull_reachable H0).
Defined.

Lemma enqueue_starts_or_waits_witness :
  reachable DEFAULT_CONFIG (@initial nat nat)
  ∧ Z.of_nat (length (queue (@initial nat nat))) < maxQueueSize DEFAULT_CONFIG
  ∧ (enqueue DEFAULT_CONFIG 7%nat 1000%N (@initial nat nat)).1 = inr 0%nat.
Proof.
  assert (H0 : Z.of_nat (length (queue (@initial nat nat)))
               < maxQueueSize DEFAULT_CONFIG) by (simpl; lia).
  split_and!; [exact (reachable_initial DEFAULT_CONFIG)|exact H0|].
  exact (proj1 (enqueue_starts_or_waits DEFAULT_CONFIG (@initial nat nat)
                  7%nat 1000%N (reachable_initial DEFAULT_CONFIG) H0)).
Defined.

Lemma job_fields_by_status_witness :
  reachable DEFAULT_CONFIG oneSubmitted
  ∧ heap oneSubmitted !! 0%nat = Some firstJob
  ∧ is_Some (startedAt firstJob) ∧ completedAt firstJob = None
  ∧ result firstJob = None ∧ error firstJob = None.
Proof.
  split_and!; [exact oneSubmitted_reachable|exact oneSubmitted_heap|..];
    apply (job_fields_by_status DEFAULT_CONFIG oneSubmitted 0 firstJob
             oneSubmitted_reachable oneSubmitted_heap).
Defined.

Lemma timestamps_ordered_witness :
  chronological 0 [(1000%N, @Submit nat nat 7%nat)]
  ∧ heap oneSubmitted !! 0%nat = Some firstJob
  ∧ (∀ st, startedAt firstJob = Some st → (createdAt firstJob ≤ st)%N).
Proof.
  assert (H0 : chronological 0 [(1000%N, @Submit nat nat 7%nat)])
    by (split; [lia|exact I]).
  split_and!; [exact H0|exact oneSubmitted_heap|].
  exact (proj1 (timestamps_ordered DEFAULT_CONFIG
                  [(1000%N, Submit 7%nat)] 0 firstJob H0 oneSubmitted_heap)).
Defined.

Section LoginExamples.
Import SECURITY_CONFIG Login.

Lemma login_refused_only_while_locked_witness :
  reachable ∅
  ∧ ∃ r, (canAttemptLogin "10.0.0.1" 5%N ∅).1 =
         {| Verdict.allowed := true; Verdict.remainingAttempts := Some r;
            Verdict.lockedUntil := None |}
         ∧ 1 ≤ r ≤ login_maxAttempts.
Proof.
  split; [exact reachable_empty|].
  apply (login_refused_only_while_locked ∅ "10.0.0.1" 5%N reachable_empty).
  intros a l Ha. rewrite lookup_empty in Ha. discriminate.
Defined.

Lemma fifth_failure_locks_witness :
  (∅ : gmap string LoginAttempt) !! "10.0.0.1" = None
  ∧ Forall (λ t, Z.of_N t - Z.of_N 0 ≤ login_attemptWindowMs) [1; 2; 3]%N
  ∧ (recordLoginFailure "10.0.0.1" 4%N
       (loginFailures "10.0.0.1" [0; 1; 2; 3]%N ∅)).1
    = {| Outcome.locked := true;
         Outcome.lockedUntil := Some (4 + login_lockoutDurationMs) |}.
Proof.
  assert (H0 : (∅ : gmap string LoginAttempt) !! "10.0.0.1" = None)
    by apply lookup_empty.
  assert (H1 : Forall (λ t, Z.of_N t - Z.of_N 0 ≤ login_attemptWindowMs)
                 [1; 2; 3]%N).
  { repeat constructor; unfold login_attemptWindowMs; lia. }
  split_and!; [exact H0|exact H1|].
  assert (H4 : Z.of_N 4 - Z.of_N 0 ≤ login_attemptWindowMs)
    by (unfold login_attemptWindowMs; lia).
  exact (proj1 (proj2 (fifth_failure_locks ∅ "10.0.0.1" 0%N [1; 2; 3]%N
                         H0 H1) eq_refl 4%N H4)).
Defined.

Lemma login_addresses_independent_witness :
  loginCallAddress (RecordLoginFailure "10.0.0.1") = Some "10.0.0.1"
  ∧ "10.0.0.1" ≠ "10.0.0.2"
  ∧ (canAttemptLogin "10.0.0.2" 9%N
       (call 5%N (RecordLoginFailure "10.0.0.1") ∅)).1
    = (canAttemptLogin "10.0.0.2" 9%N ∅).1.
Proof.
  assert (H0 : "10.0.0.1" ≠ "10.0.0.2") by discriminate.
  split_and!; [reflexivity|exact H0|].
  exact (proj1 (login_addresses_independent ∅ (RecordLoginFailure "10.0.0.1")
                  "10.0.0.1" "10.0.0.2" 5%N 9%N eq_refl H0)).
Defined.

Lemma login_cleanup_unobservable_witness :
  reachable ∅ ∧ (1 ≤ 2)%N
  ∧ (canAttemptLogin "10.0.0.1" 2%N
       (cleanupExpiredData 1%N (∅, ∅, ∅)).1.1).1
    = (canAttemptLogin "10.0.0.1" 2%N ∅).1.
Proof.
  assert (H0 : (1 ≤ 2)%N) by lia.
  split_and!; [exact reachable_empty|exact H0|].
  exact (login_cleanup_unobservable ∅ (∅, ∅) "10.0.0.1" 1%N 2%N
           reachable_empty H0).
Defined.

End LoginExamples.

Section SessionExamples.
Import SECURITY_CONFIG Session.

Lemma accepted_check_renews_session_witness :
  (isSessionValid "token" 5%N ∅).1 = true
  ∧ getSessionRemainingTime "token" 5%N (isSessionValid "token" 5%N ∅).2
    = session_timeoutMs.
Proof.
  assert (H0 : (isSessionValid "token" 5%N ∅).1 = true) by reflexivity.
  split; [exact H0|].
  exact (proj1 (accepted_check_renews_session ∅ "token" 5%N 5%N H0)).
Defined.

End SessionExamples.

Section QuotaExamples.
Import SECURITY_CONFIG Quota.

Lemma canProcess_allows_what_fits_witness :
  1 ≤ 3
  ∧ (Verdict.allowed (canProcess "session" 3 10%N ∅).1 = true ↔
     3 ≤ Remaining.hourlyRemaining
           (getRemainingProcessingCount "session" 10%N ∅)
     ∧ 3 ≤ Remaining.dailyRemaining
             (getRemainingProcessingCount "session" 10%N ∅)).
Proof.
  assert (H0 : 1 ≤ 3) by lia.
  split; [exact H0|].
  exact (proj1 (canProcess_allows_what_fits ∅ "session" 3 10%N H0)).
Defined.

Lemma check_does_not_consume_witness :
  (10 ≤ 20)%N
  ∧ getRemainingProcessingCount "session" 20%N
      (canProcess "session" 3 10%N ∅).2
    = getRemainingProcessingCount "session" 20%N ∅.
Proof.
  assert (H0 : (10 ≤ 20)%N) by lia.
  split; [exact H0|].
  exact (check_does_not_consume ∅ "session" 3 10%N "session" 20%N H0).
Defined.

Lemma recording_consumes_witness :
  0 ≤ 3
  ∧ getRemainingProcessingCount "session" 10%N
      (recordProcessing "session" 3 10%N ∅)
    = {| Remaining.hourlyRemaining := 27;
         Remaining.dailyRemaining := 97;
         Remaining.maxPerHour := processing_maxPerHour;
         Remaining.maxPerDay := processing_maxPerDay |}.
Proof.
  assert (H0 : 0 ≤ 3) by lia.
  split; [exact H0|].
  exact (proj1 (recording_consumes ∅ "session" 3 10%N H0)).
Defined.

Lemma allowed_then_recorded_within_limits_witness :
  Verdict.allowed (canProcess "session" 3 10%N ∅).1 = true
  ∧ ∃ record,
      recordProcessing "session" 3 10%N (canProcess "session" 3 10%N ∅).2
        !! "session" = Some record
      ∧ count (hourly record) ≤ processing_maxPerHour
      ∧ count (daily record) ≤ processing_maxPerDay.
Proof.
  assert (H0 : Verdict.allowed (canProcess "session" 3 10%N ∅).1 = true)
    by reflexivity.
  split; [exact H0|].
  exact (allowed_then_recorded_within_limits ∅ "session" 3 10%N H0).
Defined.

Lemma quota_cleanup_unobservable_witness :
  ascending 0 [(1%N, RecordProcessing "session" 3)]
  ∧ (lastTime 0 [(1%N, RecordProcessing "session" 3)] ≤ 200000000)%N
  ∧ (200000000 ≤ 200000001)%N
  ∧ getRemainingProcessingCount "session" 200000001%N
      (cleanupExpiredData 200000000%N
         (∅, ∅, run [(1%N, RecordProcessing "session" 3)] ∅)).2
    = getRemainingProcessingCount "session" 200000001%N
        (run [(1%N, RecordProcessing "session" 3)] ∅).
Proof.
  assert (H0 : ascending 0 [(1%N, RecordProcessing "session" 3)])
    by (split; [lia|exact I]).
  assert (H1 : (lastTime 0 [(1%N, RecordProcessing "session" 3)]
                ≤ 200000000)%N) by (unfold lastTime; simpl; lia).
  assert (H2 : (200000000 ≤ 200000001)%N) by lia.
  split_and!; [exact H0|exact H1|exact H2|].
  exact (proj1 (quota_cleanup_unobservable
                  [(1%N, RecordProcessing "session" 3)] (∅, ∅)
                  "session" 1 200000000%N 200000001%N H0 H1 H2)).
Defined.

End QuotaExamples.

Section ProcessorExamples.
Import NanoBanana.

Lemma processor_failures_and_backoff_witness :
  (processImages
     {| prompt := "resize"; imageUrls := ["https://example.com/a.png"];
        aspectRatio := Some "16:10"; resolution := None;
        outputFormat := None; numImages := None |}
     (λ _, inr {| message := "Too Many Requests"; status := Some 429 |})).2
  = inr (newError rateLimitMessage)
  ∧ backoffDelay imageProcessingConfig 1 (message (newError rateLimitMessage))
    = retryDelay imageProcessingConfig * 1 * 2.
Proof.
  set (input := {| prompt := "resize";
                   imageUrls := ["https://example.com/a.png"];
                   aspectRatio := Some "16:10"; resolution := None;
                   outputFormat := None; numImages := None |}).
  set (subscribe := λ _ : Request,
         @inr ApiData Thrown
           {| message := "Too Many Requests"; status := Some 429 |}).
  assert (H0 : (processImages input subscribe).2
               = inr (newError rateLimitMessage)) by reflexivity.
  split; [exact H0|].
  apply (proj1 (processor_failures_and_backoff imageProcessingConfig input
                  subscribe (newError rateLimitMessage) 1 H0)).
  exists {| message := "Too Many Requests"; status := Some 429 |}.
  split.
  - eexists. split; reflexivity.
  - split_and!; [reflexivity..|]. left. reflexivity.
Defined.

End ProcessorExamples.

Lemma processor_calls_within_budget_witness :
  reachable DEFAULT_CONFIG oneSubmitted
  ∧ CallProcessor 0%nat 7%nat 1 ∈ effects oneSubmitted
  ∧ 1 ≤ 1 ≤ retryAttempts DEFAULT_CONFIG.
Proof.
  assert (H0 : CallProcessor 0%nat 7%nat 1 ∈ effects oneSubmitted).
  { apply list_elem_of_In. right. right. left. reflexivity. }
  split_and!; [exact oneSubmitted_reachable|exact H0|..];
    apply (processor_calls_within_budget DEFAULT_CONFIG oneSubmitted 0
             7%nat 1 oneSubmitted_reachable H0).
Defined.

Lemma events_name_their_job_witness :
  reachable DEFAULT_CONFIG oneSubmitted
  ∧ Emit 0%nat (jobAdded "job-1000-1" 1 1) ∈ effects oneSubmitted
  ∧ ∃ j, heap oneSubmitted !! 0%nat = Some j
      ∧ eventId (jobAdded (R:=nat) "job-1000-1" 1 1) = id j.
Proof.
  assert (H0 : Emit 0%nat (jobAdded "job-1000-1" 1 1) ∈ effects oneSubmitted).
  { apply list_elem_of_In. left. reflexivity. }
  split_and!; [exact oneSubmitted_reachable|exact H0|].
  exact (proj1 (events_name_their_job DEFAULT_CONFIG oneSubmitted 0
                  (jobAdded "job-1000-1" 1 1) oneSubmitted_reachable H0)).
Defined.

